(** * A shallow embedding of the Merkle-Patricia trie of [packages/trie]

    The development follows [packages/trie/src/trie/trie.ts]: the [Trie]
    class becomes a record of its fields, its methods become state
    transformers over that record, and the collaborators the class only
    consumes (the byte store, the hash function, the RLP codec, the node
    classes) are given as interfaces or as small executable models. *)

From Stdlib Require Import NArith ZArith Lia.
From Stdlib Require Import Strings.Byte Strings.Ascii Strings.String.
From stdpp Require Import base option list gmap countable.

Set Default Proof Using "Type".
Set Warnings "-register-all".
Local Open Scope N_scope.

(** ** Byte strings *)

Abbreviation byte := Byte.byte.
Abbreviation bytes := (list Byte.byte).

(** A [Buffer] write keeps the low eight bits of the number written. *)
Definition byte_of_N (n : N) : byte :=
  match Byte.of_N (n mod 256) with
  | Some b => b
  | None => Byte.x00
  end.

Definition byte_of_nat (n : nat) : byte := byte_of_N (N.of_nat n).

Lemma byte_of_to_N (b : byte) : byte_of_N (Byte.to_N b) = b.
Proof.
  unfold byte_of_N. pose proof (Byte.to_N_bounded b) as Hb.
  rewrite N.mod_small by lia. by rewrite Byte.of_to_N.
Qed.

Lemma byte_to_of_N (n : N) : n < 256 -> Byte.to_N (byte_of_N n) = n.
Proof.
  intros Hn. unfold byte_of_N. rewrite N.mod_small by lia.
  destruct (Byte.of_N n) as [b|] eqn:E.
  - by apply Byte.to_of_N.
  - apply Byte.of_N_None_iff in E. lia.
Qed.

#[global] Instance byte_eq_dec : EqDecision byte := Byte.byte_eq_dec.

#[global] Program Instance byte_countable : Countable byte :=
  inj_countable Byte.to_N Byte.of_N _.
Next Obligation. intros b. apply Byte.of_to_N. Qed.

(** ** Keccak-256, the default [useHashedKeysFunction]

    The sponge over Keccak-f[1600] with rate 136 and the original
    [0x01] padding, on 64-bit lanes kept in [N]. *)
Module Keccak.

Definition lane_mask : N := 0xFFFFFFFFFFFFFFFF.

Definition rotl (x : N) (n : N) : N :=
  N.land (N.lor (N.shiftl x n) (N.shiftr x (64 - n))) lane_mask.

Definition lane_not (x : N) : N := N.lxor x lane_mask.

Definition round_constants : list N :=
  [ 0x0000000000000001; 0x0000000000008082; 0x800000000000808A;
    0x8000000080008000; 0x000000000000808B; 0x0000000080000001;
    0x8000000080008081; 0x8000000000008009; 0x000000000000008A;
    0x0000000000000088; 0x0000000080008009; 0x000000008000000A;
    0x000000008000808B; 0x800000000000008B; 0x8000000000008089;
    0x8000000000008003; 0x8000000000008002; 0x8000000000000080;
    0x000000000000800A; 0x800000008000000A; 0x8000000080008081;
    0x8000000000008080; 0x0000000080000001; 0x8000000080008008 ].

(** Rotation offsets, lane [(x, y)] at position [x + 5 * y]. *)
Definition rotation_offsets : list N :=
  [  0;  1; 62; 28; 27;
    36; 44;  6; 55; 20;
     3; 10; 43; 25; 39;
    41; 45; 15; 21;  8;
    18;  2; 61; 56; 14 ].

Definition lane (st : list N) (x y : nat) : N :=
  nth ((x mod 5) + 5 * (y mod 5))%nat st 0.

Definition coords : list (nat * nat) :=
  y ← seq 0 5; x ← seq 0 5; [(x, y)].

Definition theta (st : list N) : list N :=
  let c x := fold_right N.lxor 0 (map (lane st x) (seq 0 5)) in
  let d x := N.lxor (c (x + 4)%nat) (rotl (c (x + 1)%nat) 1) in
  map (fun '(x, y) => N.lxor (lane st x y) (d x)) coords.

(** rho and pi together: the lane written at [(x, y)] comes from
    [(x + 3 * y, x)]. *)
Definition rho_pi (st : list N) : list N :=
  map (fun '(x, y) =>
         let sx := ((x + 3 * y) mod 5)%nat in
         let sy := x in
         rotl (lane st sx sy) (nth (sx + 5 * sy)%nat rotation_offsets 0))
      coords.

Definition chi (st : list N) : list N :=
  map (fun '(x, y) =>
         N.lxor (lane st x y)
                (N.land (lane_not (lane st (x + 1) y)) (lane st (x + 2) y)))
      coords.

Definition iota (rc : N) (st : list N) : list N :=
  match st with
  | [] => []
  | a :: rest => N.lxor a rc :: rest
  end.

Definition round (st : list N) (rc : N) : list N :=
  iota rc (chi (rho_pi (theta st))).

Definition keccak_f (st : list N) : list N :=
  fold_left round round_constants st.

Definition rate : nat := 136.

(** Little-endian lane of up to eight bytes. *)
Fixpoint lane_of_bytes (bs : list N) : N :=
  match bs with
  | [] => 0
  | b :: rest => b + 256 * lane_of_bytes rest
  end.

Fixpoint bytes_of_lane (n : nat) (l : N) : list N :=
  match n with
  | O => []
  | S n' => l mod 256 :: bytes_of_lane n' (l / 256)
  end.

Fixpoint lanes_of_block (n : nat) (bs : list N) : list N :=
  match n with
  | O => []
  | S n' => lane_of_bytes (take 8 bs) :: lanes_of_block n' (drop 8 bs)
  end.

Fixpoint xor_lanes (st blk : list N) : list N :=
  match st, blk with
  | s :: st', b :: blk' => N.lxor s b :: xor_lanes st' blk'
  | _, _ => st
  end.

(** Multi-rate padding with the Keccak domain byte [0x01]. *)
Definition pad (msg : list N) : list N :=
  let r := (rate - length msg mod rate)%nat in
  match r with
  | 1%nat => msg ++ [0x81]
  | _ => msg ++ [0x01] ++ repeat 0 (r - 2) ++ [0x80]
  end.

Fixpoint absorb (blocks : nat) (st : list N) (msg : list N) : list N :=
  match blocks with
  | O => st
  | S n =>
      let blk := lanes_of_block 17 (take rate msg) in
      absorb n (keccak_f (xor_lanes st blk)) (drop rate msg)
  end.

Definition keccak256 (msg : bytes) : bytes :=
  let padded := pad (map Byte.to_N msg) in
  let st := absorb (length padded / rate) (repeat 0 25) padded in
  map byte_of_N (flat_map (bytes_of_lane 8) (take 4 st)).

End Keccak.

(** ** Failures and promises

    Every [throw new Error(...)] of the trie is one constructor; the messages
    are the ones the source compares or prints. *)
Inductive error :=
| InvalidRootLength      (* 'Invalid root length. Roots are n bytes' *)
| ReservedKey            (* "Attempted to set '__root__' key but it is not allowed." *)
| PathNotFound           (* 'Path not found' *)
| MissingNode            (* 'Missing node in DB' *)
| StackUnderflow         (* 'Stack underflow' *)
| MissingLastNode        (* 'missing last node' *)
| ExpectedBranchNode     (* 'Expected branch node' *)
| InvalidBatchOp         (* 'Invalid batch db operation' *)
| InvalidProofNodes      (* 'Invalid proof nodes given' *)
| InvalidProof           (* 'Invalid proof provided' *)
| InvalidNode            (* 'Invalid node' *)
| InvalidRLP.            (* any failure of the RLP decoder *)

#[global] Instance error_eq_dec : EqDecision error.
Proof. solve_decision. Defined.

(** The settlement of a promise: resolved, rejected, never settled because
    the caller waits for the semaphore, or cut off by the bound put on the
    walk. *)
Inductive outcome (A : Type) :=
| Ret (a : A)
| Throw (e : error)
| Blocked
| OutOfFuel.
Arguments Ret {A} a.
Arguments Throw {A} e.
Arguments Blocked {A}.
Arguments OutOfFuel {A}.

Definition outcome_bind {A B} (o : outcome A) (k : A -> outcome B) : outcome B :=
  match o with
  | Ret a => k a
  | Throw e => Throw e
  | Blocked => Blocked
  | OutOfFuel => OutOfFuel
  end.

Definition of_option {A} (e : error) (o : option A) : outcome A :=
  match o with
  | Some a => Ret a
  | None => Throw e
  end.

(** ** RLP *)

(** Modelled from the spec: the codec is an external collaborator ("a
    recursive-length-prefix (RLP) codec with encodings for byte strings and
    for lists of byte strings / nested lists"); its package is not among the
    sources. The encoder is the standard one and the decoder accepts exactly
    the canonical encodings. *)
Module RLP.

Inductive item :=
| Str (b : bytes)
| Lst (l : list item).

(** The big-endian digits of a length, most significant first, without
    leading zeros; at most eight of them. *)
Fixpoint be_digits (fuel : nat) (n : N) (acc : bytes) : bytes :=
  match fuel with
  | O => acc
  | S fuel' =>
      if n =? 0 then acc
      else be_digits fuel' (n / 256) (byte_of_N (n mod 256) :: acc)
  end.

Definition be_bytes (n : N) : bytes := be_digits 8 n [].

Definition encodeLength (len : nat) (offset : N) : bytes :=
  if (len <? 56)%nat then [byte_of_N (N.of_nat len + offset)]
  else
    let digits := be_bytes (N.of_nat len) in
    byte_of_N (offset + 55 + N.of_nat (length digits)) :: digits.

Fixpoint encode (i : item) : bytes :=
  match i with
  | Str b =>
      match b with
      | [x] => if Byte.to_N x <? 128 then [x] else encodeLength 1 128 ++ b
      | _ => encodeLength (length b) 128 ++ b
      end
  | Lst l =>
      let body := concat (map encode l) in
      encodeLength (length body) 192 ++ body
  end.

Fixpoint be_value (bs : bytes) (acc : N) : N :=
  match bs with
  | [] => acc
  | b :: rest => be_value rest (acc * 256 + Byte.to_N b)
  end.

(** [decodeLength]: no leading zero byte. *)
Definition decodeLength (bs : bytes) : option nat :=
  match bs with
  | [] => None
  | b :: _ => if Byte.to_N b =? 0 then None else Some (N.to_nat (be_value bs 0))
  end.

(** [safeSlice]: the first [n] bytes, if there are that many. *)
Definition split_at (n : nat) (bs : bytes) : option (bytes * bytes) :=
  if (n <=? length bs)%nat then Some (take n bs, drop n bs) else None.

(** The [while (innerRemainder.length)] loop over the payload of a list. *)
Fixpoint decode_seq (dec : bytes -> option (item * bytes)) (n : nat)
    (input : bytes) : option (list item) :=
  match input with
  | [] => Some []
  | _ =>
      match n with
      | O => None
      | S n' =>
          '(d, rest) ← dec input;
          ds ← decode_seq dec n' rest;
          Some (d :: ds)
      end
  end.

Fixpoint _decode (fuel : nat) (input : bytes) : option (item * bytes) :=
  match fuel with
  | O => None
  | S fuel' =>
      match input with
      | [] => None
      | first :: rest =>
          let fb := Byte.to_N first in
          if fb <=? 0x7f then Some (Str [first], rest)
          else if fb <=? 0xb7 then
            '(data, rem) ← split_at (N.to_nat (fb - 0x80)) rest;
            match data with
            | [x] => if Byte.to_N x <? 0x80 then None else Some (Str data, rem)
            | _ => Some (Str data, rem)
            end
          else if fb <=? 0xbf then
            '(lbytes, rest') ← split_at (N.to_nat (fb - 0xb7)) rest;
            len ← decodeLength lbytes;
            if (len <=? 55)%nat then None
            else '(data, rem) ← split_at len rest'; Some (Str data, rem)
          else if fb <=? 0xf7 then
            '(inner, rem) ← split_at (N.to_nat (fb - 0xc0)) rest;
            ds ← decode_seq (_decode fuel') (length inner) inner;
            Some (Lst ds, rem)
          else
            '(lbytes, rest') ← split_at (N.to_nat (fb - 0xf7)) rest;
            len ← decodeLength lbytes;
            if (len <? 56)%nat then None
            else
              '(inner, rem) ← split_at len rest';
              ds ← decode_seq (_decode fuel') (length inner) inner;
              Some (Lst ds, rem)
      end
  end.

(** [RLP.decode]: the empty input decodes to the empty byte string, and
    nothing may follow the item. *)
Definition decode (input : bytes) : option item :=
  match input with
  | [] => Some (Str [])
  | _ =>
      '(d, rem) ← _decode (length input) input;
      match rem with
      | [] => Some d
      | _ => None
      end
  end.

(** [RLP_EMPTY_STRING], the encoding of the empty byte string. *)
Definition RLP_EMPTY_STRING : bytes := [Byte.x80].

End RLP.

Export RLP(item, Str, Lst).

(** ** Nibbles *)

(** Modelled from the spec: [util/nibbles] and [util/hex] are not among the
    sources; section 4.1 names the operations ("Byte↔nibble conversion,
    common-prefix length, Hex-Prefix (HP) encoding") and section 3 fixes the
    encoding. A nibble is a number below sixteen. *)
Abbreviation Nibbles := (list nat).

Module Nibbles.


Fixpoint bufferToNibbles (key : bytes) : Nibbles :=
  match key with
  | [] => []
  | b :: rest =>
      let n := N.to_nat (Byte.to_N b) in
      (n / 16)%nat :: (n mod 16)%nat :: bufferToNibbles rest
  end.

(** Two nibbles per byte, high then low. *)
Fixpoint nibblesToBuffer (arr : Nibbles) : bytes :=
  match arr with
  | hi :: lo :: rest => byte_of_nat (hi * 16 + lo) :: nibblesToBuffer rest
  | _ => []
  end.

(** The length of the longest common prefix. *)
Fixpoint matchingNibbleLength (nib1 nib2 : Nibbles) : nat :=
  match nib1, nib2 with
  | a :: nib1', b :: nib2' =>
      if (a =? b)%nat then S (matchingNibbleLength nib1' nib2') else O
  | _, _ => O
  end.

Definition doKeysMatch (keyA keyB : Nibbles) : bool :=
  let len := matchingNibbleLength keyA keyB in
  (len =? length keyA)%nat && (len =? length keyB)%nat.

(** [flag = (terminator ? 2 : 0) | (odd ? 1 : 0)]; an even key gets a
    zero nibble after the flag. *)
Definition addHexPrefix (key : Nibbles) (terminator : bool) : Nibbles :=
  let t := if terminator then 2%nat else 0%nat in
  if Nat.odd (length key) then (1 + t)%nat :: key
  else t :: 0%nat :: key.

Definition removeHexPrefix (val : Nibbles) : Nibbles :=
  match val with
  | flag :: _ => if Nat.odd flag then drop 1 val else drop 2 val
  | [] => []
  end.

Definition isTerminator (key : Nibbles) : bool :=
  match key with
  | flag :: _ => (1 <? flag)%nat
  | [] => false
  end.

End Nibbles.
Import Nibbles.

(** ** Nodes *)

(** Modelled from the spec: [trie/node.ts] is not among the sources. Section
    3 gives the three variants and their canonical serialization, section
    4.2 the decoders and [is_raw_ref]. The accessors named below are the
    ones [trie.ts] calls.

    A reference to a child ([EmbeddedNode]) is an RLP item: a byte string
    when it is a hash, a list when the child is embedded raw. The source's
    [null] (an unused child slot, an absent branch value) and the empty
    byte string serialize alike and are read alike by every accessor, so
    both are the empty byte string here. *)
Module Node.

Inductive TrieNode :=
| BranchNode (_branches : list item) (_value : bytes)
| ExtensionNode (_nibbles : Nibbles) (_value : item)
| LeafNode (_nibbles : Nibbles) (_value : bytes).

Definition null : item := Str [].

(** [new BranchNode()]: sixteen unused slots and no value. *)
Definition BranchNode_new : TrieNode := BranchNode (replicate 16 null) [].

(** A slot counts as used when its content has positive length. *)
Definition is_empty_ref (b : item) : bool :=
  match b with
  | Str [] | Lst [] => true
  | _ => false
  end.

Definition getBranch (branches : list item) (i : nat) : option item :=
  match branches !! i with
  | Some b => if is_empty_ref b then None else Some b
  | None => None
  end.

Definition setBranch (branches : list item) (i : nat) (v : item) : list item :=
  <[ i := v ]> branches.

(** [getChildren]: the used child slots with their indices, in ascending
    order; the branch's own value is not a child. *)
Definition getChildren (branches : list item) : list (nat * item) :=
  filter (fun p => is_empty_ref p.2 = false) (imap (fun i b => (i, b)) branches).

(** The [value] getter of a branch: [null] when empty. *)
Definition branch_value (v : bytes) : option bytes :=
  match v with
  | [] => None
  | _ => Some v
  end.

(** The [key] getter of a leaf or an extension (a copy of the nibbles). *)
Definition key (n : TrieNode) : Nibbles :=
  match n with
  | BranchNode _ _ => []
  | ExtensionNode k _ => k
  | LeafNode k _ => k
  end.

Definition set_key (n : TrieNode) (k : Nibbles) : TrieNode :=
  match n with
  | BranchNode b v => BranchNode b v
  | ExtensionNode _ v => ExtensionNode k v
  | LeafNode _ v => LeafNode k v
  end.

Definition encodedKey (k : Nibbles) (terminator : bool) : bytes :=
  nibblesToBuffer (addHexPrefix k terminator).

Definition raw (n : TrieNode) : item :=
  match n with
  | BranchNode branches v => Lst (branches ++ [Str v])
  | ExtensionNode k v => Lst [Str (encodedKey k false); v]
  | LeafNode k v => Lst [Str (encodedKey k true); Str v]
  end.

Definition serialize (n : TrieNode) : bytes := RLP.encode (raw n).

Definition as_buffer (i : item) : option bytes :=
  match i with
  | Str b => Some b
  | Lst _ => None
  end.

(** [decodeRawNode]: seventeen items make a branch, two items a leaf or
    an extension according to the terminator flag of the key. A value
    that is not a byte string is rejected. *)
Definition decodeRawNode (raw : list item) : outcome TrieNode :=
  if (length raw =? 17)%nat then
    match as_buffer (nth 16 raw null) with
    | Some v => Ret (BranchNode (take 16 raw) v)
    | None => Throw InvalidNode
    end
  else
    match raw with
    | [Str k; v] =>
        let nibbles := bufferToNibbles k in
        if isTerminator nibbles then
          match as_buffer v with
          | Some value => Ret (LeafNode (removeHexPrefix nibbles) value)
          | None => Throw InvalidNode
          end
        else Ret (ExtensionNode (removeHexPrefix nibbles) v)
    | _ => Throw InvalidNode
    end.

Definition decodeNode (raw : bytes) : outcome TrieNode :=
  match RLP.decode raw with
  | Some (Lst des) => decodeRawNode des
  | Some (Str _) => Throw InvalidNode
  | None => Throw InvalidRLP
  end.

Definition isRawNode (n : item) : bool :=
  match n with
  | Lst _ => true
  | Str _ => false
  end.

End Node.
Export Node(TrieNode, BranchNode, ExtensionNode, LeafNode).
Import Node.

(** ** The byte store

    The [DB] interface of [types.ts], with the operations the trie calls. *)
Inductive BatchDBOp :=
| PutBatch (key value : bytes)
| DelBatch (key : bytes).

Class DB (D : Type) := {
  db_get : D -> bytes -> option bytes;
  db_put : bytes -> bytes -> D -> D;
  db_del : bytes -> D -> D;
  db_batch : list BatchDBOp -> D -> D;
  db_copy : D -> D;
}.

(** Modelled from the spec: [db.ts] is not among the sources; "a default
    in-memory map implementation satisfies the contract". A batch applies
    its operations in order. *)
Abbreviation MapDB := (gmap bytes bytes).

Definition MapDB_op (op : BatchDBOp) (m : MapDB) : MapDB :=
  match op with
  | PutBatch k v => <[ k := v ]> m
  | DelBatch k => delete k m
  end.

#[global] Instance MapDB_DB : DB MapDB := {
  db_get m k := m !! k;
  db_put k v m := <[ k := v ]> m;
  db_del k m := delete k m;
  db_batch ops m := fold_left (fun m op => MapDB_op op m) ops m;
  db_copy m := m;
}.

(** [ROOT_DB_KEY] of [types.ts]: the bytes of ['__root__']. *)
Definition ROOT_DB_KEY : bytes := String.list_byte_of_string "__root__".

(** ** The trie *)

(** The fields of the class. [EMPTY_TRIE_ROOT] and [_hashLen] are fixed by
    the hash function at construction and never assigned again; they are the
    definitions [EMPTY_TRIE_ROOT] and [_hashLen] below.

    [rootIsEmptyObject] records that [_root] holds the very buffer
    [EMPTY_TRIE_ROOT] rather than a buffer with the same bytes: [fromProof]
    compares the two with [===]. [lock] counts the free permits of the
    semaphore. *)
Record Trie (D : Type) := mkTrie {
  db : D;
  _root : bytes;
  rootIsEmptyObject : bool;
  _deleteFromDB : bool;
  _useHashedKeys : bool;
  _persistRoot : bool;
  lock : nat;
}.
Arguments mkTrie {D}.
Arguments db {D}.
Arguments _root {D}.
Arguments rootIsEmptyObject {D}.
Arguments _deleteFromDB {D}.
Arguments _useHashedKeys {D}.
Arguments _persistRoot {D}.
Arguments lock {D}.

Definition with_db {D} (d : D) (t : Trie D) : Trie D :=
  mkTrie d (_root t) (rootIsEmptyObject t) (_deleteFromDB t) (_useHashedKeys t)
         (_persistRoot t) (lock t).

Definition with_root {D} (r : bytes) (isEmptyObject : bool) (t : Trie D) : Trie D :=
  mkTrie (db t) r isEmptyObject (_deleteFromDB t) (_useHashedKeys t)
         (_persistRoot t) (lock t).

Definition with_lock {D} (n : nat) (t : Trie D) : Trie D :=
  mkTrie (db t) (_root t) (rootIsEmptyObject t) (_deleteFromDB t)
         (_useHashedKeys t) (_persistRoot t) n.

(** An asynchronous method: it runs on the trie and leaves a trie, whatever
    way its promise settles. *)
Definition M (D A : Type) : Type := Trie D -> outcome A * Trie D.

Definition ret {D A} (a : A) : M D A := fun t => (Ret a, t).
Definition throw {D A} (e : error) : M D A := fun t => (Throw e, t).
Definition lift {D A} (o : outcome A) : M D A := fun t => (o, t).

Definition bind {D A B} (m : M D A) (k : A -> M D B) : M D B :=
  fun t =>
    match m t with
    | (Ret a, t') => k a t'
    | (Throw e, t') => (Throw e, t')
    | (Blocked, t') => (Blocked, t')
    | (OutOfFuel, t') => (OutOfFuel, t')
    end.

Declare Scope trie_scope.
Delimit Scope trie_scope with trie.
Notation "x <- m ;; k" := (bind m (fun x => k))
  (at level 100, m at next level, right associativity) : trie_scope.
Notation "m ;; k" := (bind m (fun _ => k))
  (at level 100, right associativity) : trie_scope.
Local Open Scope trie_scope.

(** The result of [findPath]. *)
Record Path := mkPath {
  node : option TrieNode;
  remaining : Nibbles;
  stack : list TrieNode;
}.

(** An operation of [Trie.batch]. The value of a put may be absent
    ([null], [undefined]): the method tests it with [isFalsy]. *)
Inductive TrieOp :=
| OpPut (key : bytes) (value : option bytes)
| OpDel (key : bytes).

(** Modelled from the spec: [isFalsy] and [isTruthy] of the util package are
    not among the sources and the spec does not describe them. [trie.ts]
    applies them to node objects and array elements as null tests, and [put]
    tests emptiness separately ([isFalsy(value) || value.toString() === '']):
    they are JavaScript falsiness, under which a buffer, empty or not, is an
    object and never falsy. An optional buffer is falsy when absent. *)
Definition isFalsy {A} (value : option A) : bool :=
  match value with
  | None => true
  | Some _ => false
  end.

Definition isTruthy {A} (value : option A) : bool := negb (isFalsy value).

(** [stack.pop()]: the last element, if any, and the rest. *)
Definition pop {A} (l : list A) : option (list A * A) :=
  match reverse l with
  | [] => None
  | x :: r => Some (reverse r, x)
  end.

(** [key.splice(key.length - n)]: drop the last [n] elements; a negative
    start counts from the end of the array. *)
Definition splice_tail (key : Nibbles) (n : nat) : Nibbles :=
  if (n <=? length key)%nat then take (length key - n) key
  else take (length key - (n - length key)) key.

Section Trie.
Context {D : Type} `{!DB D}.

(** [_useHashedKeysFunction] *)
Variable hashfn : bytes -> bytes.

Definition hash (msg : bytes) : bytes := hashfn msg.

Definition EMPTY_TRIE_ROOT : bytes := hash RLP.RLP_EMPTY_STRING.

Definition _hashLen : nat := length EMPTY_TRIE_ROOT.

(** [set root(value)] *)
Definition set_root (value : option bytes) : M D unit :=
  fun t =>
    let v := match value with
             | Some v => v
             | None => EMPTY_TRIE_ROOT
             end in
    if decide (length v = _hashLen)
    then (Ret tt, with_root v (isFalsy value) t)
    else (Throw InvalidRootLength, t).

(** [get root()] *)
Definition root (t : Trie D) : bytes := _root t.

(** [new Trie(opts)], the store given explicitly. *)
Definition Trie_new (store : D) (opt_root : option bytes)
    (deleteFromDB useHashedKeys persistRoot : bool) : outcome (Trie D) :=
  let t := mkTrie store EMPTY_TRIE_ROOT true deleteFromDB useHashedKeys
                  persistRoot 1 in
  match opt_root with
  | Some r =>
      match set_root (Some r) t with
      | (Ret _, t') => Ret t'
      | (Throw e, _) => Throw e
      | (Blocked, _) => Blocked
      | (OutOfFuel, _) => OutOfFuel
      end
  | None => Ret t
  end.

(** [lock.wait()] and [lock.signal()] *)
Definition lock_wait : M D unit :=
  fun t =>
    match lock t with
    | O => (Blocked, t)
    | S n => (Ret tt, with_lock n t)
    end.

Definition lock_signal : M D unit :=
  fun t => (Ret tt, with_lock (S (lock t)) t).

Definition appliedKey (t : Trie D) (key : bytes) : bytes :=
  if _useHashedKeys t then hash key else key.

Definition persistRoot : M D unit :=
  fun t =>
    if _persistRoot t
    then (Ret tt, with_db (db_put (appliedKey t ROOT_DB_KEY) (root t) (db t)) t)
    else (Ret tt, t).

(** [lookupNode]: a raw node is decoded as it is, a hash is looked up in
    the store. *)
Definition lookupNode (node : item) : M D TrieNode :=
  match node with
  | Lst raw => lift (decodeRawNode raw)
  | Str h =>
      fun t =>
        match db_get (db t) h with
        | Some value => (decodeNode value, t)
        | None => (Throw MissingNode, t)
        end
  end.

(** [checkRoot] *)
Definition checkRoot (root : bytes) : M D bool :=
  fun t =>
    match lookupNode (Str root) t with
    | (Ret _, t') => (Ret true, t')
    | (Throw MissingNode, t') => (Ret false, t')
    | (o, t') => (outcome_bind o (fun _ => Ret true), t')
    end.

(** [findPath]. The walk of [walkTrie] visits one node after the other:
    [onFound] queues at most one child. [walk] is that loop, [stack] the
    array the callback pushes to; a rejection of the walk with 'Missing
    node in DB' is caught unless [throwIfMissing], and the promise then
    resolves with the stack pushed so far. *)
Fixpoint walk (fuel : nat) (targetKey : Nibbles) (throwIfMissing : bool)
    (nodeRef : item) (keyProgress : Nibbles) (stack : list TrieNode)
    : M D Path :=
  match fuel with
  | O => lift OutOfFuel
  | S fuel' =>
      fun t =>
        match lookupNode nodeRef t with
        | (Ret node, t') =>
            let keyRemainder :=
              drop (matchingNibbleLength keyProgress targetKey) targetKey in
            let stack := stack ++ [node] in
            match node with
            | BranchNode branches _ =>
                match keyRemainder with
                | [] => (Ret (mkPath (Some node) [] stack), t')
                | branchIndex :: _ =>
                    match getBranch branches branchIndex with
                    | None => (Ret (mkPath None keyRemainder stack), t')
                    | Some childRef =>
                        walk fuel' targetKey throwIfMissing childRef
                             (keyProgress ++ [branchIndex]) stack t'
                    end
                end
            | LeafNode k _ =>
                if doKeysMatch keyRemainder k
                then (Ret (mkPath (Some node) [] stack), t')
                else (Ret (mkPath None keyRemainder stack), t')
            | ExtensionNode k v =>
                let matchingLen := matchingNibbleLength keyRemainder k in
                if decide (matchingLen = length k)
                then walk fuel' targetKey throwIfMissing v
                          (keyProgress ++ k) stack t'
                else (Ret (mkPath None keyRemainder stack), t')
            end
        | (Throw MissingNode, t') =>
            if throwIfMissing then (Throw MissingNode, t')
            else (Ret (mkPath None [] stack), t')
        | (Throw e, t') => (Throw e, t')
        | (Blocked, t') => (Blocked, t')
        | (OutOfFuel, t') => (OutOfFuel, t')
        end
  end.

Variable fuel : nat.

Definition findPath (key : bytes) (throwIfMissing : bool) : M D Path :=
  fun t =>
    walk fuel (bufferToNibbles key) throwIfMissing (Str (root t)) [] [] t.

(** The [value] getter of the node a path ends in (a leaf or a branch). *)
Definition node_value (n : TrieNode) : option bytes :=
  match n with
  | LeafNode _ v => Some v
  | BranchNode _ v => branch_value v
  | ExtensionNode _ v => as_buffer v
  end.

(** [get] *)
Definition get (key : bytes) (throwIfMissing : bool) : M D (option bytes) :=
  fun t =>
    (p <- findPath (appliedKey t key) throwIfMissing ;;
     match node p, remaining p with
     | Some n, [] => ret (node_value n)
     | _, _ => ret None
     end) t.

(** [_formatNode]: the reference by which a parent names the node, and
    the operations pushed to [opStack]. *)
Definition _formatNode (t : Trie D) (node : TrieNode) (topLevel : bool)
    (opStack : list BatchDBOp) (remove : bool) : item * list BatchDBOp :=
  let encoded := serialize node in
  if (32 <=? length encoded)%nat || topLevel then
    let hashRoot := hash encoded in
    (Str hashRoot,
     if remove then
       if _deleteFromDB t then opStack ++ [DelBatch hashRoot] else opStack
     else opStack ++ [PutBatch hashRoot encoded])
  else (raw node, opStack).

(** The [while (stack.length)] loop of [_saveStack], on the stack read
    from its top. *)
Fixpoint _saveStack_loop (t : Trie D) (key : Nibbles) (rstack : list TrieNode)
    (lastRoot : option item) (opStack : list BatchDBOp)
    : option item * list BatchDBOp :=
  match rstack with
  | [] => (lastRoot, opStack)
  | node :: rest =>
      let '(node, key) :=
        match node with
        | LeafNode k _ => (node, splice_tail key (length k))
        | ExtensionNode k v =>
            (match lastRoot with
             | Some r => ExtensionNode k r
             | None => node
             end, splice_tail key (length k))
        | BranchNode branches v =>
            match lastRoot with
            | Some r =>
                match pop key with
                | Some (key', branchKey) =>
                    (BranchNode (setBranch branches branchKey r) v, key')
                | None => (node, key)
                end
            | None => (node, key)
            end
        end in
      let '(r, opStack) :=
        _formatNode t node (bool_decide (rest = [])) opStack false in
      _saveStack_loop t key rest (Some r) opStack
  end.

(** [_saveStack] *)
Definition _saveStack (key : Nibbles) (stack : list TrieNode)
    (opStack : list BatchDBOp) : M D unit :=
  fun t =>
    let '(lastRoot, opStack) :=
      _saveStack_loop t key (reverse stack) None opStack in
    ((match lastRoot with
      | Some (Str r) => set_root (Some r)
      | Some (Lst _) => throw InvalidRootLength
      | None => ret tt
      end) ;;
     (fun t => (Ret tt, with_db (db_batch opStack (db t)) t)) ;;
     persistRoot) t.

(** [_createInitialNode] *)
Definition _createInitialNode (key value : bytes) : M D unit :=
  let newNode := LeafNode (bufferToNibbles key) value in
  let encoded := serialize newNode in
  set_root (Some (hash encoded)) ;;
  (fun t => (Ret tt, with_db (db_put (root t) encoded (db t)) t)) ;;
  persistRoot.

(** The nibbles consumed by the nodes of a stack: one per branch, the key
    of any other node. *)
Definition consumed (stack : list TrieNode) : nat :=
  fold_left (fun l n =>
               match n with
               | BranchNode _ _ => S l
               | _ => (l + length (key n))%nat
               end) stack O.

(** [lastNode.value] where the node is a leaf or an extension, read as a
    buffer. *)
Definition value_as_buffer (n : TrieNode) : bytes :=
  match n with
  | LeafNode _ v => v
  | BranchNode _ v => v
  | ExtensionNode _ v => default [] (as_buffer v)
  end.

(** [lastNode.value] read as a reference. *)
Definition value_as_ref (n : TrieNode) : item :=
  match n with
  | LeafNode _ v => Str v
  | BranchNode _ v => Str v
  | ExtensionNode _ v => v
  end.

Definition is_leaf (n : TrieNode) : bool :=
  match n with
  | LeafNode _ _ => true
  | _ => false
  end.

(** [_updateNode] *)
Definition _updateNode (k value : bytes) (keyRemainder : Nibbles)
    (stack : list TrieNode) : M D unit :=
  fun t =>
  match pop stack with
  | None => (Throw StackUnderflow, t)
  | Some (stack, lastNode) =>
      let key := bufferToNibbles k in
      let matchLeaf :=
        match lastNode with
        | LeafNode lkey _ =>
            let l := consumed stack in
            bool_decide (matchingNibbleLength lkey (drop l key) = length lkey)
            && bool_decide (length keyRemainder = 0%nat)
        | _ => false
        end in
      if matchLeaf then
        (* just updating a found value *)
        _saveStack key (stack ++ [LeafNode (Node.key lastNode) value]) [] t
      else
        match lastNode with
        | BranchNode branches v =>
            match keyRemainder with
            | _ :: keyRemainder' =>
                (* add an extension to a branch node *)
                _saveStack key
                  (stack ++ [lastNode; LeafNode keyRemainder' value]) [] t
            | [] =>
                _saveStack key (stack ++ [BranchNode branches value]) [] t
            end
        | _ =>
            (* create a branch node *)
            let lastKey := Node.key lastNode in
            let matchingLength := matchingNibbleLength lastKey keyRemainder in
            (* create a new extension node *)
            let '(stack, lastKey, keyRemainder) :=
              if decide (matchingLength = 0%nat) then (stack, lastKey, keyRemainder)
              else (stack ++ [ExtensionNode (take matchingLength lastKey) (Str value)],
                    drop matchingLength lastKey,
                    drop matchingLength keyRemainder) in
            let '(branches, bvalue, toSave) :=
              match lastKey with
              | branchKey :: lastKey' =>
                  if negb (bool_decide (lastKey' = [])) || is_leaf lastNode then
                    (* shrinking extension or leaf *)
                    let '(formattedNode, toSave) :=
                      _formatNode t (set_key lastNode lastKey') false [] false in
                    (setBranch (replicate 16 null) branchKey formattedNode, [], toSave)
                  else
                    (* remove extension or attaching *)
                    let '(_, toSave) := _formatNode t lastNode false [] true in
                    (setBranch (replicate 16 null) branchKey (value_as_ref lastNode),
                     [], toSave)
              | [] => (replicate 16 null, value_as_buffer lastNode, [])
              end in
            match keyRemainder with
            | _ :: keyRemainder' =>
                (* add a leaf node to the new branch node *)
                _saveStack key
                  (stack ++ [BranchNode branches bvalue; LeafNode keyRemainder' value])
                  toSave t
            | [] =>
                _saveStack key (stack ++ [BranchNode branches value]) toSave t
            end
        end
  end.

(** The local function [processBranchNode] of [_deleteNode]: the key and
    the stack after it. *)
Definition processBranchNode (key : Nibbles) (branchKey : nat)
    (branchNode : TrieNode) (parentNode : option TrieNode)
    (stack : list TrieNode) : Nibbles * list TrieNode :=
  let parent_is_branch_or_absent :=
    match parentNode with
    | None | Some (BranchNode _ _) => true
    | _ => false
    end in
  if parent_is_branch_or_absent then
    (* branch->? *)
    let stack := match parentNode with
                 | Some p => stack ++ [p]
                 | None => stack
                 end in
    match branchNode with
    | BranchNode _ _ =>
        (* create an extension node: branch->extension->branch *)
        (key ++ [branchKey],
         stack ++ [ExtensionNode [branchKey] null; branchNode])
    | _ =>
        (* branch->(leaf or extension) *)
        let branchNodeKey := branchKey :: Node.key branchNode in
        (key ++ branchNodeKey, stack ++ [set_key branchNode branchNodeKey])
    end
  else
    (* parent is an extension *)
    let parentKey := from_option Node.key [] parentNode in
    match branchNode with
    | BranchNode _ _ =>
        (* ext->branch *)
        (key ++ [branchKey],
         stack ++ [from_option (fun p => set_key p (parentKey ++ [branchKey]))
                               branchNode parentNode; branchNode])
    | _ =>
        (* the two keys are added together, the parent is not pushed *)
        let branchNodeKey := branchKey :: Node.key branchNode in
        (key ++ branchNodeKey,
         stack ++ [set_key branchNode (parentKey ++ branchNodeKey)])
    end.

(** [_deleteNode] *)
Definition _deleteNode (k : bytes) (stack : list TrieNode) : M D unit :=
  fun t =>
  match pop stack with
  | None => (Throw MissingLastNode, t)
  | Some (stack, lastNode) =>
      let key := bufferToNibbles k in
      match pop stack with
      | None =>
          (* the root here has to be a leaf. *)
          set_root None t
      | Some (stack, parentNode) =>
          let step :=
            match lastNode with
            | BranchNode branches _ =>
                Ret (branches, [], Some parentNode, stack, key, [])
            | _ =>
                (* the lastNode has to be a leaf if it's not a branch *)
                match parentNode with
                | BranchNode pbranches pvalue =>
                    let key := splice_tail key (length (Node.key lastNode)) in
                    let '(_, opStack) := _formatNode t lastNode false [] true in
                    let '(key, pbranches) :=
                      match pop key with
                      | Some (key', i) => (key', setBranch pbranches i null)
                      | None => (key, pbranches)
                      end in
                    match pop stack with
                    | Some (stack', p) =>
                        Ret (pbranches, pvalue, Some p, stack', key, opStack)
                    | None =>
                        Ret (pbranches, pvalue, None, stack, key, opStack)
                    end
                | _ => Throw ExpectedBranchNode
                end
            end in
          match step with
          | Ret (branches, bvalue, parentNode, stack, key, opStack) =>
              let lastNode := BranchNode branches bvalue in
              (* count the number of nodes on the branch *)
              match getChildren branches with
              | [(branchNodeKey, branchNode)] =>
                  (* only one branch node left: collapse the branch node *)
                  (foundNode <- lookupNode branchNode ;;
                   let '(key, stack) :=
                     processBranchNode key branchNodeKey foundNode parentNode
                                       stack in
                   _saveStack key stack opStack) t
              | _ =>
                  (* simple removing a leaf and recalculation the stack *)
                  let stack := match parentNode with
                               | Some p => stack ++ [p]
                               | None => stack
                               end in
                  _saveStack key (stack ++ [lastNode]) opStack t
              end
          | Throw e => (Throw e, t)
          | Blocked => (Blocked, t)
          | OutOfFuel => (OutOfFuel, t)
          end
      end
  end.

(** [del] *)
Definition del (key : bytes) : M D unit :=
  lock_wait ;;
  (fun t =>
     (p <- findPath (appliedKey t key) false ;;
      match node p with
      | Some _ => _deleteNode (appliedKey t key) (stack p)
      | None => ret tt
      end) t) ;;
  persistRoot ;;
  lock_signal.

(** [put]. An absent value takes the path of the empty one: both go to
    [del]. *)
Definition put (key value : bytes) : M D unit :=
  fun t =>
    if _persistRoot t && bool_decide (key = ROOT_DB_KEY) then
      (Throw ReservedKey, t)
    else if bool_decide (value = []) then
      (* If value is empty, delete *)
      del key t
    else
      (lock_wait ;;
       (fun t =>
          let appliedKey := appliedKey t key in
          if bool_decide (root t = EMPTY_TRIE_ROOT) then
            (* If no root, initialize this trie *)
            _createInitialNode appliedKey value t
          else
            (* First try to find the given key or its nearest node *)
            (p <- findPath appliedKey false ;;
             (* then update *)
             _updateNode appliedKey value (remaining p) (stack p)) t) ;;
       persistRoot ;;
       lock_signal) t.

(** [batch] *)
Fixpoint batch_loop (ops : list TrieOp) : M D unit :=
  match ops with
  | [] => ret tt
  | OpPut key value :: ops' =>
      match value with
      | None => throw InvalidBatchOp
      | Some v => put key v ;; batch_loop ops'
      end
  | OpDel key :: ops' => del key ;; batch_loop ops'
  end.

Definition batch (ops : list TrieOp) : M D unit :=
  batch_loop ops ;; persistRoot.

(** [fromProof] *)
Definition fromProof (proof : list bytes) : M D unit :=
  let opStack := map (fun nodeValue => PutBatch (hash nodeValue) nodeValue) proof in
  (fun t =>
     match opStack with
     | PutBatch k _ :: _ =>
         if rootIsEmptyObject t then set_root (Some k) t else (Ret tt, t)
     | _ => (Ret tt, t)
     end) ;;
  (fun t => (Ret tt, with_db (db_batch opStack (db t)) t)) ;;
  persistRoot.

(** [createProof] *)
Definition createProof (key : bytes) : M D (list bytes) :=
  fun t =>
    (p <- findPath (appliedKey t key) false ;;
     ret (map serialize (stack p))) t.

End Trie.

(** [verifyProof]: the proof is loaded into a fresh trie over an in-memory
    store, created with the hash function only, and the key is looked up
    there with [throwIfMissing]. *)
Section VerifyProof.
Context {D : Type} `{!DB D}.
Variable hashfn : bytes -> bytes.
Variable fuel : nat.

Definition verifyProof (rootHash key : bytes) (proof : list bytes)
    : M D (option bytes) :=
  fun t =>
    match Trie_new hashfn (∅ : MapDB) (Some rootHash) false false false with
    | Ret proofTrie =>
        match fromProof hashfn proof proofTrie with
        | (Ret _, proofTrie) =>
            match get hashfn fuel (appliedKey hashfn t key) true proofTrie with
            | (Ret value, _) => (Ret value, t)
            | (Throw MissingNode, _) => (Throw InvalidProof, t)
            | (Throw e, _) => (Throw e, t)
            | (Blocked, _) => (Blocked, t)
            | (OutOfFuel, _) => (OutOfFuel, t)
            end
        | (Throw _, _) => (Throw InvalidProofNodes, t)
        | (Blocked, _) => (Blocked, t)
        | (OutOfFuel, _) => (OutOfFuel, t)
        end
    | Throw e => (Throw e, t)
    | Blocked => (Blocked, t)
    | OutOfFuel => (OutOfFuel, t)
    end.

End VerifyProof.

(** ** Concrete tries *)

Definition Buffer_from (s : String.string) : bytes := String.list_byte_of_string s.

Definition hex_digit (n : N) : Ascii.ascii :=
  Ascii.ascii_of_N (if n <? 10 then 48 + n else 87 + n).

Definition toHex (bs : bytes) : String.string :=
  fold_right (fun b s =>
                let n := Byte.to_N b in
                String.String (hex_digit (n / 16))
                  (String.String (hex_digit (n mod 16)) s))
             String.EmptyString bs.

Definition keccak256 : bytes -> bytes := Keccak.keccak256.

(** [new Trie()] and [new Trie({ persistRoot: true })] over Keccak-256. *)
Definition new_Trie : Trie MapDB :=
  mkTrie ∅ (EMPTY_TRIE_ROOT keccak256) true false false false 1.

Definition new_Trie_persistRoot : Trie MapDB :=
  mkTrie ∅ (EMPTY_TRIE_ROOT keccak256) true false false true 1.

(** The trie left by a method, and by a list of puts. *)
Definition after {D A} (m : M D A) (t : Trie D) : Trie D := (m t).2.

Definition put_all {D} `{!DB D} (hashfn : bytes -> bytes) (fuel : nat)
    (pairs : list (bytes * bytes)) (t : Trie D) : Trie D :=
  fold_left (fun t kv => after (put hashfn fuel kv.1 kv.2) t) pairs t.

Definition S5_pairs : list (bytes * bytes) :=
  [ (Buffer_from "doge", Buffer_from "coin");
    (Buffer_from "do", Buffer_from "verb");
    (Buffer_from "dog", Buffer_from "puppy");
    (Buffer_from "horse", Buffer_from "stallion") ].

(** * Properties *)

(** ** The hash function and the scenarios of the specification *)

Example keccak256_empty_string :
  toHex (keccak256 []) =
    "c5d2460186f7233c927e7db2dcc703c0e500b653ca82273b7bfad8045d85a470"%string.
Proof. vm_compute. reflexivity. Qed.

(** S1: the root of the empty trie. *)
Example S1_empty_root :
  toHex (root new_Trie) =
    "56e81f171bcc55a6ff8345e692c0f86e5b48e01b996cadc001622fb5e363b421"%string.
Proof. vm_compute. reflexivity. Qed.

Example new_Trie_constructed :
  Trie_new keccak256 (∅ : MapDB) None false false false = Ret new_Trie.
Proof. reflexivity. Qed.

(** S2: a single leaf. *)
Example S2_single_leaf :
  let t := after (put keccak256 8 (Buffer_from "do") (Buffer_from "verb")) new_Trie in
  (get keccak256 8 (Buffer_from "do") false t).1 = Ret (Some (Buffer_from "verb"))
  /\ (get keccak256 8 (Buffer_from "dog") false t).1 = Ret None.
Proof. vm_compute. split; reflexivity. Qed.

(** S3: a shared prefix makes an extension over the nibbles of "do" and a
    branch with the value of "do" and the leaf of "dog" under nibble 6. *)
Example S3_shared_prefix :
  let t := put_all keccak256 8 [ (Buffer_from "do", Buffer_from "verb");
                                 (Buffer_from "dog", Buffer_from "puppy") ]
                   new_Trie in
  (lookupNode (Str (root t)) t).1 =
    Ret (ExtensionNode [6; 4; 6; 15]%nat
           (Node.raw (BranchNode
              (Node.setBranch (replicate 16 Node.null) 6
                 (Node.raw (LeafNode [7]%nat (Buffer_from "puppy"))))
              (Buffer_from "verb")))).
Proof. vm_compute. reflexivity. Qed.

(** The root of the four pairs of S5 is the one of the Ethereum test
    vectors. *)
Example S5_root :
  toHex (root (put_all keccak256 8 S5_pairs new_Trie)) =
    "5991bb8c6514148a29db676a14ac506cd2cd5775ace63c30a4fe457715e9ac84"%string.
Proof. vm_compute. reflexivity. Qed.

(** ** Reads leave the trie as it is *)

Section Frame.
Context {D : Type} `{!DB D}.
Variable hashfn : bytes -> bytes.

Lemma lookupNode_frame (n : item) (t : Trie D) : (lookupNode n t).2 = t.
Proof.
  destruct n as [h|raw]; simpl; [|done].
  by destruct (db_get (db t) h).
Qed.

Lemma walk_frame (fuel : nat) (targetKey : Nibbles) (throwIfMissing : bool)
    (nodeRef : item) (keyProgress : Nibbles) (stack : list TrieNode)
    (t : Trie D) :
  (walk fuel targetKey throwIfMissing nodeRef keyProgress stack t).2 = t.
Proof.
  revert nodeRef keyProgress stack.
  induction fuel as [|fuel IH]; intros nodeRef keyProgress stack; [done|].
  simpl. pose proof (lookupNode_frame nodeRef t) as Hl.
  destruct (lookupNode nodeRef t) as [[n|e| |] t']; simpl in Hl; subst t'.
  - destruct n as [branches v|k v|k v].
    + destruct (drop _ targetKey) as [|i rest]; [done|].
      destruct (getBranch branches i); [apply IH | done].
    + case_decide; [apply IH | done].
    + by destruct (doKeysMatch _ k).
  - destruct e; try done. by destruct throwIfMissing.
  - done.
  - done.
Qed.

Lemma findPath_frame (fuel : nat) (key : bytes) (throwIfMissing : bool)
    (t : Trie D) :
  (findPath fuel key throwIfMissing t).2 = t.
Proof. apply walk_frame. Qed.

Lemma get_frame (fuel : nat) (key : bytes) (throwIfMissing : bool) (t : Trie D) :
  (get hashfn fuel key throwIfMissing t).2 = t.
Proof.
  unfold get, bind.
  pose proof (findPath_frame fuel (appliedKey hashfn t key) throwIfMissing t) as Hf.
  destruct (findPath _ _ _ t) as [[p|e| |] t']; simpl in Hf; subst t'; try done.
  by destruct (node p), (remaining p).
Qed.

Lemma checkRoot_frame (r : bytes) (t : Trie D) : (checkRoot r t).2 = t.
Proof.
  unfold checkRoot. pose proof (lookupNode_frame (Str r) t) as Hl.
  destruct (lookupNode (Str r) t) as [[n|e| |] t']; simpl in Hl; subst t';
    try done.
  by destruct e.
Qed.

Lemma createProof_frame (fuel : nat) (key : bytes) (t : Trie D) :
  (createProof hashfn fuel key t).2 = t.
Proof.
  unfold createProof, bind.
  pose proof (findPath_frame fuel (appliedKey hashfn t key) false t) as Hf.
  by destruct (findPath _ _ _ t) as [[p|e| |] t']; simpl in Hf; subst t'.
Qed.

(** C10. The read operations [get], [findPath], [checkRoot] and
    [createProof] leave the trie exactly as they found it, the root field
    and the state of the store included, whatever the store implementation
    is (so also for one in which every write is visible in its state), for
    every trie, every argument, every bound on the walk and whatever way
    the operation settles. *)
Theorem read_operations_leave_trie_unchanged (fuel : nat) (key r : bytes)
    (throwIfMissing : bool) (t : Trie D) :
  (get hashfn fuel key throwIfMissing t).2 = t
  /\ (findPath fuel key throwIfMissing t).2 = t
  /\ (checkRoot r t).2 = t
  /\ (createProof hashfn fuel key t).2 = t.
Proof.
  split; [apply get_frame|].
  split; [apply findPath_frame|].
  split; [apply checkRoot_frame | apply createProof_frame].
Qed.

End Frame.

(** ** The root setter *)

Section RootSetter.
Context {D : Type} `{!DB D}.
Variable hashfn : bytes -> bytes.

(** C9, amended. Assigning an absent value ([null], [undefined]) resets
    the root to [EMPTY_TRIE_ROOT] without an error. Assigning a buffer
    whose length differs from [_hashLen], the empty buffer among them,
    raises the invalid-root error and leaves the trie unchanged; a buffer
    of [_hashLen] bytes becomes the root. *)
Theorem root_setter_spec (t : Trie D) :
  set_root hashfn None t
    = (Ret tt, with_root (EMPTY_TRIE_ROOT hashfn) true t)
  /\ (forall v : bytes, length v <> _hashLen hashfn ->
        set_root hashfn (Some v) t = (Throw InvalidRootLength, t))
  /\ (forall v : bytes, length v = _hashLen hashfn ->
        set_root hashfn (Some v) t = (Ret tt, with_root v false t)).
Proof.
  unfold set_root. repeat split.
  - by rewrite decide_True.
  - intros v Hv. by rewrite decide_False.
  - intros v Hv. by rewrite decide_True.
Qed.

End RootSetter.

Lemma root_setter_spec_witness :
  length (Buffer_from "abc") <> _hashLen keccak256
  /\ set_root keccak256 (Some (Buffer_from "abc")) new_Trie
     = (Throw InvalidRootLength, new_Trie).
Proof.
  assert (Hlen : length (Buffer_from "abc") <> _hashLen keccak256)
    by (vm_compute; lia).
  split; [exact Hlen|].
  exact (proj1 (proj2 (root_setter_spec keccak256 new_Trie)) _ Hlen).
Defined.

(** C9 as stated fails: the empty buffer is not reset to the empty root, it
    is rejected for its length, and the root stays as it was. *)
Lemma root_setter_rejects_empty_buffer :
  let r := set_root keccak256 (Some []) new_Trie in
  r.1 = Throw InvalidRootLength /\ root r.2 = root new_Trie.
Proof. vm_compute. split; reflexivity. Qed.

(** ** The reserved key *)

Section ReservedKey.
Context {D : Type} `{!DB D}.
Variable hashfn : bytes -> bytes.
Variable fuel : nat.

Lemma put_reserved_key_throws (value : bytes) (t : Trie D) :
  _persistRoot t = true ->
  put hashfn fuel ROOT_DB_KEY value t = (Throw ReservedKey, t).
Proof. intros Hp. unfold put. rewrite Hp. by rewrite bool_decide_eq_true_2. Qed.

(** Unless the trie persists its root and the key is the reserved one,
    [put] of the empty value is [del]: the same settlement and the same
    trie, root and store included. *)
Lemma put_empty_value_is_del (key : bytes) (t : Trie D) :
  ~ (_persistRoot t = true /\ key = ROOT_DB_KEY) ->
  put hashfn fuel key [] t = del hashfn fuel key t.
Proof.
  intros Hk. unfold put.
  destruct (_persistRoot t) eqn:Hp; simpl; [|done].
  case_bool_decide; [|done]. by destruct Hk.
Qed.

End ReservedKey.

(** C4. With [persistRoot], [del] of the reserved key is not rejected: on a
    new trie it returns normally and writes the root under [ROOT_DB_KEY],
    where [put] under that key raises the ReservedKey error and writes
    nothing. *)
Theorem del_reserved_key_is_not_rejected :
  let d := del keccak256 8 ROOT_DB_KEY new_Trie_persistRoot in
  let p := put keccak256 8 ROOT_DB_KEY (Buffer_from "v") new_Trie_persistRoot in
  d.1 = Ret tt
  /\ db_get (db new_Trie_persistRoot) ROOT_DB_KEY = None
  /\ db_get (db d.2) ROOT_DB_KEY = Some (EMPTY_TRIE_ROOT keccak256)
  /\ p.1 = Throw ReservedKey
  /\ db_get (db p.2) ROOT_DB_KEY = None.
Proof. vm_compute. repeat split; reflexivity. Qed.

(** C6. At the reserved key of a trie that persists its root, [put] of
    the empty value does not do what [del] of the key does: [put] raises
    the reserved-key error and leaves the store alone, [del] returns and
    writes the root to the store. It is the defect of C4: [del] lacks the
    check [put] makes. *)
Lemma put_empty_value_differs_from_del_at_reserved_key :
  let p := put keccak256 8 ROOT_DB_KEY [] new_Trie_persistRoot in
  let d := del keccak256 8 ROOT_DB_KEY new_Trie_persistRoot in
  p.1 = Throw ReservedKey
  /\ d.1 = Ret tt
  /\ db_get (db p.2) ROOT_DB_KEY = None
  /\ db_get (db d.2) ROOT_DB_KEY = Some (EMPTY_TRIE_ROOT keccak256).
Proof. vm_compute. repeat split; reflexivity. Qed.

(** ** Batches *)

Section Batch.
Context {D : Type} `{!DB D}.
Variable hashfn : bytes -> bytes.
Variable fuel : nat.

(** The operations of a list applied in order, each one returning
    normally. *)
Inductive applies : list TrieOp -> Trie D -> Trie D -> Prop :=
| applies_nil t : applies [] t t
| applies_put key value ops t t' t'' :
    put hashfn fuel key value t = (Ret tt, t') ->
    applies ops t' t'' ->
    applies (OpPut key (Some value) :: ops) t t''
| applies_del key ops t t' t'' :
    del hashfn fuel key t = (Ret tt, t') ->
    applies ops t' t'' ->
    applies (OpDel key :: ops) t t''.

Lemma batch_loop_applies (ops : list TrieOp) (t t' : Trie D) :
  applies ops t t' -> batch_loop hashfn fuel ops t = (Ret tt, t').
Proof.
  induction 1 as [t|key value ops t t' t'' Hput _ IH|key ops t t' t'' Hdel _ IH];
    simpl; [done| |]; unfold bind.
  - by rewrite Hput.
  - by rewrite Hdel.
Qed.

Lemma batch_loop_absent_value (ops1 ops2 : list TrieOp) (key : bytes)
    (t t' : Trie D) :
  applies ops1 t t' ->
  batch_loop hashfn fuel (ops1 ++ OpPut key None :: ops2) t
    = (Throw InvalidBatchOp, t').
Proof.
  induction 1 as [t|k value ops t t' t'' Hput _ IH|k ops t t' t'' Hdel _ IH];
    simpl; [done| |]; unfold bind.
  - by rewrite Hput.
  - by rewrite Hdel.
Qed.

Lemma batch_loop_never_returns (ops : list TrieOp) (key : bytes) (t : Trie D) :
  In (OpPut key None) ops ->
  forall u, (batch_loop hashfn fuel ops t).1 <> Ret u.
Proof.
  revert t. induction ops as [|op ops IH]; intros t Hin u; [done|].
  destruct Hin as [->|Hin]; [done|].
  destruct op as [k [v|]|k]; simpl; unfold bind; [| done |].
  - destruct (put hashfn fuel k v t) as [[[]|e| |] t1]; try done.
    by apply IH.
  - destruct (del hashfn fuel k t) as [[[]|e| |] t1]; try done.
    by apply IH.
Qed.

End Batch.

(** ** Deleting the value of a branch *)

(** The trie of ["a"], ["q"] and the empty key: its top node is a branch
    with the leaves of the first two under nibbles 6 and 7 and the value of
    the empty key. *)
Definition root_branch_trie : Trie MapDB :=
  put_all keccak256 8
    [ (Buffer_from "a", Buffer_from "x");
      (Buffer_from "q", Buffer_from "y");
      ([], Buffer_from "v") ] new_Trie.

(** C3. When the branch that ends the path of the key is the top node,
    [del] does not clear its value and keep it: it takes the single node of
    the stack for a leaf, resets the root to [EMPTY_TRIE_ROOT], and the other
    keys are no longer retrievable. *)
Theorem del_value_of_root_branch_empties_trie :
  let t := root_branch_trie in
  let branch :=
    BranchNode
      (Node.setBranch
         (Node.setBranch (replicate 16 Node.null) 6
            (Node.raw (LeafNode [1]%nat (Buffer_from "x"))))
         7 (Node.raw (LeafNode [1]%nat (Buffer_from "y"))))
      (Buffer_from "v") in
  let t' := after (del keccak256 8 []) t in
  (findPath 8 [] false t).1 = Ret (mkPath (Some branch) [] [branch])
  /\ (get keccak256 8 (Buffer_from "a") false t).1 = Ret (Some (Buffer_from "x"))
  /\ (get keccak256 8 (Buffer_from "q") false t).1 = Ret (Some (Buffer_from "y"))
  /\ (del keccak256 8 [] t).1 = Ret tt
  /\ root t' = EMPTY_TRIE_ROOT keccak256
  /\ (get keccak256 8 (Buffer_from "a") false t').1 = Ret None
  /\ (get keccak256 8 (Buffer_from "q") false t').1 = Ret None.
Proof. vm_compute. repeat split; reflexivity. Qed.

(** Below the top node the value of a branch is cleared and the branch
    kept. *)
Example del_value_of_inner_branch :
  let t := put_all keccak256 8
             [ (Buffer_from "do", Buffer_from "verb");
               (Buffer_from "dog", Buffer_from "puppy");
               (Buffer_from "dow", Buffer_from "y") ] new_Trie in
  let t' := after (del keccak256 8 (Buffer_from "do")) t in
  (get keccak256 8 (Buffer_from "do") false t').1 = Ret None
  /\ (get keccak256 8 (Buffer_from "dog") false t').1 = Ret (Some (Buffer_from "puppy"))
  /\ (get keccak256 8 (Buffer_from "dow") false t').1 = Ret (Some (Buffer_from "y")).
Proof. vm_compute. repeat split; reflexivity. Qed.

(** ** The size below which a node is embedded *)

(** A hash function of twenty bytes. *)
Definition keccak160 (msg : bytes) : bytes := take 20 (keccak256 msg).

Definition twenty_bytes : bytes := Buffer_from "aaaaaaaaaaaaaaaaaaaa".

(** C5. Under a hash function of twenty bytes the leaf of ["a"], whose
    serialization has twenty-three bytes, is embedded in its parent and not
    written to the store: [_formatNode] compares with 32, not with
    [_hashLen]. *)
Theorem embedding_threshold_is_32_not_hashLen :
  let t := put_all keccak160 8
             [ (Buffer_from "a", twenty_bytes);
               (Buffer_from "q", Buffer_from "y") ]
             (mkTrie (∅ : MapDB) (EMPTY_TRIE_ROOT keccak160) true false false false 1) in
  let leaf := LeafNode [1]%nat twenty_bytes in
  _hashLen keccak160 = 20%nat
  /\ length (Node.serialize leaf) = 23%nat
  /\ (lookupNode (Str (root t)) t).1 =
       Ret (BranchNode
              (Node.setBranch
                 (Node.setBranch (replicate 16 Node.null) 6 (Node.raw leaf))
                 7 (Node.raw (LeafNode [1]%nat (Buffer_from "y"))))
              [])
  /\ db_get (db t) (keccak160 (Node.serialize leaf)) = None.
Proof. vm_compute. repeat split; reflexivity. Qed.

(** ** The proof of a key of the empty trie *)


(** * The trie as a tree

    The rest of the development relates the operations to a tree of
    leaves, extensions and branches: what a trie holds, what [put], [get]
    and [del] do to it, and what follows for roots and proofs. *)

Unset Default Proof Using.
Set Warnings "-clear-no-such-hyp".

(** ** The codec round trip *)

(** Induction over items with the hypothesis on every element of a list. *)
Lemma item_ind' (P : item -> Prop)
    (HStr : forall b, P (Str b))
    (HLst : forall l, Forall P l -> P (Lst l)) :
  forall i, P i.
Proof.
  fix IH 1. intros [b|l]; [apply HStr|].
  apply HLst. induction l as [|x l IHl]; constructor; [apply IH | apply IHl].
Qed.

Module RLPFacts.
Import RLP.

Lemma be_value_app (l1 l2 : bytes) (a : N) :
  be_value (l1 ++ l2) a = be_value l2 (be_value l1 a).
Proof. revert a. induction l1 as [|x l1 IH]; intros a; simpl; [done|]. apply IH. Qed.

Lemma be_digits_acc (fuel : nat) (n : N) (acc : bytes) :
  be_digits fuel n acc = be_digits fuel n [] ++ acc.
Proof.
  revert n acc. induction fuel as [|fuel IH]; intros n acc; simpl; [done|].
  destruct (n =? 0); [done|].
  rewrite (IH _ (_ :: acc)), (IH _ [_]). by rewrite <- app_assoc.
Qed.

Lemma be_digits_0 (fuel : nat) (acc : bytes) : be_digits fuel 0 acc = acc.
Proof. by destruct fuel. Qed.

Lemma be_digits_value (fuel : nat) (n : N) :
  n < 256 ^ N.of_nat fuel -> be_value (be_digits fuel n []) 0 = n.
Proof.
  revert n. induction fuel as [|fuel IH]; intros n Hn.
  - simpl in *. lia.
  - simpl. destruct (n =? 0) eqn:E; [apply N.eqb_eq in E; by subst|].
    rewrite be_digits_acc, be_value_app. simpl.
    rewrite IH.
    + rewrite byte_to_of_N by (apply N.mod_lt; lia).
      pose proof (N.div_mod n 256). lia.
    + rewrite Nat2N.inj_succ, N.pow_succ_r' in Hn.
      apply N.Div0.div_lt_upper_bound. lia.
Qed.

Lemma be_digits_length (fuel : nat) (n : N) :
  (length (be_digits fuel n []) <= fuel)%nat.
Proof.
  revert n. induction fuel as [|fuel IH]; intros n; simpl; [done|].
  destruct (n =? 0); simpl; [lia|].
  rewrite be_digits_acc, length_app. simpl. specialize (IH (n / 256)). lia.
Qed.

(** The first digit is not zero. *)
Lemma be_digits_head (fuel : nat) (n : N) :
  n < 256 ^ N.of_nat fuel -> 0 < n ->
  exists b rest, be_digits fuel n [] = b :: rest /\ Byte.to_N b <> 0.
Proof.
  revert n. induction fuel as [|fuel IH]; intros n Hn Hpos.
  - simpl in Hn. lia.
  - simpl. destruct (n =? 0) eqn:E; [apply N.eqb_eq in E; lia|].
    rewrite be_digits_acc.
    rewrite Nat2N.inj_succ, N.pow_succ_r' in Hn.
    destruct (decide (n / 256 = 0)) as [Hz|Hz].
    + rewrite Hz, be_digits_0. simpl.
      eexists _, _; split; [done|].
      rewrite byte_to_of_N by (apply N.mod_lt; lia).
      apply N.div_small_iff in Hz; [|lia].
      rewrite N.mod_small by lia. lia.
    + destruct (IH (n / 256)) as (b & rest & Hd & Hb).
      * apply N.Div0.div_lt_upper_bound. lia.
      * apply N.neq_0_lt_0. done.
      * rewrite Hd. eexists _, _. split; [done|]. done.
Qed.

Lemma decodeLength_be_bytes (n : nat) :
  (0 < n)%nat -> N.of_nat n < 2 ^ 64 ->
  decodeLength (be_bytes (N.of_nat n)) = Some n.
Proof.
  intros Hpos Hn. unfold be_bytes.
  destruct (be_digits_head 8 (N.of_nat n)) as (b & rest & Hd & Hb); [done|lia|].
  unfold decodeLength. rewrite Hd.
  destruct (Byte.to_N b =? 0) eqn:E; [apply N.eqb_eq in E; done|].
  rewrite <- Hd, be_digits_value by done. by rewrite Nat2N.id.
Qed.

Lemma be_bytes_length (n : nat) :
  (0 < n)%nat -> N.of_nat n < 2 ^ 64 ->
  (1 <= length (be_bytes (N.of_nat n)) <= 8)%nat.
Proof.
  intros Hpos Hn. unfold be_bytes. split; [|apply be_digits_length].
  destruct (be_digits_head 8 (N.of_nat n)) as (b & rest & Hd & Hb); [done|lia|].
  rewrite Hd. simpl. lia.
Qed.

Lemma split_at_app (a rest : bytes) :
  split_at (length a) (a ++ rest) = Some (a, rest).
Proof.
  unfold split_at. rewrite length_app.
  destruct (_ <=? _)%nat eqn:E; [|apply Nat.leb_gt in E; lia].
  by rewrite take_app_length, drop_app_length.
Qed.

Lemma encode_nonempty (i : item) : (1 <= length (encode i))%nat.
Proof.
  destruct i as [b|l]; simpl.
  - destruct b as [|x [|y b]]; [simpl; lia| |].
    + destruct (Byte.to_N x <? 128); simpl; lia.
    + unfold encodeLength. destruct (_ <? 56)%nat; simpl; lia.
  - unfold encodeLength. destruct (_ <? 56)%nat; simpl; lia.
Qed.

(** What the decoder reads back from a length header. *)
Lemma header_short (len : nat) (offset : N) :
  (len < 56)%nat -> offset <= 192 ->
  exists b, encodeLength len offset = [b] /\ Byte.to_N b = N.of_nat len + offset.
Proof.
  intros Hlen Hoff. unfold encodeLength.
  destruct (len <? 56)%nat eqn:E; [|apply Nat.ltb_ge in E; lia].
  eexists. split; [done|]. apply byte_to_of_N. lia.
Qed.

Lemma header_long (len : nat) (offset : N) :
  (56 <= len)%nat -> N.of_nat len < 2 ^ 64 -> offset <= 192 ->
  exists b digits,
    encodeLength len offset = b :: digits
    /\ Byte.to_N b = offset + 55 + N.of_nat (length digits)
    /\ (1 <= length digits <= 8)%nat
    /\ decodeLength digits = Some len.
Proof.
  intros Hlen Hbound Hoff. unfold encodeLength.
  destruct (len <? 56)%nat eqn:E; [apply Nat.ltb_lt in E; lia|].
  pose proof (be_bytes_length len ltac:(lia) Hbound) as Hd.
  eexists _, _. split; [done|]. split; [|split; [done|]].
  - apply byte_to_of_N. lia.
  - apply decodeLength_be_bytes; [lia|done].
Qed.

Lemma decode_seq_encode (dec : bytes -> option (item * bytes)) (l : list item) (n : nat) :
  Forall (fun x => forall rest, dec (encode x ++ rest) = Some (x, rest)) l ->
  (length l <= n)%nat ->
  decode_seq dec n (concat (map encode l)) = Some l.
Proof.
  intros Hall. revert n. induction Hall as [|x l Hx _ IH]; intros n Hn.
  - by destruct n.
  - simpl in *. destruct n as [|n]; [lia|].
    pose proof (encode_nonempty x) as Hne.
    destruct (encode x ++ concat (map encode l)) as [|c cs] eqn:Hc.
    { apply (f_equal length) in Hc. rewrite length_app in Hc. simpl in Hc. lia. }
    simpl. rewrite <- Hc, Hx. simpl. rewrite IH by lia. done.
Qed.

Lemma concat_encode_length (l : list item) :
  (length l <= length (concat (map encode l)))%nat.
Proof.
  induction l as [|x l IH]; simpl; [done|].
  rewrite length_app. pose proof (encode_nonempty x). lia.
Qed.

Lemma encode_elem_length (l : list item) (x : item) :
  x ∈ l -> (length (encode x) <= length (concat (map encode l)))%nat.
Proof.
  induction 1 as [x l|x y l _ IH]; simpl; rewrite length_app; lia.
Qed.

Lemma encode_Lst_length (l : list item) :
  (length (concat (map encode l)) < length (encode (Lst l)))%nat.
Proof.
  simpl. rewrite length_app. unfold encodeLength.
  destruct (_ <? 56)%nat; simpl; lia.
Qed.

#[local] Arguments split_at : simpl never.
#[local] Arguments decode_seq : simpl never.
#[local] Arguments decodeLength : simpl never.

Lemma _decode_encode (i : item) :
  forall fuel rest,
    (length (encode i) <= fuel)%nat ->
    N.of_nat (length (encode i)) < 2 ^ 64 ->
    _decode fuel (encode i ++ rest) = Some (i, rest).
Proof.
  induction i as [b|l IH] using item_ind'; intros fuel rest Hfuel Hbound.
  - destruct fuel as [|fuel]; [pose proof (encode_nonempty (Str b)); lia|].
    destruct b as [|x [|y b]].
    + (* the empty string *)
      simpl. done.
    + (* one byte *)
      simpl. destruct (Byte.to_N x <? 128) eqn:Hx.
      * simpl. apply N.ltb_lt in Hx.
        destruct (Byte.to_N x <=? 127) eqn:E; [done|apply N.leb_gt in E; lia].
      * simpl. unfold split_at. simpl. by rewrite Hx.
    + (* two bytes or more *)
      assert (Henc : encode (Str (x :: y :: b))
                     = encodeLength (length (x :: y :: b)) 128 ++ x :: y :: b) by done.
      assert (Hlen : (2 <= length (x :: y :: b))%nat) by (simpl; lia).
      remember (x :: y :: b) as b' eqn:Hb'. clear Hb' x y b.
      rewrite Henc in *. clear Henc. rewrite length_app in Hbound.
      assert (Hmatch : forall rem : bytes,
                 match b' with
                 | [x] => if Byte.to_N x <? 128 then None else Some (Str b', rem)
                 | _ => Some (Str b', rem)
                 end = Some (Str b', rem)).
      { intros rem. destruct b' as [|? [|? ?]]; simpl in Hlen; try lia; done. }
      destruct (decide (length b' < 56)%nat) as [Hs|Hs].
      * destruct (header_short (length b') 128 Hs ltac:(lia)) as (h & -> & Hh).
        simpl. rewrite Hh.
        destruct (_ <=? 127) eqn:E1; [apply N.leb_le in E1; lia|].
        destruct (_ <=? 183) eqn:E2; [|apply N.leb_gt in E2; lia].
        replace (N.to_nat (N.of_nat (length b') + 128 - 128)) with (length b') by lia.
        rewrite split_at_app. simpl. apply Hmatch.
      * destruct (header_long (length b') 128 ltac:(lia) ltac:(lia) ltac:(lia))
          as (h & digits & -> & Hh & Hd & Hdec).
        simpl. rewrite Hh.
        destruct (_ <=? 127) eqn:E1; [apply N.leb_le in E1; lia|].
        destruct (_ <=? 183) eqn:E2; [apply N.leb_le in E2; lia|].
        destruct (_ <=? 191) eqn:E3; [|apply N.leb_gt in E3; lia].
        replace (N.to_nat (128 + 55 + N.of_nat (length digits) - 183))
          with (length digits) by lia.
        rewrite <- app_assoc, split_at_app. simpl. rewrite Hdec. simpl.
        destruct (_ <=? 55)%nat eqn:E4; [apply Nat.leb_le in E4; lia|].
        rewrite split_at_app. done.
  - destruct fuel as [|fuel]; [pose proof (encode_nonempty (Lst l)); lia|].
    pose proof (encode_Lst_length l) as Hbody.
    set (body := concat (map encode l)) in *.
    assert (Henc : encode (Lst l) = encodeLength (length body) 192 ++ body) by done.
    assert (Hseq : decode_seq (_decode fuel) (length body) body = Some l).
    { apply decode_seq_encode; [|apply concat_encode_length].
      rewrite !list.Forall_forall in *. intros x Hx rest'.
      apply IH; [done| |].
      - pose proof (encode_elem_length l x Hx). fold body in H. lia.
      - pose proof (encode_elem_length l x Hx). fold body in H. lia. }
    rewrite Henc in *. clear Henc. rewrite length_app in Hbound.
    destruct (decide (length body < 56)%nat) as [Hs|Hs].
    + destruct (header_short (length body) 192 Hs ltac:(lia)) as (h & -> & Hh).
      simpl. rewrite Hh.
      destruct (_ <=? 127) eqn:E1; [apply N.leb_le in E1; lia|].
      destruct (_ <=? 183) eqn:E2; [apply N.leb_le in E2; lia|].
      destruct (_ <=? 191) eqn:E3; [apply N.leb_le in E3; lia|].
      destruct (_ <=? 247) eqn:E4; [|apply N.leb_gt in E4; lia].
      replace (N.to_nat (N.of_nat (length body) + 192 - 192)) with (length body) by lia.
      rewrite split_at_app. simpl. rewrite Hseq. done.
    + destruct (header_long (length body) 192 ltac:(lia) ltac:(lia) ltac:(lia))
        as (h & digits & -> & Hh & Hd & Hdec).
      simpl. rewrite Hh.
      destruct (_ <=? 127) eqn:E1; [apply N.leb_le in E1; lia|].
      destruct (_ <=? 183) eqn:E2; [apply N.leb_le in E2; lia|].
      destruct (_ <=? 191) eqn:E3; [apply N.leb_le in E3; lia|].
      destruct (_ <=? 247) eqn:E4; [apply N.leb_le in E4; lia|].
      replace (N.to_nat (192 + 55 + N.of_nat (length digits) - 247))
        with (length digits) by lia.
      rewrite <- app_assoc, split_at_app. simpl. rewrite Hdec. simpl.
      destruct (_ <? 56)%nat eqn:E5; [apply Nat.ltb_lt in E5; lia|].
      rewrite split_at_app. simpl. rewrite Hseq. done.
Qed.

(** The decoder inverts the encoder on every item below 2^64 bytes. *)
Lemma decode_encode (i : item) :
  N.of_nat (length (encode i)) < 2 ^ 64 -> decode (encode i) = Some i.
Proof.
  intros Hbound. unfold decode.
  pose proof (encode_nonempty i) as Hne.
  destruct (encode i) as [|c cs] eqn:Hc; [simpl in Hne; lia|].
  rewrite <- Hc. rewrite <- (app_nil_r (encode i)) at 2.
  rewrite _decode_encode; [done|done|by rewrite Hc].
Qed.

End RLPFacts.

Module NibblesFacts.

Definition nibbles_ok (k : Nibbles) : Prop := Forall (fun n => (n < 16)%nat) k.

Lemma pair_ind {A} (P : list A -> Prop) :
  P [] -> (forall x, P [x]) -> (forall x y l, P l -> P (x :: y :: l)) ->
  forall l, P l.
Proof.
  intros H0 H1 H2. fix IH 1. intros [|x [|y l]]; [done..|].
  apply H2, IH.
Qed.

Lemma nibble_byte (hi lo : nat) :
  (hi < 16)%nat -> (lo < 16)%nat ->
  N.to_nat (Byte.to_N (byte_of_nat (hi * 16 + lo))) = (hi * 16 + lo)%nat.
Proof.
  intros Hhi Hlo. unfold byte_of_nat. rewrite byte_to_of_N by lia. lia.
Qed.

Lemma nibble_div (hi lo : nat) : (lo < 16)%nat -> ((hi * 16 + lo) / 16 = hi)%nat.
Proof.
  intros Hlo. rewrite Nat.div_add_l by lia. rewrite Nat.div_small by lia. lia.
Qed.

Lemma nibble_mod (hi lo : nat) : (lo < 16)%nat -> ((hi * 16 + lo) mod 16 = lo)%nat.
Proof.
  intros Hlo. rewrite Nat.add_comm, Nat.Div0.mod_add. by apply Nat.mod_small.
Qed.

Lemma bufferToNibbles_nibblesToBuffer (l : Nibbles) :
  nibbles_ok l -> Nat.Even (length l) ->
  bufferToNibbles (nibblesToBuffer l) = l.
Proof.
  induction l as [|x|hi lo l IH] using pair_ind; intros Hok Hev; [done| |].
  - destruct Hev as [n Hn]. simpl in Hn. lia.
  - inversion Hok as [|? ? Hhi Hok']; subst.
    inversion Hok' as [|? ? Hlo Hok'']; subst.
    cbn [nibblesToBuffer bufferToNibbles]. rewrite nibble_byte by done.
    rewrite IH; [|done|].
    + by rewrite nibble_div, nibble_mod.
    + destruct Hev as [n Hn]. simpl in Hn. exists (n - 1)%nat. lia.
Qed.

Lemma bufferToNibbles_ok (key : bytes) : nibbles_ok (bufferToNibbles key).
Proof.
  induction key as [|b key IH]; [constructor|].
  cbn [bufferToNibbles]. pose proof (Byte.to_N_bounded b) as Hb.
  constructor; [|constructor; [|done]].
  - apply Nat.Div0.div_lt_upper_bound. lia.
  - apply Nat.mod_upper_bound. lia.
Qed.

Lemma bufferToNibbles_length (key : bytes) :
  length (bufferToNibbles key) = (2 * length key)%nat.
Proof. induction key as [|b key IH]; simpl; lia. Qed.

Lemma addHexPrefix_ok (k : Nibbles) (t : bool) :
  nibbles_ok k -> nibbles_ok (addHexPrefix k t).
Proof.
  intros Hk. unfold addHexPrefix.
  destruct (Nat.odd (length k)), t; repeat constructor; done.
Qed.

Lemma addHexPrefix_even (k : Nibbles) (t : bool) :
  Nat.Even (length (addHexPrefix k t)).
Proof.
  unfold addHexPrefix. destruct (Nat.odd (length k)) eqn:E; simpl.
  - apply Nat.odd_spec in E. destruct E as [n Hn]. exists (S n). lia.
  - apply (f_equal negb) in E. rewrite Nat.negb_odd in E. simpl in E.
    apply Nat.even_spec in E. destruct E as [n Hn]. exists (S n). lia.
Qed.

Lemma removeHexPrefix_addHexPrefix (k : Nibbles) (t : bool) :
  removeHexPrefix (addHexPrefix k t) = k.
Proof.
  unfold addHexPrefix, removeHexPrefix.
  by destruct (Nat.odd (length k)), t.
Qed.

Lemma isTerminator_addHexPrefix (k : Nibbles) (t : bool) :
  isTerminator (addHexPrefix k t) = t.
Proof.
  unfold addHexPrefix, isTerminator.
  by destruct (Nat.odd (length k)), t.
Qed.

(** The hex-prefix encoding of a key is read back as it was written. *)
Lemma encodedKey_decoded (k : Nibbles) (t : bool) :
  nibbles_ok k ->
  bufferToNibbles (encodedKey k t) = addHexPrefix k t.
Proof.
  intros Hk. unfold encodedKey.
  apply bufferToNibbles_nibblesToBuffer;
    [by apply addHexPrefix_ok | apply addHexPrefix_even].
Qed.

Lemma nibblesToBuffer_length (l : Nibbles) :
  length (nibblesToBuffer l) = (length l / 2)%nat.
Proof.
  induction l as [|x|hi lo l IH] using pair_ind; [done..|].
  simpl nibblesToBuffer. simpl length. rewrite IH.
  change (S (S (length l))) with (1 * 2 + length l)%nat.
  by rewrite Nat.div_add_l.
Qed.

End NibblesFacts.

Import RLPFacts NibblesFacts.

(** ** The logical trie *)

(** The trie as a term: what the nodes reachable from the root say, with
    every child reference replaced by the child itself. [TEmpty] is the
    empty trie and the unused slot of a branch. *)
Inductive tree :=
| TEmpty
| TLeaf (k : Nibbles) (v : bytes)
| TExt (k : Nibbles) (c : tree)
| TBranch (cs : list tree) (v : bytes).

Definition is_branch (t : tree) : bool :=
  match t with
  | TBranch _ _ => true
  | _ => false
  end.

Definition is_empty (t : tree) : bool :=
  match t with
  | TEmpty => true
  | _ => false
  end.

Section Logical.
Variable hashfn : bytes -> bytes.

(** The reference [_formatNode] returns for a node below the top level. *)
Definition embed (r : item) : item :=
  match r with
  | Str _ => r
  | Lst _ =>
      if (32 <=? length (RLP.encode r))%nat then Str (hashfn (RLP.encode r))
      else r
  end.

(** The raw form of the node at the top of a tree. *)
Fixpoint raw_of (t : tree) : item :=
  match t with
  | TEmpty => Node.null
  | TLeaf k v => Lst [Str (encodedKey k true); Str v]
  | TExt k c => Lst [Str (encodedKey k false); embed (raw_of c)]
  | TBranch cs v => Lst (map (fun c => embed (raw_of c)) cs ++ [Str v])
  end.

Definition ref_of (t : tree) : item := embed (raw_of t).

Definition body_of (t : tree) : bytes := RLP.encode (raw_of t).

Definition node_of (t : tree) : TrieNode :=
  match t with
  | TEmpty => BranchNode [] []
  | TLeaf k v => LeafNode k v
  | TExt k c => ExtensionNode k (ref_of c)
  | TBranch cs v => BranchNode (map ref_of cs) v
  end.

(** The bodies the store must hold under their hashes for the nodes of a
    tree below the top level. *)
Definition own_blob (t : tree) : list bytes :=
  if (32 <=? length (body_of t))%nat then [body_of t] else [].

Fixpoint blobs (t : tree) : list bytes :=
  match t with
  | TEmpty => []
  | TLeaf _ _ => own_blob t
  | TExt _ c => own_blob t ++ blobs c
  | TBranch cs _ => own_blob t ++ concat (map blobs cs)
  end.

(** The top node is stored whatever its size. *)
Definition top_blobs (t : tree) : list bytes :=
  match t with
  | TEmpty => []
  | _ => body_of t :: blobs t
  end.

(** A trie (root and store) holds the tree [t]. *)
Definition holds {D} `{!DB D} (T : Trie D) (t : tree) : Prop :=
  root T = hashfn (body_of t)
  /\ Forall (fun b => db_get (db T) (hashfn b) = Some b) (top_blobs t).

(** The hash function does not collide on a list of byte strings. *)
Definition collision_free (l : list bytes) : Prop :=
  forall a b, a ∈ l -> b ∈ l -> hashfn a = hashfn b -> a = b.

End Logical.

(** Keys and values as the byte arrays of the platform allow them. *)
Definition size_ok (n : nat) : Prop := N.of_nat n < 2 ^ 32.

(** Well-formed trees: nibbles below sixteen, sixteen slots in a branch,
    no empty value in a leaf, no empty key in an extension and a branch
    under it, at least two entries in a branch. *)
Definition entries (cs : list tree) (v : bytes) : nat :=
  (length (filter (fun c => is_empty c = false) cs)
   + (if decide (v = []) then 0 else 1))%nat.

Inductive wf : tree -> Prop :=
| wf_empty : wf TEmpty
| wf_leaf k v :
    Forall (fun n => (n < 16)%nat) k -> size_ok (length k) ->
    v <> [] -> size_ok (length v) ->
    wf (TLeaf k v)
| wf_ext k c :
    Forall (fun n => (n < 16)%nat) k -> size_ok (length k) ->
    k <> [] -> is_branch c = true -> wf c ->
    wf (TExt k c)
| wf_branch cs v :
    length cs = 16%nat -> Forall wf cs -> size_ok (length v) ->
    (2 <= entries cs v)%nat ->
    wf (TBranch cs v).

Lemma tree_ind' (P : tree -> Prop)
    (HEmpty : P TEmpty)
    (HLeaf : forall k v, P (TLeaf k v))
    (HExt : forall k c, P c -> P (TExt k c))
    (HBranch : forall cs v, Forall P cs -> P (TBranch cs v)) :
  forall t, P t.
Proof.
  fix IH 1. intros [|k v|k c|cs v]; [done|apply HLeaf|apply HExt, IH|].
  apply HBranch. induction cs as [|c cs IHcs]; constructor; [apply IH|apply IHcs].
Qed.

Section Codec.
Variable hashfn : bytes -> bytes.
Hypothesis hash_length : forall msg, length (hashfn msg) = 32%nat.

Import RLP.

Lemma encodeLength_length (n : nat) (offset : N) :
  (1 <= length (encodeLength n offset) <= 9)%nat.
Proof.
  unfold encodeLength. destruct (_ <? 56)%nat; [simpl; lia|].
  cbn [length]. pose proof (be_digits_length 8 (N.of_nat n)).
  unfold be_bytes. lia.
Qed.

Lemma encode_Str_length (b : bytes) :
  (length b <= length (encode (Str b)) <= length b + 9)%nat.
Proof.
  assert (H : encode (Str b) = b \/
              encode (Str b) = encodeLength (length b) 128 ++ b).
  { destruct b as [|x [|y b]]; [by right| |by right].
    simpl. destruct (Byte.to_N x <? 128); [by left|by right]. }
  destruct H as [->| ->]; [lia|].
  rewrite length_app. pose proof (encodeLength_length (length b) 128). lia.
Qed.

Lemma encode_Lst_bounds (l : list item) :
  (length (concat (map encode l)) < length (encode (Lst l))
   <= length (concat (map encode l)) + 9)%nat.
Proof.
  cbn [encode]. rewrite length_app.
  pose proof (encodeLength_length (length (concat (map encode l))) 192). lia.
Qed.

Lemma encode_hash_length (msg : bytes) :
  length (encode (Str (hashfn msg))) = 33%nat.
Proof.
  pose proof (hash_length msg) as Hl.
  assert (H : encode (Str (hashfn msg))
              = encodeLength (length (hashfn msg)) 128 ++ hashfn msg).
  { destruct (hashfn msg) as [|x [|y b]]; simpl in Hl; try lia. done. }
  rewrite H, length_app, Hl. done.
Qed.

(** A reference takes at most 33 bytes. *)
Lemma ref_of_length (t : tree) :
  (length (encode (ref_of hashfn t)) <= 33)%nat.
Proof.
  unfold ref_of. destruct (raw_of hashfn t) as [b|l] eqn:Hr.
  - destruct t; simpl in Hr; try discriminate.
    injection Hr as <-. simpl. lia.
  - unfold embed. destruct (_ <=? _)%nat eqn:E.
    + rewrite encode_hash_length. lia.
    + apply Nat.leb_gt in E. lia.
Qed.

Lemma concat_refs_length (cs : list tree) :
  (length (concat (map encode (map (fun c => embed hashfn (raw_of hashfn c)) cs)))
   <= 33 * length cs)%nat.
Proof.
  induction cs as [|c cs IH]; simpl; [lia|].
  rewrite length_app. pose proof (ref_of_length c). unfold ref_of in *. lia.
Qed.

Lemma encodedKey_length (k : Nibbles) (t : bool) :
  (length (encodedKey k t) <= length k)%nat \/ (length (encodedKey k t) <= 1)%nat.
Proof.
  unfold encodedKey. rewrite nibblesToBuffer_length.
  unfold addHexPrefix. destruct (Nat.odd (length k)); simpl length.
  - destruct (length k) as [|n]; [right; simpl; lia|left].
    pose proof (Nat.Div0.div_le_upper_bound (S (S n)) 2 (S n)). lia.
  - destruct (length k) as [|n]; [right; simpl; lia|left].
    change (S (S (S n))) with (1 * 2 + S n)%nat. rewrite Nat.div_add_l by lia.
    pose proof (Nat.Div0.div_le_upper_bound (S n) 2 n).
    destruct n; [simpl; lia|]. lia.
Qed.

Lemma encode_pair_length (a b : item) :
  (length (encode (Lst [a; b])) <= length (encode a) + length (encode b) + 9)%nat.
Proof.
  pose proof (encode_Lst_bounds [a; b]) as Hl.
  cbn [map concat] in Hl. rewrite !length_app in Hl. cbn [length] in Hl. lia.
Qed.

(** Every node of a well-formed tree encodes within the range of the
    length headers. *)
Lemma body_of_bound (t : tree) :
  wf t -> N.of_nat (length (body_of hashfn t)) < 2 ^ 64.
Proof.
  intros Hwf. unfold body_of.
  assert (H32 : (2 ^ 32 : N) = 4294967296) by done.
  assert (H64 : (2 ^ 64 : N) = 18446744073709551616) by done.
  destruct Hwf as [|k v Hk Hks Hv Hvs|k c Hk Hks _ _ _|cs v Hlen _ Hvs _];
    unfold size_ok in *.
  - simpl. lia.
  - cbn [raw_of]. pose proof (encode_pair_length (Str (encodedKey k true)) (Str v)).
    pose proof (encode_Str_length (encodedKey k true)).
    pose proof (encode_Str_length v).
    pose proof (encodedKey_length k true). lia.
  - cbn [raw_of].
    pose proof (encode_pair_length (Str (encodedKey k false))
                  (embed hashfn (raw_of hashfn c))).
    pose proof (encode_Str_length (encodedKey k false)).
    pose proof (ref_of_length c) as Hr. unfold ref_of in Hr.
    pose proof (encodedKey_length k false). lia.
  - cbn [raw_of].
    pose proof (encode_Lst_bounds (map (fun c => embed hashfn (raw_of hashfn c)) cs ++ [Str v])) as Hl.
    rewrite map_app, concat_app, length_app in Hl.
    cbn [map concat] in Hl. rewrite length_app in Hl. cbn [length] in Hl.
    pose proof (concat_refs_length cs).
    pose proof (encode_Str_length v). lia.
Qed.

Lemma wf_ext_inv (k : Nibbles) (c : tree) :
  wf (TExt k c) ->
  nibbles_ok k /\ size_ok (length k) /\ k <> [] /\ is_branch c = true /\ wf c.
Proof. inversion 1; subst. done. Qed.

Lemma wf_leaf_inv (k : Nibbles) (v : bytes) :
  wf (TLeaf k v) -> nibbles_ok k /\ size_ok (length k) /\ v <> [] /\ size_ok (length v).
Proof. inversion 1; subst. done. Qed.

Lemma wf_branch_inv (cs : list tree) (v : bytes) :
  wf (TBranch cs v) ->
  length cs = 16%nat /\ Forall wf cs /\ size_ok (length v) /\ (2 <= entries cs v)%nat.
Proof. inversion 1; subst. done. Qed.

Lemma raw_of_node_of (t : tree) :
  t <> TEmpty -> Node.raw (node_of hashfn t) = raw_of hashfn t.
Proof. by destruct t. Qed.

Lemma body_of_serialize (t : tree) :
  t <> TEmpty -> serialize (node_of hashfn t) = body_of hashfn t.
Proof. intros Ht. unfold serialize, body_of. by rewrite raw_of_node_of. Qed.

(** The raw form of a node decodes to the node. *)
Lemma decodeRawNode_raw_of (t : tree) :
  wf t -> t <> TEmpty ->
  exists l, raw_of hashfn t = Lst l /\ decodeRawNode l = Ret (node_of hashfn t).
Proof.
  intros Hwf Ht. destruct t as [|k v|k c|cs v]; [done| | |].
  - apply wf_leaf_inv in Hwf as (Hk & _). eexists. split; [done|].
    unfold decodeRawNode. cbn [length Nat.eqb].
    rewrite encodedKey_decoded by done.
    by rewrite isTerminator_addHexPrefix, removeHexPrefix_addHexPrefix.
  - apply wf_ext_inv in Hwf as (Hk & _). eexists. split; [done|].
    unfold decodeRawNode. cbn [length Nat.eqb].
    rewrite encodedKey_decoded by done.
    by rewrite isTerminator_addHexPrefix, removeHexPrefix_addHexPrefix.
  - apply wf_branch_inv in Hwf as (Hlen & _). eexists. split; [done|].
    unfold decodeRawNode.
    rewrite length_app, length_map, Hlen. cbn [length Nat.add Nat.eqb].
    rewrite app_nth2 by (rewrite length_map; lia).
    rewrite length_map, Hlen. cbn [Nat.sub nth as_buffer].
    rewrite take_app_length' by (rewrite length_map; lia). done.
Qed.

Lemma decodeNode_body_of (t : tree) :
  wf t -> t <> TEmpty -> decodeNode (body_of hashfn t) = Ret (node_of hashfn t).
Proof.
  intros Hwf Ht. unfold decodeNode, body_of.
  rewrite decode_encode by (by apply body_of_bound).
  by destruct (decodeRawNode_raw_of t Hwf Ht) as (l & -> & ->).
Qed.

Section Lookup.
Context {D : Type} `{!DB D}.

(** The node a reference names is found and decoded, once the bodies of
    the tree are in the store. *)
Lemma lookupNode_ref_of (T : Trie D) (t : tree) :
  wf t -> t <> TEmpty ->
  Forall (fun b => db_get (db T) (hashfn b) = Some b) (blobs hashfn t) ->
  lookupNode (ref_of hashfn t) T = (Ret (node_of hashfn t), T).
Proof.
  intros Hwf Ht Hst.
  destruct (decodeRawNode_raw_of t Hwf Ht) as (l & Hraw & Hdec).
  unfold ref_of, embed. rewrite Hraw.
  destruct (_ <=? _)%nat eqn:E.
  - assert (Hb : body_of hashfn t ∈ blobs hashfn t).
    { unfold body_of. rewrite Hraw.
      assert (Hown : own_blob hashfn t = [encode (Lst l)]).
      { unfold own_blob, body_of. by rewrite Hraw, E. }
      destruct t; [done|..]; cbn [blobs]; rewrite Hown; set_solver. }
    rewrite list.Forall_forall in Hst. specialize (Hst _ Hb).
    unfold body_of in Hst. rewrite Hraw in Hst.
    unfold lookupNode. rewrite Hst. f_equal.
    rewrite <- Hraw. by apply decodeNode_body_of.
  - unfold lookupNode, lift. by rewrite Hdec.
Qed.

Lemma lookupNode_root (T : Trie D) (t : tree) :
  wf t -> t <> TEmpty -> holds hashfn T t ->
  lookupNode (Str (root T)) T = (Ret (node_of hashfn t), T).
Proof.
  intros Hwf Ht [Hroot Hst]. unfold lookupNode.
  rewrite list.Forall_forall in Hst.
  rewrite Hroot, (Hst (body_of hashfn t)); [|destruct t; [done|..]; set_solver].
  by rewrite decodeNode_body_of.
Qed.

End Lookup.

End Codec.

Local Close Scope N_scope.
Local Close Scope trie_scope.

(** The way down a tree: the extensions and the branches passed, each
    branch with the slot taken. *)
Inductive frame :=
| FExt (k : Nibbles)
| FBranch (cs : list tree) (v : bytes) (i : nat).

Definition plug1 (f : frame) (s : tree) : tree :=
  match f with
  | FExt k => TExt k s
  | FBranch cs v i => TBranch (<[ i := s ]> cs) v
  end.

(** The tree with [s] at the end of the way [fs]. *)
Definition plug (fs : list frame) (s : tree) : tree := foldr plug1 s fs.

Definition frame_key (f : frame) : Nibbles :=
  match f with
  | FExt k => k
  | FBranch _ _ i => [i]
  end.

Definition frames_key (fs : list frame) : Nibbles := concat (map frame_key fs).

Definition frame_ok (f : frame) : Prop :=
  match f with
  | FExt _ => True
  | FBranch cs _ i => (i < length cs)%nat
  end.

(** Where [findPath] stops for a key that still has [rest] to go. *)
Definition terminal (s : tree) (rest : Nibbles) : Prop :=
  match s with
  | TEmpty => False
  | TLeaf _ _ => True
  | TExt k _ => matchingNibbleLength rest k <> length k
  | TBranch cs _ =>
      match rest with
      | [] => True
      | i :: _ => cs !! i = Some TEmpty
      end
  end.

(** ** Common prefixes *)

Lemma mnl_app_l (a x : Nibbles) : matchingNibbleLength a (a ++ x) = length a.
Proof. induction a as [|n a IH]; [by destruct x|]. simpl. by rewrite Nat.eqb_refl, IH. Qed.

Lemma mnl_app_r (a x : Nibbles) : matchingNibbleLength (a ++ x) a = length a.
Proof. induction a as [|n a IH]; [by destruct x|]. simpl. by rewrite Nat.eqb_refl, IH. Qed.

Lemma mnl_refl (a : Nibbles) : matchingNibbleLength a a = length a.
Proof. induction a as [|n a IH]; [done|]. simpl. by rewrite Nat.eqb_refl, IH. Qed.

Lemma mnl_sym (a b : Nibbles) : matchingNibbleLength a b = matchingNibbleLength b a.
Proof.
  revert b. induction a as [|n a IH]; intros [|m b]; simpl; try done.
  rewrite (Nat.eqb_sym m n). destruct (n =? m)%nat; [by rewrite IH|done].
Qed.

Lemma mnl_le_l (a b : Nibbles) : (matchingNibbleLength a b <= length a)%nat.
Proof.
  revert b. induction a as [|n a IH]; intros [|m b]; simpl; try lia.
  destruct (n =? m)%nat; [specialize (IH b)|]; lia.
Qed.

Lemma mnl_le_r (a b : Nibbles) : (matchingNibbleLength a b <= length b)%nat.
Proof. rewrite mnl_sym. apply mnl_le_l. Qed.

Lemma mnl_take (a b : Nibbles) :
  take (matchingNibbleLength a b) a = take (matchingNibbleLength a b) b.
Proof.
  revert b. induction a as [|n a IH]; intros [|m b]; simpl; try done.
  destruct (n =? m)%nat eqn:E; [|done]. apply Nat.eqb_eq in E. subst.
  simpl. by rewrite IH.
Qed.

(** Past the common prefix the two keys differ at once. *)
Lemma mnl_drop (a b : Nibbles) :
  match drop (matchingNibbleLength a b) a, drop (matchingNibbleLength a b) b with
  | x :: _, y :: _ => x <> y
  | _, _ => True
  end.
Proof.
  revert b. induction a as [|n a IH]; intros [|m b]; simpl; try done.
  destruct (n =? m)%nat eqn:E; [apply IH|]. simpl. by apply Nat.eqb_neq in E.
Qed.

Lemma mnl_full_prefix (a b : Nibbles) :
  matchingNibbleLength a b = length b -> a = b ++ drop (length b) a.
Proof.
  intros H. rewrite <- (take_drop (length b) a) at 1. f_equal.
  rewrite <- H, mnl_take, H. apply firstn_all.
Qed.

Lemma doKeysMatch_eq (a b : Nibbles) : doKeysMatch a b = true <-> a = b.
Proof.
  unfold doKeysMatch. rewrite andb_true_iff, !Nat.eqb_eq. split.
  - intros [Ha Hb]. pose proof (mnl_take a b) as Ht.
    rewrite Ha in Ht at 1. rewrite Hb in Ht. by rewrite !firstn_all in Ht.
  - intros ->. by rewrite mnl_refl.
Qed.

Lemma doKeysMatch_neq (a b : Nibbles) : a <> b -> doKeysMatch a b = false.
Proof.
  intros H. destruct (doKeysMatch a b) eqn:E; [|done].
  by apply doKeysMatch_eq in E.
Qed.

(** ** The way down *)

Lemma plug_app (fs1 fs2 : list frame) (s : tree) :
  plug (fs1 ++ fs2) s = plug fs1 (plug fs2 s).
Proof. unfold plug. by rewrite foldr_app. Qed.

Lemma frames_key_app (fs1 fs2 : list frame) :
  frames_key (fs1 ++ fs2) = frames_key fs1 ++ frames_key fs2.
Proof. unfold frames_key. by rewrite map_app, concat_app. Qed.

Lemma plug_nonempty (fs : list frame) (s : tree) :
  s <> TEmpty -> plug fs s <> TEmpty.
Proof. intros Hs. destruct fs as [|[] fs]; done. Qed.

Section Path.
Variable hashfn : bytes -> bytes.
Hypothesis hash_length : forall msg, length (hashfn msg) = 32%nat.

(** The nodes on the way, from the top. *)
Fixpoint path_nodes (fs : list frame) (s : tree) : list TrieNode :=
  match fs with
  | [] => []
  | f :: fs' => node_of hashfn (plug (f :: fs') s) :: path_nodes fs' s
  end.

Lemma path_nodes_length fs s : length (path_nodes fs s) = length fs.
Proof. induction fs; simpl; congruence. Qed.

Lemma raw_of_Lst (t : tree) :
  t <> TEmpty -> exists x l, raw_of hashfn t = Lst (x :: l).
Proof.
  destruct t as [|k v|k c|[|c cs] v]; [done|..]; intros _; simpl; eauto.
Qed.

(** The reference to a tree is the unused slot exactly for the empty tree. *)
Lemma ref_of_empty : ref_of hashfn TEmpty = Node.null.
Proof. done. Qed.

Lemma ref_of_nonempty (t : tree) :
  t <> TEmpty -> is_empty_ref (ref_of hashfn t) = false.
Proof.
  intros Ht. destruct (raw_of_Lst t Ht) as (x & l & Hr).
  unfold ref_of, embed. rewrite Hr. destruct (_ <=? _)%nat; [|done].
  pose proof (hash_length (RLP.encode (Lst (x :: l)))) as Hl.
  by destruct (hashfn _).
Qed.

Lemma getBranch_refs (cs : list tree) (i : nat) (c : tree) :
  cs !! i = Some c ->
  getBranch (map (ref_of hashfn) cs) i
    = if is_empty c then None else Some (ref_of hashfn c).
Proof.
  intros Hc. unfold getBranch. rewrite list_lookup_fmap, Hc. simpl.
  destruct c; [done|..]; by rewrite ref_of_nonempty.
Qed.

Lemma blobs_plug1 (f : frame) (s : tree) (b : bytes) :
  frame_ok f -> b ∈ blobs hashfn s -> b ∈ blobs hashfn (plug1 f s).
Proof.
  intros Hok Hb. destruct f as [k|cs v i]; simpl in *.
  - set_solver.
  - apply elem_of_app. right. apply list_elem_of_In, in_concat.
    exists (blobs hashfn s). split; [|by apply list_elem_of_In].
    apply in_map, list_elem_of_In. apply list_elem_of_lookup. exists i.
    by apply list_lookup_insert_eq.
Qed.

Lemma wf_plug1 (f : frame) (s : tree) :
  frame_ok f -> wf (plug1 f s) -> wf s.
Proof.
  intros Hok Hwf. destruct f as [k|cs v i]; simpl in *.
  - by apply wf_ext_inv in Hwf as (_ & _ & _ & _ & Hwf).
  - apply wf_branch_inv in Hwf as (_ & Hall & _).
    rewrite list.Forall_forall in Hall. apply Hall.
    apply list_elem_of_lookup. exists i. by apply list_lookup_insert_eq.
Qed.

Lemma wf_plug (fs : list frame) (s : tree) :
  Forall frame_ok fs -> wf (plug fs s) -> wf s.
Proof.
  induction 1 as [|f fs Hf _ IH]; [done|]. intros Hwf.
  apply IH. by apply (wf_plug1 f).
Qed.

Section Walk.
Context {D : Type} `{!DB D}.
Implicit Types T : Trie D.

(** The bodies of the nodes on the way, below the top one, are in the
    store. *)
Definition own_stored T (t : tree) : Prop :=
  Forall (fun b => db_get (db T) (hashfn b) = Some b) (own_blob hashfn t).

Fixpoint path_stored T (fs : list frame) (s : tree) : Prop :=
  match fs with
  | [] => True
  | f :: fs' => own_stored T (plug fs' s) /\ path_stored T fs' s
  end.

Definition stored T (t : tree) : Prop :=
  Forall (fun b => db_get (db T) (hashfn b) = Some b) (blobs hashfn t).

Lemma own_blob_blobs (t : tree) (b : bytes) :
  b ∈ own_blob hashfn t -> b ∈ blobs hashfn t.
Proof.
  destruct t; cbn [blobs]; [|done|set_solver..].
  unfold own_blob, body_of. simpl. set_solver.
Qed.

Lemma stored_own T t : stored T t -> own_stored T t.
Proof.
  unfold stored, own_stored. rewrite !list.Forall_forall. intros H b Hb.
  by apply H, own_blob_blobs.
Qed.

Lemma stored_plug1 T f s : frame_ok f -> stored T (plug1 f s) -> stored T s.
Proof.
  unfold stored. rewrite !list.Forall_forall. intros Hok H b Hb.
  apply H. by apply blobs_plug1.
Qed.

Lemma stored_path T fs s :
  Forall frame_ok fs -> stored T (plug fs s) -> path_stored T fs s.
Proof.
  induction 1 as [|f fs Hf _ IH]; [done|]. intros Hst.
  apply (stored_plug1 T f) in Hst; [|done].
  split; [by apply stored_own | by apply IH].
Qed.

Lemma lookupNode_ref_of_own T (t : tree) :
  wf t -> t <> TEmpty -> own_stored T t ->
  lookupNode (ref_of hashfn t) T = (Ret (node_of hashfn t), T).
Proof.
  intros Hwf Ht Hst.
  destruct (decodeRawNode_raw_of hashfn t Hwf Ht) as (l & Hraw & Hdec).
  unfold ref_of, embed. rewrite Hraw.
  destruct (_ <=? _)%nat eqn:E.
  - assert (Hown : own_blob hashfn t = [RLP.encode (Lst l)]).
    { unfold own_blob, body_of. by rewrite Hraw, E. }
    unfold own_stored in Hst. rewrite Hown, Forall_singleton in Hst.
    unfold lookupNode. rewrite Hst. f_equal.
    rewrite <- Hraw. by apply decodeNode_body_of.
  - unfold lookupNode, lift. by rewrite Hdec.
Qed.

(** The walk goes down the way [fs], visiting its nodes. *)
Lemma walk_frames (fs : list frame) :
  forall (s : tree) (fuel : nat) (tk : Nibbles) (tim : bool) (r : item)
         (kp : Nibbles) (stk : list TrieNode) (rest : Nibbles) T,
    tk = kp ++ frames_key fs ++ rest ->
    Forall frame_ok fs -> wf (plug fs s) -> s <> TEmpty ->
    path_stored T fs s ->
    lookupNode r T = (Ret (node_of hashfn (plug fs s)), T) ->
    exists r',
      lookupNode r' T = (Ret (node_of hashfn s), T)
      /\ walk (length fs + fuel) tk tim r kp stk T
         = walk fuel tk tim r' (kp ++ frames_key fs) (stk ++ path_nodes fs s) T.
Proof.
  induction fs as [|f fs IH]; intros s fuel tk tim r kp stk rest T Htk Hok Hwf Hs Hst Hr.
  - exists r. split; [done|]. simpl. unfold frames_key. simpl. by rewrite !app_nil_r.
  - inversion Hok as [|? ? Hf Hok']; subst.
    assert (Hsub : plug fs s <> TEmpty) by by apply plug_nonempty.
    assert (Hwf' : wf (plug fs s)) by by apply (wf_plug1 f).
    destruct Hst as [Hown Hst'].
    assert (Hr' : lookupNode (ref_of hashfn (plug fs s)) T
                  = (Ret (node_of hashfn (plug fs s)), T))
      by by apply lookupNode_ref_of_own.
    change (length (f :: fs) + fuel)%nat with (S (length fs + fuel)).
    cbn [walk]. rewrite Hr.
    change (plug (f :: fs) s) with (plug1 f (plug fs s)).
    rewrite mnl_app_l, drop_app_length.
    change (frames_key (f :: fs)) with (frame_key f ++ frames_key fs).
    destruct f as [k|cs v i]; cbn [plug1 node_of frame_key].
    + rewrite <- app_assoc, mnl_app_r. rewrite decide_True by done.
      destruct (IH s fuel (kp ++ (k ++ frames_key fs) ++ rest) tim
                  (ref_of hashfn (plug fs s)) (kp ++ k)
                  (stk ++ [ExtensionNode k (ref_of hashfn (plug fs s))]) rest T)
        as (r' & Hr'' & Hw); try done.
      { by rewrite <- !app_assoc. }
      exists r'. split; [done|]. rewrite <- !app_assoc in Hw. by rewrite Hw.
    + simpl in Hf. cbn [app].
      rewrite (getBranch_refs _ i (plug fs s)) by by apply list_lookup_insert_eq.
      assert (He : is_empty (plug fs s) = false) by by destruct (plug fs s).
      rewrite He.
      destruct (IH s fuel (kp ++ (i :: frames_key fs) ++ rest) tim
                  (ref_of hashfn (plug fs s)) (kp ++ [i])
                  (stk ++ [BranchNode (map (ref_of hashfn) (<[i:=plug fs s]> cs)) v])
                  rest T)
        as (r' & Hr'' & Hw); try done.
      { by rewrite <- !app_assoc. }
      exists r'. split; [done|].
      rewrite <- ?app_assoc in Hw. cbn [app] in Hw |- *. by rewrite Hw.
Qed.

(** What [findPath] reports at the node it stops at. *)
Definition found (s : tree) (rest : Nibbles) : option TrieNode * Nibbles :=
  match s with
  | TLeaf k _ =>
      if decide (rest = k) then (Some (node_of hashfn s), []) else (None, rest)
  | TBranch _ _ =>
      match rest with
      | [] => (Some (node_of hashfn s), [])
      | _ => (None, rest)
      end
  | _ => (None, rest)
  end.

Lemma walk_terminal (s : tree) (fuel : nat) (tk : Nibbles) (tim : bool)
    (r : item) (kp : Nibbles) (stk : list TrieNode) (rest : Nibbles) T :
  tk = kp ++ rest -> terminal s rest ->
  lookupNode r T = (Ret (node_of hashfn s), T) ->
  walk (S fuel) tk tim r kp stk T
    = (Ret (mkPath (found s rest).1 (found s rest).2 (stk ++ [node_of hashfn s])), T).
Proof.
  intros -> Hterm Hr. cbn [walk]. rewrite Hr, mnl_app_l, drop_app_length.
  destruct s as [|k v|k c|cs v]; [done|..]; cbn [node_of found].
  - destruct (decide (rest = k)) as [->|Hne].
    + by rewrite (proj2 (doKeysMatch_eq k k)).
    + by rewrite doKeysMatch_neq.
  - simpl in Hterm. by rewrite decide_False.
  - destruct rest as [|i rest]; [done|]. simpl in Hterm.
    by rewrite (getBranch_refs _ _ _ Hterm).
Qed.

(** The nodes of the way and the node at its end: the stack of
    [findPath]. *)
Definition path_stack (fs : list frame) (s : tree) : list TrieNode :=
  path_nodes fs s ++ [node_of hashfn s].

Lemma findPath_spec (fs : list frame) (s : tree) (rest : Nibbles) (fuel : nat)
    (key : bytes) (tim : bool) T :
  bufferToNibbles key = frames_key fs ++ rest ->
  Forall frame_ok fs -> wf (plug fs s) -> s <> TEmpty -> terminal s rest ->
  path_stored T fs s ->
  lookupNode (Str (root T)) T = (Ret (node_of hashfn (plug fs s)), T) ->
  (length fs < fuel)%nat ->
  findPath fuel key tim T
    = (Ret (mkPath (found s rest).1 (found s rest).2 (path_stack fs s)), T).
Proof.
  intros Hkey Hok Hwf Hs Hterm Hst Hroot Hfuel. unfold findPath.
  replace fuel with (length fs + S (fuel - length fs - 1))%nat by lia.
  destruct (walk_frames fs s (S (fuel - length fs - 1)) (bufferToNibbles key) tim
              (Str (root T)) [] [] rest T) as (r' & Hr' & ->); try done.
  by apply walk_terminal.
Qed.

End Walk.

(** Every key has its way down a well-formed tree. *)
Lemma decompose (t : tree) :
  wf t -> t <> TEmpty ->
  forall key, nibbles_ok key ->
    exists fs s rest,
      t = plug fs s /\ key = frames_key fs ++ rest /\ Forall frame_ok fs
      /\ s <> TEmpty /\ terminal s rest /\ (length fs <= length key)%nat.
Proof.
  induction t as [|k v|k c IH|cs v IH] using tree_ind'; intros Hwf Ht key Hkey.
  - done.
  - exists [], (TLeaf k v), key. split_and!; try done; simpl; lia.
  - apply wf_ext_inv in Hwf as (Hk & _ & Hkne & Hbr & Hwfc).
    destruct (decide (matchingNibbleLength key k = length k)) as [Hm|Hm].
    + assert (Hc : c <> TEmpty) by by destruct c.
      assert (Hkey' : nibbles_ok (drop (length k) key)) by by apply Forall_drop.
      destruct (IH Hwfc Hc _ Hkey') as (fs & s & rest & -> & Hd & Hok & Hs & Hterm & Hlen).
      exists (FExt k :: fs), s, rest. split_and!; try done.
      * rewrite (mnl_full_prefix key k Hm) at 1.
        change (frames_key (FExt k :: fs)) with (k ++ frames_key fs).
        by rewrite <- app_assoc, <- Hd.
      * by constructor.
      * rewrite length_drop in Hlen. pose proof (mnl_le_l key k).
        assert (length k <> 0%nat) by by destruct k.
        cbn [length]. lia.
    + exists [], (TExt k c), key. split_and!; try done; simpl; lia.
  - apply wf_branch_inv in Hwf as (Hlen & Hall & _).
    destruct key as [|i key].
    { exists [], (TBranch cs v), []. split_and!; try done. }
    inversion Hkey as [|? ? Hi Hkey']; subst.
    destruct (lookup_lt_is_Some_2 cs i) as [c Hc]; [lia|].
    assert (Hcase : c = TEmpty \/ c <> TEmpty) by (destruct c; auto).
    destruct Hcase as [->|Hne].
    { exists [], (TBranch cs v), (i :: key). split_and!; try done; simpl; lia. }
    rewrite list.Forall_forall in IH, Hall.
    assert (Hin : c ∈ cs) by (apply list_elem_of_lookup; eauto).
    destruct (IH c Hin (Hall c Hin) Hne key Hkey')
      as (fs & s & rest & -> & -> & Hok & Hs & Hterm & Hlen').
    exists (FBranch cs v i :: fs), s, rest. split_and!; try done.
    + simpl. by rewrite list_insert_id.
    + constructor; [simpl; lia|done].
    + simpl. rewrite length_app in *. lia.
Qed.

End Path.

(** The laws of a store: a read returns the last value written under the
    key, a batch is its operations in order. *)
Definition db_apply {D} `{!DB D} (d : D) (op : BatchDBOp) : D :=
  match op with
  | PutBatch k v => db_put k v d
  | DelBatch k => db_del k d
  end.

Class DBLaws (D : Type) `{!DB D} := {
  db_get_put k v d k' :
    db_get (db_put k v d) k' = if decide (k' = k) then Some v else db_get d k';
  db_get_del k d k' :
    db_get (db_del k d) k' = if decide (k' = k) then None else db_get d k';
  db_batch_foldl ops d : db_batch ops d = foldl db_apply d ops;
}.

(** The tree after [put]. *)
Definition shrink (old : tree) (k : Nibbles) : tree :=
  match old with
  | TLeaf _ v => TLeaf k v
  | TExt _ c => if decide (k = []) then c else TExt k c
  | _ => old
  end.

Definition leaf_value (old : tree) : bytes :=
  match old with
  | TLeaf _ v => v
  | _ => []
  end.

Definition is_ext (t : tree) : bool :=
  match t with
  | TExt _ _ => true
  | _ => false
  end.

Definition empty_slots : list tree := replicate 16 TEmpty.

(** Where the key [okey] of an old leaf or extension and the rest of the
    new key part ways, [_updateNode] makes a branch under an extension over
    what the two share: the frames pushed, the node at their end, and the
    old node as it is formatted with its key cut. *)
Definition diverge (old : tree) (okey rest : Nibbles) (v : bytes)
    : list frame * tree * list tree :=
  let m := matchingNibbleLength okey rest in
  let pre := if decide (m = 0%nat) then [] else [FExt (take m okey)] in
  let '(cs, bv, saved) :=
    match drop m okey with
    | bk :: okey' =>
        (<[ bk := shrink old okey' ]> empty_slots, [],
         if bool_decide (okey' = []) && is_ext old then [] else [shrink old okey'])
    | [] => (empty_slots, leaf_value old, [])
    end in
  match drop m rest with
  | j :: rest' => (pre ++ [FBranch cs bv j], TLeaf rest' v, saved)
  | [] => (pre, TBranch cs v, saved)
  end.

Definition split (old : tree) (okey rest : Nibbles) (v : bytes) : tree :=
  plug (diverge old okey rest v).1.1 (diverge old okey rest v).1.2.

Fixpoint insert (t : tree) (key : Nibbles) (v : bytes) : tree :=
  match t with
  | TEmpty => TLeaf key v
  | TLeaf lk lv =>
      if decide (key = lk) then TLeaf lk v else split t lk key v
  | TExt ek c =>
      if decide (matchingNibbleLength key ek = length ek)
      then TExt ek (insert c (drop (length ek) key) v)
      else split t ek key v
  | TBranch cs bv =>
      match key with
      | [] => TBranch cs v
      | i :: key' => TBranch (alter (fun c => insert c key' v) i cs) bv
      end
  end.

(** What [_updateNode] puts in place of the node [s] the path stopped at
    with [rest] of the key to go. *)
Definition extend (s : tree) (rest : Nibbles) (v : bytes)
    : list frame * tree * list tree :=
  match s with
  | TEmpty => ([], TLeaf rest v, [])
  | TLeaf lk lv =>
      if decide (rest = lk) then ([], TLeaf lk v, []) else diverge s lk rest v
  | TExt ek c => diverge s ek rest v
  | TBranch cs bv =>
      match rest with
      | [] => ([], TBranch cs v, [])
      | i :: rest' => ([FBranch cs bv i], TLeaf rest' v, [])
      end
  end.

(** The part of the key a stack ends with: the key of its last node when
    that is a leaf. *)
Definition tail_key (t : tree) : Nibbles :=
  match t with
  | TLeaf k _ => k
  | _ => []
  end.

(** The bodies of all the nodes of a tree. *)
Fixpoint bodies (hashfn : bytes -> bytes) (t : tree) : list bytes :=
  match t with
  | TEmpty => []
  | TLeaf _ _ => [body_of hashfn t]
  | TExt _ c => body_of hashfn t :: bodies hashfn c
  | TBranch cs _ => body_of hashfn t :: concat (map (bodies hashfn) cs)
  end.

#[global] Instance MapDB_laws : DBLaws MapDB.
Proof.
  split.
  - intros k v d k'. simpl. rewrite lookup_insert. by repeat case_decide.
  - intros k d k'. simpl. rewrite lookup_delete. by repeat case_decide.
  - intros ops d. simpl. revert d. induction ops as [|op ops IH]; intros d; [done|].
    simpl. rewrite IH. by destruct op.
Qed.

(** ** Insertion into the logical trie *)

Lemma alter_insert_eq {A} (f : A -> A) (l : list A) (i : nat) (x : A) :
  alter f i (<[ i := x ]> l) = <[ i := f x ]> l.
Proof. by rewrite !list_insert_alter, list_alter_alter_eq. Qed.

Lemma insert_plug (fs : list frame) (s : tree) (rest : Nibbles) (v : bytes) :
  Forall frame_ok fs ->
  insert (plug fs s) (frames_key fs ++ rest) v = plug fs (insert s rest v).
Proof.
  induction 1 as [|f fs Hf _ IH]; [done|].
  change (plug (f :: fs) s) with (plug1 f (plug fs s)).
  change (frames_key (f :: fs)) with (frame_key f ++ frames_key fs).
  rewrite <- app_assoc. destruct f as [k|cs bv i]; simpl in *.
  - rewrite mnl_app_r, decide_True by done. by rewrite drop_app_length, IH.
  - f_equal. by rewrite alter_insert_eq, IH.
Qed.

(** ** Saving a stack *)

Lemma pop_snoc {A} (l : list A) (x : A) : pop (l ++ [x]) = Some (l, x).
Proof.
  unfold pop. rewrite reverse_app, reverse_singleton. simpl.
  by rewrite reverse_involutive.
Qed.

Lemma pop_nil {A} : pop (@nil A) = None.
Proof. done. Qed.

Lemma splice_tail_app (K k : Nibbles) : splice_tail (K ++ k) (length k) = K.
Proof.
  unfold splice_tail. rewrite length_app.
  destruct (_ <=? _)%nat eqn:E; [|apply Nat.leb_gt in E; lia].
  replace (length K + length k - length k)%nat with (length K) by lia.
  by rewrite take_app_length.
Qed.

Section Save.
Variable hashfn : bytes -> bytes.
Hypothesis hash_length : forall msg, length (hashfn msg) = 32%nat.
Context {D : Type} `{!DB D}.
Implicit Types T : Trie D.

Definition put_op (b : bytes) : BatchDBOp := PutBatch (hashfn b) b.

(** A node of the stack stands for a frame when it agrees with it outside
    the slot the frame goes through. *)
Definition node_matches (f : frame) (n : TrieNode) : Prop :=
  match f, n with
  | FExt k, ExtensionNode k' _ => k' = k
  | FBranch cs v i, BranchNode brs v' =>
      v' = v /\ <[ i := Node.null ]> brs = <[ i := Node.null ]> (map (ref_of hashfn) cs)
  | _, _ => False
  end.

Definition is_leaf_or_branch (t : tree) : bool :=
  match t with
  | TLeaf _ _ | TBranch _ _ => true
  | _ => false
  end.

Definition saved_ref (top : bool) (t : tree) : item :=
  if top then Str (hashfn (body_of hashfn t)) else ref_of hashfn t.

Definition saved_blob (top : bool) (t : tree) : list bytes :=
  if top then [body_of hashfn t] else own_blob hashfn t.

Lemma formatNode_tree T (t : tree) (top : bool) (ops : list BatchDBOp) :
  t <> TEmpty ->
  _formatNode hashfn T (node_of hashfn t) top ops false
    = (saved_ref top t, ops ++ map put_op (saved_blob top t)).
Proof.
  intros Ht. unfold _formatNode, hash.
  rewrite body_of_serialize, raw_of_node_of by done.
  unfold saved_ref, saved_blob, own_blob, ref_of.
  destruct (raw_of_Lst hashfn t Ht) as (x & l & Hr).
  unfold embed, body_of. rewrite Hr.
  destruct (_ <=? _)%nat, top; simpl; try done.
  by rewrite app_nil_r.
Qed.

(** The bodies written for the frames, from the innermost one. *)
Fixpoint frames_blobs (rfs : list frame) (s : tree) : list bytes :=
  match rfs with
  | [] => []
  | f :: rfs' =>
      saved_blob (bool_decide (rfs' = [])) (plug1 f s)
        ++ frames_blobs rfs' (plug1 f s)
  end.

Lemma patch_branch (cs : list tree) (v : bytes) (i : nat) (brs : list item)
    (s : tree) :
  <[ i := Node.null ]> brs = <[ i := Node.null ]> (map (ref_of hashfn) cs) ->
  BranchNode (setBranch brs i (ref_of hashfn s)) v
    = node_of hashfn (plug1 (FBranch cs v i) s).
Proof.
  intros Hbrs. simpl. f_equal. unfold setBranch.
  rewrite <- (list_insert_insert_eq brs i _ Node.null), Hbrs.
  by rewrite list_insert_insert_eq, list_fmap_insert.
Qed.

Lemma saveStack_frames T (rfs : list frame) :
  forall (nodes : list TrieNode) (s : tree) (ops : list BatchDBOp),
    Forall2 node_matches rfs nodes -> Forall frame_ok rfs ->
    s <> TEmpty -> rfs <> [] ->
    _saveStack_loop hashfn T (frames_key (reverse rfs)) nodes
                    (Some (ref_of hashfn s)) ops
      = (Some (Str (hashfn (body_of hashfn (plug (reverse rfs) s)))),
         ops ++ map put_op (frames_blobs rfs s)).
Proof.
  induction rfs as [|f rfs IH]; intros nodes s ops Hm Hok Hs Hne; [done|].
  inversion Hm as [|? n ? nodes' Hf Hm']; subst.
  inversion Hok as [|? ? Hfok Hok']; subst.
  rewrite reverse_cons, frames_key_app, plug_app.
  change (frames_key [f]) with (frame_key f ++ []). rewrite app_nil_r.
  change (plug [f] s) with (plug1 f s).
  assert (Hp : plug1 f s <> TEmpty) by by destruct f.
  assert (Hb : bool_decide (nodes' = []) = bool_decide (rfs = [])).
  { apply bool_decide_ext. split; intros ->.
    - by inversion Hm'.
    - by inversion Hm'. }
  cbn [_saveStack_loop frames_blobs].
  assert (Hstep :
    match n with
    | BranchNode branches v =>
        match pop (frames_key (reverse rfs) ++ frame_key f) with
        | Some (key', branchKey) =>
            (BranchNode (setBranch branches branchKey (ref_of hashfn s)) v, key')
        | None => (n, frames_key (reverse rfs) ++ frame_key f)
        end
    | ExtensionNode k _ =>
        (ExtensionNode k (ref_of hashfn s),
         splice_tail (frames_key (reverse rfs) ++ frame_key f) (length k))
    | LeafNode k _ =>
        (n, splice_tail (frames_key (reverse rfs) ++ frame_key f) (length k))
    end
    = (node_of hashfn (plug1 f s), frames_key (reverse rfs))).
  { destruct f as [k|cs v i], n as [brs v'|k' h|k' v']; simpl in Hf; try done.
    - subst k'. by rewrite splice_tail_app.
    - destruct Hf as [-> Hbrs]. cbn [frame_key]. rewrite pop_snoc.
      by rewrite (patch_branch cs v i brs s Hbrs). }
  assert (Hgoal : forall X : TrieNode * Nibbles,
    X = (node_of hashfn (plug1 f s), frames_key (reverse rfs)) ->
    (let '(node, key0) := X in
     let '(r, opStack) :=
       _formatNode hashfn T node (bool_decide (nodes' = [])) ops false in
     _saveStack_loop hashfn T key0 nodes' (Some r) opStack)
    = (Some (Str (hashfn (body_of hashfn (plug (reverse rfs) (plug1 f s))))),
       ops ++ map put_op (saved_blob (bool_decide (rfs = [])) (plug1 f s)
                          ++ frames_blobs rfs (plug1 f s)))).
  { intros X ->. rewrite formatNode_tree, Hb by done.
    destruct rfs as [|f' rfs].
    - rewrite bool_decide_eq_true_2 by done. inversion Hm'. subst. simpl.
      done.
    - rewrite bool_decide_eq_false_2 by done. cbn [saved_ref saved_blob].
      rewrite IH by done. by rewrite map_app, app_assoc. }
  destruct n as [brs v'|k' h|k' v']; exact (Hgoal _ Hstep).
Qed.

(** The stack handed to [_saveStack] once the frames are in place. *)
Lemma saveStack_loop_tree T (fs : list frame) (nodes : list TrieNode)
    (s : tree) (ops : list BatchDBOp) :
  Forall2 node_matches fs nodes -> Forall frame_ok fs ->
  is_leaf_or_branch s = true ->
  _saveStack_loop hashfn T (frames_key fs ++ tail_key s)
                  (reverse (nodes ++ [node_of hashfn s])) None ops
    = (Some (Str (hashfn (body_of hashfn (plug fs s)))),
       ops ++ map put_op (saved_blob (bool_decide (fs = [])) s
                          ++ frames_blobs (reverse fs) s)).
Proof.
  intros Hm Hok Hs. rewrite reverse_app, reverse_singleton. cbn [app].
  assert (Hne : s <> TEmpty) by by destruct s.
  assert (Hb : bool_decide (reverse nodes = []) = bool_decide (fs = [])).
  { apply bool_decide_ext. split.
    - intros Hr. apply (f_equal reverse) in Hr. rewrite reverse_involutive in Hr.
      simpl in Hr. subst. by inversion Hm.
    - intros ->. by inversion Hm. }
  assert (Hstep :
    _saveStack_loop hashfn T (frames_key fs ++ tail_key s)
                    (node_of hashfn s :: reverse nodes) None ops
    = _saveStack_loop hashfn T (frames_key fs) (reverse nodes)
        (Some (saved_ref (bool_decide (fs = [])) s))
        (ops ++ map put_op (saved_blob (bool_decide (fs = [])) s))).
  { destruct s as [|k v|k c|cs v]; try done; cbn [_saveStack_loop node_of tail_key].
    - rewrite splice_tail_app.
      change (LeafNode k v) with (node_of hashfn (TLeaf k v)).
      by rewrite formatNode_tree, Hb.
    - rewrite app_nil_r.
      change (BranchNode (map (ref_of hashfn) cs) v) with (node_of hashfn (TBranch cs v)).
      by rewrite formatNode_tree, Hb. }
  rewrite Hstep. destruct fs as [|f fs].
  - inversion Hm. subst. done.
  - rewrite bool_decide_eq_false_2 by done. cbn [saved_ref].
    rewrite <- (reverse_involutive (f :: fs)) at 1 2.
    rewrite saveStack_frames; try done.
    + by rewrite map_app, app_assoc.
    + by apply Forall2_reverse.
    + by apply Forall_reverse.
    + intros Hr. apply (f_equal reverse) in Hr. by rewrite reverse_involutive in Hr.
Qed.

End Save.

(** ** [_updateNode] on a way *)

Lemma alter_lookup_insert {A} (f : A -> A) (l : list A) (i : nat) (x : A) :
  l !! i = Some x -> alter f i l = <[ i := f x ]> l.
Proof.
  intros Hx. rewrite <- (list_insert_id l i x Hx) at 1. apply alter_insert_eq.
Qed.

Lemma extend_insert (s : tree) (rest : Nibbles) (v : bytes) :
  terminal s rest ->
  insert s rest v = plug (extend s rest v).1.1 (extend s rest v).1.2.
Proof.
  destruct s as [|lk lv|ek c|cs bv]; simpl; [done| | |].
  - intros _. by destruct (decide (rest = lk)).
  - intros Hm. by rewrite decide_False.
  - destruct rest as [|i rest]; [done|]. intros Hi. simpl.
    by rewrite (alter_lookup_insert _ _ _ _ Hi).
Qed.

Lemma diverge_key (old : tree) (okey rest : Nibbles) (v : bytes) :
  frames_key (diverge old okey rest v).1.1 ++ tail_key (diverge old okey rest v).1.2
    = rest.
Proof.
  unfold diverge. set (m := matchingNibbleLength okey rest).
  assert (Hpre : frames_key (if decide (m = 0%nat) then [] else [FExt (take m okey)])
                 = take m rest).
  { destruct (decide (m = 0%nat)) as [->|_]; [done|].
    unfold frames_key. simpl. rewrite app_nil_r. apply mnl_take. }
  destruct (drop m okey) as [|bk okey'];
    destruct (drop m rest) as [|j rest'] eqn:Hr; simpl.
  all: rewrite ?frames_key_app, ?Hpre, ?app_nil_r.
  all: try (rewrite <- (take_drop m rest) at 2; by rewrite Hr, ?app_nil_r).
  all: unfold frames_key; simpl; rewrite <- app_assoc; simpl.
  all: rewrite <- (take_drop m rest) at 2; by rewrite Hr.
Qed.

Lemma extend_key (s : tree) (rest : Nibbles) (v : bytes) :
  s <> TEmpty -> terminal s rest ->
  frames_key (extend s rest v).1.1 ++ tail_key (extend s rest v).1.2 = rest.
Proof.
  destruct s as [|lk lv|ek c|cs bv]; simpl; [done| | |]; intros _.
  - intros _. destruct (decide (rest = lk)) as [->|]; [done|]. apply diverge_key.
  - intros _. apply diverge_key.
  - by destruct rest.
Qed.

Lemma diverge_frames_ok (old : tree) (okey rest : Nibbles) (v : bytes) :
  nibbles_ok rest -> Forall frame_ok (diverge old okey rest v).1.1.
Proof.
  intros Hrest. unfold diverge. set (m := matchingNibbleLength okey rest).
  assert (Hd : nibbles_ok (drop m rest)) by by apply Forall_drop.
  destruct (drop m okey) as [|bk okey'];
    destruct (drop m rest) as [|j rest'] eqn:Hr; simpl.
  all: destruct (decide (m = 0%nat)); simpl.
  all: rewrite ?list.Forall_cons, ?list.Forall_nil; simpl.
  all: rewrite ?length_insert; unfold empty_slots; rewrite ?length_replicate.
  all: try (inversion Hd; subst); done.
Qed.

Lemma extend_frames_ok (s : tree) (rest : Nibbles) (v : bytes) :
  nibbles_ok rest -> terminal s rest -> Forall frame_ok (extend s rest v).1.1.
Proof.
  intros Hrest. destruct s as [|lk lv|ek c|cs bv]; simpl; [done| | |]; intros Ht.
  - destruct (decide (rest = lk)); [constructor|]. by apply diverge_frames_ok.
  - by apply diverge_frames_ok.
  - destruct rest as [|i rest]; [constructor|]. simpl in *.
    rewrite list.Forall_cons. split; [|done]. simpl. by eapply lookup_lt_Some.
Qed.

Lemma extend_leaf_or_branch (s : tree) (rest : Nibbles) (v : bytes) :
  is_leaf_or_branch (extend s rest v).1.2 = true.
Proof.
  destruct s as [|lk lv|ek c|cs bv]; simpl; [done| | |].
  - destruct (decide (rest = lk)); [done|]. unfold diverge.
    by destruct (drop _ lk), (drop _ rest).
  - unfold diverge. by destruct (drop _ ek), (drop _ rest).
  - by destruct rest.
Qed.

Definition is_leaf_or_ext (t : tree) : bool :=
  match t with
  | TLeaf _ _ | TExt _ _ => true
  | _ => false
  end.

Definition tree_key (t : tree) : Nibbles :=
  match t with
  | TLeaf k _ => k
  | TExt k _ => k
  | _ => []
  end.

Section Update.
Variable hashfn : bytes -> bytes.
Hypothesis hash_length : forall msg, length (hashfn msg) = 32%nat.
Context {D : Type} `{!DB D}.
Implicit Types T : Trie D.

Lemma consumed_path_acc (fs : list frame) (s : tree) (acc : nat) :
  fold_left (fun l n =>
               match n with
               | BranchNode _ _ => S l
               | _ => (l + length (Node.key n))%nat
               end) (path_nodes hashfn fs s) acc
    = (acc + length (frames_key fs))%nat.
Proof.
  revert acc. induction fs as [|f fs IH]; intros acc; [simpl; lia|].
  change (frames_key (f :: fs)) with (frame_key f ++ frames_key fs).
  rewrite length_app. cbn [path_nodes fold_left].
  rewrite IH. destruct f; simpl; lia.
Qed.

Lemma consumed_path (fs : list frame) (s : tree) :
  consumed (path_nodes hashfn fs s) = length (frames_key fs).
Proof. unfold consumed. by rewrite consumed_path_acc. Qed.

Lemma path_nodes_match (fs : list frame) (s : tree) :
  Forall2 (node_matches hashfn) fs (path_nodes hashfn fs s).
Proof.
  induction fs as [|f fs IH]; [constructor|].
  cbn [path_nodes]. constructor; [|done].
  change (plug (f :: fs) s) with (plug1 f (plug fs s)).
  destruct f as [k|cs v i]; simpl; [done|]. split; [done|].
  by rewrite list_fmap_insert, list_insert_insert_eq.
Qed.

Lemma refs_empty_slots :
  map (ref_of hashfn) empty_slots = replicate 16 Node.null.
Proof. done. Qed.

Lemma node_of_shrink (old : tree) (okey' : Nibbles) :
  is_leaf_or_ext old = true ->
  (bool_decide (okey' = []) && is_ext old) = false ->
  set_key (node_of hashfn old) okey' = node_of hashfn (shrink old okey').
Proof.
  destruct old as [|lk lv|ek c|cs bv]; try done; simpl.
  intros _ Hc. rewrite andb_true_r in Hc. apply bool_decide_eq_false in Hc.
  by rewrite decide_False.
Qed.

Lemma shrink_nonempty (old : tree) (okey' : Nibbles) :
  is_leaf_or_ext old = true ->
  (bool_decide (okey' = []) && is_ext old) = false ->
  shrink old okey' <> TEmpty.
Proof.
  destruct old as [|lk lv|ek c|cs bv]; try done; simpl.
  intros _ Hc. rewrite andb_true_r in Hc. apply bool_decide_eq_false in Hc.
  by rewrite decide_False.
Qed.

Lemma formatNode_remove T (n : TrieNode) :
  _deleteFromDB T = false -> (_formatNode hashfn T n false [] true).2 = [].
Proof.
  intros Hdel. unfold _formatNode. rewrite Hdel.
  by destruct (_ <=? _)%nat.
Qed.

(** The part of [_updateNode] that makes a branch, for an old leaf or an
    old extension the key leaves before its end. *)
Lemma diverge_spec T (old : tree) (rest : Nibbles) (v : bytes)
    (key : Nibbles) (P : list TrieNode) :
  _deleteFromDB T = false ->
  is_leaf_or_ext old = true ->
  (is_ext old = true ->
   matchingNibbleLength rest (tree_key old) <> length (tree_key old)) ->
  exists nodes',
    Forall2 (node_matches hashfn) (diverge old (tree_key old) rest v).1.1 nodes'
    /\ (let '(stack, lastKey, keyRemainder) :=
          if decide (matchingNibbleLength (Node.key (node_of hashfn old)) rest = 0%nat)
          then (P, Node.key (node_of hashfn old), rest)
          else
            (P ++ [ExtensionNode
                     (take (matchingNibbleLength (Node.key (node_of hashfn old)) rest)
                        (Node.key (node_of hashfn old)))
                     (Str v)],
             drop (matchingNibbleLength (Node.key (node_of hashfn old)) rest)
               (Node.key (node_of hashfn old)),
             drop (matchingNibbleLength (Node.key (node_of hashfn old)) rest) rest)
        in
        let '(branches, bvalue, toSave) :=
          match lastKey with
          | [] => (replicate 16 Node.null, value_as_buffer (node_of hashfn old), [])
          | branchKey :: lastKey' =>
              if negb (bool_decide (lastKey' = [])) || is_leaf (node_of hashfn old)
              then
                let '(formattedNode, toSave) :=
                  _formatNode hashfn T (set_key (node_of hashfn old) lastKey') false
                    [] false in
                (setBranch (replicate 16 Node.null) branchKey formattedNode, [],
                 toSave)
              else
                let '(_, toSave) :=
                  _formatNode hashfn T (node_of hashfn old) false [] true in
                (setBranch (replicate 16 Node.null) branchKey
                   (value_as_ref (node_of hashfn old)),
                 [], toSave)
          end in
        match keyRemainder with
        | [] =>
            _saveStack hashfn key (stack ++ [BranchNode branches v]) toSave T
        | _ :: keyRemainder' =>
            _saveStack hashfn key
              (stack ++ [BranchNode branches bvalue; LeafNode keyRemainder' v])
              toSave T
        end)
       = _saveStack hashfn key
           (P ++ nodes'
              ++ [node_of hashfn (diverge old (tree_key old) rest v).1.2])
           (map (put_op hashfn)
              (concat (map (own_blob hashfn) (diverge old (tree_key old) rest v).2)))
           T.
Proof.
  intros Hdel Hold Hext.
  assert (Hk : Node.key (node_of hashfn old) = tree_key old) by by destruct old.
  rewrite Hk. unfold diverge.
  set (okey := tree_key old). set (m := matchingNibbleLength okey rest).
  (* the branch the code builds *)
  assert (Hbranch :
    exists cs bv saved,
      match drop m okey with
      | bk :: okey' =>
          (<[ bk := shrink old okey' ]> empty_slots, [],
           if bool_decide (okey' = []) && is_ext old then [] else [shrink old okey'])
      | [] => (empty_slots, leaf_value old, [])
      end = (cs, bv, saved)
      /\ match drop m okey with
         | [] => (replicate 16 Node.null, value_as_buffer (node_of hashfn old), [])
         | branchKey :: lastKey' =>
             if negb (bool_decide (lastKey' = [])) || is_leaf (node_of hashfn old)
             then
               let '(formattedNode, toSave) :=
                 _formatNode hashfn T (set_key (node_of hashfn old) lastKey') false
                   [] false in
               (setBranch (replicate 16 Node.null) branchKey formattedNode, [],
                toSave)
             else
               let '(_, toSave) :=
                 _formatNode hashfn T (node_of hashfn old) false [] true in
               (setBranch (replicate 16 Node.null) branchKey
                  (value_as_ref (node_of hashfn old)),
                [], toSave)
         end = (map (ref_of hashfn) cs, bv,
                map (put_op hashfn) (concat (map (own_blob hashfn) saved)))).
  { destruct (drop m okey) as [|bk okey'] eqn:Hd.
    - eexists _, _, _. split; [done|].
      destruct old as [|lk lv|ek c|cs bv]; try done.
      exfalso. specialize (Hext eq_refl).
      rewrite mnl_sym in Hext. change (m <> length okey) in Hext.
      apply (f_equal length) in Hd. rewrite length_drop in Hd. simpl in Hd.
      pose proof (mnl_le_l okey rest) as Hle. change (m <= length okey)%nat in Hle.
      lia.
    - eexists _, _, _. split; [done|].
      assert (Hcond : negb (bool_decide (okey' = [])) || is_leaf (node_of hashfn old)
                      = negb (bool_decide (okey' = []) && is_ext old)).
      { destruct old; try done; simpl; by destruct (bool_decide _). }
      rewrite Hcond.
      destruct (bool_decide (okey' = []) && is_ext old) eqn:Hc; cbn [negb].
      + pose proof (formatNode_remove T (node_of hashfn old) Hdel) as Hrem.
        destruct (_formatNode hashfn T (node_of hashfn old) false [] true) as [r ts].
        simpl in Hrem. subst ts. simpl. f_equal. f_equal.
        apply andb_true_iff in Hc as [Hnil Hx]. apply bool_decide_eq_true in Hnil.
        subst okey'. destruct old; try done. simpl.
        unfold setBranch, empty_slots. by rewrite list_fmap_insert.
      + rewrite node_of_shrink, formatNode_tree by (done || by apply shrink_nonempty).
        simpl. rewrite app_nil_r. f_equal.
        unfold setBranch, empty_slots. by rewrite list_fmap_insert. }
  destruct Hbranch as (cs & bv & saved & -> & Hcode).
  destruct (decide (m = 0%nat)) as [Hm0|Hm0].
  - rewrite Hm0 in *. rewrite !drop_0 in *. rewrite Hcode.
    destruct rest as [|j rest'].
    + exists []. split; [constructor|]. done.
    + exists [BranchNode (map (ref_of hashfn) cs) bv].
      split; [by repeat constructor|]. done.
  - rewrite Hcode. destruct (drop m rest) as [|j rest'].
    + exists [ExtensionNode (take m okey) (Str v)].
      split; [by repeat constructor|]. by rewrite <- !app_assoc.
    + exists [ExtensionNode (take m okey) (Str v); BranchNode (map (ref_of hashfn) cs) bv].
      split; [by repeat constructor|]. by rewrite <- !app_assoc.
Qed.

Lemma updateNode_spec T (fs : list frame) (s : tree) (rest : Nibbles)
    (k v : bytes) :
  _deleteFromDB T = false ->
  bufferToNibbles k = frames_key fs ++ rest ->
  s <> TEmpty -> terminal s rest ->
  exists nodes',
    Forall2 (node_matches hashfn) (extend s rest v).1.1 nodes'
    /\ _updateNode hashfn k v (found hashfn s rest).2 (path_stack hashfn fs s) T
       = _saveStack hashfn (bufferToNibbles k)
           (path_nodes hashfn fs s ++ nodes'
              ++ [node_of hashfn (extend s rest v).1.2])
           (map (put_op hashfn) (concat (map (own_blob hashfn) (extend s rest v).2)))
           T.
Proof.
  intros Hdel Hkey Hs Hterm. unfold _updateNode, path_stack.
  rewrite pop_snoc, consumed_path, Hkey, drop_app_length.
  destruct s as [|lk lv|ek c|cs bv]; [done| | |].
  - (* a leaf *)
    cbn [node_of found extend].
    destruct (decide (rest = lk)) as [->|Hne].
    + exists []. split; [constructor|]. cbn [snd fst].
      rewrite mnl_refl, !bool_decide_eq_true_2 by done. done.
    + cbn [snd fst].
      assert (Hml : bool_decide (matchingNibbleLength lk rest = length lk)
                    && bool_decide (length rest = 0%nat) = false).
      { apply andb_false_iff. destruct rest as [|r rest].
        - left. apply bool_decide_eq_false_2. destruct lk; [done|]. simpl. lia.
        - right. by apply bool_decide_eq_false_2. }
      rewrite Hml.
      exact (diverge_spec T (TLeaf lk lv) rest v (frames_key fs ++ rest)
               (path_nodes hashfn fs (TLeaf lk lv)) Hdel eq_refl
               (fun H => ltac:(done))).
  - (* an extension *)
    cbn [node_of found extend snd fst andb].
    exact (diverge_spec T (TExt ek c) rest v (frames_key fs ++ rest)
             (path_nodes hashfn fs (TExt ek c)) Hdel eq_refl (fun _ => Hterm)).
  - (* a branch *)
    cbn [node_of found extend]. destruct rest as [|i rest'].
    + exists []. split; [constructor|]. done.
    + exists [BranchNode (map (ref_of hashfn) cs) bv].
      split; [by repeat constructor|]. done.
Qed.

End Update.

(** ** The bodies of a tree *)

(** The other children of the branch of a frame. *)
Definition side_trees (f : frame) : list tree :=
  match f with
  | FExt _ => []
  | FBranch cs _ i => take i cs ++ drop (S i) cs
  end.

Lemma elem_of_concat_map {A B} (g : A -> list B) (l : list A) (b : B) :
  b ∈ concat (map g l) <-> exists x, x ∈ l /\ b ∈ g x.
Proof.
  rewrite list_elem_of_In, in_concat. split.
  - intros (y & Hy & Hb). apply in_map_iff in Hy as (x & <- & Hx).
    exists x. by rewrite !list_elem_of_In.
  - intros (x & Hx & Hb). exists (g x). rewrite <- !list_elem_of_In.
    split; [|done]. apply list_elem_of_In, in_map. by apply list_elem_of_In.
Qed.

Lemma elem_of_insert_split {A} (l : list A) (i : nat) (s x : A) :
  (i < length l)%nat ->
  x ∈ <[ i := s ]> l <-> x = s \/ x ∈ take i l ++ drop (S i) l.
Proof.
  intros Hi. rewrite insert_take_drop by done.
  rewrite !elem_of_app, elem_of_cons. tauto.
Qed.

Section Cover.
Variable hashfn : bytes -> bytes.

Lemma blobs_plug1_cases (f : frame) (s : tree) (b : bytes) :
  frame_ok f ->
  b ∈ blobs hashfn (plug1 f s) <->
  b ∈ own_blob hashfn (plug1 f s) \/ b ∈ blobs hashfn s
  \/ b ∈ concat (map (blobs hashfn) (side_trees f)).
Proof.
  intros Hok. destruct f as [k|cs v i]; cbn [plug1 blobs side_trees].
  - rewrite elem_of_app. simpl. set_solver.
  - simpl in Hok. rewrite elem_of_app, !elem_of_concat_map.
    setoid_rewrite (elem_of_insert_split cs i s); [|done..].
    split.
    + intros [?|(x & [->|Hx] & Hb)]; eauto.
    + intros [?|[?|(x & Hx & Hb)]]; eauto.
Qed.

Lemma bodies_plug1_cases (f : frame) (s : tree) (b : bytes) :
  frame_ok f ->
  b ∈ bodies hashfn (plug1 f s) <->
  b = body_of hashfn (plug1 f s) \/ b ∈ bodies hashfn s
  \/ b ∈ concat (map (bodies hashfn) (side_trees f)).
Proof.
  intros Hok. destruct f as [k|cs v i]; cbn [plug1 bodies side_trees].
  - rewrite elem_of_cons. simpl. set_solver.
  - simpl in Hok. rewrite elem_of_cons, !elem_of_concat_map.
    setoid_rewrite (elem_of_insert_split cs i s); [|done..].
    split.
    + intros [?|(x & [->|Hx] & Hb)]; eauto.
    + intros [?|[?|(x & Hx & Hb)]]; eauto.
Qed.

Lemma own_blob_body (t : tree) (b : bytes) :
  b ∈ own_blob hashfn t -> b = body_of hashfn t.
Proof. unfold own_blob. destruct (_ <=? _)%nat; set_solver. Qed.

Lemma body_in_bodies (t : tree) : t <> TEmpty -> body_of hashfn t ∈ bodies hashfn t.
Proof. destruct t; [done|..]; intros _; cbn [bodies]; set_solver. Qed.

Lemma own_blob_nonempty (t : tree) (b : bytes) :
  b ∈ own_blob hashfn t -> t <> TEmpty.
Proof.
  intros Hb ->. unfold own_blob, body_of in Hb.
  simpl in Hb. set_solver.
Qed.

Lemma blobs_bodies (t : tree) (b : bytes) :
  b ∈ blobs hashfn t -> b ∈ bodies hashfn t.
Proof.
  induction t as [|k v|k c IH|cs v IH] using tree_ind'; cbn [blobs bodies].
  - done.
  - intros Hb. apply own_blob_body in Hb. set_solver.
  - rewrite elem_of_app, elem_of_cons. intros [Hb|Hb]; [left|right; auto].
    by apply own_blob_body in Hb.
  - rewrite elem_of_app, elem_of_cons, !elem_of_concat_map.
    intros [Hb|(x & Hx & Hb)]; [left; by apply own_blob_body in Hb|right].
    exists x. split; [done|]. rewrite list.Forall_forall in IH. by apply IH.
Qed.

Lemma top_blobs_bodies (t : tree) (b : bytes) :
  b ∈ top_blobs hashfn t -> b ∈ bodies hashfn t.
Proof.
  destruct t as [|k v|k c|cs v]; [done|..]; unfold top_blobs;
    rewrite elem_of_cons; (intros [->|Hb]; [by apply body_in_bodies|by apply blobs_bodies]).
Qed.

(** The blobs of a tree rebuilt over the frames [rfs] (innermost first) are
    written with the frames, or belong to what is below, or to the other
    children of the branches passed. *)
Lemma blobs_plug_cover (Good : bytes -> Prop) (rfs : list frame) :
  forall s,
    Forall frame_ok rfs ->
    (forall b, b ∈ blobs hashfn s -> Good b) ->
    (forall b, b ∈ frames_blobs hashfn rfs s -> Good b) ->
    (forall f b, f ∈ rfs -> b ∈ concat (map (blobs hashfn) (side_trees f)) -> Good b) ->
    forall b, b ∈ blobs hashfn (plug (reverse rfs) s) -> Good b.
Proof.
  induction rfs as [|f rfs IH]; intros s Hok Hs Hfr Hside b; [by apply Hs|].
  inversion Hok as [|? ? Hf Hok']; subst.
  rewrite reverse_cons, plug_app. change (plug [f] s) with (plug1 f s).
  apply IH; [done| | |].
  - intros b' Hb'. apply (blobs_plug1_cases f s b' Hf) in Hb' as [Hb'|[Hb'|Hb']].
    + apply Hfr. cbn [frames_blobs]. apply elem_of_app. left.
      unfold saved_blob. destruct (bool_decide _); [|done].
      apply own_blob_body in Hb'. set_solver.
    + by apply Hs.
    + apply (Hside f); [set_solver|done].
  - intros b' Hb'. apply Hfr. cbn [frames_blobs]. set_solver.
  - intros f' b' Hf' Hb'. apply (Hside f'); [set_solver|done].
Qed.

Lemma bodies_plug_sub (fs : list frame) (s : tree) (b : bytes) :
  Forall frame_ok fs -> b ∈ bodies hashfn s -> b ∈ bodies hashfn (plug fs s).
Proof.
  induction 1 as [|f fs Hf _ IH]; [done|]. intros Hb.
  change (plug (f :: fs) s) with (plug1 f (plug fs s)).
  apply bodies_plug1_cases; auto.
Qed.

Lemma bodies_plug_side (fs : list frame) (s : tree) (f : frame) (b : bytes) :
  Forall frame_ok fs -> f ∈ fs ->
  b ∈ concat (map (bodies hashfn) (side_trees f)) -> b ∈ bodies hashfn (plug fs s).
Proof.
  induction 1 as [|f' fs Hf _ IH]; [set_solver|]. intros Hin Hb.
  change (plug (f' :: fs) s) with (plug1 f' (plug fs s)).
  apply bodies_plug1_cases; [done|].
  apply elem_of_cons in Hin as [->|Hin]; auto.
Qed.

Lemma blobs_plug_sub (fs : list frame) (s : tree) (b : bytes) :
  Forall frame_ok fs -> b ∈ blobs hashfn s -> b ∈ blobs hashfn (plug fs s).
Proof.
  induction 1 as [|f fs Hf _ IH]; [done|]. intros Hb.
  change (plug (f :: fs) s) with (plug1 f (plug fs s)).
  apply blobs_plug1_cases; auto.
Qed.

Lemma blobs_plug_side (fs : list frame) (s : tree) (f : frame) (b : bytes) :
  Forall frame_ok fs -> f ∈ fs ->
  b ∈ concat (map (blobs hashfn) (side_trees f)) -> b ∈ blobs hashfn (plug fs s).
Proof.
  induction 1 as [|f' fs Hf _ IH]; [set_solver|]. intros Hin Hb.
  change (plug (f' :: fs) s) with (plug1 f' (plug fs s)).
  apply blobs_plug1_cases; [done|].
  apply elem_of_cons in Hin as [->|Hin]; auto.
Qed.

(** What is written for the frames are bodies of the rebuilt tree. *)
Lemma frames_blobs_bodies (rfs : list frame) :
  forall s b,
    Forall frame_ok rfs ->
    b ∈ frames_blobs hashfn rfs s -> b ∈ bodies hashfn (plug (reverse rfs) s).
Proof.
  induction rfs as [|f rfs IH]; intros s b Hok; [set_solver|].
  inversion Hok as [|? ? Hf Hok']; subst.
  rewrite reverse_cons, plug_app. change (plug [f] s) with (plug1 f s).
  cbn [frames_blobs]. rewrite elem_of_app. intros [Hb|Hb]; [|by apply IH].
  apply bodies_plug_sub; [by apply Forall_reverse|].
  assert (b = body_of hashfn (plug1 f s)) as ->.
  { unfold saved_blob in Hb. destruct (bool_decide _); [set_solver|].
    by apply own_blob_body. }
  apply body_in_bodies. by destruct f.
Qed.

(** The body of the top node is written. *)
Lemma frames_blobs_top (rfs : list frame) :
  forall s, rfs <> [] ->
    body_of hashfn (plug (reverse rfs) s) ∈ frames_blobs hashfn rfs s.
Proof.
  induction rfs as [|f rfs IH]; intros s Hne; [done|].
  rewrite reverse_cons, plug_app. change (plug [f] s) with (plug1 f s).
  cbn [frames_blobs]. apply elem_of_app. destruct rfs as [|f' rfs].
  - left. rewrite bool_decide_eq_true_2 by done. simpl. set_solver.
  - right. by apply IH.
Qed.

Lemma top_body_written (fs : list frame) (s : tree) :
  body_of hashfn (plug fs s)
    ∈ saved_blob hashfn (bool_decide (fs = [])) s
        ++ frames_blobs hashfn (reverse fs) s.
Proof.
  apply elem_of_app. destruct fs as [|f fs].
  - left. rewrite bool_decide_eq_true_2 by done. simpl. set_solver.
  - right. rewrite <- (reverse_involutive (f :: fs)) at 1.
    apply frames_blobs_top. intros Hr. apply (f_equal reverse) in Hr.
    by rewrite reverse_involutive in Hr.
Qed.

End Cover.

(** ** What the store holds after a save *)

Lemma elem_of_insert_cases {A} (l : list A) (i : nat) (s x : A) :
  x ∈ <[ i := s ]> l -> x = s \/ x ∈ l.
Proof.
  revert i. induction l as [|a l IH]; intros [|i]; simpl;
    rewrite ?elem_of_cons; try tauto.
  intros [->|Hx]; [auto|]. destruct (IH i Hx); auto.
Qed.

Lemma elem_of_empty_slots (x : tree) : x ∈ empty_slots -> x = TEmpty.
Proof. unfold empty_slots. intros Hx. by apply elem_of_replicate in Hx as [-> _]. Qed.

(** The first byte of an encoded list. *)
Lemma encode_Lst_head (l : list item) :
  exists h tl, RLP.encode (Lst l) = h :: tl /\ (192 <= Byte.to_N h)%N.
Proof.
  cbn [RLP.encode]. unfold RLP.encodeLength.
  destruct (_ <? 56)%nat eqn:E.
  - apply Nat.ltb_lt in E. eexists _, _. split; [done|].
    rewrite byte_to_of_N; lia.
  - eexists _, _. split; [done|].
    pose proof (be_digits_length 8 (N.of_nat (length (concat (map RLP.encode l))))).
    unfold RLP.be_bytes. rewrite byte_to_of_N; lia.
Qed.

Section Store.
Variable hashfn : bytes -> bytes.
Context {D : Type} `{!DB D} `{!DBLaws D}.

(** A body is in the store after a run of puts under hashes when it was
    written or was there, and nothing else was written under its hash. *)
Lemma db_get_puts (W : list bytes) (d : D) (b : bytes) :
  (forall b', b' ∈ W -> hashfn b' = hashfn b -> b' = b) ->
  b ∈ W \/ db_get d (hashfn b) = Some b ->
  db_get (foldl db_apply d (map (put_op hashfn) W)) (hashfn b) = Some b.
Proof.
  induction W as [|x W IH] using rev_ind; intros Hinj Hb.
  - destruct Hb as [Hb|Hb]; [set_solver|done].
  - rewrite map_app, foldl_app. simpl. rewrite db_get_put.
    destruct (decide (hashfn b = hashfn x)) as [Heq|Hne].
    + f_equal. apply Hinj; [set_solver|done].
    + apply IH; [intros; apply Hinj; set_solver|].
      destruct Hb as [Hb|Hb]; [|by right]. left.
      apply elem_of_app in Hb as [Hb|Hb]; [done|]. 
      assert (b = x) by set_solver. congruence.
Qed.

End Store.

Section BodiesHead.
Variable hashfn : bytes -> bytes.

Lemma body_head (t : tree) :
  t <> TEmpty ->
  exists h tl, body_of hashfn t = h :: tl /\ (192 <= Byte.to_N h)%N.
Proof.
  intros Ht. destruct (raw_of_Lst hashfn t Ht) as (x & l & Hr).
  unfold body_of. rewrite Hr. apply encode_Lst_head.
Qed.

Lemma bodies_head (t : tree) (b : bytes) :
  b ∈ bodies hashfn t ->
  exists h tl, b = h :: tl /\ (192 <= Byte.to_N h)%N.
Proof.
  revert b. induction t as [|k v|k c IH|cs v IH] using tree_ind'; intros b; cbn [bodies].
  - set_solver.
  - intros Hb. assert (b = body_of hashfn (TLeaf k v)) as -> by set_solver.
    by apply body_head.
  - rewrite elem_of_cons. intros [->|Hb]; [by apply body_head|by apply IH].
  - rewrite elem_of_cons. intros [->|Hb]; [by apply body_head|].
    apply elem_of_concat_map in Hb as (c & Hc & Hb).
    rewrite list.Forall_forall in IH. by apply (IH c).
Qed.

Lemma bodies_not_root_key (t : tree) : ROOT_DB_KEY ∉ bodies hashfn t.
Proof.
  intros Hb. apply bodies_head in Hb as (h & tl & Heq & Hh).
  injection Heq as <- _. vm_compute in Hh. by apply Hh.
Qed.

Lemma bodies_not_empty_string (t : tree) : RLP.RLP_EMPTY_STRING ∉ bodies hashfn t.
Proof.
  intros Hb. apply bodies_head in Hb as (h & tl & Heq & Hh).
  injection Heq as <- _. vm_compute in Hh. by apply Hh.
Qed.

End BodiesHead.

Section ExtendCover.
Variable hashfn : bytes -> bytes.

Lemma shrink_blobs (old : tree) (okey' : Nibbles) (b : bytes) :
  b ∈ blobs hashfn (shrink old okey') ->
  b ∈ blobs hashfn old
  \/ b ∈ concat (map (own_blob hashfn)
                   (if bool_decide (okey' = []) && is_ext old then []
                    else [shrink old okey'])).
Proof.
  destruct old as [|k v|k c|cs v]; cbn [shrink is_ext]; auto.
  - rewrite andb_false_r. cbn [blobs map concat]. rewrite app_nil_r. auto.
  - destruct (decide (okey' = [])) as [->|Hne].
    + intros Hb. left. cbn [blobs]. set_solver.
    + rewrite bool_decide_eq_false_2 by done. cbn [andb blobs map concat].
      rewrite app_nil_r, !elem_of_app. tauto.
Qed.

Lemma slots_blobs (bk : nat) (sh x : tree) (b : bytes) :
  x ∈ <[ bk := sh ]> empty_slots -> b ∈ blobs hashfn x -> b ∈ blobs hashfn sh.
Proof.
  intros Hx Hb. apply elem_of_insert_cases in Hx as [->|Hx]; [done|].
  apply elem_of_empty_slots in Hx as ->. set_solver.
Qed.

Lemma side_trees_elem (cs : list tree) (v : bytes) (i : nat) (x : tree) :
  x ∈ side_trees (FBranch cs v i) -> x ∈ cs.
Proof.
  cbn [side_trees]. rewrite elem_of_app. intros [Hx|Hx].
  - apply elem_of_take in Hx as (n & Hn & _). by eapply list_elem_of_lookup_2.
  - apply list_elem_of_lookup_1 in Hx as (n & Hn). rewrite lookup_drop in Hn.
    by eapply list_elem_of_lookup_2.
Qed.

Lemma diverge_cover (old : tree) (okey rest : Nibbles) (v b : bytes) :
  b ∈ blobs hashfn (diverge old okey rest v).1.2
  \/ (exists f, f ∈ (diverge old okey rest v).1.1
             /\ b ∈ concat (map (blobs hashfn) (side_trees f))) ->
  b ∈ own_blob hashfn (diverge old okey rest v).1.2
  \/ b ∈ blobs hashfn old
  \/ b ∈ concat (map (own_blob hashfn) (diverge old okey rest v).2).
Proof.
  unfold diverge. set (m := matchingNibbleLength okey rest).
  set (pre := if decide (m = 0%nat) then [] else [FExt (take m okey)]).
  assert (Hpre : forall f, f ∈ pre -> side_trees f = []).
  { intros f. unfold pre. destruct (decide _); [set_solver|].
    intros Hf. by assert (f = FExt (take m okey)) as -> by set_solver. }
  destruct (drop m okey) as [|bk okey'] eqn:E1;
    destruct (drop m rest) as [|j rest'] eqn:E2; cbn [fst snd].
  - intros [Hb|(f & Hf & Hb)].
    + cbn [blobs] in Hb. apply elem_of_app in Hb as [Hb|Hb]; [auto|].
      apply elem_of_concat_map in Hb as (x & Hx & Hb).
      apply elem_of_empty_slots in Hx as ->. set_solver.
    + rewrite (Hpre f Hf) in Hb. set_solver.
  - intros [Hb|(f & Hf & Hb)]; [cbn [blobs] in Hb; auto|].
    apply elem_of_app in Hf as [Hf|Hf]; [rewrite (Hpre f Hf) in Hb; set_solver|].
    assert (f = FBranch empty_slots (leaf_value old) j) as -> by set_solver.
    apply elem_of_concat_map in Hb as (x & Hx & Hb).
    apply side_trees_elem, elem_of_empty_slots in Hx as ->. set_solver.
  - intros [Hb|(f & Hf & Hb)].
    + cbn [blobs] in Hb. apply elem_of_app in Hb as [Hb|Hb]; [auto|].
      apply elem_of_concat_map in Hb as (x & Hx & Hb).
      right. apply shrink_blobs. by eapply slots_blobs.
    + rewrite (Hpre f Hf) in Hb. set_solver.
  - intros [Hb|(f & Hf & Hb)]; [cbn [blobs] in Hb; auto|].
    apply elem_of_app in Hf as [Hf|Hf]; [rewrite (Hpre f Hf) in Hb; set_solver|].
    assert (f = FBranch (<[bk:=shrink old okey']> empty_slots) [] j) as ->
      by set_solver.
    apply elem_of_concat_map in Hb as (x & Hx & Hb).
    apply side_trees_elem in Hx.
    right. apply shrink_blobs. by eapply slots_blobs.
Qed.

Lemma extend_cover (s : tree) (rest : Nibbles) (v b : bytes) :
  terminal s rest ->
  b ∈ blobs hashfn (extend s rest v).1.2
  \/ (exists f, f ∈ (extend s rest v).1.1
             /\ b ∈ concat (map (blobs hashfn) (side_trees f))) ->
  b ∈ own_blob hashfn (extend s rest v).1.2
  \/ b ∈ blobs hashfn s
  \/ b ∈ concat (map (own_blob hashfn) (extend s rest v).2).
Proof.
  destruct s as [|lk lv|ek c|cs bv]; cbn [extend]; [done| | |]; intros Ht.
  - destruct (decide (rest = lk)) as [->|Hne]; [|apply diverge_cover].
    cbn [fst snd blobs]. intros [Hb|(f & Hf & _)]; [auto|set_solver].
  - apply diverge_cover.
  - destruct rest as [|i rest']; cbn [fst snd].
    + intros [Hb|(f & Hf & _)]; [|set_solver].
      cbn [blobs] in *. set_solver.
    + intros [Hb|(f & Hf & Hb)]; [cbn [blobs] in Hb; auto|].
      assert (f = FBranch cs bv i) as -> by set_solver.
      apply elem_of_concat_map in Hb as (x & Hx & Hb).
      apply side_trees_elem in Hx. right. left. cbn [blobs].
      apply elem_of_app. right. apply elem_of_concat_map. eauto.
Qed.

Lemma diverge_saved (old : tree) (okey rest : Nibbles) (v b : bytes) :
  nibbles_ok okey ->
  b ∈ concat (map (own_blob hashfn) (diverge old okey rest v).2) ->
  b ∈ bodies hashfn (split old okey rest v).
Proof.
  intros Hok. unfold split, diverge.
  pose proof (mnl_drop okey rest) as Hdiff.
  set (m := matchingNibbleLength okey rest) in *.
  set (pre := if decide (m = 0%nat) then [] else [FExt (take m okey)]).
  assert (Hpre : Forall frame_ok pre).
  { unfold pre. destruct (decide _); by repeat constructor. }
  destruct (drop m okey) as [|bk okey'] eqn:E1.
  { destruct (drop m rest); cbn [fst snd]; set_solver. }
  assert (Hbk : (bk < 16)%nat).
  { unfold nibbles_ok in Hok. rewrite list.Forall_forall in Hok. apply Hok.
    apply list_elem_of_lookup. exists m.
    rewrite <- (Nat.add_0_r m), <- lookup_drop, E1. done. }
  set (sh := shrink old okey').
  assert (Hsh : (<[bk:=sh]> empty_slots) !! bk = Some sh).
  { apply list_lookup_insert_eq. unfold empty_slots. by rewrite length_replicate. }
  assert (Hb : b ∈ concat (map (own_blob hashfn)
                 (if bool_decide (okey' = []) && is_ext old then [] else [sh]))
               -> b ∈ bodies hashfn sh).
  { destruct (_ && _); [set_solver|]. cbn [map concat]. rewrite app_nil_r.
    intros Hb. pose proof (own_blob_nonempty hashfn sh b Hb).
    apply own_blob_body in Hb as ->. by apply body_in_bodies. }
  destruct (drop m rest) as [|j rest'] eqn:E2; cbn [fst snd]; intros Hin;
    apply Hb in Hin.
  - apply bodies_plug_sub; [done|]. cbn [bodies]. apply elem_of_cons. right.
    apply elem_of_concat_map. exists sh. split; [|done].
    by eapply list_elem_of_lookup_2.
  - rewrite plug_app. apply bodies_plug_sub; [done|]. cbn [plug foldr plug1 bodies].
    apply elem_of_cons. right. apply elem_of_concat_map. exists sh.
    split; [|done]. apply list_elem_of_lookup_2 with bk.
    rewrite list_lookup_insert_ne by (intros ->; done). done.
Qed.

Lemma extend_saved (s : tree) (rest : Nibbles) (v b : bytes) :
  wf s ->
  b ∈ concat (map (own_blob hashfn) (extend s rest v).2) ->
  b ∈ bodies hashfn (plug (extend s rest v).1.1 (extend s rest v).1.2).
Proof.
  intros Hwf. destruct s as [|lk lv|ek c|cs bv]; cbn [extend];
    [set_solver| | |destruct rest; set_solver].
  - destruct (decide (rest = lk)); [set_solver|].
    apply diverge_saved. by inversion Hwf.
  - apply diverge_saved. by inversion Hwf.
Qed.

End ExtendCover.

(** ** [put] is insertion *)

Section PutDefs.
Variable hashfn : bytes -> bytes.
Context {D : Type} `{!DB D}.
Implicit Types T : Trie D.

(** The trie after [persistRoot]. *)
Definition persisted T : Trie D :=
  if _persistRoot T
  then with_db (db_put (appliedKey hashfn T ROOT_DB_KEY) (root T) (db T)) T
  else T.

(** A trie stands for a tree: it holds it, and its root is that of the
    empty trie only when the tree is empty. *)
Definition represents T (t : tree) : Prop :=
  holds hashfn T t /\ (t <> TEmpty -> root T <> EMPTY_TRIE_ROOT hashfn).

(** The settings of a trie, which no operation changes, and the lock,
    which every operation returns. *)
Definition same_settings T T' : Prop :=
  _deleteFromDB T' = _deleteFromDB T /\ _useHashedKeys T' = _useHashedKeys T
  /\ _persistRoot T' = _persistRoot T /\ lock T' = lock T.

End PutDefs.

Section Put.
Variable hashfn : bytes -> bytes.
Hypothesis hash_length : forall msg, length (hashfn msg) = 32%nat.
Context {D : Type} `{!DB D} `{!DBLaws D}.
Implicit Types T : Trie D.

Lemma persistRoot_eq T : persistRoot hashfn T = (Ret tt, persisted hashfn T).
Proof. unfold persistRoot, persisted. by destruct (_persistRoot T). Qed.

Lemma hash_not_root_key T (U : list bytes) (b : bytes) :
  collision_free hashfn (ROOT_DB_KEY :: U) -> b ∈ U -> b <> ROOT_DB_KEY ->
  hashfn b <> appliedKey hashfn T ROOT_DB_KEY.
Proof.
  intros Hcf Hb Hne. unfold appliedKey, hash.
  destruct (_useHashedKeys T).
  - intros Heq. apply Hne, Hcf; [set_solver|set_solver|done].
  - intros Heq. apply (f_equal length) in Heq. rewrite hash_length in Heq.
    by vm_compute in Heq.
Qed.

Lemma db_get_persisted T (h : bytes) :
  h <> appliedKey hashfn T ROOT_DB_KEY ->
  db_get (db (persisted hashfn T)) h = db_get (db T) h.
Proof.
  intros Hne. unfold persisted. destruct (_persistRoot T); [|done].
  cbn [db with_db]. rewrite db_get_put. by destruct (decide _).
Qed.

Lemma root_persisted T : root (persisted hashfn T) = root T.
Proof. unfold persisted. by destruct (_persistRoot T). Qed.

Lemma settings_persisted T : same_settings (persisted hashfn T) T.
Proof.
  unfold persisted, same_settings. by destruct (_persistRoot T) eqn:E.
Qed.

Lemma appliedKey_settings T T' (k : bytes) :
  same_settings T T' -> appliedKey hashfn T' k = appliedKey hashfn T k.
Proof. intros (_ & Hu & _). unfold appliedKey. by rewrite Hu. Qed.

Lemma hashLen_32 : _hashLen hashfn = 32%nat.
Proof. unfold _hashLen, EMPTY_TRIE_ROOT, hash. apply hash_length. Qed.

(** [_saveStack] on the stack of a way and the node at its end. *)
Lemma saveStack_tree T (key : Nibbles) (fs : list frame) (nodes : list TrieNode)
    (s : tree) (ops : list BatchDBOp) :
  key = frames_key fs ++ tail_key s ->
  Forall2 (node_matches hashfn) fs nodes -> Forall frame_ok fs ->
  is_leaf_or_branch s = true ->
  _saveStack hashfn key (nodes ++ [node_of hashfn s]) ops T
    = (Ret tt,
       persisted hashfn
         (with_db
            (db_batch
               (ops ++ map (put_op hashfn)
                         (saved_blob hashfn (bool_decide (fs = [])) s
                          ++ frames_blobs hashfn (reverse fs) s))
               (db T))
            (with_root (hashfn (body_of hashfn (plug fs s))) false T))).
Proof.
  intros -> Hm Hok Hs. unfold _saveStack.
  rewrite (saveStack_loop_tree hashfn T fs nodes s ops Hm Hok Hs).
  unfold bind, set_root. cbn [isFalsy].
  rewrite hash_length, hashLen_32. rewrite decide_True by done.
  by rewrite persistRoot_eq.
Qed.

Lemma own_blob_saved_blob (top : bool) (t : tree) (b : bytes) :
  b ∈ own_blob hashfn t -> b ∈ saved_blob hashfn top t.
Proof.
  intros Hb. unfold saved_blob. destruct top; [|done].
  apply own_blob_body in Hb as ->. set_solver.
Qed.

Lemma saved_blob_bodies (top : bool) (t : tree) (b : bytes) :
  t <> TEmpty -> b ∈ saved_blob hashfn top t -> b ∈ bodies hashfn t.
Proof.
  intros Ht Hb. assert (b = body_of hashfn t) as ->.
  { unfold saved_blob in Hb. destruct top; [set_solver|by apply own_blob_body]. }
  by apply body_in_bodies.
Qed.

Lemma top_blobs_nonempty (t : tree) :
  t <> TEmpty -> top_blobs hashfn t = body_of hashfn t :: blobs hashfn t.
Proof. by destruct t. Qed.

(** What [_updateNode] writes for a put. *)
Definition written (fs : list frame) (s : tree) (rest : Nibbles) (v : bytes)
    : list bytes :=
  let e := extend s rest v in
  concat (map (own_blob hashfn) e.2)
  ++ saved_blob hashfn (bool_decide (fs ++ e.1.1 = [])) e.1.2
  ++ frames_blobs hashfn (reverse (fs ++ e.1.1)) e.1.2.

Lemma written_bodies (fs : list frame) (s : tree) (rest : Nibbles) (v b : bytes) :
  Forall frame_ok fs -> wf s -> nibbles_ok rest -> terminal s rest ->
  b ∈ written fs s rest v ->
  b ∈ bodies hashfn (plug (fs ++ (extend s rest v).1.1) (extend s rest v).1.2).
Proof.
  intros Hok Hwf Hrest Hterm. unfold written. cbn zeta.
  pose proof (extend_frames_ok s rest v Hrest Hterm) as Hok'.
  pose proof (extend_leaf_or_branch s rest v) as Hlb.
  rewrite !elem_of_app. intros [Hb|[Hb|Hb]].
  - rewrite plug_app. apply bodies_plug_sub; [done|]. by apply extend_saved.
  - apply bodies_plug_sub; [by apply Forall_app|].
    eapply saved_blob_bodies; [|done]. by destruct ((extend s rest v).1.2).
  - apply frames_blobs_bodies in Hb; [|by apply Forall_reverse, Forall_app].
    by rewrite reverse_involutive in Hb.
Qed.

Lemma written_cover (fs : list frame) (s : tree) (rest : Nibbles) (v b : bytes) :
  Forall frame_ok fs -> nibbles_ok rest -> terminal s rest ->
  b ∈ top_blobs hashfn (plug (fs ++ (extend s rest v).1.1) (extend s rest v).1.2) ->
  b ∈ written fs s rest v \/ b ∈ blobs hashfn (plug fs s).
Proof.
  intros Hok Hrest Hterm.
  pose proof (extend_frames_ok s rest v Hrest Hterm) as Hok'.
  pose proof (extend_leaf_or_branch s rest v) as Hlb.
  pose proof (extend_cover hashfn s rest v) as Hcov.
  unfold written. cbn zeta.
  destruct (extend s rest v) as [[fs' s'] saved]. cbn [fst snd] in *.
  assert (Hs' : s' <> TEmpty) by by destruct s'.
  assert (Hgood : forall b,
    b ∈ own_blob hashfn s' \/ b ∈ blobs hashfn s
      \/ b ∈ concat (map (own_blob hashfn) saved) ->
    b ∈ concat (map (own_blob hashfn) saved)
        ++ saved_blob hashfn (bool_decide (fs ++ fs' = [])) s'
        ++ frames_blobs hashfn (reverse (fs ++ fs')) s'
    \/ b ∈ blobs hashfn (plug fs s)).
  { intros b' [Hb|[Hb|Hb]].
    - left. apply elem_of_app. right. apply elem_of_app. left.
      by apply own_blob_saved_blob.
    - right. by apply blobs_plug_sub.
    - left. apply elem_of_app. by left. }
  assert (Hne : plug (fs ++ fs') s' <> TEmpty) by by apply plug_nonempty.
  rewrite top_blobs_nonempty, elem_of_cons by done.
  intros [->|Hb]; [left; apply elem_of_app; right; apply top_body_written|].
  replace (plug (fs ++ fs') s') with (plug (reverse (reverse (fs ++ fs'))) s')
    in Hb by (by rewrite reverse_involutive).
  revert b Hb.
  (apply blobs_plug_cover;
     [by apply Forall_reverse, Forall_app
     |intros b Hb; apply Hgood, Hcov; [done|by left]
     |intros b Hb; left; rewrite !elem_of_app; auto
     |intros f b Hf Hb; rewrite elem_of_reverse, elem_of_app in Hf;
      destruct Hf as [Hf|Hf];
      [right; by eapply blobs_plug_side
      |apply Hgood, Hcov; [done|right; eauto]]]).
Qed.

Lemma holds_same T T' (t : tree) :
  db T' = db T -> root T' = root T -> holds hashfn T t -> holds hashfn T' t.
Proof. unfold holds. by intros -> ->. Qed.

Variable fuel : nat.

(** The end of [put] and [del]: the root is persisted twice, the lock is
    returned. *)
Lemma finish_represents T T2 (t' : tree) (n : nat) :
  _deleteFromDB T2 = _deleteFromDB T -> _useHashedKeys T2 = _useHashedKeys T ->
  _persistRoot T2 = _persistRoot T -> lock T = S (lock T2) ->
  root T2 = hashfn (body_of hashfn t') ->
  (forall b, b ∈ top_blobs hashfn t' -> db_get (db T2) (hashfn b) = Some b) ->
  collision_free hashfn (ROOT_DB_KEY :: RLP.RLP_EMPTY_STRING :: bodies hashfn t') ->
  let T3 := persisted hashfn (persisted hashfn T2) in
  represents hashfn (with_lock (S (lock T3)) T3) t'
  /\ same_settings T (with_lock (S (lock T3)) T3).
Proof.
  intros Hd Hu Hp Hl Hr Hst Hcf T3.
  pose proof (settings_persisted T2) as (Hd2 & Hu2 & Hp2 & Hl2).
  pose proof (settings_persisted (persisted hashfn T2)) as (Hd3 & Hu3 & Hp3 & Hl3).
  fold T3 in Hd3, Hu3, Hp3, Hl3.
  assert (Hroot3 : root T3 = hashfn (body_of hashfn t')).
  { unfold T3. by rewrite !root_persisted. }
  split; [split; [split|]|].
  - done.
  - apply list.Forall_forall. intros b Hb. cbn [db with_lock].
    assert (Hne : hashfn b <> appliedKey hashfn T ROOT_DB_KEY).
    { apply (hash_not_root_key T (RLP.RLP_EMPTY_STRING :: bodies hashfn t'));
        [done| |].
      - apply elem_of_cons. right. by apply top_blobs_bodies.
      - intros ->. apply top_blobs_bodies in Hb.
        by apply bodies_not_root_key in Hb. }
    unfold T3. rewrite !db_get_persisted; [by apply Hst|..].
    + unfold appliedKey in *. by rewrite Hu.
    + unfold appliedKey in *. by rewrite <- Hu2, Hu.
  - intros Hne. change (root (with_lock (S (lock T3)) T3)) with (root T3).
    rewrite Hroot3. unfold EMPTY_TRIE_ROOT, hash. intros Heq.
    assert (Hin : body_of hashfn t' ∈ bodies hashfn t') by by apply body_in_bodies.
    assert (Heq' : body_of hashfn t' = RLP.RLP_EMPTY_STRING).
    { apply Hcf; [|by apply elem_of_cons; right; apply elem_of_cons; left|done].
      by do 2 (apply elem_of_cons; right). }
    apply (bodies_not_empty_string hashfn t'). by rewrite <- Heq'.
  - unfold same_settings. cbn [with_lock _deleteFromDB _useHashedKeys _persistRoot lock].
    rewrite <- Hd3, <- Hd2, <- Hu3, <- Hu2, <- Hp3, <- Hp2, <- Hl3, <- Hl2.
    by rewrite Hd, Hu, Hp, Hl.
Qed.

Lemma put_nonempty T (t : tree) (k v : bytes) :
  wf t -> t <> TEmpty -> represents hashfn T t ->
  _deleteFromDB T = false -> lock T <> 0%nat ->
  _persistRoot T && bool_decide (k = ROOT_DB_KEY) = false ->
  v <> [] ->
  collision_free hashfn
    (ROOT_DB_KEY :: RLP.RLP_EMPTY_STRING
       :: bodies hashfn (insert t (bufferToNibbles (appliedKey hashfn T k)) v)) ->
  (length (bufferToNibbles (appliedKey hashfn T k)) < fuel)%nat ->
  exists T',
    put hashfn fuel k v T = (Ret tt, T')
    /\ represents hashfn T' (insert t (bufferToNibbles (appliedKey hashfn T k)) v)
    /\ same_settings T T'.
Proof.
  intros Hwf Hne [Hholds Hroot] Hdel Hlock Hres Hv Hcf Hfuel.
  destruct (decompose t Hwf Hne _ (bufferToNibbles_ok (appliedKey hashfn T k)))
    as (fs & s & rest & -> & Hkey & Hok & Hs & Hterm & Hlen).
  assert (Hrest : nibbles_ok rest).
  { pose proof (bufferToNibbles_ok (appliedKey hashfn T k)) as Hk.
    rewrite Hkey in Hk. unfold nibbles_ok in *.
    by apply Forall_app in Hk as [_ Hk]. }
  assert (Hins : insert (plug fs s) (bufferToNibbles (appliedKey hashfn T k)) v
                 = plug (fs ++ (extend s rest v).1.1) (extend s rest v).1.2).
  { by rewrite Hkey, insert_plug, extend_insert, plug_app. }
  rewrite Hins in *. clear Hins.
  unfold put. rewrite Hres, bool_decide_eq_false_2 by done.
  unfold bind at 1, lock_wait. destruct (lock T) as [|n] eqn:El; [done|].
  set (T1 := with_lock n T).
  assert (Hholds1 : holds hashfn T1 (plug fs s)) by by apply (holds_same T).
  change (appliedKey hashfn T1 k) with (appliedKey hashfn T k).
  unfold bind at 1. rewrite bool_decide_eq_false_2 by by apply Hroot.
  unfold bind at 1.
  rewrite (findPath_spec hashfn hash_length fs s rest fuel _ false T1 Hkey Hok Hwf
             Hs Hterm); cycle 1.
  { apply stored_path; [done..|]. destruct Hholds1 as [_ Hst].
    rewrite top_blobs_nonempty in Hst by done. by inversion Hst. }
  { by apply lookupNode_root. }
  { lia. }
  cbn [remaining stack].
  destruct (updateNode_spec hashfn T1 fs s rest (appliedKey hashfn T k) v
              Hdel Hkey Hs Hterm) as (nodes' & Hm & Hup).
  change (appliedKey hashfn T1 k) with (appliedKey hashfn T k).
  rewrite Hup, app_assoc. clear Hup.
  pose proof (extend_frames_ok s rest v Hrest Hterm) as Hok'.
  rewrite (saveStack_tree T1 _ (fs ++ (extend s rest v).1.1)); cycle 1.
  { by rewrite frames_key_app, <- app_assoc, extend_key. }
  { apply Forall2_app; [apply path_nodes_match|done]. }
  { by apply Forall_app. }
  { apply extend_leaf_or_branch. }
  unfold bind. rewrite persistRoot_eq. unfold lock_signal.
  eexists. split; [done|].
  rewrite <- map_app, db_batch_foldl.
  apply finish_represents; try done.
  - intros b Hb. cbn [db with_db with_root T1 with_lock].
    apply (db_get_puts hashfn).
    + intros b' Hb' Heq. apply Hcf; [| |done].
      * do 2 (apply elem_of_cons; right).
        by apply (written_bodies fs s rest v b' Hok (wf_plug _ _ Hok Hwf) Hrest Hterm).
      * do 2 (apply elem_of_cons; right). by apply top_blobs_bodies.
    + destruct (written_cover fs s rest v b Hok Hrest Hterm Hb) as [Hw|Hold];
        [by left|right].
      destruct Hholds as [_ Hst]. rewrite list.Forall_forall in Hst.
      apply Hst. rewrite top_blobs_nonempty by done. by apply elem_of_cons; right.
Qed.

Lemma put_empty T (k v : bytes) :
  represents hashfn T TEmpty ->
  lock T <> 0%nat ->
  _persistRoot T && bool_decide (k = ROOT_DB_KEY) = false ->
  v <> [] ->
  collision_free hashfn
    (ROOT_DB_KEY :: RLP.RLP_EMPTY_STRING
       :: bodies hashfn (TLeaf (bufferToNibbles (appliedKey hashfn T k)) v)) ->
  exists T',
    put hashfn fuel k v T = (Ret tt, T')
    /\ represents hashfn T' (TLeaf (bufferToNibbles (appliedKey hashfn T k)) v)
    /\ same_settings T T'.
Proof.
  intros [[Hroot _] _] Hlock Hres Hv Hcf.
  unfold put. rewrite Hres, bool_decide_eq_false_2 by done.
  unfold bind at 1, lock_wait. destruct (lock T) as [|n] eqn:El; [done|].
  set (T1 := with_lock n T).
  change (appliedKey hashfn T1 k) with (appliedKey hashfn T k).
  unfold bind at 1. rewrite bool_decide_eq_true_2 by done.
  set (t' := TLeaf (bufferToNibbles (appliedKey hashfn T k)) v) in *.
  unfold _createInitialNode. cbv zeta.
  change (LeafNode (bufferToNibbles (appliedKey hashfn T1 k)) v)
    with (node_of hashfn t').
  rewrite body_of_serialize by done.
  unfold bind, set_root. cbn [isFalsy]. unfold hash.
  rewrite hash_length, hashLen_32, decide_True by done.
  rewrite persistRoot_eq. unfold lock_signal. rewrite persistRoot_eq.
  eexists. split; [done|].
  apply finish_represents; try done.
  intros b Hb. cbn [db with_db with_root root _root].
  assert (b = body_of hashfn t') as -> by (cbn in Hb; unfold own_blob in Hb;
    destruct (_ <=? _)%nat; set_solver).
  rewrite db_get_put. by rewrite decide_True.
Qed.

(** [put] of a non-empty value is [insert]. *)
Lemma put_spec T (t : tree) (k v : bytes) :
  wf t -> represents hashfn T t ->
  _deleteFromDB T = false -> lock T <> 0%nat ->
  _persistRoot T && bool_decide (k = ROOT_DB_KEY) = false ->
  v <> [] ->
  collision_free hashfn
    (ROOT_DB_KEY :: RLP.RLP_EMPTY_STRING
       :: bodies hashfn (insert t (bufferToNibbles (appliedKey hashfn T k)) v)) ->
  (length (bufferToNibbles (appliedKey hashfn T k)) < fuel)%nat ->
  exists T',
    put hashfn fuel k v T = (Ret tt, T')
    /\ represents hashfn T' (insert t (bufferToNibbles (appliedKey hashfn T k)) v)
    /\ same_settings T T'.
Proof.
  intros Hwf Hrep Hdel Hlock Hres Hv Hcf Hfuel.
  assert (t = TEmpty \/ t <> TEmpty) as [->|Hne] by (destruct t; auto).
  - by apply put_empty.
  - by apply put_nonempty.
Qed.

End Put.

(** ** [get] reads the tree *)

(** The value a tree has for a key. *)
Fixpoint lookup (t : tree) (key : Nibbles) : option bytes :=
  match t with
  | TEmpty => None
  | TLeaf k v => if decide (key = k) then Some v else None
  | TExt k c =>
      if decide (matchingNibbleLength key k = length k)
      then lookup c (drop (length k) key) else None
  | TBranch cs v =>
      match key with
      | [] => branch_value v
      | i :: key' => default None (map (fun c => lookup c key') cs !! i)
      end
  end.

Lemma lookup_branch (cs : list tree) (v : bytes) (i : nat) (key : Nibbles) :
  lookup (TBranch cs v) (i :: key)
    = match cs !! i with Some c => lookup c key | None => None end.
Proof. cbn [lookup]. rewrite list_lookup_fmap. by destruct (cs !! i). Qed.

Lemma lookup_plug (fs : list frame) (s : tree) (rest : Nibbles) :
  Forall frame_ok fs ->
  lookup (plug fs s) (frames_key fs ++ rest) = lookup s rest.
Proof.
  induction 1 as [|f fs Hf _ IH]; [done|].
  change (plug (f :: fs) s) with (plug1 f (plug fs s)).
  change (frames_key (f :: fs)) with (frame_key f ++ frames_key fs).
  rewrite <- app_assoc. destruct f as [k|cs v i]; cbn [plug1 frame_key].
  - cbn [lookup]. rewrite mnl_app_r, decide_True by done.
    by rewrite drop_app_length.
  - cbn [app]. rewrite lookup_branch, list_lookup_insert_eq by done. done.
Qed.

Lemma lookup_terminal (hashfn : bytes -> bytes) (s : tree) (rest : Nibbles) :
  terminal s rest ->
  lookup s rest
    = match (found hashfn s rest).1, (found hashfn s rest).2 with
      | Some n, [] => node_value n
      | _, _ => None
      end.
Proof.
  destruct s as [|k v|k c|cs v]; cbn [terminal lookup found]; [done| | |].
  - intros _. destruct (decide (rest = k)); [done|]. cbn. by destruct rest.
  - intros Hne. rewrite decide_False by done. cbn. by destruct rest.
  - destruct rest as [|i rest]; [done|]. intros Hi.
    rewrite list_lookup_fmap, Hi. done.
Qed.

Section Get.
Variable hashfn : bytes -> bytes.
Hypothesis hash_length : forall msg, length (hashfn msg) = 32%nat.
Context {D : Type} `{!DB D}.
Implicit Types T : Trie D.
Variable fuel : nat.

(** [get] reads the value of the tree. *)
Lemma get_spec T (t : tree) (k : bytes) (tim : bool) :
  wf t -> t <> TEmpty -> holds hashfn T t ->
  (length (bufferToNibbles (appliedKey hashfn T k)) < fuel)%nat ->
  get hashfn fuel k tim T
    = (Ret (lookup t (bufferToNibbles (appliedKey hashfn T k))), T).
Proof.
  intros Hwf Hne Hholds Hfuel.
  destruct (decompose t Hwf Hne _ (bufferToNibbles_ok (appliedKey hashfn T k)))
    as (fs & s & rest & -> & Hkey & Hok & Hs & Hterm & Hlen).
  unfold get, bind.
  rewrite (findPath_spec hashfn hash_length fs s rest fuel _ tim T Hkey Hok Hwf
             Hs Hterm); cycle 1.
  { apply stored_path; [done..|]. destruct Hholds as [_ Hst].
    rewrite top_blobs_nonempty in Hst by done. by inversion Hst. }
  { by apply lookupNode_root. }
  { lia. }
  cbn [node remaining]. rewrite Hkey, lookup_plug by done.
  rewrite (lookup_terminal hashfn s rest Hterm).
  by destruct (found hashfn s rest).1, (found hashfn s rest).2.
Qed.

End Get.

(** ** Proofs *)

Section ProofDefs.
Variable hashfn : bytes -> bytes.

(** The bodies of the nodes on a way, from the top: the proof of a key. *)
Fixpoint path_bodies (fs : list frame) (s : tree) : list bytes :=
  match fs with
  | [] => [body_of hashfn s]
  | f :: fs' => body_of hashfn (plug fs s) :: path_bodies fs' s
  end.

(** The trie [verifyProof] builds from a root and a proof. *)
Definition proof_trie (rootHash : bytes) (proof : list bytes) : Trie MapDB :=
  mkTrie (db_batch (map (put_op hashfn) proof) (∅ : MapDB)) rootHash false
         false false false 1.

End ProofDefs.

Section ProofFacts.
Variable hashfn : bytes -> bytes.
Hypothesis hash_length : forall msg, length (hashfn msg) = 32%nat.
Variable fuel : nat.

Lemma path_bodies_stack (fs : list frame) (s : tree) :
  s <> TEmpty ->
  map serialize (path_stack hashfn fs s) = path_bodies hashfn fs s.
Proof.
  intros Hs. unfold path_stack. induction fs as [|f fs IH].
  - cbn. by rewrite body_of_serialize.
  - cbn [path_nodes path_bodies app map]. rewrite IH. f_equal.
    apply body_of_serialize. by apply (plug_nonempty (f :: fs)).
Qed.

Lemma path_bodies_bodies (fs : list frame) (s : tree) (b : bytes) :
  Forall frame_ok fs -> s <> TEmpty ->
  b ∈ path_bodies hashfn fs s -> b ∈ bodies hashfn (plug fs s).
Proof.
  intros Hok Hs. induction Hok as [|f fs Hf Hok IH]; cbn [path_bodies].
  - intros Hb. assert (b = body_of hashfn s) as -> by set_solver.
    by apply body_in_bodies.
  - rewrite elem_of_cons. intros [->|Hb].
    + apply body_in_bodies. by apply (plug_nonempty (f :: fs)).
    + apply (bodies_plug_sub hashfn [f]); [by constructor|by apply IH].
Qed.

Lemma path_bodies_top (fs : list frame) (s : tree) :
  body_of hashfn (plug fs s) ∈ path_bodies hashfn fs s.
Proof. destruct fs; cbn [path_bodies]; set_solver. Qed.

Lemma path_bodies_own (fs : list frame) (s : tree) (P : bytes -> Prop) :
  (forall b, b ∈ path_bodies hashfn fs s -> P b) ->
  forall T : Trie MapDB,
    (forall b, P b -> db_get (db T) (hashfn b) = Some b) ->
    path_stored hashfn T fs s.
Proof.
  intros HP T HT. induction fs as [|f fs IH]; [done|].
  cbn [path_stored]. split.
  - apply list.Forall_forall. intros b Hb. apply own_blob_body in Hb as ->.
    apply HT, HP. cbn [path_bodies]. apply elem_of_cons. right.
    apply path_bodies_top.
  - apply IH. intros b Hb. apply HP. cbn [path_bodies]. set_solver.
Qed.

Lemma verifyProof_eq {D} `{!DB D} (T : Trie D) (rootHash key : bytes)
    (proof : list bytes) :
  length rootHash = 32%nat ->
  verifyProof hashfn fuel rootHash key proof T
    = (match (get hashfn fuel (appliedKey hashfn T key) true
                  (proof_trie hashfn rootHash proof)).1 with
       | Ret value => Ret value
       | Throw MissingNode => Throw InvalidProof
       | o => o
       end, T).
Proof.
  intros Hlen. unfold verifyProof, Trie_new, set_root. cbn [isFalsy].
  rewrite hashLen_32, Hlen, decide_True by done.
  unfold fromProof, bind. cbn -[get db_batch].
  unfold hash. fold (put_op hashfn).
  match goal with
  | |- context [with_root rootHash false ?X] =>
      set (pt0 := with_root rootHash false X)
  end.
  unfold persistRoot.
  destruct (map (put_op hashfn) proof) as [|[] ?] eqn:E; cbv beta iota;
    rewrite <- E; clear E; cbn [_persistRoot with_db pt0 with_root];
    change (with_db _ pt0) with (proof_trie hashfn rootHash proof);
    destruct (get hashfn fuel (appliedKey hashfn T key) true _) as [[v|[]| |] T'];
    cbn [fst]; done.
Qed.

Lemma get_path {D} `{!DB D} (T : Trie D) (fs : list frame) (s : tree)
    (rest : Nibbles) (k : bytes) (tim : bool) :
  bufferToNibbles (appliedKey hashfn T k) = frames_key fs ++ rest ->
  Forall frame_ok fs -> wf (plug fs s) -> s <> TEmpty -> terminal s rest ->
  path_stored hashfn T fs s ->
  lookupNode (Str (root T)) T = (Ret (node_of hashfn (plug fs s)), T) ->
  (length fs < fuel)%nat ->
  get hashfn fuel k tim T
    = (Ret (lookup (plug fs s) (frames_key fs ++ rest)), T).
Proof.
  intros Hkey Hok Hwf Hs Hterm Hst Hroot Hfuel. unfold get, bind.
  rewrite (findPath_spec hashfn hash_length fs s rest fuel _ tim T Hkey Hok Hwf
             Hs Hterm Hst Hroot Hfuel).
  cbn [node remaining]. rewrite lookup_plug by done.
  rewrite (lookup_terminal hashfn s rest Hterm).
  by destruct (found hashfn s rest).1, (found hashfn s rest).2.
Qed.

Lemma createProof_verifyProof {D} `{!DB D} (T : Trie D) (t : tree) (key : bytes) :
  wf t -> t <> TEmpty -> holds hashfn T t ->
  collision_free hashfn (bodies hashfn t) ->
  (length (bufferToNibbles (appliedKey hashfn T key)) < fuel)%nat ->
  exists proof,
    createProof hashfn fuel key T = (Ret proof, T)
    /\ get hashfn fuel key false T
       = (Ret (lookup t (bufferToNibbles (appliedKey hashfn T key))), T)
    /\ verifyProof hashfn fuel (root T) key proof T
       = (Ret (lookup t (bufferToNibbles (appliedKey hashfn T key))), T).
Proof.
  intros Hwf Hne Hholds Hcf Hfuel.
  destruct (decompose t Hwf Hne _ (bufferToNibbles_ok (appliedKey hashfn T key)))
    as (fs & s & rest & -> & Hkey & Hok & Hs & Hterm & Hlen).
  assert (Hst : path_stored hashfn T fs s).
  { apply stored_path; [done..|]. destruct Hholds as [_ Hst].
    rewrite top_blobs_nonempty in Hst by done. by inversion Hst. }
  pose proof (lookupNode_root hashfn hash_length T _ Hwf Hne Hholds) as Hroot.
  exists (path_bodies hashfn fs s). split; [|split].
  - unfold createProof, bind.
    rewrite (findPath_spec hashfn hash_length fs s rest fuel _ false T Hkey Hok
               Hwf Hs Hterm Hst Hroot) by lia.
    unfold ret. cbn [stack]. by rewrite path_bodies_stack.
  - rewrite Hkey. apply get_path; try done. lia.
  - destruct Hholds as [Hr _].
    rewrite verifyProof_eq by (by rewrite Hr, hash_length).
    set (pT := proof_trie hashfn (root T) (path_bodies hashfn fs s)).
    assert (Hdb : forall b, b ∈ path_bodies hashfn fs s ->
                            db_get (db pT) (hashfn b) = Some b).
    { intros b Hb. unfold pT, proof_trie. cbn [db].
      rewrite db_batch_foldl. apply (db_get_puts hashfn); [|by left].
      intros b' Hb' Heq. apply Hcf; [by apply path_bodies_bodies..|done]. }
    rewrite (get_path pT fs s rest (appliedKey hashfn T key) true); try done.
    + cbn [fst]. by rewrite Hkey.
    + by apply (path_bodies_own fs s (fun b => b ∈ path_bodies hashfn fs s)).
    + unfold lookupNode. change (root pT) with (root T). rewrite Hr.
      rewrite Hdb by apply path_bodies_top.
      by rewrite decodeNode_body_of.
    + lia.
Qed.

End ProofFacts.

(** ** Counting the entries of a branch *)

Definition used (cs : list tree) : nat :=
  length (filter (fun c => is_empty c = false) cs).

Lemma entries_used (cs : list tree) (v : bytes) :
  entries cs v = (used cs + (if decide (v = []) then 0 else 1))%nat.
Proof. done. Qed.

Lemma used_cons (c : tree) (cs : list tree) :
  used (c :: cs) = ((if is_empty c then 0 else 1) + used cs)%nat.
Proof.
  unfold used. rewrite filter_cons. destruct (is_empty c) eqn:E.
  - by rewrite decide_False.
  - by rewrite decide_True.
Qed.

Lemma used_empty_slots : used empty_slots = 0%nat.
Proof. done. Qed.

Lemma used_insert_empty (cs : list tree) (i : nat) (x : tree) :
  cs !! i = Some TEmpty -> is_empty x = false ->
  used (<[ i := x ]> cs) = S (used cs).
Proof.
  revert i. induction cs as [|c cs IH]; intros [|i] Hi Hx; try done.
  - injection Hi as ->. change (<[0%nat:=x]> (TEmpty :: cs)) with (x :: cs).
    rewrite !used_cons, Hx. done.
  - change (<[S i:=x]> (c :: cs)) with (c :: <[i:=x]> cs).
    rewrite !used_cons, IH by done. lia.
Qed.

Lemma used_insert_ge (cs : list tree) (i : nat) (x : tree) :
  is_empty x = false -> (used cs <= used (<[ i := x ]> cs))%nat.
Proof.
  intros Hx. revert i. induction cs as [|c cs IH]; intros [|i]; try done.
  - change (<[0%nat:=x]> (c :: cs)) with (x :: cs).
    rewrite !used_cons, Hx. destruct (is_empty c); lia.
  - change (<[S i:=x]> (c :: cs)) with (c :: <[i:=x]> cs).
    rewrite !used_cons. specialize (IH i). lia.
Qed.

Lemma lookup_empty_slots (i : nat) :
  (i < 16)%nat -> empty_slots !! i = Some TEmpty.
Proof. intros Hi. unfold empty_slots. by apply lookup_replicate_2. Qed.

Lemma insert_nonempty (t : tree) (key : Nibbles) (v : bytes) :
  is_empty (insert t key v) = false.
Proof.
  destruct t as [|lk lv|ek c|cs bv]; cbn [insert]; [done| | |].
  - destruct (decide _); [done|]. unfold split.
    pose proof (extend_leaf_or_branch (TLeaf lk lv) key v) as H.
    cbn [extend] in H. rewrite decide_False in H by done.
    destruct (diverge _ _ _ _).1.1 as [|[] ?]; [|done..].
    cbn. by destruct (diverge _ _ _ _).1.2.
  - destruct (decide _); [done|]. unfold split.
    pose proof (extend_leaf_or_branch (TExt ek c) key v) as H.
    cbn [extend] in H.
    destruct (diverge _ _ _ _).1.1 as [|[] ?]; [|done..].
    cbn. by destruct (diverge _ _ _ _).1.2.
  - by destruct key.
Qed.

Lemma insert_branch (t : tree) (key : Nibbles) (v : bytes) :
  is_branch t = true -> is_branch (insert t key v) = true.
Proof. destruct t; try done. intros _. by destruct key. Qed.

Lemma size_ok_le (n m : nat) : (n <= m)%nat -> size_ok m -> size_ok n.
Proof. unfold size_ok. lia. Qed.

Lemma nibbles_ok_drop (n : nat) (k : Nibbles) : nibbles_ok k -> nibbles_ok (drop n k).
Proof. unfold nibbles_ok. apply Forall_drop. Qed.

Lemma nibbles_ok_take (n : nat) (k : Nibbles) : nibbles_ok k -> nibbles_ok (take n k).
Proof. unfold nibbles_ok. apply Forall_take. Qed.

Lemma drop_cons_inv {A} (n : nat) (l : list A) (x : A) (l' : list A) :
  drop n l = x :: l' ->
  l !! n = Some x /\ l' = drop (S n) l /\ (n < length l)%nat.
Proof.
  intros Hd. split_and!.
  - rewrite <- (Nat.add_0_r n), <- lookup_drop, Hd. done.
  - rewrite <- (Nat.add_1_r n), <- drop_drop, Hd. done.
  - destruct (decide (n < length l)%nat); [done|].
    rewrite drop_ge in Hd by lia. done.
Qed.

(** ** [insert] keeps trees well formed *)

Lemma wf_shrink (old : tree) (okey' : Nibbles) :
  wf old -> is_leaf_or_ext old = true ->
  nibbles_ok okey' -> size_ok (length okey') ->
  wf (shrink old okey') /\ is_empty (shrink old okey') = false.
Proof.
  intros Hwf Hold Hk Hs. destruct old as [|lk lv|ek c|cs bv]; try done.
  - apply wf_leaf_inv in Hwf as (_ & _ & Hv & Hvs). cbn [shrink].
    split; [by constructor|done].
  - apply wf_ext_inv in Hwf as (_ & _ & _ & Hb & Hc). cbn [shrink].
    destruct (decide (okey' = [])); [by destruct c|].
    split; [by constructor|done].
Qed.

Lemma wf_split (old : tree) (okey rest : Nibbles) (v : bytes) :
  wf old -> is_leaf_or_ext old = true -> tree_key old = okey ->
  (drop (matchingNibbleLength okey rest) okey = [] ->
   is_ext old = false /\ drop (matchingNibbleLength okey rest) rest <> []) ->
  nibbles_ok rest -> size_ok (length rest) -> v <> [] -> size_ok (length v) ->
  wf (split old okey rest v) /\ is_empty (split old okey rest v) = false.
Proof.
  intros Hwf Hold Hkey Hdiv Hrest Hrs Hv Hvs. unfold split, diverge.
  pose proof (mnl_drop okey rest) as Hdiff.
  pose proof (mnl_le_l okey rest) as Hle.
  set (m := matchingNibbleLength okey rest) in *. clearbody m.
  assert (Hok : nibbles_ok okey /\ size_ok (length okey)).
  { destruct old as [|lk lv|ek c|cs bv]; try done; cbn in Hkey; subst.
    - by apply wf_leaf_inv in Hwf as (? & ? & _).
    - by apply wf_ext_inv in Hwf as (? & ? & _). }
  destruct Hok as [Hok Hos].
  set (pre := if decide (m = 0%nat) then [] else [FExt (take m okey)]).
  assert (Hpre : forall B, is_branch B = true -> wf B ->
                           wf (plug pre B) /\ is_empty (plug pre B) = false).
  { intros B HB HwB. unfold pre. destruct (decide (m = 0%nat)) as [|Hm].
    - split; [done|by destruct B].
    - split; [|done]. cbn. constructor; try done.
      + by apply nibbles_ok_take.
      + apply (size_ok_le _ (length okey)); [|done].
        rewrite length_take. apply Nat.le_min_r.
      + intros Ht. apply (f_equal length) in Ht.
        rewrite length_take, Nat.min_l in Ht by lia. done. }
  assert (Hleaf : forall j rest', drop m rest = j :: rest' ->
                    wf (TLeaf rest' v) /\ (j < 16)%nat).
  { intros j rest' E. apply drop_cons_inv in E as (Hj & -> & Hlt). split.
    - constructor; try done; [by apply nibbles_ok_drop|].
      apply (size_ok_le _ (length rest)); [|done]. rewrite length_drop. lia.
    - unfold nibbles_ok in Hrest. rewrite list.Forall_forall in Hrest.
      apply Hrest. by eapply list_elem_of_lookup_2. }
  destruct (drop m okey) as [|bk okey'] eqn:E1.
  - destruct (Hdiv eq_refl) as [Hext Hr].
    destruct (drop m rest) as [|j rest'] eqn:E2; [done|]. cbn [fst snd].
    destruct (Hleaf j rest' eq_refl) as [Hwl Hj]. rewrite plug_app.
    apply Hpre; [done|]. cbn [plug foldr plug1].
    destruct old as [|lk lv|ek c|cs bv]; try done.
    apply wf_leaf_inv in Hwf as (_ & _ & Hlv & Hlvs). cbn [leaf_value].
    constructor; [by rewrite length_insert| |done|].
    + apply Forall_insert; [|done]. unfold empty_slots.
      apply Forall_replicate. constructor.
    + rewrite entries_used, decide_False by done.
      rewrite used_insert_empty by (by try apply lookup_empty_slots). lia.
  - apply drop_cons_inv in E1 as (Hbk & -> & Hlt).
    assert (Hbk16 : (bk < 16)%nat).
    { unfold nibbles_ok in Hok. rewrite list.Forall_forall in Hok.
      apply Hok. by eapply list_elem_of_lookup_2. }
    destruct (wf_shrink old (drop (S m) okey) Hwf Hold) as [Hwsh Hsh].
    { by apply nibbles_ok_drop. }
    { apply (size_ok_le _ (length okey)); [|done]. rewrite length_drop. lia. }
    assert (Hslots : Forall wf (<[bk:=shrink old (drop (S m) okey)]> empty_slots)).
    { apply Forall_insert; [|done]. unfold empty_slots.
      apply Forall_replicate. constructor. }
    destruct (drop m rest) as [|j rest'] eqn:E2; cbn [fst snd].
    + apply Hpre; [done|].
      constructor; [by rewrite length_insert|done|done|].
      rewrite entries_used, decide_False by done.
      rewrite used_insert_empty by (by try apply lookup_empty_slots). lia.
    + destruct (Hleaf j rest' eq_refl) as [Hwl Hj]. rewrite plug_app.
      apply Hpre; [done|]. cbn [plug foldr plug1].
      constructor; [by rewrite !length_insert| |done|].
      * by apply Forall_insert.
      * rewrite entries_used. rewrite used_insert_empty; [| |done].
        -- rewrite used_insert_empty by (by try apply lookup_empty_slots). cbn. lia.
        -- rewrite list_lookup_insert_ne by done. by apply lookup_empty_slots.
Qed.

Lemma drop_mnl_nil (a b : Nibbles) :
  drop (matchingNibbleLength a b) a = [] -> b = a ++ drop (length a) b.
Proof.
  intros Hd. apply mnl_full_prefix. rewrite mnl_sym.
  pose proof (mnl_le_l a b) as Hle. apply (f_equal length) in Hd.
  rewrite length_drop in Hd.
  change (@length nat []) with 0%nat in Hd. lia.
Qed.

Lemma wf_insert (t : tree) :
  forall (key : Nibbles) (v : bytes),
    wf t -> nibbles_ok key -> size_ok (length key) ->
    v <> [] -> size_ok (length v) ->
    wf (insert t key v).
Proof.
  induction t as [|lk lv|ek c IH|cs bv IH] using tree_ind';
    intros key v Hwf Hk Hks Hv Hvs; cbn [insert].
  - by constructor.
  - destruct (decide (key = lk)) as [->|Hne]; [by constructor|].
    apply wf_split; try done. intros Hd. split; [done|].
    intros Hd'. apply Hne. pose proof (drop_mnl_nil _ _ Hd) as Hk'.
    rewrite Hk', mnl_app_l, drop_app_length in Hd'.
    by rewrite Hk', Hd', app_nil_r.
  - pose proof (wf_ext_inv _ _ Hwf) as (Hek & Heks & Hne & Hb & Hc).
    destruct (decide (matchingNibbleLength key ek = length ek)) as [Hm|Hm].
    + constructor; try done; [by apply insert_branch|].
      apply IH; try done; [by apply nibbles_ok_drop|].
      apply (size_ok_le _ (length key)); [|done]. rewrite length_drop. lia.
    + apply wf_split; try done. intros Hd. exfalso. apply Hm.
      rewrite mnl_sym. pose proof (mnl_le_l ek key) as Hle.
      apply (f_equal length) in Hd. rewrite length_drop in Hd.
  change (@length nat []) with 0%nat in Hd. lia.
  - pose proof (wf_branch_inv _ _ Hwf) as (Hlen & Hall & Hbs & Hent).
    destruct key as [|i key'].
    + constructor; try done. rewrite entries_used in *.
      rewrite decide_False by done. destruct (decide (bv = [])); lia.
    + assert (Hi : (i < 16)%nat) by by inversion Hk.
      destruct (lookup_lt_is_Some_2 cs i) as [c Hc]; [lia|].
      rewrite (alter_lookup_insert _ _ _ _ Hc).
      constructor; [by rewrite length_insert| |done|].
      * apply Forall_insert; [done|].
        rewrite list.Forall_forall in IH. apply IH.
        -- by eapply list_elem_of_lookup_2.
        -- rewrite list.Forall_forall in Hall. apply Hall.
           by eapply list_elem_of_lookup_2.
        -- by inversion Hk.
        -- apply (size_ok_le _ (length (i :: key'))); [cbn; lia|done].
        -- done.
        -- done.
      * rewrite entries_used in *.
        pose proof (used_insert_ge cs i (insert c key' v)
                      (insert_nonempty c key' v)). lia.
Qed.

(** ** The value [insert] gives a key *)

Lemma mnl_app_common (p a b : Nibbles) :
  matchingNibbleLength (p ++ a) (p ++ b)
    = (length p + matchingNibbleLength a b)%nat.
Proof. induction p as [|x p IH]; [done|]. cbn. by rewrite Nat.eqb_refl, IH. Qed.

Lemma mnl_nil_r (a : Nibbles) : matchingNibbleLength a [] = 0%nat.
Proof. by destruct a. Qed.

Lemma mnl_prefix_app (a p x : Nibbles) :
  matchingNibbleLength a (p ++ x) = length (p ++ x) ->
  matchingNibbleLength a p = length p.
Proof.
  intros H. apply mnl_full_prefix in H. rewrite H, <- app_assoc.
  apply mnl_app_r.
Qed.

(** What a leaf or an extension has below its key. *)
Definition below (old : tree) (k : Nibbles) : option bytes :=
  match old with
  | TLeaf _ lv => if decide (k = []) then Some lv else None
  | TExt _ c => lookup c k
  | _ => None
  end.

Lemma lookup_leaf_below (lk : Nibbles) (lv : bytes) (key : Nibbles) :
  lookup (TLeaf lk lv) key
    = if decide (matchingNibbleLength key lk = length lk)
      then (if decide (drop (length lk) key = []) then Some lv else None)
      else None.
Proof.
  cbn [lookup]. destruct (decide (key = lk)) as [->|Hne].
  - by rewrite mnl_refl, decide_True, drop_all, decide_True.
  - destruct (decide (matchingNibbleLength key lk = length lk)) as [Hm|]; [|done].
    rewrite decide_False; [done|]. intros Hd. apply Hne.
    apply mnl_full_prefix in Hm. by rewrite Hm, Hd, app_nil_r.
Qed.

Lemma lookup_old (old : tree) (key : Nibbles) :
  is_leaf_or_ext old = true ->
  lookup old key
    = if decide (matchingNibbleLength key (tree_key old) = length (tree_key old))
      then below old (drop (length (tree_key old)) key) else None.
Proof.
  destruct old as [|lk lv|ek c|cs bv]; try done; intros _.
  apply lookup_leaf_below.
Qed.

Lemma lookup_shrink (old : tree) (okey' k : Nibbles) :
  is_leaf_or_ext old = true ->
  lookup (shrink old okey') k
    = if decide (matchingNibbleLength k okey' = length okey')
      then below old (drop (length okey') k) else None.
Proof.
  destruct old as [|lk lv|ek c|cs bv]; try done; intros _; cbn [shrink].
  - apply lookup_leaf_below.
  - destruct (decide (okey' = [])) as [->|Hne]; [|done].
    by rewrite mnl_nil_r, decide_True.
Qed.

Lemma lookup_slot (cs : list tree) (bv : bytes) (j : nat) (x : tree) (i : nat)
    (k : Nibbles) :
  (j < length cs)%nat ->
  lookup (TBranch (<[ j := x ]> cs) bv) (i :: k)
    = if decide (i = j) then lookup x k else lookup (TBranch cs bv) (i :: k).
Proof.
  intros Hj. rewrite !lookup_branch. destruct (decide (i = j)) as [->|Hne].
  - by rewrite list_lookup_insert_eq.
  - by rewrite list_lookup_insert_ne.
Qed.

Lemma lookup_empty_branch (bv : bytes) (i : nat) (k : Nibbles) :
  lookup (TBranch empty_slots bv) (i :: k) = None.
Proof.
  rewrite lookup_branch. destruct (empty_slots !! i) as [c|] eqn:E; [|done].
  apply list_elem_of_lookup_2, elem_of_empty_slots in E. by subst.
Qed.

(** The branch [_updateNode] makes where two keys part ways. *)
Definition fork (old : tree) (ko kr : Nibbles) (v : bytes) : tree :=
  let '(cs, bv) :=
    match ko with
    | bk :: okey' => (<[ bk := shrink old okey' ]> empty_slots, [])
    | [] => (empty_slots, leaf_value old)
    end in
  match kr with
  | j :: rest' => TBranch (<[ j := TLeaf rest' v ]> cs) bv
  | [] => TBranch cs v
  end.

Lemma split_fork (old : tree) (okey rest : Nibbles) (v : bytes) :
  let m := matchingNibbleLength okey rest in
  split old okey rest v
    = plug (if decide (m = 0%nat) then [] else [FExt (take m okey)])
           (fork old (drop m okey) (drop m rest) v).
Proof.
  cbv zeta. unfold split, diverge, fork.
  destruct (drop _ okey), (drop _ rest); cbn [fst snd]; try done;
    by rewrite plug_app.
Qed.

Lemma mnl_cons_eq (i : nat) (a b : Nibbles) :
  matchingNibbleLength (i :: a) (i :: b) = S (matchingNibbleLength a b).
Proof. cbn. by rewrite Nat.eqb_refl. Qed.

Lemma mnl_cons_ne (i j : nat) (a b : Nibbles) :
  i <> j -> matchingNibbleLength (i :: a) (j :: b) = 0%nat.
Proof. intros H. cbn. by apply Nat.eqb_neq in H as ->. Qed.

Lemma lookup_fork (old : tree) (ko kr : Nibbles) (v : bytes) (k : Nibbles) :
  is_leaf_or_ext old = true ->
  (ko = [] -> is_ext old = false /\ kr <> [] /\ leaf_value old <> []) ->
  match ko, kr with x :: _, y :: _ => x <> y | _, _ => True end ->
  nibbles_ok ko -> nibbles_ok kr -> v <> [] ->
  lookup (fork old ko kr v) k
    = if decide (k = kr) then Some v
      else if decide (matchingNibbleLength k ko = length ko)
           then below old (drop (length ko) k) else None.
Proof.
  intros Hold Hnil Hdiff Hko Hkr Hv. unfold fork.
  assert (H16 : length empty_slots = 16%nat) by done.
  destruct ko as [|bk okey'], kr as [|j rest'].
  - by destruct (Hnil eq_refl) as (_ & ? & _).
  - destruct (Hnil eq_refl) as (Hext & _ & Hlv).
    assert (Hj : (j < 16)%nat) by by inversion Hkr.
    destruct old as [|lk lv|ek c|cs bv]; try done. cbn [leaf_value] in *.
    destruct k as [|i k3].
    + cbn. by destruct lv.
    + rewrite lookup_slot, lookup_empty_branch by (rewrite ?H16; lia).
      rewrite mnl_nil_r. cbn [length drop below].
      rewrite (decide_True (P := 0%nat = 0%nat)) by done.
      rewrite (decide_False (P := i :: k3 = [])) by done.
      destruct (decide (i = j)) as [->|Hne].
      * cbn [lookup]. destruct (decide (k3 = rest')) as [->|Hne].
        -- by rewrite decide_True.
        -- rewrite decide_False; [done|]. by intros [= ->].
      * rewrite decide_False; [done|]. by intros [= -> _].
  - assert (Hbk : (bk < 16)%nat) by by inversion Hko.
    destruct k as [|i k3].
    + cbn. rewrite decide_True by done. by destruct v.
    + rewrite decide_False by done.
      rewrite lookup_slot, lookup_empty_branch by (rewrite ?H16; lia).
      destruct (decide (i = bk)) as [->|Hne].
      * rewrite lookup_shrink, mnl_cons_eq by done. cbn [length drop].
        destruct (decide (matchingNibbleLength k3 okey' = length okey')).
        -- by rewrite decide_True by lia.
        -- by rewrite decide_False by lia.
      * rewrite mnl_cons_ne by done. by rewrite decide_False.
  - assert (Hbk : (bk < 16)%nat) by by inversion Hko.
    assert (Hj : (j < 16)%nat) by by inversion Hkr.
    destruct k as [|i k3].
    + cbn. rewrite decide_False by done. by rewrite decide_False.
    + rewrite lookup_slot by (rewrite length_insert, H16; lia).
      rewrite lookup_slot, lookup_empty_branch by (rewrite ?H16; lia).
      destruct (decide (i = j)) as [->|Hne].
      * cbn [lookup]. destruct (decide (k3 = rest')) as [->|Hne].
        -- by rewrite decide_True.
        -- rewrite decide_False by (by intros [= ->]).
           rewrite mnl_cons_ne by done. by rewrite decide_False.
      * rewrite (decide_False (P := i :: k3 = j :: rest')) by (by intros [= -> _]).
        destruct (decide (i = bk)) as [->|Hne'].
        -- rewrite lookup_shrink, mnl_cons_eq by done. cbn [length drop].
           destruct (decide (matchingNibbleLength k3 okey' = length okey')).
           ++ by rewrite decide_True by lia.
           ++ by rewrite decide_False by lia.
        -- rewrite mnl_cons_ne by done. by rewrite decide_False.
Qed.

Lemma drop_app_add {A} (p k : list A) (n : nat) :
  drop (length p + n) (p ++ k) = drop n k.
Proof. by rewrite <- drop_drop, drop_app_length. Qed.

Lemma lookup_split (old : tree) (okey rest : Nibbles) (v : bytes) (key : Nibbles) :
  wf old -> is_leaf_or_ext old = true -> tree_key old = okey ->
  (drop (matchingNibbleLength okey rest) okey = [] ->
   is_ext old = false /\ drop (matchingNibbleLength okey rest) rest <> []) ->
  nibbles_ok rest -> v <> [] ->
  lookup (split old okey rest v) key
    = if decide (key = rest) then Some v else lookup old key.
Proof.
  intros Hwf Hold Hkey Hdiv Hrest Hv.
  rewrite (lookup_old old key Hold), Hkey. rewrite split_fork. cbv zeta.
  pose proof (mnl_drop okey rest) as Hdiff.
  pose proof (mnl_le_l okey rest) as Hle.
  pose proof (mnl_take okey rest) as Htake.
  set (m := matchingNibbleLength okey rest) in *. clearbody m.
  assert (Hok : nibbles_ok okey /\ (is_ext old = false -> leaf_value old <> [])).
  { destruct old as [|lk lv|ek c|cs bv]; try done; cbn in Hkey; subst.
    - by apply wf_leaf_inv in Hwf as (? & _ & ? & _).
    - by apply wf_ext_inv in Hwf as (? & _). }
  destruct Hok as [Hok Hlv].
  set (p := take m okey) in *.
  set (ko := drop m okey) in *. set (kr := drop m rest) in *.
  assert (Eo : okey = p ++ ko) by (by unfold p, ko; rewrite take_drop).
  assert (Er : rest = p ++ kr) by (by unfold kr; rewrite Htake, take_drop).
  assert (Hp : length p = m) by (unfold p; rewrite length_take; lia).
  assert (Hpre : forall B,
    lookup (plug (if decide (m = 0%nat) then [] else [FExt p]) B) key
    = if decide (matchingNibbleLength key p = length p)
      then lookup B (drop (length p) key) else None).
  { intros B. destruct (decide (m = 0%nat)) as [Hm|Hm]; [|done].
    assert (p = []) as -> by (apply length_zero_iff_nil; lia).
    by rewrite mnl_nil_r, decide_True. }
  rewrite Hpre. clear Hpre.
  destruct (decide (matchingNibbleLength key p = length p)) as [Hkp|Hkp].
  - apply mnl_full_prefix in Hkp. set (k' := drop (length p) key) in *.
    rewrite Hkp, Eo, Er. rewrite mnl_app_common, length_app, drop_app_add.
    rewrite lookup_fork; try done.
    + destruct (decide (k' = kr)) as [->|Hne]; [by rewrite decide_True|].
      rewrite (decide_False (P := p ++ k' = p ++ kr)) by (by intros ?%app_inv_head).
      destruct (decide (matchingNibbleLength k' ko = length ko)).
      * by rewrite decide_True by lia.
      * by rewrite decide_False by lia.
    + intros Hko. destruct (Hdiv Hko) as [Hext Hkr]. auto.
    + by apply nibbles_ok_drop.
    + by apply nibbles_ok_drop.
  - rewrite decide_False.
    + rewrite decide_False; [done|]. intros Hm. apply Hkp.
      rewrite Eo in Hm. by apply mnl_prefix_app in Hm.
    + intros ->. apply Hkp. rewrite Er. apply mnl_app_r.
Qed.

Lemma lookup_insert (t : tree) :
  forall (key : Nibbles) (v : bytes) (key' : Nibbles),
    wf t -> nibbles_ok key -> v <> [] ->
    lookup (insert t key v) key'
      = if decide (key' = key) then Some v else lookup t key'.
Proof.
  induction t as [|lk lv|ek c IH|cs bv IH] using tree_ind';
    intros key v key' Hwf Hk Hv; cbn [insert].
  - done.
  - destruct (decide (key = lk)) as [->|Hne].
    + cbn [lookup]. by destruct (decide (key' = lk)).
    + apply lookup_split; try done. intros Hd. split; [done|].
      intros Hd'. apply Hne. pose proof (drop_mnl_nil _ _ Hd) as Hk'.
      rewrite Hk', mnl_app_l, drop_app_length in Hd'.
      by rewrite Hk', Hd', app_nil_r.
  - pose proof (wf_ext_inv _ _ Hwf) as (Hek & Heks & Hne & Hb & Hc).
    destruct (decide (matchingNibbleLength key ek = length ek)) as [Hm|Hm].
    + cbn [lookup].
      destruct (decide (matchingNibbleLength key' ek = length ek)) as [Hm'|Hm'].
      * rewrite IH by (by try apply nibbles_ok_drop).
        apply mnl_full_prefix in Hm, Hm'.
        destruct (decide (drop (length ek) key' = drop (length ek) key)) as [He|He].
        -- rewrite decide_True; [done|]. by rewrite Hm, Hm', He.
        -- rewrite decide_False; [done|]. by intros ->.
      * rewrite decide_False; [done|]. by intros ->.
    + apply lookup_split; try done. intros Hd. exfalso. apply Hm.
      rewrite mnl_sym. pose proof (mnl_le_l ek key) as Hle.
      apply (f_equal length) in Hd. rewrite length_drop in Hd.
      change (@length nat []) with 0%nat in Hd. lia.
  - pose proof (wf_branch_inv _ _ Hwf) as (Hlen & Hall & Hbs & Hent).
    destruct key as [|i key].
    + destruct key' as [|i' key']; [|by rewrite decide_False].
      cbn. by destruct v.
    + assert (Hi : (i < 16)%nat) by by inversion Hk.
      destruct (lookup_lt_is_Some_2 cs i) as [c Hc]; [lia|].
      rewrite (alter_lookup_insert _ _ _ _ Hc).
      destruct key' as [|i' key']; [by rewrite decide_False|].
      rewrite lookup_slot by lia.
      destruct (decide (i' = i)) as [->|Hne].
      * rewrite list.Forall_forall in IH, Hall.
        rewrite IH; [| by eapply list_elem_of_lookup_2
                     | by eapply Hall, list_elem_of_lookup_2
                     | by inversion Hk | done].
        rewrite lookup_branch, Hc.
        destruct (decide (key' = key)) as [->|Hne]; [by rewrite decide_True|].
        rewrite decide_False; [done|]. by intros [= ->].
      * rewrite decide_False; [done|]. by intros [= -> _].
Qed.

(** ** A well-formed tree is determined by its values *)

Lemma used_pos (cs : list tree) :
  (1 <= used cs)%nat -> exists i c, cs !! i = Some c /\ is_empty c = false.
Proof.
  induction cs as [|c cs IH]; [cbn; lia|]. rewrite used_cons.
  destruct (is_empty c) eqn:E.
  - intros H. destruct IH as (i & d & Hi & Hd); [lia|]. by exists (S i), d.
  - intros _. by exists 0%nat, c.
Qed.

Lemma used_two (cs : list tree) :
  (2 <= used cs)%nat ->
  exists i j c d, i <> j /\ cs !! i = Some c /\ cs !! j = Some d
                  /\ is_empty c = false /\ is_empty d = false.
Proof.
  induction cs as [|c cs IH]; [cbn; lia|]. rewrite used_cons.
  destruct (is_empty c) eqn:E.
  - intros H. destruct IH as (i & j & a & b & Hij & Hi & Hj & Ha & Hb); [lia|].
    exists (S i), (S j), a, b. split_and!; try done. lia.
  - intros H. destruct (used_pos cs) as (j & d & Hj & Hd); [lia|].
    exists 0%nat, (S j), c, d. split_and!; done.
Qed.

Lemma lookup_ext_app (k : Nibbles) (c : tree) (key : Nibbles) :
  lookup (TExt k c) (k ++ key) = lookup c key.
Proof. cbn [lookup]. by rewrite mnl_app_r, decide_True, drop_app_length. Qed.

Lemma lookup_ext_prefix (k : Nibbles) (c : tree) (key : Nibbles) :
  is_Some (lookup (TExt k c) key) -> key = k ++ drop (length k) key.
Proof.
  cbn [lookup]. destruct (decide _) as [Hm|]; [|by intros [? ?]].
  intros _. by apply mnl_full_prefix.
Qed.

Lemma wf_inhabited (t : tree) :
  wf t -> t <> TEmpty -> exists k, is_Some (lookup t k).
Proof.
  induction t as [|lk lv|ek c IH|cs bv IH] using tree_ind'; intros Hwf Hne.
  - done.
  - exists lk. cbn. by rewrite decide_True.
  - apply wf_ext_inv in Hwf as (_ & _ & _ & Hb & Hc).
    destruct IH as [k Hk]; [done|by destruct c|].
    exists (ek ++ k). by rewrite lookup_ext_app.
  - apply wf_branch_inv in Hwf as (Hlen & Hall & _ & Hent).
    rewrite entries_used in Hent. destruct (decide (bv = [])) as [->|Hv].
    + destruct (used_pos cs) as (i & c & Hi & Hc); [lia|].
      rewrite list.Forall_forall in IH, Hall.
      destruct (IH c) as [k Hk];
        [by eapply list_elem_of_lookup_2
        |by eapply Hall, list_elem_of_lookup_2|by destruct c|].
      exists (i :: k). by rewrite lookup_branch, Hi.
    + exists []. cbn. by destruct bv.
Qed.

(** A branch has two keys that part ways at once. *)
Lemma branch_two (cs : list tree) (bv : bytes) :
  wf (TBranch cs bv) ->
  exists k1 k2,
    is_Some (lookup (TBranch cs bv) k1) /\ is_Some (lookup (TBranch cs bv) k2)
    /\ head k1 <> head k2.
Proof.
  intros Hwf. apply wf_branch_inv in Hwf as (Hlen & Hall & _ & Hent).
  rewrite entries_used in Hent. rewrite list.Forall_forall in Hall.
  assert (Hchild : forall i c, cs !! i = Some c -> is_empty c = false ->
            exists k, is_Some (lookup (TBranch cs bv) (i :: k))).
  { intros i c Hi Hc. destruct (wf_inhabited c) as [k Hk];
      [by eapply Hall, list_elem_of_lookup_2|by destruct c|].
    exists k. by rewrite lookup_branch, Hi. }
  destruct (decide (bv = [])) as [->|Hv].
  - destruct (used_two cs) as (i & j & c & d & Hij & Hi & Hj & Hc & Hd); [lia|].
    destruct (Hchild i c Hi Hc) as [k1 Hk1].
    destruct (Hchild j d Hj Hd) as [k2 Hk2].
    exists (i :: k1), (j :: k2). split_and!; try done. cbn. congruence.
  - destruct (used_pos cs) as (i & c & Hi & Hc); [lia|].
    destruct (Hchild i c Hi Hc) as [k1 Hk1].
    exists [], (i :: k1). split_and!; try done. cbn. by destruct bv.
Qed.

Lemma two_keys (t : tree) :
  wf t -> is_branch t = true \/ is_ext t = true ->
  exists k1 k2, k1 <> k2 /\ is_Some (lookup t k1) /\ is_Some (lookup t k2).
Proof.
  intros Hwf [Ht|Ht]; destruct t as [|lk lv|ek c|cs bv]; try done.
  - destruct (branch_two cs bv Hwf) as (k1 & k2 & H1 & H2 & Hh).
    exists k1, k2. split_and!; try done. by intros ->.
  - apply wf_ext_inv in Hwf as (_ & _ & _ & Hb & Hc).
    destruct c as [| | |cs bv]; try done.
    destruct (branch_two cs bv Hc) as (k1 & k2 & H1 & H2 & Hh).
    exists (ek ++ k1), (ek ++ k2). rewrite !lookup_ext_app.
    split_and!; try done. intros ?%app_inv_head. by subst.
Qed.

Lemma leaf_one_key (lk : Nibbles) (lv : bytes) (t : tree) :
  wf t -> is_branch t = true \/ is_ext t = true ->
  (forall k, lookup (TLeaf lk lv) k = lookup t k) -> False.
Proof.
  intros Hwf Ht Heq. destruct (two_keys t Hwf Ht) as (k1 & k2 & Hne & H1 & H2).
  rewrite <- Heq in H1, H2. cbn in H1, H2.
  destruct (decide (k1 = lk)), (decide (k2 = lk)); subst;
    try done; by destruct H1 || by destruct H2.
Qed.

Lemma ext_branch_differ (k : Nibbles) (c : tree) (cs : list tree) (bv : bytes) :
  wf (TExt k c) -> wf (TBranch cs bv) ->
  (forall key, lookup (TExt k c) key = lookup (TBranch cs bv) key) -> False.
Proof.
  intros Hw1 Hw2 Heq.
  destruct (branch_two cs bv Hw2) as (k1 & k2 & H1 & H2 & Hh).
  rewrite <- Heq in H1, H2. apply lookup_ext_prefix in H1, H2.
  apply wf_ext_inv in Hw1 as (_ & _ & Hne & _).
  apply Hh. rewrite H1, H2. by destruct k.
Qed.

Lemma ext_key_length (k : Nibbles) (c : tree) (k' : Nibbles) :
  wf (TExt k c) ->
  (forall key, is_Some (lookup (TExt k c) key) -> exists x, key = k' ++ x) ->
  (length k' <= length k)%nat.
Proof.
  intros Hwf Hpre. pose proof Hwf as (_ & _ & _ & Hb & Hc)%wf_ext_inv.
  destruct c as [| | |cs bv]; try done.
  destruct (branch_two cs bv Hc) as (k1 & k2 & H1 & H2 & Hh).
  destruct (Hpre (k ++ k1)) as [x1 E1]; [by rewrite lookup_ext_app|].
  destruct (Hpre (k ++ k2)) as [x2 E2]; [by rewrite lookup_ext_app|].
  destruct (decide (length k' <= length k)%nat) as [|Hlt]; [done|].
  exfalso. apply Hh. rewrite !head_lookup.
  apply (f_equal (fun l => l !! length k)) in E1, E2.
  rewrite lookup_app_r, Nat.sub_diag in E1, E2 by lia.
  rewrite lookup_app_l in E1, E2 by lia. congruence.
Qed.

Lemma branch_value_inj (v v' : bytes) :
  branch_value v = branch_value v' -> v = v'.
Proof. destruct v, v'; cbn; congruence. Qed.

Theorem canonical (t1 : tree) :
  forall t2, wf t1 -> wf t2 ->
    (forall k, lookup t1 k = lookup t2 k) -> t1 = t2.
Proof.
  induction t1 as [|lk lv|ek c IH|cs bv IH] using tree_ind';
    intros t2 Hw1 Hw2 Heq.
  - destruct t2 as [|lk' lv'|ek' c'|cs' bv']; [done|..];
      (destruct (wf_inhabited _ Hw2) as [k Hk]; [done|]);
      rewrite <- Heq in Hk; by destruct Hk.
  - destruct t2 as [|lk' lv'|ek' c'|cs' bv'].
    + specialize (Heq lk). cbn in Heq. by rewrite decide_True in Heq.
    + pose proof (Heq lk) as H. cbn in H. rewrite decide_True in H by done.
      destruct (decide (lk = lk')) as [->|]; [|done]. by injection H as ->.
    + exfalso. apply (leaf_one_key lk lv (TExt ek' c')); auto.
    + exfalso. apply (leaf_one_key lk lv (TBranch cs' bv')); auto.
  - destruct t2 as [|lk' lv'|ek' c'|cs' bv'].
    + destruct (wf_inhabited _ Hw1) as [k Hk]; [done|].
      rewrite Heq in Hk. by destruct Hk.
    + exfalso. apply (leaf_one_key lk' lv' (TExt ek c)); auto.
    + assert (Hlen1 : (length ek' <= length ek)%nat).
      { apply (ext_key_length ek c ek' Hw1). intros key Hk.
        rewrite Heq in Hk. apply lookup_ext_prefix in Hk. eauto. }
      assert (Hlen2 : (length ek <= length ek')%nat).
      { apply (ext_key_length ek' c' ek Hw2). intros key Hk.
        rewrite <- Heq in Hk. apply lookup_ext_prefix in Hk. eauto. }
      destruct (wf_inhabited _ Hw1) as [k Hk]; [done|].
      pose proof Hk as Hk'. rewrite Heq in Hk'.
      apply lookup_ext_prefix in Hk, Hk'.
      assert (ek = ek') as <-.
      { rewrite Hk in Hk' at 1. apply app_inj_1 in Hk' as [? _]; [done|lia]. }
      f_equal. pose proof Hw1 as (_ & _ & _ & _ & Hc)%wf_ext_inv.
      pose proof Hw2 as (_ & _ & _ & _ & Hc')%wf_ext_inv.
      apply IH; try done. intros key.
      by rewrite <- !(lookup_ext_app ek _ key).
    + exfalso. by apply (ext_branch_differ ek c cs' bv').
  - destruct t2 as [|lk' lv'|ek' c'|cs' bv'].
    + destruct (wf_inhabited _ Hw1) as [k Hk]; [done|].
      rewrite Heq in Hk. by destruct Hk.
    + exfalso. apply (leaf_one_key lk' lv' (TBranch cs bv)); auto.
    + exfalso. by apply (ext_branch_differ ek' c' cs bv).
    + pose proof Hw1 as (Hlen & Hall & _)%wf_branch_inv.
      pose proof Hw2 as (Hlen' & Hall' & _)%wf_branch_inv.
      f_equal; [|apply branch_value_inj, (Heq [])].
      apply list_eq. intros i.
      destruct (cs !! i) as [c|] eqn:Ei, (cs' !! i) as [c'|] eqn:Ei'.
      * f_equal. rewrite list.Forall_forall in IH, Hall, Hall'.
        apply IH; [by eapply list_elem_of_lookup_2
                  |by eapply Hall, list_elem_of_lookup_2
                  |by eapply Hall', list_elem_of_lookup_2|].
        intros key. specialize (Heq (i :: key)).
        by rewrite !lookup_branch, Ei, Ei' in Heq.
      * apply lookup_lt_Some in Ei. apply lookup_ge_None in Ei'. lia.
      * apply lookup_lt_Some in Ei'. apply lookup_ge_None in Ei. lia.
      * done.
Qed.

(** ** A list of puts *)

Definition inserts (t : tree) (l : list (Nibbles * bytes)) : tree :=
  foldl (fun t kv => insert t kv.1 kv.2) t l.

Definition entry_ok (kv : Nibbles * bytes) : Prop :=
  nibbles_ok kv.1 /\ size_ok (length kv.1) /\ kv.2 <> [] /\ size_ok (length kv.2).

Lemma wf_inserts (l : list (Nibbles * bytes)) :
  forall t, wf t -> Forall entry_ok l -> wf (inserts t l).
Proof.
  induction l as [|[k v] l IH]; intros t Hwf Hl; [done|].
  inversion Hl as [|? ? (Hk & Hks & Hv & Hvs) Hl']; subst.
  apply IH; [|done]. by apply wf_insert.
Qed.

Lemma insert_comm (t : tree) (k1 k2 : Nibbles) (v1 v2 : bytes) :
  wf t -> entry_ok (k1, v1) -> entry_ok (k2, v2) -> k1 <> k2 ->
  insert (insert t k1 v1) k2 v2 = insert (insert t k2 v2) k1 v1.
Proof.
  intros Hwf (Hk1 & Hks1 & Hv1 & Hvs1) (Hk2 & Hks2 & Hv2 & Hvs2) Hne.
  cbn [fst snd] in *.
  assert (Hw1 : wf (insert t k1 v1)) by by apply wf_insert.
  assert (Hw2 : wf (insert t k2 v2)) by by apply wf_insert.
  apply canonical; [by apply wf_insert..|]. intros k.
  rewrite !lookup_insert by done.
  destruct (decide (k = k2)) as [->|]; [by rewrite decide_False|done].
Qed.

Lemma inserts_perm (l1 l2 : list (Nibbles * bytes)) :
  l1 ≡ₚ l2 ->
  forall t, wf t -> Forall entry_ok l1 -> NoDup (map fst l1) ->
            inserts t l1 = inserts t l2.
Proof.
  induction 1 as [|[k v] l l' Hp IH|[k1 v1] [k2 v2] l|l l' l'' Hp1 IH1 Hp2 IH2];
    intros t Hwf Hok Hnd.
  - done.
  - inversion Hok as [|? ? (Hk & Hks & Hv & Hvs) Hok']; subst.
    inversion Hnd; subst. cbn [inserts foldl]. apply IH; try done.
    by apply wf_insert.
  - inversion Hok as [|? ? H2 Hok']; subst.
    inversion Hok' as [|? ? H1 Hok'']; subst.
    cbn [map] in Hnd. apply list.NoDup_cons in Hnd as [Hnin _].
    cbn [inserts foldl fst snd]. f_equal. apply insert_comm; try done.
    intros ->. apply Hnin. cbn. set_solver.
  - rewrite IH1 by done. apply IH2; [done| |].
    + by rewrite <- Hp1.
    + by rewrite <- Hp1.
Qed.

Lemma bufferToNibbles_inj (a b : bytes) :
  bufferToNibbles a = bufferToNibbles b -> a = b.
Proof.
  revert b. induction a as [|x a IH]; intros [|y b]; try done.
  cbn [bufferToNibbles]. intros H.
  pose proof (f_equal (fun l => nth 0 l 0%nat) H) as Hd.
  pose proof (f_equal (fun l => nth 1 l 0%nat) H) as Hm.
  pose proof (f_equal (drop 2) H) as Hr. cbn [nth drop] in Hd, Hm, Hr.
  f_equal; [|by apply IH].
  rewrite <- (byte_of_to_N x), <- (byte_of_to_N y). f_equal.
  apply N2Nat.inj.
  rewrite (Nat.div_mod_eq (N.to_nat (Byte.to_N x)) 16).
  rewrite (Nat.div_mod_eq (N.to_nat (Byte.to_N y)) 16). by rewrite Hd, Hm.
Qed.

Section PutAll.
Variable hashfn : bytes -> bytes.
Hypothesis hash_length : forall msg, length (hashfn msg) = 32%nat.
Context {D : Type} `{!DB D} `{!DBLaws D}.
Implicit Types T : Trie D.
Variable fuel : nat.

(** [put] after [put]: the pairs of a list, in its order. *)
Fixpoint puts (pairs : list (bytes * bytes)) : M D unit :=
  match pairs with
  | [] => ret tt
  | (k, v) :: rest => bind (put hashfn fuel k v) (fun _ => puts rest)
  end.

(** The keys as the trie walks them. *)
Definition walked T (pairs : list (bytes * bytes)) : list (Nibbles * bytes) :=
  map (fun kv => (bufferToNibbles (appliedKey hashfn T kv.1), kv.2)) pairs.

(** A pair [put] takes. *)
Definition pair_ok T (kv : bytes * bytes) : Prop :=
  kv.2 <> [] /\ size_ok (length kv.2)
  /\ size_ok (length (bufferToNibbles (appliedKey hashfn T kv.1)))
  /\ _persistRoot T && bool_decide (kv.1 = ROOT_DB_KEY) = false
  /\ (length (bufferToNibbles (appliedKey hashfn T kv.1)) < fuel)%nat.

(** The hash function does not collide on the nodes of the trees a list
    of puts goes through, nor with the empty trie or the reserved key. *)
Fixpoint no_collisions (t : tree) (l : list (Nibbles * bytes)) : Prop :=
  match l with
  | [] => True
  | (k, v) :: l' =>
      collision_free hashfn
        (ROOT_DB_KEY :: RLP.RLP_EMPTY_STRING :: bodies hashfn (insert t k v))
      /\ no_collisions (insert t k v) l'
  end.

Lemma walked_settings T T' pairs :
  same_settings T T' -> walked T' pairs = walked T pairs.
Proof.
  intros Hs. unfold walked. apply map_ext. intros [k v]. cbn.
  by rewrite (appliedKey_settings hashfn T T').
Qed.

Lemma pair_ok_entry T kv :
  pair_ok T kv ->
  entry_ok (bufferToNibbles (appliedKey hashfn T kv.1), kv.2).
Proof.
  intros (Hv & Hvs & Hks & _). split_and!; try done. apply bufferToNibbles_ok.
Qed.

Lemma puts_spec (pairs : list (bytes * bytes)) :
  forall T t,
    wf t -> represents hashfn T t ->
    _deleteFromDB T = false -> lock T <> 0%nat ->
    Forall (pair_ok T) pairs ->
    no_collisions t (walked T pairs) ->
    exists T',
      puts pairs T = (Ret tt, T')
      /\ represents hashfn T' (inserts t (walked T pairs))
      /\ same_settings T T'.
Proof.
  induction pairs as [|[k v] pairs IH]; intros T t Hwf Hrep Hdel Hlock Hok Hnc.
  - exists T. by split_and!.
  - inversion Hok as [|? ? Hkv Hok']; subst.
    pose proof (pair_ok_entry T (k, v) Hkv) as (Hk & Hks & Hv & Hvs).
    destruct Hkv as (_ & _ & _ & Hres & Hfuel). cbn [fst snd] in *.
    destruct Hnc as [Hcf Hnc].
    destruct (put_spec hashfn hash_length fuel T t k v)
      as (T1 & Hput & Hrep1 & Hs1); try done.
    pose proof Hs1 as (Hd1 & Hu1 & Hp1 & Hl1).
    destruct (IH T1 (insert t (bufferToNibbles (appliedKey hashfn T k)) v))
      as (T' & Hputs & Hrep' & Hs').
    + by apply wf_insert.
    + done.
    + by rewrite Hd1.
    + by rewrite Hl1.
    + eapply list.Forall_impl; [exact Hok'|]. intros kv (? & ? & ? & ? & ?).
      unfold pair_ok. rewrite (appliedKey_settings hashfn T T1), Hp1 by done.
      done.
    + by rewrite (walked_settings T T1).
    + exists T'. split_and!.
      * cbn [puts]. unfold bind. by rewrite Hput.
      * by rewrite (walked_settings T T1) in Hrep'.
      * destruct Hs' as (? & ? & ? & ?). unfold same_settings in *.
        split_and!; congruence.
Qed.

Lemma represents_empty T :
  root T = EMPTY_TRIE_ROOT hashfn -> represents hashfn T TEmpty.
Proof. intros Hr. split; [|done]. split; [done|constructor]. Qed.

Lemma walked_keys_NoDup T (pairs : list (bytes * bytes)) :
  NoDup (map (fun kv => appliedKey hashfn T kv.1) pairs) ->
  NoDup (map fst (walked T pairs)).
Proof.
  intros Hnd. unfold walked. rewrite map_map. cbn [fst].
  rewrite <- (map_map (fun kv => appliedKey hashfn T kv.1) bufferToNibbles).
  apply NoDup_fmap_2; [|done]. intros a b. apply bufferToNibbles_inj.
Qed.

Lemma puts_order T (l1 l2 : list (bytes * bytes)) :
  root T = EMPTY_TRIE_ROOT hashfn -> _deleteFromDB T = false -> lock T <> 0%nat ->
  l1 ≡ₚ l2 ->
  NoDup (map (fun kv => appliedKey hashfn T kv.1) l1) ->
  Forall (pair_ok T) l1 ->
  no_collisions TEmpty (walked T l1) -> no_collisions TEmpty (walked T l2) ->
  exists T1 T2,
    puts l1 T = (Ret tt, T1) /\ puts l2 T = (Ret tt, T2) /\ root T1 = root T2.
Proof.
  intros Hroot Hdel Hlock Hperm Hnd Hok Hnc1 Hnc2.
  pose proof (represents_empty T Hroot) as Hrep.
  destruct (puts_spec l1 T TEmpty) as (T1 & Hp1 & [[Hr1 _] _] & _);
    [constructor|done..|].
  destruct (puts_spec l2 T TEmpty) as (T2 & Hp2 & [[Hr2 _] _] & _);
    [constructor|try done..|].
  { by rewrite <- Hperm. }
  exists T1, T2. split_and!; [done..|]. rewrite Hr1, Hr2. do 2 f_equal.
  apply inserts_perm.
  - unfold walked. by apply fmap_Permutation.
  - constructor.
  - unfold walked. rewrite list.Forall_forall in Hok.
    apply list.Forall_forall. intros kv' Hin. apply list_elem_of_fmap in Hin as (kv & -> & Hin).
    by apply pair_ok_entry, Hok.
  - by apply walked_keys_NoDup.
Qed.

End PutAll.

(** ** Keccak-256 returns 32 bytes *)

Lemma xor_lanes_length (st blk : list N) :
  length (Keccak.xor_lanes st blk) = length st.
Proof.
  revert blk. induction st as [|s st IH]; intros [|b blk]; cbn; auto.
Qed.

Lemma round_length (st : list N) (rc : N) : length (Keccak.round st rc) = 25%nat.
Proof.
  unfold Keccak.round, Keccak.iota, Keccak.chi.
  destruct (map _ Keccak.coords) as [|a rest] eqn:E;
    apply (f_equal length) in E; rewrite length_map in E; cbn in E; [done|].
  cbn. lia.
Qed.

Lemma keccak_f_length (st : list N) : length (Keccak.keccak_f st) = 25%nat.
Proof.
  unfold Keccak.keccak_f.
  change Keccak.round_constants
    with (removelast Keccak.round_constants ++ [0x8000000080008008%N]).
  rewrite fold_left_app. cbn [fold_left]. apply round_length.
Qed.

Lemma absorb_length (blocks : nat) (st msg : list N) :
  length st = 25%nat -> length (Keccak.absorb blocks st msg) = 25%nat.
Proof.
  revert st msg. induction blocks as [|n IH]; intros st msg Hst; [done|].
  cbn [Keccak.absorb]. apply IH, keccak_f_length.
Qed.

Lemma bytes_of_lane_length (n : nat) (l : N) :
  length (Keccak.bytes_of_lane n l) = n.
Proof. revert l. induction n as [|n IH]; intros l; cbn; [done|]. by rewrite IH. Qed.

Lemma keccak256_length (msg : bytes) : length (keccak256 msg) = 32%nat.
Proof.
  unfold keccak256, Keccak.keccak256. cbv zeta. rewrite length_map.
  match goal with
  | |- context [Keccak.absorb ?b ?s ?m] =>
      pose proof (absorb_length b s m eq_refl) as Hl;
      destruct (Keccak.absorb b s m) as [|a [|b' [|c [|d rest]]]]; try done
  end.
Qed.

(** ** Checking a list of byte strings for collisions *)

Fixpoint bytes_eqb (a b : bytes) : bool :=
  match a, b with
  | [], [] => true
  | x :: a', y :: b' => (Byte.to_N x =? Byte.to_N y)%N && bytes_eqb a' b'
  | _, _ => false
  end.

Lemma bytes_eqb_eq (a b : bytes) : bytes_eqb a b = true <-> a = b.
Proof.
  revert b. induction a as [|x a IH]; intros [|y b]; cbn; try done.
  rewrite andb_true_iff, N.eqb_eq, IH. split.
  - intros [Hxy ->]. f_equal.
    by rewrite <- (byte_of_to_N x), <- (byte_of_to_N y), Hxy.
  - by intros [= -> ->].
Qed.

Section Check.
Variable hashfn : bytes -> bytes.

Definition collision_freeb (l : list bytes) : bool :=
  let hs := map (fun b => (hashfn b, b)) l in
  forallb (fun p => forallb (fun q => implb (bytes_eqb p.1 q.1)
                                            (bytes_eqb p.2 q.2)) hs) hs.

Lemma collision_freeb_spec (l : list bytes) :
  collision_freeb l = true -> collision_free hashfn l.
Proof.
  unfold collision_freeb. cbv zeta. rewrite forallb_forall.
  intros Hall a b Ha Hb Heq.
  specialize (Hall (hashfn a, a)). rewrite forallb_forall in Hall.
  assert (Hin : forall x, x ∈ l -> In (hashfn x, x) (map (fun b => (hashfn b, b)) l)).
  { intros x Hx. apply in_map_iff. exists x. split; [done|].
    by apply list_elem_of_In. }
  specialize (Hall (Hin a Ha) (hashfn b, b) (Hin b Hb)). cbn in Hall.
  apply bytes_eqb_eq. apply bytes_eqb_eq in Heq. by rewrite Heq in Hall.
Qed.

Fixpoint no_collisionsb (t : tree) (l : list (Nibbles * bytes)) : bool :=
  match l with
  | [] => true
  | (k, v) :: l' =>
      collision_freeb
        (ROOT_DB_KEY :: RLP.RLP_EMPTY_STRING :: bodies hashfn (insert t k v))
      && no_collisionsb (insert t k v) l'
  end.

Lemma no_collisionsb_spec (l : list (Nibbles * bytes)) :
  forall t, no_collisionsb t l = true -> no_collisions hashfn t l.
Proof.
  induction l as [|[k v] l IH]; intros t; [done|]. cbn [no_collisionsb no_collisions].
  rewrite andb_true_iff. intros [H1 H2]. split; [by apply collision_freeb_spec|].
  by apply IH.
Qed.

End Check.

Lemma pair_ok_check {D} (hashfn : bytes -> bytes) (fuel : nat) (T : Trie D)
    (kv : bytes * bytes) :
  negb (bytes_eqb kv.2 [])
  && (N.of_nat (length kv.2) <? 2 ^ 32)%N
  && (N.of_nat (length (bufferToNibbles (appliedKey hashfn T kv.1))) <? 2 ^ 32)%N
  && negb (_persistRoot T && bool_decide (kv.1 = ROOT_DB_KEY))
  && (length (bufferToNibbles (appliedKey hashfn T kv.1)) <? fuel)%nat = true ->
  pair_ok hashfn fuel T kv.
Proof.
  rewrite !andb_true_iff, !negb_true_iff, !N.ltb_lt, Nat.ltb_lt.
  intros ((((Hv & Hvs) & Hks) & Hres) & Hfuel). split_and!; try done.
  intros Heq. by rewrite Heq in Hv.
Qed.

(** ** [del] after [put] *)

Section DelDefs.
Variable hashfn : bytes -> bytes.

(** No branch of the tree has a value: no key is the beginning of
    another. *)
Fixpoint valueless (t : tree) : Prop :=
  match t with
  | TEmpty | TLeaf _ _ => True
  | TExt _ c => valueless c
  | TBranch cs v => v = [] /\ foldr (fun c P => valueless c /\ P) True cs
  end.

End DelDefs.

Section Del.
Variable hashfn : bytes -> bytes.
Hypothesis hash_length : forall msg, length (hashfn msg) = 32%nat.
Context {D : Type} `{!DB D} `{!DBLaws D}.
Implicit Types T : Trie D.

(** [_saveStack] where the stack ends with an extension. *)
Lemma saveStack_loop_ext T (fs : list frame) (nodes : list TrieNode)
    (k : Nibbles) (c : tree) (ops : list BatchDBOp) :
  Forall2 (node_matches hashfn) fs nodes -> Forall frame_ok fs ->
  _saveStack_loop hashfn T (frames_key fs ++ k)
                  (reverse (nodes ++ [node_of hashfn (TExt k c)])) None ops
    = (Some (Str (hashfn (body_of hashfn (plug fs (TExt k c))))),
       ops ++ map (put_op hashfn)
                (saved_blob hashfn (bool_decide (fs = [])) (TExt k c)
                 ++ frames_blobs hashfn (reverse fs) (TExt k c))).
Proof.
  intros Hm Hok. rewrite reverse_app, reverse_singleton. cbn [app].
  set (s := TExt k c).
  assert (Hne : s <> TEmpty) by done.
  assert (Hb : bool_decide (reverse nodes = []) = bool_decide (fs = [])).
  { apply bool_decide_ext. split.
    - intros Hr. apply (f_equal reverse) in Hr. rewrite reverse_involutive in Hr.
      simpl in Hr. subst. by inversion Hm.
    - intros ->. by inversion Hm. }
  assert (Hstep :
    _saveStack_loop hashfn T (frames_key fs ++ k)
                    (node_of hashfn s :: reverse nodes) None ops
    = _saveStack_loop hashfn T (frames_key fs) (reverse nodes)
        (Some (saved_ref hashfn (bool_decide (fs = [])) s))
        (ops ++ map (put_op hashfn) (saved_blob hashfn (bool_decide (fs = [])) s))).
  { cbn [_saveStack_loop node_of s]. rewrite splice_tail_app.
    change (ExtensionNode k (ref_of hashfn c)) with (node_of hashfn (TExt k c)).
    by rewrite formatNode_tree, Hb. }
  rewrite Hstep. destruct fs as [|f fs].
  - inversion Hm. subst. done.
  - rewrite bool_decide_eq_false_2 by done. cbn [saved_ref].
    rewrite <- (reverse_involutive (f :: fs)) at 1 2.
    rewrite saveStack_frames; try done.
    + by rewrite map_app, app_assoc.
    + by apply Forall2_reverse.
    + by apply Forall_reverse.
    + intros Hr. apply (f_equal reverse) in Hr. by rewrite reverse_involutive in Hr.
Qed.

(** The root [_saveStack] leaves. *)
Lemma saveStack_root T (key : Nibbles) (fs : list frame) (nodes : list TrieNode)
    (s : tree) (ops : list BatchDBOp) :
  key = frames_key fs ++ tree_key s ->
  Forall2 (node_matches hashfn) fs nodes -> Forall frame_ok fs ->
  s <> TEmpty ->
  exists T',
    _saveStack hashfn key (nodes ++ [node_of hashfn s]) ops T = (Ret tt, T')
    /\ root T' = hashfn (body_of hashfn (plug fs s))
    /\ same_settings T T'.
Proof.
  intros -> Hm Hok Hs.
  assert (Hloop : exists W,
    _saveStack_loop hashfn T (frames_key fs ++ tree_key s)
      (reverse (nodes ++ [node_of hashfn s])) None ops
    = (Some (Str (hashfn (body_of hashfn (plug fs s)))), W)).
  { destruct s as [|lk lv|ek c|cs bv]; [done|..]; eexists.
    - by apply (saveStack_loop_tree hashfn T fs nodes (TLeaf lk lv)).
    - by apply saveStack_loop_ext.
    - by apply (saveStack_loop_tree hashfn T fs nodes (TBranch cs bv)). }
  destruct Hloop as [W HW]. unfold _saveStack. rewrite HW.
  unfold bind, set_root. cbn [isFalsy].
  rewrite hash_length, hashLen_32, decide_True by done.
  rewrite persistRoot_eq. eexists. split; [done|].
  split; [by rewrite root_persisted|].
  pose proof (settings_persisted hashfn
    (with_db (db_batch W (db (with_root (hashfn (body_of hashfn (plug fs s))) false T)))
       (with_root (hashfn (body_of hashfn (plug fs s))) false T))) as (H1 & H2 & H3 & H4).
  unfold same_settings. by rewrite <- H1, <- H2, <- H3, <- H4.
Qed.

Lemma pop_inv {A} (l l' : list A) (x : A) :
  pop l = Some (l', x) -> l = l' ++ [x].
Proof.
  unfold pop. destruct (reverse l) as [|y r] eqn:E; [done|].
  intros [= <- <-]. apply (f_equal reverse) in E.
  rewrite reverse_involutive in E. by rewrite E, reverse_cons.
Qed.

(** [_deleteNode] where the key was found at a leaf under a branch. *)
Lemma deleteNode_leaf T (k : bytes) (K : Nibbles) (nodesA : list TrieNode)
    (pbr : list item) (pv : bytes) (lk : Nibbles) (lv : bytes) (i : nat) :
  _deleteFromDB T = false ->
  bufferToNibbles k = K ++ [i] ++ lk ->
  _deleteNode hashfn k (nodesA ++ [BranchNode pbr pv; LeafNode lk lv]) T
    = match getChildren (setBranch pbr i null) with
      | [(bk, r)] =>
          bind (lookupNode r)
            (fun foundNode =>
               let '(key, stack) :=
                 match pop nodesA with
                 | Some (st, p) => processBranchNode K bk foundNode (Some p) st
                 | None => processBranchNode K bk foundNode None nodesA
                 end in
               _saveStack hashfn key stack []) T
      | _ =>
          _saveStack hashfn K (nodesA ++ [BranchNode (setBranch pbr i null) pv]) [] T
      end.
Proof.
  intros Hdel Hkey. unfold _deleteNode.
  replace (nodesA ++ [BranchNode pbr pv; LeafNode lk lv])
    with ((nodesA ++ [BranchNode pbr pv]) ++ [LeafNode lk lv])
    by (by rewrite <- app_assoc).
  rewrite !pop_snoc. cbn [Node.key]. rewrite Hkey.
  replace (K ++ [i] ++ lk) with ((K ++ [i]) ++ lk) by (by rewrite <- app_assoc).
  rewrite splice_tail_app, pop_snoc.
  pose proof (formatNode_remove hashfn T (LeafNode lk lv) Hdel) as Hf.
  destruct (_formatNode hashfn T (LeafNode lk lv) false [] true) as [r0 ops0].
  cbn [snd] in Hf. subst ops0.
  destruct (pop nodesA) as [[st p]|] eqn:Ep.
  - apply pop_inv in Ep as ->.
    destruct (getChildren (setBranch pbr i null)) as [|[bk r] [|? ?]]; done.
  - destruct (getChildren (setBranch pbr i null)) as [|[bk r] [|? ?]]; done.
Qed.

Lemma filter_imap_null {A} (g : nat -> A) (n : nat) :
  filter (fun p : A * item => is_empty_ref p.2 = false)
         (imap (fun i b => (g i, b)) (replicate n null)) = [].
Proof.
  revert g. induction n as [|n IH]; intros g; [done|].
  cbn [replicate imap]. rewrite filter_cons, decide_False by done.
  apply (IH (g ∘ S)).
Qed.

Lemma filter_imap_single {A} (g : nat -> A) (n bk : nat) (r : item) :
  (bk < n)%nat -> is_empty_ref r = false ->
  filter (fun p : A * item => is_empty_ref p.2 = false)
         (imap (fun i b => (g i, b)) (<[ bk := r ]> (replicate n null)))
    = [(g bk, r)].
Proof.
  revert g bk. induction n as [|n IH]; intros g [|bk] Hbk Hr; try lia.
  - cbn [replicate]. change (<[0%nat:=r]> (null :: replicate n null))
      with (r :: replicate n null).
    cbn [imap]. rewrite filter_cons, decide_True by done. f_equal.
    apply (filter_imap_null (g ∘ S)).
  - cbn [replicate]. change (<[S bk:=r]> (null :: replicate n null))
      with (null :: <[bk:=r]> (replicate n null)).
    cbn [imap]. rewrite filter_cons, decide_False by done.
    apply (IH (g ∘ S)); [lia|done].
Qed.

Lemma getChildren_single (bk : nat) (r : item) :
  (bk < 16)%nat -> is_empty_ref r = false ->
  getChildren (<[ bk := r ]> (replicate 16 null)) = [(bk, r)].
Proof. intros. by apply (filter_imap_single (fun i => i)). Qed.

Lemma filter_imap_length {A} (g : nat -> A) (cs : list tree) :
  length (filter (fun p : A * item => is_empty_ref p.2 = false)
            (imap (fun i b => (g i, b)) (map (ref_of hashfn) cs)))
    = used cs.
Proof.
  revert g. induction cs as [|c cs IH]; intros g; [done|].
  cbn [map imap]. rewrite filter_cons, used_cons. cbn [snd].
  destruct c as [|lk lv|ek c|cs' bv].
  - rewrite decide_False by done. apply (IH (g ∘ S)).
  - rewrite decide_True by (by apply ref_of_nonempty).
    cbn [length is_empty]. f_equal. apply (IH (g ∘ S)).
  - rewrite decide_True by (by apply ref_of_nonempty).
    cbn [length is_empty]. f_equal. apply (IH (g ∘ S)).
  - rewrite decide_True by (by apply ref_of_nonempty).
    cbn [length is_empty]. f_equal. apply (IH (g ∘ S)).
Qed.

Lemma getChildren_length (cs : list tree) :
  length (getChildren (map (ref_of hashfn) cs)) = used cs.
Proof. apply (filter_imap_length (fun i => i)). Qed.

Lemma path_nodes_app (fs1 fs2 : list frame) (s : tree) :
  path_nodes hashfn (fs1 ++ fs2) s
    = path_nodes hashfn fs1 (plug fs2 s) ++ path_nodes hashfn fs2 s.
Proof.
  induction fs1 as [|f fs1 IH]; [done|].
  cbn [app path_nodes]. rewrite IH.
  change (f :: fs1 ++ fs2) with ((f :: fs1) ++ fs2). by rewrite plug_app.
Qed.

Lemma valueless_plug (fs : list frame) (s : tree) :
  Forall frame_ok fs -> valueless (plug fs s) -> valueless s.
Proof.
  induction 1 as [|f fs Hf _ IH]; [done|].
  change (plug (f :: fs) s) with (plug1 f (plug fs s)).
  destruct f as [k|cs v i]; cbn [plug1 valueless]; [done|].
  intros [_ Hall]. apply IH. cbn in Hf.
  assert (Hgen : forall (l : list tree) x,
            foldr (fun c P => valueless c /\ P) True l -> x ∈ l -> valueless x).
  { induction l as [|c l IHl]; intros x; [set_solver|].
    cbn. intros [Hc Hl]. rewrite elem_of_cons. intros [->|Hx]; auto. }
  apply (Hgen _ _ Hall). apply list_elem_of_lookup_2 with i.
  by apply list_lookup_insert_eq.
Qed.

Lemma pbn_ext (st : list TrieNode) (p : Nibbles) (pv : item)
    (found : TrieNode) (K : Nibbles) (bk : nat) :
  processBranchNode K bk found (Some (ExtensionNode p pv)) st
    = match found with
      | BranchNode _ _ =>
          (K ++ [bk], st ++ [ExtensionNode (p ++ [bk]) pv; found])
      | _ => (K ++ bk :: Node.key found,
              st ++ [set_key found (p ++ bk :: Node.key found)])
      end.
Proof. by destruct found. Qed.

Lemma pbn_branch (nodesA : list TrieNode) (found : TrieNode) (K : Nibbles)
    (bk : nat) :
  pop nodesA = None
  \/ (exists st br bv, pop nodesA = Some (st, BranchNode br bv)) ->
  match pop nodesA with
  | Some (st, p) => processBranchNode K bk found (Some p) st
  | None => processBranchNode K bk found None nodesA
  end
  = match found with
    | BranchNode _ _ =>
        (K ++ [bk], nodesA ++ [ExtensionNode [bk] null; found])
    | _ => (K ++ bk :: Node.key found,
            nodesA ++ [set_key found (bk :: Node.key found)])
    end.
Proof.
  intros [Hp|(st & br & bv & Hp)]; rewrite Hp.
  - by destruct found.
  - apply pop_inv in Hp as ->. by destruct found.
Qed.

(** Above a leaf or an extension of a well-formed tree there is a branch,
    or nothing. *)
Lemma pop_path_nodes (fs : list frame) (s x : tree) :
  Forall frame_ok fs -> wf (plug fs s) -> is_branch s = false ->
  pop (path_nodes hashfn fs x) = None
  \/ (exists st br bv, pop (path_nodes hashfn fs x) = Some (st, BranchNode br bv)).
Proof.
  intros Hok Hwf Hs. destruct fs as [|f fs _] using rev_ind; [by left|].
  right. rewrite path_nodes_app. cbn [path_nodes].
  apply Forall_app in Hok as [Hok _]. rewrite plug_app in Hwf.
  apply wf_plug in Hwf; [|done]. destruct f as [k|cs bv i].
  - cbn in Hwf. apply wf_ext_inv in Hwf as (_ & _ & _ & Hb & _). congruence.
  - cbn. rewrite pop_snoc. eauto.
Qed.

Lemma deleteNode_diverge T1 (fs : list frame) (old : tree) (p : Nibbles)
    (bk j : nat) (okey' rest' : Nibbles) (v : bytes) (k : bytes) :
  let sh := shrink old okey' in
  let Bcs := <[ bk := sh ]> empty_slots in
  let pre := if decide (p = []) then [] else [FExt p] in
  is_leaf_or_ext old = true -> tree_key old = p ++ bk :: okey' ->
  wf (plug fs old) -> Forall frame_ok fs ->
  bk <> j -> (bk < 16)%nat -> (j < 16)%nat ->
  bufferToNibbles k = frames_key fs ++ p ++ j :: rest' ->
  _deleteFromDB T1 = false ->
  lookupNode (ref_of hashfn sh) T1 = (Ret (node_of hashfn sh), T1) ->
  exists T2,
    _deleteNode hashfn k
      (path_stack hashfn (fs ++ pre ++ [FBranch Bcs [] j]) (TLeaf rest' v)) T1
      = (Ret tt, T2)
    /\ root T2 = hashfn (body_of hashfn (plug fs old))
    /\ same_settings T1 T2.
Proof.
  intros sh Bcs pre Hold Hkey Hwf Hok Hne Hbk Hj Hk Hdel Hlook.
  pose proof (wf_plug fs old Hok Hwf) as Hwold.
  assert (Hsh : sh <> TEmpty /\ wf sh).
  { destruct (wf_shrink old okey' Hwold Hold) as [Hw He].
    - destruct old as [|lk lv|ek c|cs bv]; try done; cbn in Hkey; subst.
      + apply wf_leaf_inv in Hwold as (Hn & _).
        unfold nibbles_ok in *. apply Forall_app in Hn as [_ Hn].
        by inversion Hn.
      + apply wf_ext_inv in Hwold as (Hn & _).
        unfold nibbles_ok in *. apply Forall_app in Hn as [_ Hn].
        by inversion Hn.
    - destruct old as [|lk lv|ek c|cs bv]; try done; cbn in Hkey; subst.
      + apply wf_leaf_inv in Hwold as (_ & Hs & _).
        eapply size_ok_le; [|exact Hs]. rewrite length_app. cbn. lia.
      + apply wf_ext_inv in Hwold as (_ & Hs & _).
        eapply size_ok_le; [|exact Hs]. rewrite length_app. cbn. lia.
    - split; [|done]. intros Heq. unfold sh in Heq. by rewrite Heq in He. }
  destruct Hsh as [Hshne Hwsh].
  set (B' := TBranch (<[j:=TLeaf rest' v]> Bcs) []).
  assert (Hstack :
    path_stack hashfn (fs ++ pre ++ [FBranch Bcs [] j]) (TLeaf rest' v)
    = path_nodes hashfn (fs ++ pre) B'
      ++ [BranchNode (map (ref_of hashfn) (<[j:=TLeaf rest' v]> Bcs)) [];
          LeafNode rest' v]).
  { unfold path_stack. rewrite app_assoc, path_nodes_app, <- app_assoc. done. }
  rewrite Hstack.
  rewrite (deleteNode_leaf T1 k (frames_key fs ++ p) _ _ _ _ _ j); [|done|];
    cycle 1.
  { by rewrite Hk, <- app_assoc. }
  assert (Hch : setBranch (map (ref_of hashfn) (<[j:=TLeaf rest' v]> Bcs)) j null
                = <[bk:=ref_of hashfn sh]> (replicate 16 null)).
  { unfold setBranch, Bcs.
    rewrite <- (ref_of_empty hashfn), <- list_fmap_insert, list_insert_insert_eq.
    rewrite list_insert_insert_ne by done.
    rewrite (list_insert_id empty_slots j TEmpty) by by apply lookup_empty_slots.
    by rewrite list_fmap_insert, refs_empty_slots. }
  rewrite Hch, getChildren_single by (by try apply ref_of_nonempty).
  unfold bind. rewrite Hlook.
  assert (Hres : exists fsF nodesF sF,
    match pop (path_nodes hashfn (fs ++ pre) B') with
    | Some (st, p1) =>
        processBranchNode (frames_key fs ++ p) bk (node_of hashfn sh) (Some p1) st
    | None =>
        processBranchNode (frames_key fs ++ p) bk (node_of hashfn sh) None
          (path_nodes hashfn (fs ++ pre) B')
    end = (frames_key fsF ++ tree_key sF, nodesF ++ [node_of hashfn sF])
    /\ plug fsF sF = plug fs old
    /\ Forall2 (node_matches hashfn) fsF nodesF
    /\ Forall frame_ok fsF /\ sF <> TEmpty).
  { unfold pre. destruct (decide (p = [])) as [->|Hp].
    - rewrite !app_nil_r.
      rewrite pbn_branch
        by (apply (pop_path_nodes fs old B'); [done|done|by destruct old]).
      destruct old as [|lk lv|ek c|cs bv]; try done; cbn in Hkey; subst.
      + exists fs, (path_nodes hashfn fs B'), (TLeaf (bk :: okey') lv).
        split_and!; try done. apply path_nodes_match.
      + unfold sh in *. cbn [shrink] in *.
        destruct (decide (okey' = [])) as [->|Hne'].
        * apply wf_ext_inv in Hwold as (_ & _ & _ & Hb & _).
          destruct c as [| | |cs bv]; try done.
          exists (fs ++ [FExt [bk]]),
                 (path_nodes hashfn fs B' ++ [ExtensionNode [bk] null]),
                 (TBranch cs bv).
          split_and!; try done.
          -- cbn [node_of]. by rewrite frames_key_app, <- !app_assoc.
          -- by rewrite plug_app.
          -- apply Forall2_app; [apply path_nodes_match|by repeat constructor].
          -- apply Forall_app. split; [done|by repeat constructor].
        * exists fs, (path_nodes hashfn fs B'), (TExt (bk :: okey') c).
          split_and!; try done. apply path_nodes_match.
    - rewrite path_nodes_app. cbn [path_nodes]. rewrite pop_snoc.
      cbn [plug foldr plug1 node_of]. rewrite pbn_ext.
      destruct old as [|lk lv|ek c|cs bv]; try done; cbn in Hkey; subst.
      + exists fs, (path_nodes hashfn fs (TExt p B')), (TLeaf (p ++ bk :: okey') lv).
        split_and!; try done.
        * cbn. by rewrite <- !app_assoc.
        * apply path_nodes_match.
      + unfold sh in *. cbn [shrink] in *.
        destruct (decide (okey' = [])) as [->|Hne'].
        * apply wf_ext_inv in Hwold as (_ & _ & _ & Hb & _).
          destruct c as [| | |cs bv]; try done.
          exists (fs ++ [FExt (p ++ [bk])]),
                 (path_nodes hashfn fs (TExt p B')
                    ++ [ExtensionNode (p ++ [bk]) (ref_of hashfn B')]),
                 (TBranch cs bv).
          split_and!; try done.
          -- cbn [node_of]. rewrite frames_key_app. cbn.
             by rewrite <- !app_assoc.
          -- by rewrite plug_app.
          -- apply Forall2_app; [apply path_nodes_match|by repeat constructor].
          -- apply Forall_app. split; [done|by repeat constructor].
        * exists fs, (path_nodes hashfn fs (TExt p B')), (TExt (p ++ bk :: okey') c).
          split_and!; try done.
          -- cbn. by rewrite <- !app_assoc.
          -- apply path_nodes_match. }
  destruct Hres as (fsF & nodesF & sF & -> & Hplug & Hm & HokF & HsF).
  rewrite <- Hplug. by apply saveStack_root.
Qed.

Lemma deleteNode_branch T1 (fs : list frame) (cs : list tree) (bv : bytes)
    (i : nat) (rest' : Nibbles) (v : bytes) (k : bytes) :
  Forall frame_ok fs -> cs !! i = Some TEmpty -> (2 <= used cs)%nat ->
  bufferToNibbles k = frames_key fs ++ i :: rest' ->
  _deleteFromDB T1 = false ->
  exists T2,
    _deleteNode hashfn k
      (path_stack hashfn (fs ++ [FBranch cs bv i]) (TLeaf rest' v)) T1
      = (Ret tt, T2)
    /\ root T2 = hashfn (body_of hashfn (plug fs (TBranch cs bv)))
    /\ same_settings T1 T2.
Proof.
  intros Hok Hi Hused Hk Hdel.
  set (B' := TBranch (<[i:=TLeaf rest' v]> cs) bv).
  assert (Hstack :
    path_stack hashfn (fs ++ [FBranch cs bv i]) (TLeaf rest' v)
    = path_nodes hashfn fs B'
      ++ [BranchNode (map (ref_of hashfn) (<[i:=TLeaf rest' v]> cs)) bv;
          LeafNode rest' v]).
  { unfold path_stack. rewrite path_nodes_app, <- app_assoc. done. }
  rewrite Hstack.
  rewrite (deleteNode_leaf T1 k (frames_key fs) _ _ _ _ _ i) by done.
  assert (Hch : setBranch (map (ref_of hashfn) (<[i:=TLeaf rest' v]> cs)) i null
                = map (ref_of hashfn) cs).
  { unfold setBranch.
    rewrite <- (ref_of_empty hashfn), <- list_fmap_insert, list_insert_insert_eq.
    by rewrite list_insert_id. }
  rewrite Hch. pose proof (getChildren_length cs) as Hlen.
  assert (Hsave : exists T2,
    _saveStack hashfn (frames_key fs)
      (path_nodes hashfn fs B' ++ [BranchNode (map (ref_of hashfn) cs) bv]) [] T1
      = (Ret tt, T2)
    /\ root T2 = hashfn (body_of hashfn (plug fs (TBranch cs bv)))
    /\ same_settings T1 T2).
  { apply (saveStack_root T1 _ fs _ (TBranch cs bv)); try done.
    - cbn. by rewrite app_nil_r.
    - apply path_nodes_match. }
  destruct (getChildren (map (ref_of hashfn) cs)) as [|[bk r] [|? ?]];
    cbn in Hlen; try done; lia.
Qed.

Lemma valueless_branch_value (fs : list frame) (cs : list tree) (bv : bytes) :
  Forall frame_ok fs -> valueless (plug fs (TBranch cs bv)) -> bv = [].
Proof. intros Hok Hv. by apply valueless_plug in Hv as [? _]. Qed.

Lemma deleteNode_restores_diverge T1 (fs : list frame) (old : tree)
    (rest : Nibbles) (v : bytes) (k : bytes) :
  let d := diverge old (tree_key old) rest v in
  is_leaf_or_ext old = true -> wf (plug fs old) -> Forall frame_ok fs ->
  nibbles_ok rest -> v <> [] ->
  (drop (matchingNibbleLength (tree_key old) rest) (tree_key old) = [] ->
   is_ext old = false) ->
  valueless (plug (fs ++ d.1.1) d.1.2) ->
  bufferToNibbles k = frames_key fs ++ rest ->
  _deleteFromDB T1 = false ->
  stored hashfn T1 (plug (fs ++ d.1.1) d.1.2) ->
  exists T2,
    _deleteNode hashfn k (path_stack hashfn (fs ++ d.1.1) d.1.2) T1 = (Ret tt, T2)
    /\ root T2 = hashfn (body_of hashfn (plug fs old))
    /\ same_settings T1 T2.
Proof.
  cbv zeta. intros Hold Hwf Hok Hrest Hv Hdiv Hval Hk Hdel Hst.
  pose proof (wf_plug fs old Hok Hwf) as Hwold.
  set (okey := tree_key old) in *.
  pose proof (mnl_drop okey rest) as Hdiff.
  pose proof (mnl_le_l okey rest) as Hle.
  pose proof (mnl_take okey rest) as Htake.
  assert (Hnib : nibbles_ok okey /\ (is_ext old = false -> leaf_value old <> [])).
  { unfold okey. destruct old as [|lk lv|ek c|cs bv]; try done.
    - by apply wf_leaf_inv in Hwold as (? & _ & ? & _).
    - by apply wf_ext_inv in Hwold as (? & _). }
  destruct Hnib as [Hnib Hlv].
  revert Hval Hst. unfold diverge.
  set (m := matchingNibbleLength okey rest) in *. clearbody m.
  set (pre := if decide (m = 0%nat) then [] else [FExt (take m okey)]).
  assert (Hpre : Forall frame_ok pre).
  { unfold pre. destruct (decide _); by repeat constructor. }
  destruct (drop m okey) as [|bk okey'] eqn:E1.
  - (* the old key is the beginning of the new one: a branch with a value *)
    specialize (Hlv (Hdiv eq_refl)).
    destruct (drop m rest) as [|j rest'] eqn:E2; cbn [fst snd]; intros Hval _.
    + apply valueless_branch_value in Hval; [done|by apply Forall_app].
    + rewrite app_assoc, plug_app in Hval. cbn [plug foldr plug1] in Hval.
      apply valueless_branch_value in Hval; [done|by apply Forall_app].
  - destruct (drop m rest) as [|j rest'] eqn:E2; cbn [fst snd]; intros Hval Hst.
    + apply valueless_branch_value in Hval; [done|by apply Forall_app].
    + apply drop_cons_inv in E1 as (Hbk & -> & Hlt).
      apply drop_cons_inv in E2 as (Hj & -> & Hlt').
      assert (Hbk16 : (bk < 16)%nat).
      { unfold nibbles_ok in Hnib. rewrite list.Forall_forall in Hnib.
        apply Hnib. by eapply list_elem_of_lookup_2. }
      assert (Hj16 : (j < 16)%nat).
      { unfold nibbles_ok in Hrest. rewrite list.Forall_forall in Hrest.
        apply Hrest. by eapply list_elem_of_lookup_2. }
      assert (Epre : pre = if decide (take m okey = []) then []
                           else [FExt (take m okey)]).
      { unfold pre. destruct (decide (m = 0%nat)) as [->|Hm].
        - by rewrite decide_True.
        - rewrite decide_False; [done|]. intros Ht.
          apply (f_equal length) in Ht.
          rewrite length_take, Nat.min_l in Ht by lia. done. }
      rewrite Epre in *.
      set (sh := shrink old (drop (S m) okey)) in *.
      apply (deleteNode_diverge T1 fs old (take m okey) bk j
               (drop (S m) okey) (drop (S m) rest) v k); try done.
      * fold okey. rewrite <- (take_drop m okey) at 1. f_equal.
        by apply drop_S.
      * rewrite Hk. f_equal. rewrite <- (take_drop m rest) at 1.
        rewrite Htake. f_equal. by apply drop_S.
      * assert (Hshw : wf sh /\ sh <> TEmpty).
        { destruct (wf_shrink old (drop (S m) okey) Hwold Hold) as [Hw He].
          - by apply nibbles_ok_drop.
          - assert (Hs : size_ok (length okey)).
            { unfold okey. destruct old as [|lk lv|ek c|cs bv]; try done.
              - by apply wf_leaf_inv in Hwold as (_ & ? & _).
              - by apply wf_ext_inv in Hwold as (_ & ? & _). }
            apply (size_ok_le _ (length okey)); [|done].
            rewrite length_drop. lia.
          - split; [done|]. intros Heq. unfold sh in Heq.
            by rewrite Heq in He. }
        destruct Hshw as [Hshw Hshne].
        apply lookupNode_ref_of; try done.
        apply list.Forall_forall. intros b Hb.
        unfold stored in Hst. rewrite list.Forall_forall in Hst. apply Hst.
        set (f := FBranch (<[bk:=sh]> empty_slots) [] j).
        apply (blobs_plug_side hashfn _ _ f).
        -- apply Forall_app. split; [done|]. apply Forall_app.
           split; [by destruct (decide _); repeat constructor|].
           repeat constructor. cbn. by rewrite length_insert.
        -- set_solver.
        -- apply elem_of_concat_map. exists sh. split; [|done].
           unfold f. cbn [side_trees].
           apply (list_elem_of_lookup_2 _ (if decide (bk < j)%nat then bk else pred bk)).
           destruct (decide (bk < j)%nat).
           ++ rewrite lookup_app_l by (rewrite length_take, length_insert; cbn; lia).
              rewrite lookup_take_lt by done. apply list_lookup_insert_eq. cbn. lia.
           ++ rewrite lookup_app_r by (rewrite length_take, length_insert; cbn; lia).
              rewrite length_take, length_insert, lookup_drop. cbn [length empty_slots replicate].
              replace (S j + (pred bk - j `min` 16))%nat with bk by lia.
              apply list_lookup_insert_eq. cbn. lia.
Qed.

Lemma frames_length_wf (fs : list frame) (s : tree) :
  Forall frame_ok fs -> wf (plug fs s) ->
  (length fs <= length (frames_key fs))%nat.
Proof.
  induction 1 as [|f fs Hf Hok IH]; [done|]. intros Hwf.
  change (plug (f :: fs) s) with (plug1 f (plug fs s)) in Hwf.
  change (frames_key (f :: fs)) with (frame_key f ++ frames_key fs).
  rewrite length_app. specialize (IH (wf_plug1 f _ Hf Hwf)).
  destruct f as [kx|? ? ?]; cbn in *; [|lia].
  apply wf_ext_inv in Hwf as (_ & _ & Hne & _). destruct kx; [done|cbn; lia].
Qed.

Variable fuel : nat.

(** [del] of a key found at a leaf. *)
Lemma del_found T1 (k : bytes) (fsT : list frame) (kk : Nibbles) (vv : bytes)
    (n : nat) T2 :
  lock T1 = S n ->
  bufferToNibbles (appliedKey hashfn T1 k) = frames_key fsT ++ kk ->
  Forall frame_ok fsT -> wf (plug fsT (TLeaf kk vv)) ->
  holds hashfn T1 (plug fsT (TLeaf kk vv)) ->
  (length fsT < fuel)%nat ->
  _deleteNode hashfn (appliedKey hashfn T1 k)
    (path_stack hashfn fsT (TLeaf kk vv)) (with_lock n T1) = (Ret tt, T2) ->
  exists T3, del hashfn fuel k T1 = (Ret tt, T3) /\ root T3 = root T2.
Proof.
  intros Hlock Hkey Hok Hwf Hholds Hfuel Hdn.
  assert (Hne : plug fsT (TLeaf kk vv) <> TEmpty) by by apply plug_nonempty.
  unfold del. unfold bind at 1. unfold lock_wait. rewrite Hlock.
  set (T1' := with_lock n T1) in *.
  assert (Hholds' : holds hashfn T1' (plug fsT (TLeaf kk vv)))
    by by apply (holds_same hashfn T1).
  unfold bind at 1. unfold bind at 1.
  change (appliedKey hashfn T1' k) with (appliedKey hashfn T1 k).
  rewrite (findPath_spec hashfn hash_length fsT (TLeaf kk vv) kk fuel _ false T1'
             Hkey Hok Hwf); try done; cycle 1.
  { apply stored_path; [done..|]. destruct Hholds' as [_ Hst].
    rewrite top_blobs_nonempty in Hst by done. by inversion Hst. }
  { by apply lookupNode_root. }
  cbn [found]. rewrite decide_True by done. cbn [fst node stack]. rewrite Hdn.
  unfold bind. rewrite persistRoot_eq. unfold lock_signal.
  eexists. split; [done|]. cbn [root _root with_lock].
  apply root_persisted.
Qed.

Lemma extend_branch_value (s : tree) (rest : Nibbles) (v : bytes)
    (cs : list tree) (bv : bytes) :
  (extend s rest v).1.2 = TBranch cs bv -> bv = v.
Proof.
  destruct s as [|lk lv|ek c|cs' bv']; cbn [extend].
  - done.
  - destruct (decide (rest = lk)); [done|]. unfold diverge.
    destruct (drop _ lk), (drop _ rest); cbn; congruence.
  - unfold diverge. destruct (drop _ ek), (drop _ rest); cbn; congruence.
  - destruct rest; cbn; congruence.
Qed.

(** [put] of an absent key, then [del]: the root is the one before, where
    no key is the beginning of another. *)
Lemma put_del_root T (t : tree) (k v : bytes) :
  wf t -> represents hashfn T t ->
  _deleteFromDB T = false -> lock T <> 0%nat ->
  pair_ok hashfn fuel T (k, v) ->
  lookup t (bufferToNibbles (appliedKey hashfn T k)) = None ->
  valueless (insert t (bufferToNibbles (appliedKey hashfn T k)) v) ->
  collision_free hashfn
    (ROOT_DB_KEY :: RLP.RLP_EMPTY_STRING
       :: bodies hashfn (insert t (bufferToNibbles (appliedKey hashfn T k)) v)) ->
  exists T1 T2,
    put hashfn fuel k v T = (Ret tt, T1)
    /\ del hashfn fuel k T1 = (Ret tt, T2)
    /\ root T2 = root T.
Proof.
  intros Hwf Hrep Hdel Hlock Hpair Habs Hval Hcf.
  pose proof (pair_ok_entry hashfn fuel T (k, v) Hpair) as (Hk & Hks & Hv & Hvs).
  destruct Hpair as (_ & _ & _ & Hres & Hfuel). cbn [fst snd] in *.
  destruct (put_spec hashfn hash_length fuel T t k v)
    as (T1 & Hput & [Hholds1 Hroot1] & (Hd1 & Hu1 & Hp1 & Hl1)); try done.
  exists T1.
  assert (Hw' : wf (insert t (bufferToNibbles (appliedKey hashfn T k)) v))
    by by apply wf_insert.
  assert (Hkey1 : appliedKey hashfn T1 k = appliedKey hashfn T k).
  { unfold appliedKey. by rewrite Hu1. }
  destruct (lock T1) as [|n] eqn:El; [congruence|].
  destruct Hrep as [[HrootT _] _].
  assert (t = TEmpty \/ t <> TEmpty) as [->|Hne] by (destruct t; auto).
  - (* the empty trie *)
    cbn [insert] in *.
    set (key := bufferToNibbles (appliedKey hashfn T k)) in *.
    destruct (del_found T1 k [] key v n
                (with_root (EMPTY_TRIE_ROOT hashfn) true (with_lock n T1)))
      as (T3 & Hdel3 & Hroot3); try done.
    + by rewrite Hkey1.
    + cbn. lia.
    + rewrite Hkey1. unfold _deleteNode, path_stack. cbn [path_nodes].
      rewrite pop_snoc, pop_nil. unfold set_root.
      by rewrite decide_True.
    + exists T3. split_and!; try done. by rewrite Hroot3, HrootT.
  - destruct (decompose t Hwf Hne _ Hk)
      as (fs & s & rest & -> & Hkey & Hok & Hs & Hterm & Hlen).
    assert (Hrest : nibbles_ok rest).
    { rewrite Hkey in Hk. unfold nibbles_ok in *.
      by apply Forall_app in Hk as [_ Hk]. }
    assert (Hins : insert (plug fs s) (bufferToNibbles (appliedKey hashfn T k)) v
                   = plug (fs ++ (extend s rest v).1.1) (extend s rest v).1.2).
    { by rewrite Hkey, insert_plug, extend_insert, plug_app. }
    rewrite Hins in *. clear Hins.
    rewrite Hkey, lookup_plug in Habs by done.
    pose proof (extend_frames_ok s rest v Hrest Hterm) as Hok'.
    pose proof (extend_key s rest v Hs Hterm) as Hek.
    pose proof (extend_leaf_or_branch s rest v) as Hlb.
    pose proof (extend_branch_value s rest v) as Hbv.
    assert (HokT : Forall frame_ok (fs ++ (extend s rest v).1.1))
      by by apply Forall_app.
    assert (Hst1 : stored hashfn (with_lock n T1)
                     (plug (fs ++ (extend s rest v).1.1) (extend s rest v).1.2)).
    { destruct Hholds1 as [_ Hst]. rewrite top_blobs_nonempty in Hst.
      - by inversion Hst.
      - apply plug_nonempty. by destruct ((extend s rest v).1.2). }
    assert (Hdn : exists T2,
      _deleteNode hashfn (appliedKey hashfn T k)
        (path_stack hashfn (fs ++ (extend s rest v).1.1) (extend s rest v).1.2)
        (with_lock n T1) = (Ret tt, T2)
      /\ root T2 = hashfn (body_of hashfn (plug fs s))
      /\ same_settings (with_lock n T1) T2).
    { destruct s as [|lk lv|ek c|cs bv]; [done| | |].
      - cbn [lookup] in Habs. cbn [extend] in *.
        destruct (decide (rest = lk)) as [->|Hnk]; [done|].
        apply (deleteNode_restores_diverge (with_lock n T1) fs (TLeaf lk lv));
          try done. cbn. congruence.
      - cbn [extend] in *.
        apply (deleteNode_restores_diverge (with_lock n T1) fs (TExt ek c));
          try done; [|cbn; congruence].
        cbn [tree_key]. intros Hd. exfalso. cbn in Hterm. apply Hterm.
        rewrite mnl_sym. pose proof (mnl_le_l ek rest) as Hle.
        apply (f_equal length) in Hd. rewrite length_drop in Hd.
        change (@length nat []) with 0%nat in Hd. lia.
      - cbn [extend] in *. destruct rest as [|i rest'].
        + cbn [fst snd] in *. rewrite app_nil_r in Hval.
          by apply valueless_branch_value in Hval.
        + cbn [fst snd] in *. cbn in Hterm.
          assert (bv = []) as ->.
          { rewrite plug_app in Hval. cbn [plug foldr plug1] in Hval.
            by apply valueless_branch_value in Hval. }
          apply deleteNode_branch; try done; [|cbn; congruence].
          apply wf_plug in Hwf; [|done].
          apply wf_branch_inv in Hwf as (_ & _ & _ & Hent).
          rewrite entries_used, decide_True in Hent by done. lia. }
    destruct Hdn as (T2 & Hdn & Hroot2 & _).
    destruct ((extend s rest v).1.2) as [|kk vv| |cs bv] eqn:Es'; try done.
    + cbn [tail_key] in Hek.
      destruct (del_found T1 k (fs ++ (extend s rest v).1.1) kk vv n T2)
        as (T3 & Hdel3 & Hroot3); try done.
      * by rewrite Hkey1, Hkey, frames_key_app, <- app_assoc, Hek.
      * pose proof (frames_length_wf _ _ HokT Hw') as Hfl.
        rewrite frames_key_app, !length_app in Hfl.
        rewrite Hkey, <- Hek, !length_app in Hfuel. rewrite length_app. lia.
      * by rewrite Hkey1.
      * exists T3. split_and!; try done. by rewrite Hroot3, Hroot2, HrootT.
    + specialize (Hbv _ _ eq_refl). subst bv.
      by apply valueless_branch_value in Hval.
Qed.

End Del.

(** ** [del] of a key that is not reached *)

(** Whether [findPath] reports a node for the key: its leaf, or the branch
    it ends at, with a value or without. *)
Fixpoint reaches (t : tree) (key : Nibbles) : bool :=
  match t with
  | TEmpty => false
  | TLeaf k _ => bool_decide (key = k)
  | TExt k c =>
      if decide (matchingNibbleLength key k = length k)
      then reaches c (drop (length k) key) else false
  | TBranch cs _ =>
      match key with
      | [] => true
      | i :: key' => default false (map (fun c => reaches c key') cs !! i)
      end
  end.

Lemma reaches_plug (fs : list frame) (s : tree) (rest : Nibbles) :
  Forall frame_ok fs ->
  reaches (plug fs s) (frames_key fs ++ rest) = reaches s rest.
Proof.
  induction 1 as [|f fs Hf _ IH]; [done|].
  change (plug (f :: fs) s) with (plug1 f (plug fs s)).
  change (frames_key (f :: fs)) with (frame_key f ++ frames_key fs).
  rewrite <- app_assoc. destruct f as [k|cs v i]; cbn [plug1 frame_key].
  - cbn [reaches]. rewrite mnl_app_r, decide_True by done.
    by rewrite drop_app_length.
  - cbn [app reaches]. rewrite list_lookup_fmap, list_lookup_insert_eq by done.
    done.
Qed.

Lemma reaches_terminal (hashfn : bytes -> bytes) (s : tree) (rest : Nibbles) :
  terminal s rest -> reaches s rest = false ->
  (found hashfn s rest).1 = None /\ lookup s rest = None.
Proof.
  destruct s as [|k v|k c|cs v]; cbn [terminal reaches found lookup]; [done| | |].
  - intros _ Hr. apply bool_decide_eq_false in Hr. by rewrite !decide_False.
  - intros Hne _. by rewrite decide_False.
  - destruct rest as [|i rest]; [done|]. intros Hi _.
    by rewrite list_lookup_fmap, Hi.
Qed.

Section DelAbsent.
Variable hashfn : bytes -> bytes.
Hypothesis hash_length : forall msg, length (hashfn msg) = 32%nat.
Context {D : Type} `{!DB D} `{!DBLaws D}.
Implicit Types T : Trie D.
Variable fuel : nat.

(** [del] of a key [findPath] reports no node for leaves the root and
    the nodes as they are, and [get] finds nothing under the key. *)
Lemma del_unreached T (t : tree) (k : bytes) :
  wf t -> t <> TEmpty -> represents hashfn T t -> lock T <> 0%nat ->
  reaches t (bufferToNibbles (appliedKey hashfn T k)) = false ->
  collision_free hashfn (ROOT_DB_KEY :: bodies hashfn t) ->
  (length (bufferToNibbles (appliedKey hashfn T k)) < fuel)%nat ->
  exists T',
    del hashfn fuel k T = (Ret tt, T')
    /\ represents hashfn T' t
    /\ get hashfn fuel k false T' = (Ret None, T').
Proof.
  intros Hwf Hne [Hholds Hroot] Hlock Hreach Hcf Hfuel.
  destruct (decompose t Hwf Hne _ (bufferToNibbles_ok (appliedKey hashfn T k)))
    as (fs & s & rest & -> & Hkey & Hok & Hs & Hterm & Hlen).
  rewrite Hkey, reaches_plug in Hreach by done.
  destruct (reaches_terminal hashfn s rest Hterm Hreach) as [Hfound Hlook].
  destruct (lock T) as [|n] eqn:El; [done|].
  unfold del. unfold bind at 1. unfold lock_wait. rewrite El.
  set (T1 := with_lock n T).
  assert (Hholds1 : holds hashfn T1 (plug fs s)) by by apply (holds_same hashfn T).
  unfold bind at 1. unfold bind at 1.
  change (appliedKey hashfn T1 k) with (appliedKey hashfn T k).
  rewrite (findPath_spec hashfn hash_length fs s rest fuel _ false T1 Hkey Hok Hwf
             Hs Hterm); cycle 1.
  { apply stored_path; [done..|]. destruct Hholds1 as [_ Hst].
    rewrite top_blobs_nonempty in Hst by done. by inversion Hst. }
  { by apply lookupNode_root. }
  { lia. }
  cbn [node]. rewrite Hfound. unfold ret, bind. rewrite persistRoot_eq.
  unfold lock_signal. eexists. split; [done|].
  set (T' := with_lock _ _).
  assert (HrT' : root T' = root T).
  { change (root (persisted hashfn T1) = root T). by rewrite root_persisted. }
  assert (Hrep' : represents hashfn T' (plug fs s)).
  { split; [split|].
    - rewrite HrT'. by destruct Hholds as [-> _].
    - apply list.Forall_forall. intros b Hb. unfold T'. cbn [db with_lock].
      rewrite (db_get_persisted hashfn T1 (hashfn b)).
      + destruct Hholds as [_ Hst]. rewrite list.Forall_forall in Hst.
        by apply Hst.
      + apply (hash_not_root_key hashfn hash_length T1 (bodies hashfn (plug fs s)));
          [done|by apply top_blobs_bodies|].
        intros ->. apply top_blobs_bodies in Hb.
        by apply bodies_not_root_key in Hb.
    - intros _. rewrite HrT'. by apply Hroot. }
  split; [done|].
  assert (Hk' : appliedKey hashfn T' k = appliedKey hashfn T k).
  { unfold appliedKey, T'. cbn [_useHashedKeys with_lock].
    by destruct (settings_persisted hashfn T1) as (_ & <- & _). }
  rewrite (get_spec hashfn hash_length fuel T' (plug fs s) k false);
    [|done|done|by destruct Hrep'|by rewrite Hk'].
  by rewrite Hk', Hkey, lookup_plug, Hlook.
Qed.

End DelAbsent.

(** ** A trie of two keys *)

Definition two_pairs : list (bytes * bytes) :=
  [ (Buffer_from "do", Buffer_from "verb");
    (Buffer_from "horse", Buffer_from "stallion") ].

Definition two_trie : Trie MapDB := (puts keccak256 100 two_pairs new_Trie).2.

Definition two_tree : tree := inserts TEmpty (walked keccak256 new_Trie two_pairs).

Lemma two_trie_represents :
  wf two_tree /\ represents keccak256 two_trie two_tree
  /\ same_settings new_Trie two_trie.
Proof.
  assert (Hok : Forall (pair_ok keccak256 100 new_Trie) two_pairs).
  { repeat (constructor; [apply pair_ok_check; vm_compute; reflexivity|]).
    constructor. }
  split.
  - apply wf_inserts; [constructor|]. unfold walked.
    rewrite list.Forall_forall in Hok. apply list.Forall_forall.
    intros kv' Hin. apply list_elem_of_fmap in Hin as (kv & -> & Hin).
    apply (pair_ok_entry keccak256 100 new_Trie), Hok, Hin.
  - destruct (puts_spec keccak256 keccak256_length 100 two_pairs new_Trie TEmpty)
      as (T' & Hp & Hrep & Hs).
    + constructor.
    + apply represents_empty. reflexivity.
    + reflexivity.
    + discriminate.
    + exact Hok.
    + apply no_collisionsb_spec. vm_compute. reflexivity.
    + assert (HT : two_trie = T') by exact (f_equal snd Hp).
      rewrite HT. exact (conj Hrep Hs).
Qed.

(** ** What every operation keeps: settings, root length, lock *)

Section Steady.
Variable hashfn : bytes -> bytes.
Context {D : Type} `{!DB D}.
Implicit Types T : Trie D.

(** What the steps of an operation between [lock.wait()] and
    [lock.signal()] keep: the settings, the lock, and a root of the
    length of a hash. *)
Definition steady T T' : Prop :=
  same_settings T T'
  /\ (length (root T) = _hashLen hashfn -> length (root T') = _hashLen hashfn).

Definition steady_op {A} (m : M D A) : Prop := forall T, steady T (m T).2.

Lemma steady_refl T : steady T T.
Proof. by split. Qed.

Lemma steady_trans T1 T2 T3 : steady T1 T2 -> steady T2 T3 -> steady T1 T3.
Proof.
  intros [(a1 & b1 & c1 & d1) e1] [(a2 & b2 & c2 & d2) e2].
  split; [unfold same_settings; split_and!; congruence|auto].
Qed.

Lemma steady_bind {A B} (m : M D A) (k : A -> M D B) :
  steady_op m -> (forall a, steady_op (k a)) -> steady_op (bind m k).
Proof.
  intros Hm Hk T. unfold bind. specialize (Hm T).
  destruct (m T) as [[a|e| |] T1]; cbn [snd] in *; try done.
  eapply steady_trans; [exact Hm|apply Hk].
Qed.

Lemma steady_ret {A} (a : A) : steady_op (ret a : M D A).
Proof. intros T. apply steady_refl. Qed.

Lemma steady_throw {A} (e : error) : steady_op (throw e : M D A).
Proof. intros T. apply steady_refl. Qed.

Lemma steady_frame {A} (m : M D A) : (forall T, (m T).2 = T) -> steady_op m.
Proof. intros Hm T. rewrite Hm. apply steady_refl. Qed.

Lemma steady_set_root (value : option bytes) : steady_op (set_root hashfn value).
Proof.
  intros T. unfold set_root. destruct (decide _) as [Hl|]; [|apply steady_refl].
  split; [done|]. intros _. exact Hl.
Qed.

Lemma steady_with_db (f : Trie D -> D) :
  steady_op (fun t => (Ret tt, with_db (f t) t)).
Proof. intros T. by split. Qed.

Lemma steady_persistRoot : steady_op (persistRoot hashfn).
Proof. intros T. unfold persistRoot. destruct (_persistRoot T); by split. Qed.

Lemma steady_saveStack (key : Nibbles) (stack : list TrieNode)
    (ops : list BatchDBOp) :
  steady_op (_saveStack hashfn key stack ops).
Proof.
  intros T. unfold _saveStack.
  destruct (_saveStack_loop hashfn T key (reverse stack) None ops) as [r ops'].
  revert T. apply steady_bind.
  - destruct r as [[r|l]|]; [apply steady_set_root|apply steady_throw|apply steady_ret].
  - intros _. apply steady_bind; [apply (steady_with_db (fun t => db_batch ops' (db t)))|].
    intros _. apply steady_persistRoot.
Qed.

Lemma steady_createInitialNode (key value : bytes) :
  steady_op (_createInitialNode hashfn key value).
Proof.
  unfold _createInitialNode. apply steady_bind; [apply steady_set_root|].
  intros _. apply steady_bind.
  - apply (steady_with_db (fun t => db_put (root t) _ (db t))).
  - intros _. apply steady_persistRoot.
Qed.

Lemma steady_updateNode (k value : bytes) (rem : Nibbles) (stack : list TrieNode) :
  steady_op (_updateNode hashfn k value rem stack).
Proof.
  intros T. unfold _updateNode.
  repeat case_match; try apply steady_refl; apply steady_saveStack.
Qed.

Lemma steady_lookupNode (r : item) : steady_op (lookupNode r).
Proof. apply steady_frame. intros T. apply lookupNode_frame. Qed.

Lemma steady_deleteNode (k : bytes) (stack : list TrieNode) :
  steady_op (_deleteNode hashfn k stack).
Proof.
  intros T. unfold _deleteNode.
  repeat case_match; try apply steady_refl; try apply steady_saveStack;
    try apply steady_set_root.
  all: generalize T; apply steady_bind; [apply steady_lookupNode|];
    intros found T'; destruct (processBranchNode _ _ _ _ _);
    apply steady_saveStack.
Qed.

End Steady.

Section Discipline.
Variable hashfn : bytes -> bytes.
Context {D : Type} `{!DB D}.
Implicit Types T : Trie D.
Variable fuel : nat.

(** How an operation leaves the lock: not touched where it was taken
    ([Blocked], nothing done), given back by an operation that returns,
    and kept by one that raises after taking it. *)
Definition lock_after {A} T (r : outcome A * Trie D) : Prop :=
  (lock T = 0%nat /\ r = (Blocked, T))
  \/ (lock T <> 0%nat
      /\ match r.1 with
         | Ret _ => lock r.2 = lock T
         | _ => S (lock r.2) = lock T
         end).

Definition settings_kept T T' : Prop :=
  _deleteFromDB T' = _deleteFromDB T /\ _useHashedKeys T' = _useHashedKeys T
  /\ _persistRoot T' = _persistRoot T
  /\ (length (root T) = _hashLen hashfn -> length (root T') = _hashLen hashfn).

Lemma steady_settings_kept T T' : steady hashfn T T' -> settings_kept T T'.
Proof. intros [(a & b & c & _) e]. by split_and!. Qed.

Lemma settings_kept_refl T : settings_kept T T.
Proof. by unfold settings_kept. Qed.

Lemma locked_op_spec (m : M D unit) T :
  steady_op hashfn m ->
  let r := bind lock_wait
             (fun _ => bind m (fun _ => bind (persistRoot hashfn)
                                          (fun _ => lock_signal))) T in
  settings_kept T r.2 /\ lock_after T r.
Proof.
  intros Hm. cbv zeta. unfold lock_after, bind, lock_wait, lock_signal.
  destruct (lock T) as [|n] eqn:El.
  - split; [apply settings_kept_refl|]. by left.
  - set (T1 := with_lock n T).
    pose proof (Hm T1) as Hs.
    assert (Hk : settings_kept T (m T1).2)
      by exact (steady_settings_kept T1 _ Hs).
    assert (Hl : lock (m T1).2 = n) by (by destruct Hs as [(_ & _ & _ & ?) _]).
    destruct (m T1) as [[[]|e| |] T2] eqn:Em; cbn [snd fst] in *.
    + pose proof (steady_persistRoot hashfn T2) as Hs2.
      assert (Hk2 : settings_kept T2 (persistRoot hashfn T2).2)
        by exact (steady_settings_kept T2 _ Hs2).
      assert (Hl2 : lock (persistRoot hashfn T2).2 = lock T2)
        by (by destruct Hs2 as [(_ & _ & _ & ?) _]).
      assert (Hp : (persistRoot hashfn T2).1 = Ret tt).
      { unfold persistRoot. by destruct (_persistRoot T2). }
      destruct (persistRoot hashfn T2) as [o3 T3]. cbn [fst snd] in *. subst o3.
      split.
      * destruct Hk as (? & ? & ? & ?), Hk2 as (? & ? & ? & ?).
        unfold settings_kept. cbn. split_and!; try congruence. auto.
      * right. split; [done|]. cbn. congruence.
    + split; [done|]. right. split; [done|]. cbn. congruence.
    + split; [done|]. right. split; [done|]. cbn. congruence.
    + split; [done|]. right. split; [done|]. cbn. congruence.
Qed.

Lemma steady_del_body (key : bytes) :
  steady_op hashfn
    (fun t : Trie D =>
       bind (findPath fuel (appliedKey hashfn t key) false)
         (fun p => match node p with
                   | Some _ => _deleteNode hashfn (appliedKey hashfn t key) (stack p)
                   | None => ret tt
                   end) t).
Proof.
  intros T. cbv beta.
  apply (steady_bind hashfn (findPath fuel (appliedKey hashfn T key) false)
           (fun p => match node p with
                     | Some _ => _deleteNode hashfn (appliedKey hashfn T key) (stack p)
                     | None => ret tt
                     end)).
  - apply steady_frame. intros T'. apply findPath_frame.
  - intros p. destruct (node p); [apply steady_deleteNode|apply steady_ret].
Qed.

Lemma del_discipline (key : bytes) T :
  settings_kept T (del hashfn fuel key T).2
  /\ lock_after T (del hashfn fuel key T).
Proof. apply (locked_op_spec _ T), steady_del_body. Qed.

Lemma steady_put_body (key value : bytes) :
  steady_op hashfn
    (fun t : Trie D =>
       let appliedKey := appliedKey hashfn t key in
       if bool_decide (root t = EMPTY_TRIE_ROOT hashfn)
       then _createInitialNode hashfn appliedKey value t
       else bind (findPath fuel appliedKey false)
              (fun p => _updateNode hashfn appliedKey value (remaining p) (stack p))
              t).
Proof.
  intros T. cbv zeta. destruct (bool_decide _).
  - apply steady_createInitialNode.
  - apply (steady_bind hashfn (findPath fuel (appliedKey hashfn T key) false)
             (fun p => _updateNode hashfn (appliedKey hashfn T key) value
                         (remaining p) (stack p))).
    + apply steady_frame. intros T'. apply findPath_frame.
    + intros p. apply steady_updateNode.
Qed.

Lemma put_discipline (key value : bytes) T :
  settings_kept T (put hashfn fuel key value T).2
  /\ ((_persistRoot T && bool_decide (key = ROOT_DB_KEY) = true
       /\ put hashfn fuel key value T = (Throw ReservedKey, T))
      \/ (_persistRoot T && bool_decide (key = ROOT_DB_KEY) = false
          /\ lock_after T (put hashfn fuel key value T))).
Proof.
  unfold put. destruct (_persistRoot T && bool_decide (key = ROOT_DB_KEY)) eqn:E.
  - split; [apply settings_kept_refl|by left].
  - destruct (bool_decide (value = [])).
    + destruct (del_discipline key T). split; [done|by right].
    + destruct (locked_op_spec _ T (steady_put_body key value)).
      split; [done|by right].
Qed.

End Discipline.

(** ** A root whose node is not in the store *)

Section MissingRoot.
Variable hashfn : bytes -> bytes.
Context {D : Type} `{!DB D}.
Implicit Types T : Trie D.
Variable fuel : nat.

Lemma findPath_missing_root T (key : bytes) (throwIfMissing : bool) :
  db_get (db T) (root T) = None -> fuel <> 0%nat ->
  findPath fuel key throwIfMissing T
    = (if throwIfMissing then Throw MissingNode else Ret (mkPath None [] []), T).
Proof.
  intros Hmiss Hfuel. unfold findPath.
  destruct fuel as [|fuel']; [done|].
  cbn [walk lookupNode]. rewrite Hmiss. by destruct throwIfMissing.
Qed.

Lemma get_missing_root T (key : bytes) (throwIfMissing : bool) :
  db_get (db T) (root T) = None -> fuel <> 0%nat ->
  get hashfn fuel key throwIfMissing T
    = (if throwIfMissing then Throw MissingNode else Ret None, T).
Proof.
  intros Hmiss Hfuel. unfold get, bind.
  rewrite findPath_missing_root by done. by destruct throwIfMissing.
Qed.

Lemma createProof_missing_root T (key : bytes) :
  db_get (db T) (root T) = None -> fuel <> 0%nat ->
  createProof hashfn fuel key T = (Ret [], T).
Proof.
  intros Hmiss Hfuel. unfold createProof, bind.
  by rewrite findPath_missing_root.
Qed.

Lemma checkRoot_missing T (r : bytes) :
  db_get (db T) r = None -> checkRoot r T = (Ret false, T).
Proof. intros Hmiss. unfold checkRoot. cbn [lookupNode]. by rewrite Hmiss. Qed.

Lemma put_missing_root T (key value : bytes) (n : nat) :
  db_get (db T) (root T) = None -> fuel <> 0%nat ->
  root T <> EMPTY_TRIE_ROOT hashfn -> lock T = S n ->
  _persistRoot T && bool_decide (key = ROOT_DB_KEY) = false -> value <> [] ->
  put hashfn fuel key value T = (Throw StackUnderflow, with_lock n T).
Proof.
  intros Hmiss Hfuel Hroot Hlock Hres Hv. unfold put.
  rewrite Hres, bool_decide_eq_false_2 by done.
  unfold bind at 1. unfold lock_wait. rewrite Hlock.
  unfold bind at 1. cbv zeta.
  change (root (with_lock n T)) with (root T).
  rewrite bool_decide_eq_false_2 by done.
  unfold bind at 1. rewrite findPath_missing_root by done.
  done.
Qed.

Lemma del_missing_root T (key : bytes) (n : nat) :
  db_get (db T) (root T) = None -> fuel <> 0%nat -> lock T = S n ->
  del hashfn fuel key T
    = (Ret tt, with_lock (S n) (persisted hashfn (with_lock n T))).
Proof.
  intros Hmiss Hfuel Hlock. unfold del.
  unfold bind at 1. unfold lock_wait. rewrite Hlock.
  unfold bind at 1. unfold bind at 1.
  rewrite findPath_missing_root by done. cbn [node]. unfold ret.
  unfold bind. unfold persistRoot, persisted, lock_signal.
  by destruct (_persistRoot (with_lock n T)).
Qed.

Lemma blocked_put T (key value : bytes) :
  lock T = 0%nat ->
  _persistRoot T && bool_decide (key = ROOT_DB_KEY) = false ->
  put hashfn fuel key value T = (Blocked, T).
Proof.
  intros Hlock Hres. unfold put. rewrite Hres.
  destruct (bool_decide (value = [])).
  - unfold del, bind, lock_wait. by rewrite Hlock.
  - unfold bind, lock_wait. by rewrite Hlock.
Qed.

Lemma blocked_del T (key : bytes) :
  lock T = 0%nat -> del hashfn fuel key T = (Blocked, T).
Proof. intros Hlock. unfold del, bind, lock_wait. by rewrite Hlock. Qed.

End MissingRoot.

(** ** With [deleteFromDB] off the store only grows *)

Section Grow.
Variable hashfn : bytes -> bytes.
Context {D : Type} `{!DB D} `{!DBLaws D}.
Implicit Types T : Trie D.

(** An operation of the kind [_formatNode] pushes for a node it saves. *)
Definition hashed_put (op : BatchDBOp) : Prop :=
  exists e, op = put_op hashfn e.

(** What the store of [T'] holds under a key: what the store of [T]
    held, or a byte string under its hash, or it is the key the root is
    persisted under. *)
Definition grows T T' : Prop :=
  forall h,
    db_get (db T') h = db_get (db T) h
    \/ (exists e, h = hashfn e /\ db_get (db T') h = Some e)
    \/ (_persistRoot T = true /\ h = appliedKey hashfn T ROOT_DB_KEY).

Definition grow_op {A} (m : M D A) : Prop :=
  forall T, _deleteFromDB T = false -> grows T (m T).2.

Lemma grows_refl T : grows T T.
Proof. intros h. by left. Qed.

Lemma grows_trans' T1 T2 T3 :
  _useHashedKeys T2 = _useHashedKeys T1 -> _persistRoot T2 = _persistRoot T1 ->
  grows T1 T2 -> grows T2 T3 -> grows T1 T3.
Proof.
  intros Hu Hp H12 H23 h.
  destruct (H23 h) as [Heq|[(e & -> & He)|[Hp2 ->]]].
  - rewrite Heq. apply H12.
  - right. left. by exists e.
  - right. right. unfold appliedKey. rewrite Hu. split; [congruence|done].
Qed.

Lemma grows_trans T1 T2 T3 :
  same_settings T1 T2 -> grows T1 T2 -> grows T2 T3 -> grows T1 T3.
Proof. intros (_ & Hu & Hp & _). by apply grows_trans'. Qed.

Lemma grow_bind {A B} (m : M D A) (k : A -> M D B) :
  steady_op hashfn m -> grow_op m -> (forall a, grow_op (k a)) ->
  grow_op (bind m k).
Proof.
  intros Hs Hm Hk T Hd. unfold bind.
  specialize (Hs T). specialize (Hm T Hd).
  destruct (m T) as [[a|e| |] T1]; cbn [snd] in *; try done.
  destruct Hs as [Hs _]. apply (grows_trans T T1); [done|done|].
  apply Hk. destruct Hs as (-> & _). done.
Qed.

Lemma grow_ret {A} (a : A) : grow_op (ret a : M D A).
Proof. intros T _. apply grows_refl. Qed.

Lemma grow_frame {A} (m : M D A) : (forall T, (m T).2 = T) -> grow_op m.
Proof. intros Hm T _. rewrite Hm. apply grows_refl. Qed.

Lemma grow_set_root (value : option bytes) : grow_op (set_root hashfn value).
Proof.
  intros T _ h. unfold set_root. destruct (decide _); by left.
Qed.

Lemma grow_persistRoot : grow_op (persistRoot hashfn).
Proof.
  intros T _ h. unfold persistRoot. destruct (_persistRoot T) eqn:Ep; [|by left].
  cbn [snd db with_db]. rewrite db_get_put.
  destruct (decide (h = appliedKey hashfn T ROOT_DB_KEY)) as [->|]; [|by left].
  by right; right.
Qed.

Lemma grows_batch T (ops : list BatchDBOp) :
  Forall hashed_put ops -> grows T (with_db (db_batch ops (db T)) T).
Proof.
  intros Hops h. cbn [db with_db]. rewrite db_batch_foldl.
  induction ops as [|op ops IH] using rev_ind; [by left|].
  apply Forall_app in Hops as [Hops Hop]. specialize (IH Hops).
  apply list.Forall_cons in Hop as [[e ->] _].
  rewrite foldl_app. cbn [foldl db_apply put_op]. rewrite db_get_put.
  destruct (decide (h = hashfn e)) as [->|]; [|done].
  right. left. by exists e.
Qed.

Lemma formatNode_hashed T (n : TrieNode) (top : bool) (ops : list BatchDBOp)
    (remove : bool) :
  _deleteFromDB T = false -> Forall hashed_put ops ->
  Forall hashed_put (_formatNode hashfn T n top ops remove).2.
Proof.
  intros Hd Hops. unfold _formatNode. rewrite Hd.
  destruct (_ || _); [|done]. cbn [snd]. destruct remove; [done|].
  apply Forall_app. split; [done|]. constructor; [|done].
  by eexists.
Qed.

Lemma saveStack_loop_hashed T (key : Nibbles) (rstack : list TrieNode)
    (lastRoot : option item) (ops : list BatchDBOp) :
  _deleteFromDB T = false -> Forall hashed_put ops ->
  Forall hashed_put (_saveStack_loop hashfn T key rstack lastRoot ops).2.
Proof.
  intros Hd. revert key lastRoot ops.
  induction rstack as [|n rest IH]; intros key lastRoot ops Hops; [done|].
  cbn [_saveStack_loop].
  destruct (match n with LeafNode _ _ => _ | _ => _ end) as [n' key'].
  pose proof (formatNode_hashed T n' (bool_decide (rest = [])) ops false Hd Hops)
    as Hf.
  destruct (_formatNode hashfn T n' (bool_decide (rest = [])) ops false)
    as [r ops'].
  by apply IH.
Qed.

Lemma grow_saveStack (key : Nibbles) (stack : list TrieNode)
    (ops : list BatchDBOp) :
  Forall hashed_put ops -> grow_op (_saveStack hashfn key stack ops).
Proof.
  intros Hops T Hd. unfold _saveStack.
  pose proof (saveStack_loop_hashed T key (reverse stack) None ops Hd Hops) as Hl.
  destruct (_saveStack_loop hashfn T key (reverse stack) None ops) as [r ops'].
  cbn [snd] in Hl. revert T Hd. apply grow_bind.
  - destruct r as [[r|l]|]; [apply steady_set_root|apply steady_throw|apply steady_ret].
  - destruct r as [[r|l]|]; [apply grow_set_root|by intros T _; apply grows_refl|apply grow_ret].
  - intros _. apply grow_bind.
    + apply (steady_with_db hashfn (fun t => db_batch ops' (db t))).
    + intros T _. by apply grows_batch.
    + intros _. apply grow_persistRoot.
Qed.

Lemma grow_createInitialNode (key value : bytes) :
  grow_op (_createInitialNode hashfn key value).
Proof.
  intros T Hd. unfold _createInitialNode. cbv zeta. unfold bind at 1.
  unfold set_root. cbn [isFalsy]. destruct (decide _); [|apply grows_refl].
  set (enc := serialize (LeafNode (bufferToNibbles key) value)).
  set (T1 := with_root _ _ T). unfold bind.
  set (T2 := with_db _ T1).
  apply (grows_trans T T2); [done| |by apply grow_persistRoot].
  intros h. unfold T2, T1. cbn [db with_db with_root root _root].
  rewrite db_get_put. destruct (decide _) as [->|]; [|by left].
  right. left. by exists enc.
Qed.

Lemma grow_lookupNode (r : item) : grow_op (lookupNode (D := D) r).
Proof. apply grow_frame. intros T. apply lookupNode_frame. Qed.

Ltac formatted_ops T Hd :=
  match goal with
  | H : _formatNode _ _ ?n ?top [] ?rm = (_, ?l) |- Forall hashed_put ?l =>
      let Hf := fresh in
      pose proof (formatNode_hashed T n top [] rm Hd (Forall_nil _)) as Hf;
      rewrite H in Hf; exact Hf
  | |- Forall hashed_put [] => constructor
  end.

Lemma grow_updateNode (k value : bytes) (rem : Nibbles) (stack : list TrieNode) :
  grow_op (_updateNode hashfn k value rem stack).
Proof.
  intros T Hd. unfold _updateNode.
  repeat case_match; simplify_eq; try apply grows_refl.
  all: apply grow_saveStack; [|done].
  all: formatted_ops T Hd.
Qed.

Lemma grow_deleteNode (k : bytes) (stack : list TrieNode) :
  grow_op (_deleteNode hashfn k stack).
Proof.
  intros T Hd. unfold _deleteNode.
  repeat case_match; simplify_eq; try apply grows_refl;
    try (by apply grow_set_root).
  all: try (apply grow_saveStack; [formatted_ops T Hd|done]).
  all: match goal with
       | |- context [_saveStack _ _ _ ?ops] =>
           assert (Hops : Forall hashed_put ops) by formatted_ops T Hd
       end.
  all: revert Hd; generalize T; apply grow_bind;
    [apply steady_lookupNode|apply grow_lookupNode|];
    intros found T' Hd'; destruct (processBranchNode _ _ _ _ _);
    by apply grow_saveStack.
Qed.

Variable fuel : nat.

Lemma grows_locked (m : M D unit) T :
  steady_op hashfn m -> grow_op m -> _deleteFromDB T = false ->
  grows T (bind lock_wait
             (fun _ => bind m (fun _ => bind (persistRoot hashfn)
                                          (fun _ => lock_signal))) T).2.
Proof.
  intros Hs Hm Hd. unfold bind at 1. unfold lock_wait.
  destruct (lock T) as [|n]; [apply grows_refl|].
  set (T1 := with_lock n T). change (grows T1 (bind m (fun _ => bind (persistRoot hashfn) (fun _ => lock_signal)) T1).2).
  assert (Hd1 : _deleteFromDB T1 = false) by done.
  revert Hd1. generalize T1. apply grow_bind; [done|done|].
  intros _ T2 Hd2. unfold bind.
  pose proof (grow_persistRoot T2 Hd2) as Hp.
  assert (Ho : (persistRoot hashfn T2).1 = Ret tt).
  { unfold persistRoot. by destruct (_persistRoot T2). }
  destruct (persistRoot hashfn T2) as [o T3]. cbn [fst snd] in *. subst o.
  exact Hp.
Qed.

Lemma del_grows T (key : bytes) :
  _deleteFromDB T = false -> grows T (del hashfn fuel key T).2.
Proof.
  intros Hd. apply (grows_locked _ T); [apply steady_del_body| |done].
  intros T1 Hd1. cbv beta.
  apply (grow_bind (findPath fuel (appliedKey hashfn T1 key) false)
           (fun p => match node p with
                     | Some _ => _deleteNode hashfn (appliedKey hashfn T1 key) (stack p)
                     | None => ret tt
                     end)); [| | |done].
  - apply steady_frame. intros T'. apply findPath_frame.
  - apply grow_frame. intros T'. apply findPath_frame.
  - intros p. destruct (node p); [apply grow_deleteNode|apply grow_ret].
Qed.

Lemma put_grows T (key value : bytes) :
  _deleteFromDB T = false -> grows T (put hashfn fuel key value T).2.
Proof.
  intros Hd. unfold put. destruct (_ && _); [apply grows_refl|].
  destruct (bool_decide (value = [])); [by apply del_grows|].
  apply (grows_locked _ T); [apply steady_put_body| |done].
  intros T1 Hd1. cbv zeta. destruct (bool_decide _).
  - by apply grow_createInitialNode.
  - apply (grow_bind (findPath fuel (appliedKey hashfn T1 key) false)
             (fun p => _updateNode hashfn (appliedKey hashfn T1 key) value
                         (remaining p) (stack p))); [| | |done].
    + apply steady_frame. intros T'. apply findPath_frame.
    + apply grow_frame. intros T'. apply findPath_frame.
    + intros p. apply grow_updateNode.
Qed.

End Grow.

Section History.
Variable hashfn : bytes -> bytes.
Hypothesis hash_length : forall msg, length (hashfn msg) = 32%nat.
Context {D : Type} `{!DB D} `{!DBLaws D}.
Implicit Types T : Trie D.
Variable fuel : nat.

Lemma settings_kept_trans T1 T2 T3 :
  settings_kept hashfn T1 T2 -> settings_kept hashfn T2 T3 ->
  settings_kept hashfn T1 T3.
Proof.
  intros (a1 & b1 & c1 & d1) (a2 & b2 & c2 & d2).
  unfold settings_kept. split_and!; try congruence. auto.
Qed.

Lemma settings_kept_persistRoot T :
  settings_kept hashfn T (persistRoot hashfn T).2.
Proof. apply steady_settings_kept, steady_persistRoot. Qed.

Lemma batch_loop_settings (ops : list TrieOp) T :
  settings_kept hashfn T (batch_loop hashfn fuel ops T).2.
Proof.
  revert T. induction ops as [|[key [v|]|key] ops IH]; intros T;
    cbn [batch_loop]; try apply settings_kept_refl.
  - unfold bind.
    pose proof (put_discipline hashfn fuel key v T) as [Hk _].
    destruct (put hashfn fuel key v T) as [[[]|e| |] T1]; cbn [snd] in *;
      try done.
    by apply (settings_kept_trans T T1).
  - unfold bind.
    pose proof (del_discipline hashfn fuel key T) as [Hk _].
    destruct (del hashfn fuel key T) as [[[]|e| |] T1]; cbn [snd] in *;
      try done.
    by apply (settings_kept_trans T T1).
Qed.

Lemma batch_settings (ops : list TrieOp) T :
  settings_kept hashfn T (batch hashfn fuel ops T).2.
Proof.
  unfold batch, bind. pose proof (batch_loop_settings ops T) as Hk.
  destruct (batch_loop hashfn fuel ops T) as [[[]|e| |] T1]; cbn [snd] in *;
    try done.
  apply (settings_kept_trans T T1); [done|apply settings_kept_persistRoot].
Qed.

Lemma batch_loop_grows (ops : list TrieOp) T :
  _deleteFromDB T = false -> grows hashfn T (batch_loop hashfn fuel ops T).2.
Proof.
  revert T. induction ops as [|[key [v|]|key] ops IH]; intros T Hd;
    cbn [batch_loop]; try apply grows_refl.
  - unfold bind.
    pose proof (put_discipline hashfn fuel key v T) as [Hk _].
    pose proof (put_grows hashfn fuel T key v Hd) as Hg.
    destruct (put hashfn fuel key v T) as [[[]|e| |] T1]; cbn [snd] in *;
      try done.
    destruct Hk as (Hd1 & Hu & Hp & _).
    apply (grows_trans' hashfn T T1); [done..|]. apply IH. congruence.
  - unfold bind.
    pose proof (del_discipline hashfn fuel key T) as [Hk _].
    pose proof (del_grows hashfn fuel T key Hd) as Hg.
    destruct (del hashfn fuel key T) as [[[]|e| |] T1]; cbn [snd] in *;
      try done.
    destruct Hk as (Hd1 & Hu & Hp & _).
    apply (grows_trans' hashfn T T1); [done..|]. apply IH. congruence.
Qed.

Lemma batch_grows (ops : list TrieOp) T :
  _deleteFromDB T = false -> grows hashfn T (batch hashfn fuel ops T).2.
Proof.
  intros Hd. unfold batch, bind.
  pose proof (batch_loop_settings ops T) as Hk.
  pose proof (batch_loop_grows ops T Hd) as Hg.
  destruct (batch_loop hashfn fuel ops T) as [[[]|e| |] T1]; cbn [snd] in *;
    try done.
  destruct Hk as (Hd1 & Hu & Hp & _).
  apply (grows_trans' hashfn T T1); [done..|]. apply grow_persistRoot; congruence.
Qed.

(** A byte string stored under its hash is still there in a store that
    grew, unless the hash function collides on it. *)
Lemma grows_keeps T T' (b : bytes) :
  grows hashfn T T' -> b <> ROOT_DB_KEY ->
  db_get (db T) (hashfn b) = Some b ->
  db_get (db T') (hashfn b) = Some b
  \/ exists e, e <> b /\ hashfn e = hashfn b.
Proof.
  intros Hg Hb Hst. destruct (Hg (hashfn b)) as [Heq|[(e & He & Hget)|[_ Hk]]].
  - left. by rewrite Heq.
  - destruct (decide (e = b)) as [->|Hne]; [by left|right].
    by exists e.
  - right. unfold appliedKey, hash in Hk.
    destruct (_useHashedKeys T).
    + exists ROOT_DB_KEY. by split.
    + apply (f_equal length) in Hk. rewrite hash_length in Hk.
      by vm_compute in Hk.
Qed.

Lemma grows_holds T T' (t : tree) :
  grows hashfn T T' -> holds hashfn T t ->
  holds hashfn (with_root (root T) false T') t
  \/ exists b e, b ∈ bodies hashfn t /\ e <> b /\ hashfn e = hashfn b.
Proof.
  intros Hg [Hroot Hst]. unfold holds.
  change (root (with_root (root T) false T')) with (root T).
  change (db (with_root (root T) false T')) with (db T').
  assert (Hsub : forall b, b ∈ top_blobs hashfn t -> b ∈ bodies hashfn t)
    by apply top_blobs_bodies.
  induction Hst as [|b l Hb _ IH]; [by left; split|].
  destruct IH as [[_ IH]|IH]; [set_solver|..].
  - destruct (grows_keeps T T' b Hg) as [Hk|(e & Hne & He)]; [|done|..].
    + intros ->. eapply bodies_not_root_key, Hsub. set_solver.
    + left. split; [done|]. by constructor.
    + right. exists b, e. split; [apply Hsub; set_solver|done].
  - by right.
Qed.

End History.

(** ** Reading depends on the root, the store and the key setting only *)

Section Reads.
Variable hashfn : bytes -> bytes.
Context {D : Type} `{!DB D}.
Implicit Types T : Trie D.

(** [copy] *)
Definition copy T : outcome (Trie D) :=
  Trie_new hashfn (db_copy (db T)) (Some (root T)) (_deleteFromDB T)
           (_useHashedKeys T) (_persistRoot T).

(** Two tries read alike: the same root, the same answers of the store,
    and keys hashed in both or in none. *)
Definition reads_alike T T' : Prop :=
  root T' = root T /\ _useHashedKeys T' = _useHashedKeys T
  /\ forall h, db_get (db T') h = db_get (db T) h.

Lemma lookupNode_alike T T' (r : item) :
  (forall h, db_get (db T') h = db_get (db T) h) ->
  (lookupNode r T').1 = (lookupNode r T).1.
Proof.
  intros Hdb. destruct r as [h|raw]; [|done].
  cbn [lookupNode]. rewrite Hdb. by destruct (db_get (db T) h).
Qed.

Lemma walk_alike T T' (fuel : nat) (targetKey : Nibbles) (tim : bool)
    (nodeRef : item) (keyProgress : Nibbles) (stack : list TrieNode) :
  (forall h, db_get (db T') h = db_get (db T) h) ->
  (walk fuel targetKey tim nodeRef keyProgress stack T').1
  = (walk fuel targetKey tim nodeRef keyProgress stack T).1.
Proof.
  intros Hdb. revert nodeRef keyProgress stack.
  induction fuel as [|fuel IH]; intros nodeRef keyProgress stack; [done|].
  cbn [walk].
  pose proof (lookupNode_alike T T' nodeRef Hdb) as Hl.
  pose proof (lookupNode_frame nodeRef T) as Hf.
  pose proof (lookupNode_frame nodeRef T') as Hf'.
  destruct (lookupNode nodeRef T) as [o T1], (lookupNode nodeRef T') as [o' T1'].
  cbn [fst snd] in *. subst o' T1 T1'.
  destruct o as [n|e| |]; [|by destruct e, tim|done|done].
  destruct n as [branches v|k v|k v].
  - destruct (drop _ targetKey) as [|i rest]; [done|].
    destruct (getBranch branches i); [apply IH|done].
  - case_decide; [apply IH|done].
  - by destruct (doKeysMatch _ k).
Qed.

Lemma findPath_alike T T' (fuel : nat) (key : bytes) (tim : bool) :
  root T' = root T -> (forall h, db_get (db T') h = db_get (db T) h) ->
  (findPath fuel key tim T').1 = (findPath fuel key tim T).1.
Proof. intros Hr Hdb. unfold findPath. rewrite Hr. by apply walk_alike. Qed.

Lemma get_alike T T' (fuel : nat) (key : bytes) (tim : bool) :
  reads_alike T T' ->
  (get hashfn fuel key tim T').1 = (get hashfn fuel key tim T).1.
Proof.
  intros (Hr & Hu & Hdb). unfold get, bind.
  replace (appliedKey hashfn T' key) with (appliedKey hashfn T key)
    by (unfold appliedKey; by rewrite Hu).
  pose proof (findPath_alike T T' fuel (appliedKey hashfn T key) tim Hr Hdb) as Hf.
  destruct (findPath fuel _ tim T) as [o T1], (findPath fuel _ tim T') as [o' T1'].
  cbn [fst] in Hf. subst o'.
  destruct o as [p|e| |]; [|done..].
  by destruct (node p), (remaining p).
Qed.

Lemma createProof_alike T T' (fuel : nat) (key : bytes) :
  reads_alike T T' ->
  (createProof hashfn fuel key T').1 = (createProof hashfn fuel key T).1.
Proof.
  intros (Hr & Hu & Hdb). unfold createProof, bind.
  replace (appliedKey hashfn T' key) with (appliedKey hashfn T key)
    by (unfold appliedKey; by rewrite Hu).
  pose proof (findPath_alike T T' fuel (appliedKey hashfn T key) false Hr Hdb) as Hf.
  destruct (findPath fuel _ false T) as [o T1], (findPath fuel _ false T') as [o' T1'].
  cbn [fst] in Hf. subst o'. by destruct o.
Qed.

Lemma checkRoot_alike T T' (r : bytes) :
  reads_alike T T' -> (checkRoot r T').1 = (checkRoot r T).1.
Proof.
  intros (_ & _ & Hdb). unfold checkRoot.
  pose proof (lookupNode_alike T T' (Str r) Hdb) as Hl.
  destruct (lookupNode (Str r) T) as [o T1], (lookupNode (Str r) T') as [o' T1'].
  cbn [fst] in Hl. subst o'. by destruct o as [n|[]| |].
Qed.

Lemma copy_eq T :
  length (root T) = _hashLen hashfn ->
  copy T = Ret (mkTrie (db_copy (db T)) (root T) false (_deleteFromDB T)
                       (_useHashedKeys T) (_persistRoot T) 1).
Proof.
  intros Hlen. unfold copy, Trie_new, set_root. cbn [isFalsy].
  by rewrite decide_True.
Qed.

Lemma copy_invalid T :
  length (root T) <> _hashLen hashfn -> copy T = Throw InvalidRootLength.
Proof.
  intros Hlen. unfold copy, Trie_new, set_root. cbn [isFalsy].
  by rewrite decide_False.
Qed.

(** The errors a walk can end in are those of [lookupNode]. *)
Definition lookup_error (e : error) : Prop :=
  e = MissingNode \/ e = InvalidNode \/ e = InvalidRLP.

Lemma decodeRawNode_cases (raw : list item) :
  (exists n, decodeRawNode raw = Ret n) \/ decodeRawNode raw = Throw InvalidNode.
Proof.
  unfold decodeRawNode. repeat case_match; eauto.
Qed.

Lemma decodeNode_cases (raw : bytes) :
  (exists n, decodeNode raw = Ret n) \/ decodeNode raw = Throw InvalidNode
  \/ decodeNode raw = Throw InvalidRLP.
Proof.
  unfold decodeNode. destruct (RLP.decode raw) as [[b|des]|]; [auto| |auto].
  destruct (decodeRawNode_cases des) as [?|?]; auto.
Qed.

Lemma lookupNode_cases T (r : item) :
  (exists n, (lookupNode r T).1 = Ret n)
  \/ exists e, (lookupNode r T).1 = Throw e /\ lookup_error e.
Proof.
  unfold lookup_error. destruct r as [h|raw]; cbn [lookupNode].
  - destruct (db_get (db T) h) as [v|]; cbn [fst]; [|eauto 6].
    destruct (decodeNode_cases v) as [?|[->| ->]]; eauto 6.
  - unfold lift. cbn [fst].
    destruct (decodeRawNode_cases raw) as [?| ->]; eauto 6.
Qed.

Lemma walk_errors T (fuel : nat) (targetKey : Nibbles) (tim : bool)
    (nodeRef : item) (keyProgress : Nibbles) (stack : list TrieNode) :
  (forall e, (walk fuel targetKey tim nodeRef keyProgress stack T).1 = Throw e ->
             lookup_error e)
  /\ (walk fuel targetKey tim nodeRef keyProgress stack T).1 <> Blocked.
Proof.
  revert nodeRef keyProgress stack.
  induction fuel as [|fuel IH]; intros nodeRef keyProgress stack; [done|].
  cbn [walk].
  pose proof (lookupNode_cases T nodeRef) as Hc.
  pose proof (lookupNode_frame nodeRef T) as Hf.
  destruct (lookupNode nodeRef T) as [o T1]. cbn [fst snd] in *. subst T1.
  destruct Hc as [[n ->]|(e & -> & He)].
  - destruct n as [branches v|k v|k v].
    + destruct (drop _ targetKey) as [|i rest]; [done|].
      destruct (getBranch branches i); [apply IH|done].
    + case_decide; [apply IH|done].
    + by destruct (doKeysMatch _ k).
  - split; [|by destruct e, tim].
    intros e'.
    destruct e, tim; cbn [fst]; try done; intros Heq; simplify_eq; done.
Qed.

Lemma get_errors T (fuel : nat) (key : bytes) (tim : bool) :
  (forall e, (get hashfn fuel key tim T).1 = Throw e -> lookup_error e)
  /\ (get hashfn fuel key tim T).1 <> Blocked.
Proof.
  unfold get, bind, findPath.
  pose proof (walk_errors T fuel (bufferToNibbles (appliedKey hashfn T key)) tim
                (Str (root T)) [] []) as [He Hb].
  destruct (walk _ _ _ _ _ _ T) as [[p|e| |] T1]; cbn [fst] in *; try done.
  - by destruct (node p), (remaining p).
  - split; [|done]. intros e' Heq. simplify_eq. by apply He.
Qed.

End Reads.

(** ** What [verifyProof] answers *)

Section Verify.
Variable hashfn : bytes -> bytes.
Variable fuel : nat.
Context {D : Type} `{!DB D}.
Implicit Types T : Trie D.

Lemma verifyProof_invalid_root T (rootHash key : bytes) (proof : list bytes) :
  length rootHash <> _hashLen hashfn ->
  verifyProof hashfn fuel rootHash key proof T = (Throw InvalidRootLength, T).
Proof.
  intros Hlen. unfold verifyProof, Trie_new, set_root. cbn [isFalsy].
  by rewrite decide_False.
Qed.

Lemma verifyProof_get T (rootHash key : bytes) (proof : list bytes) :
  length rootHash = _hashLen hashfn ->
  verifyProof hashfn fuel rootHash key proof T
    = (match (get hashfn fuel (appliedKey hashfn T key) true
                  (proof_trie hashfn rootHash proof)).1 with
       | Ret value => Ret value
       | Throw MissingNode => Throw InvalidProof
       | o => o
       end, T).
Proof.
  intros Hlen. unfold verifyProof, Trie_new, set_root. cbn [isFalsy].
  rewrite decide_True by done.
  unfold fromProof, bind. cbn -[get db_batch].
  unfold hash. fold (put_op hashfn).
  match goal with
  | |- context [with_root rootHash false ?X] =>
      set (pt0 := with_root rootHash false X)
  end.
  unfold persistRoot.
  destruct (map (put_op hashfn) proof) as [|[] ?] eqn:E; cbv beta iota;
    rewrite <- E; clear E; cbn [_persistRoot with_db pt0 with_root];
    change (with_db _ pt0) with (proof_trie hashfn rootHash proof);
    destruct (get hashfn fuel (appliedKey hashfn T key) true _) as [[v|[]| |] T'];
    cbn [fst]; done.
Qed.

Lemma proof_trie_get (rootHash : bytes) (proof : list bytes) (h : bytes) :
  (forall b, b ∈ proof -> hashfn b <> h) ->
  db_get (db (proof_trie hashfn rootHash proof)) h = None.
Proof.
  intros Hn. unfold proof_trie. cbn [db]. rewrite db_batch_foldl.
  induction proof as [|b proof IH] using rev_ind; [done|].
  rewrite map_app, foldl_app. cbn [map foldl db_apply put_op].
  rewrite db_get_put, decide_False.
  - apply IH. intros b' Hb'. apply Hn. set_solver.
  - intros ->. by apply (Hn b); [set_solver|].
Qed.

End Verify.

(** ** The errors of [put] and [del] *)

Section Errors.
Variable hashfn : bytes -> bytes.
Context {D : Type} `{!DB D}.
Implicit Types T : Trie D.
Variable fuel : nat.

(** The errors [put] and [del] raise: that of the reserved key, those of
    reading a node, and those of a stack or root that is not as expected.
    The error of [batch] is not among them. *)
Definition write_error (e : error) : Prop :=
  e = ReservedKey \/ lookup_error e \/ e = StackUnderflow
  \/ e = MissingLastNode \/ e = ExpectedBranchNode \/ e = InvalidRootLength.

Definition raises_only {A} (m : M D A) : Prop :=
  forall T e, (m T).1 = Throw e -> write_error e.

Lemma write_error_not_batch (e : error) : write_error e -> e <> InvalidBatchOp.
Proof.
  unfold write_error, lookup_error. intros H ->. naive_solver.
Qed.

Lemma raises_bind {A B} (m : M D A) (k : A -> M D B) :
  raises_only m -> (forall a, raises_only (k a)) -> raises_only (bind m k).
Proof.
  intros Hm Hk T e. unfold bind. specialize (Hm T).
  destruct (m T) as [[a|e'| |] T1]; cbn [fst] in *; try done.
  - apply Hk.
  - intros [= <-]. by apply Hm.
Qed.

Lemma raises_ret {A} (a : A) : raises_only (ret a : M D A).
Proof. by intros T e. Qed.

Lemma raises_throw {A} (e : error) :
  write_error e -> raises_only (throw e : M D A).
Proof. intros He T e' [= <-]. done. Qed.

Lemma raises_set_root (value : option bytes) : raises_only (set_root hashfn value).
Proof.
  intros T e. unfold set_root. destruct (decide _); [done|].
  intros [= <-]. unfold write_error. auto 10.
Qed.

Lemma raises_persistRoot : raises_only (persistRoot hashfn).
Proof. intros T e. unfold persistRoot. by destruct (_persistRoot T). Qed.

Lemma raises_lookupNode (r : item) : raises_only (lookupNode r).
Proof.
  intros T e He. destruct (lookupNode_cases T r) as [[n Hn]|(e' & He' & Hl)].
  - by rewrite Hn in He.
  - rewrite He' in He. injection He as <-. unfold write_error. auto.
Qed.

Lemma raises_findPath (key : bytes) (throwIfMissing : bool) :
  raises_only (findPath fuel key throwIfMissing).
Proof.
  intros T e He. unfold findPath in He.
  destruct (walk_errors T fuel (bufferToNibbles key) throwIfMissing
              (Str (root T)) [] []) as [Hw _].
  unfold write_error. right. left. by apply Hw.
Qed.

Lemma raises_saveStack (key : Nibbles) (stack : list TrieNode)
    (ops : list BatchDBOp) :
  raises_only (_saveStack hashfn key stack ops).
Proof.
  intros T. unfold _saveStack.
  destruct (_saveStack_loop hashfn T key (reverse stack) None ops) as [r ops'].
  revert T. apply raises_bind.
  - destruct r as [[r|l]|];
      [apply raises_set_root|apply raises_throw; unfold write_error; auto 10
      |apply raises_ret].
  - intros _. apply raises_bind; [by intros T e|].
    intros _. apply raises_persistRoot.
Qed.

Lemma raises_createInitialNode (key value : bytes) :
  raises_only (_createInitialNode hashfn key value).
Proof.
  unfold _createInitialNode. apply raises_bind; [apply raises_set_root|].
  intros _. apply raises_bind; [by intros T e|].
  intros _. apply raises_persistRoot.
Qed.

Lemma raises_updateNode (k value : bytes) (rem : Nibbles) (stack : list TrieNode) :
  raises_only (_updateNode hashfn k value rem stack).
Proof.
  intros T. unfold _updateNode.
  repeat case_match; try apply raises_saveStack;
    intros e [= <-]; unfold write_error; by auto 10.
Qed.

Lemma raises_deleteNode (k : bytes) (stack : list TrieNode) :
  raises_only (_deleteNode hashfn k stack).
Proof.
  intros T. unfold _deleteNode.
  repeat case_match; try apply raises_saveStack; try apply raises_set_root;
    try (intros e [= <-]; unfold write_error; by auto 10); try done.
  all: try (intros e' [= <-]; simplify_eq; unfold write_error; by auto 10).
  all: intros err;
    lazymatch goal with
    | |- (bind ?m ?k ?T0).1 = _ -> _ =>
        revert err; generalize T0; apply (raises_bind m k); [apply raises_lookupNode|]
    end;
    intros found T'; destruct (processBranchNode _ _ _ _ _);
    apply raises_saveStack.
Qed.

Lemma raises_locked (m : M D unit) :
  raises_only m ->
  raises_only (bind lock_wait
                 (fun _ => bind m (fun _ => bind (persistRoot hashfn)
                                              (fun _ => lock_signal)))).
Proof.
  intros Hm. apply raises_bind.
  - intros T e. unfold lock_wait. by destruct (lock T).
  - intros _. apply raises_bind; [done|]. intros _.
    apply raises_bind; [apply raises_persistRoot|]. by intros _ T e.
Qed.

Lemma raises_del (key : bytes) : raises_only (del hashfn fuel key).
Proof.
  unfold del. apply raises_locked. intros T. cbv beta.
  apply (raises_bind (findPath fuel (appliedKey hashfn T key) false)
           (fun p => match node p with
                     | Some _ => _deleteNode hashfn (appliedKey hashfn T key) (stack p)
                     | None => ret tt
                     end)).
  - apply raises_findPath.
  - intros p. destruct (node p); [apply raises_deleteNode|apply raises_ret].
Qed.

Lemma raises_put (key value : bytes) : raises_only (put hashfn fuel key value).
Proof.
  intros T. unfold put.
  destruct (_persistRoot T && bool_decide (key = ROOT_DB_KEY)).
  { intros e [= <-]. unfold write_error. auto. }
  destruct (bool_decide (value = [])); [apply raises_del|].
  revert T. apply raises_locked. intros T. cbv zeta.
  destruct (bool_decide _); [apply raises_createInitialNode|].
  apply (raises_bind (findPath fuel (appliedKey hashfn T key) false)
           (fun p => _updateNode hashfn (appliedKey hashfn T key) value
                       (remaining p) (stack p))).
  - apply raises_findPath.
  - intros p. apply raises_updateNode.
Qed.

(** One operation of a batch that carries a value, as the call it is. *)
Definition valued (op : TrieOp) : Prop :=
  match op with
  | OpPut _ None => False
  | _ => True
  end.

Lemma raises_batch_loop (ops : list TrieOp) :
  Forall valued ops -> raises_only (batch_loop hashfn fuel ops).
Proof.
  induction 1 as [|op ops Hop _ IH]; [apply raises_ret|].
  destruct op as [k [v|]|k]; [| done |]; cbn [batch_loop].
  - apply raises_bind; [apply raises_put|by intros _].
  - apply raises_bind; [apply raises_del|by intros _].
Qed.

Lemma raises_batch (ops : list TrieOp) :
  Forall valued ops -> raises_only (batch hashfn fuel ops).
Proof.
  intros Hv. unfold batch. apply raises_bind; [by apply raises_batch_loop|].
  intros _. apply raises_persistRoot.
Qed.

End Errors.

(** ** A batch is its operations, one call after the other *)

Section BatchFacts.
Variable hashfn : bytes -> bytes.
Hypothesis hash_length : forall msg, length (hashfn msg) = 32%nat.
Context {D : Type} `{!DB D} `{!DBLaws D}.
Implicit Types T : Trie D.
Variable fuel : nat.

(** The call an operation of a batch stands for. *)
Definition call (op : TrieOp) : M D unit :=
  match op with
  | OpPut key (Some value) => put hashfn fuel key value
  | OpPut key None => throw InvalidBatchOp
  | OpDel key => del hashfn fuel key
  end.

(** The puts of a list of pairs, as operations of a batch. *)
Definition put_ops (pairs : list (bytes * bytes)) : list TrieOp :=
  map (fun kv => OpPut kv.1 (Some kv.2)) pairs.

Lemma applies_call (op : TrieOp) (ops : list TrieOp) T T' T'' :
  call op T = (Ret tt, T') -> applies hashfn fuel ops T' T'' ->
  applies hashfn fuel (op :: ops) T T''.
Proof.
  destruct op as [k [v|]|k]; cbn [call]; intros Hc Ha.
  - by eapply applies_put.
  - done.
  - by eapply applies_del.
Qed.

Lemma batch_loop_cons (op : TrieOp) (ops : list TrieOp) T :
  batch_loop hashfn fuel (op :: ops) T
  = bind (call op) (fun _ => batch_loop hashfn fuel ops) T.
Proof. by destruct op as [k [v|]|k]. Qed.

(** The first operation that does not return ends the batch, with its
    outcome and the trie as it left it. *)
Lemma batch_loop_stops (ops1 ops2 : list TrieOp) (op : TrieOp) T T' :
  applies hashfn fuel ops1 T T' -> (call op T').1 <> Ret tt ->
  batch_loop hashfn fuel (ops1 ++ op :: ops2) T = call op T'.
Proof.
  induction 1 as [t|k value ops t t' t'' Hput _ IH|k ops t t' t'' Hdel _ IH];
    intros Hc.
  - cbn [app]. rewrite batch_loop_cons. unfold bind.
    destruct (call op t) as [[[]|e| |] t1]; done.
  - cbn [app batch_loop]. unfold bind. rewrite Hput. by apply IH.
  - cbn [app batch_loop]. unfold bind. rewrite Hdel. by apply IH.
Qed.

Lemma batch_stops (ops1 ops2 : list TrieOp) (op : TrieOp) T T' :
  applies hashfn fuel ops1 T T' -> (call op T').1 <> Ret tt ->
  batch hashfn fuel (ops1 ++ op :: ops2) T = call op T'.
Proof.
  intros Ha Hc. unfold batch, bind.
  rewrite (batch_loop_stops ops1 ops2 op T T' Ha Hc).
  destruct (call op T') as [[[]|e| |] t1]; done.
Qed.

(** A batch raises its own error only at an operation without a value,
    with the operations before it applied. *)
Lemma batch_loop_invalid (ops : list TrieOp) :
  forall T T', batch_loop hashfn fuel ops T = (Throw InvalidBatchOp, T') ->
  exists ops1 key ops2,
    ops = ops1 ++ OpPut key None :: ops2 /\ applies hashfn fuel ops1 T T'.
Proof.
  induction ops as [|op ops IH]; intros T T' Hb; [done|].
  rewrite batch_loop_cons in Hb. unfold bind in Hb.
  destruct (call op T) as [[[]|e| |] T1] eqn:Ec; try done.
  - destruct (IH T1 T' Hb) as (ops1 & key & ops2 & -> & Ha).
    exists (op :: ops1), key, ops2. split; [done|]. by eapply applies_call.
  - injection Hb as -> ->.
    destruct op as [k [v|]|k]; cbn [call] in Ec.
    + pose proof (raises_put hashfn fuel k v T InvalidBatchOp) as Hr.
      rewrite Ec in Hr. by apply write_error_not_batch in Hr.
    + injection Ec as <-. exists [], k, ops. split; [done|constructor].
    + pose proof (raises_del hashfn fuel k T InvalidBatchOp) as Hr.
      rewrite Ec in Hr. by apply write_error_not_batch in Hr.
Qed.

Lemma batch_invalid (ops : list TrieOp) T T' :
  batch hashfn fuel ops T = (Throw InvalidBatchOp, T') <->
  exists ops1 key ops2,
    ops = ops1 ++ OpPut key None :: ops2 /\ applies hashfn fuel ops1 T T'.
Proof.
  split.
  - intros Hb. apply batch_loop_invalid. unfold batch, bind in Hb.
    destruct (batch_loop hashfn fuel ops T) as [[[]|e| |] T1]; try done.
    unfold persistRoot in Hb. by destruct (_persistRoot T1).
  - intros (ops1 & key & ops2 & -> & Ha).
    by rewrite (batch_stops ops1 ops2 (OpPut key None) T T' Ha).
Qed.

Lemma batch_loop_puts (pairs : list (bytes * bytes)) T :
  batch_loop hashfn fuel (put_ops pairs) T = puts hashfn fuel pairs T.
Proof.
  revert T. induction pairs as [|[k v] pairs IH]; intros T; [done|].
  cbn [put_ops map batch_loop puts fst snd]. unfold bind.
  destruct (put hashfn fuel k v T) as [[[]|e| |] T1]; [apply IH|done..].
Qed.

Lemma puts_applies (pairs : list (bytes * bytes)) :
  forall T T', puts hashfn fuel pairs T = (Ret tt, T') ->
               applies hashfn fuel (put_ops pairs) T T'.
Proof.
  induction pairs as [|[k v] pairs IH]; intros T T' Hp.
  - injection Hp as <-. constructor.
  - cbn [puts] in Hp. unfold bind in Hp.
    destruct (put hashfn fuel k v T) as [[[]|e| |] T1] eqn:Eput; try done.
    cbn [put_ops map fst snd]. eapply applies_put; [exact Eput|by apply IH].
Qed.

Lemma represents_persisted T (t : tree) :
  represents hashfn T t ->
  collision_free hashfn (ROOT_DB_KEY :: bodies hashfn t) ->
  represents hashfn (persisted hashfn T) t.
Proof.
  intros [[Hr Hst] Hne] Hcf. split; [split|].
  - by rewrite root_persisted.
  - apply list.Forall_forall. intros b Hb.
    rewrite (db_get_persisted hashfn T (hashfn b)).
    + rewrite list.Forall_forall in Hst. by apply Hst.
    + apply (hash_not_root_key hashfn hash_length T (bodies hashfn t));
        [done|by apply top_blobs_bodies|].
      intros ->. apply top_blobs_bodies in Hb.
      by apply bodies_not_root_key in Hb.
  - intros Ht. rewrite root_persisted. by apply Hne.
Qed.

(** A batch of puts of non-empty values returns, and the trie then stands
    for the tree with the pairs inserted in their order. *)
Lemma batch_puts (pairs : list (bytes * bytes)) T (t : tree) :
  wf t -> represents hashfn T t ->
  _deleteFromDB T = false -> lock T <> 0%nat ->
  Forall (pair_ok hashfn fuel T) pairs ->
  no_collisions hashfn t (walked hashfn T pairs) ->
  collision_free hashfn
    (ROOT_DB_KEY :: bodies hashfn (inserts t (walked hashfn T pairs))) ->
  exists T1,
    puts hashfn fuel pairs T = (Ret tt, T1)
    /\ batch hashfn fuel (put_ops pairs) T = (Ret tt, persisted hashfn T1)
    /\ represents hashfn (persisted hashfn T1) (inserts t (walked hashfn T pairs))
    /\ same_settings T (persisted hashfn T1).
Proof.
  intros Hwf Hrep Hdel Hlock Hok Hnc Hcf.
  destruct (puts_spec hashfn hash_length fuel pairs T t)
    as (T1 & Hp & Hrep1 & Hs1); try done.
  exists T1. split_and!; [done| | |].
  - unfold batch, bind. by rewrite batch_loop_puts, Hp, persistRoot_eq.
  - by apply represents_persisted.
  - destruct (settings_persisted hashfn T1) as (? & ? & ? & ?).
    destruct Hs1 as (? & ? & ? & ?). unfold same_settings.
    split_and!; congruence.
Qed.

End BatchFacts.

(** ** Order of insertion, inversion, proofs and batches *)

Section Claims.
Variable hashfn : bytes -> bytes.
Hypothesis hash_length : forall msg, length (hashfn msg) = 32%nat.
Context {D : Type} `{!DB D} `{!DBLaws D}.
Implicit Types T : Trie D.
Variable fuel : nat.

(** C1, amended. The root does not depend on the order of insertion when
    the keys are pairwise distinct: for two lists of pairs that are
    permutations of each other, with keys the trie applies differently and
    non-empty values, put one pair after the other into an empty trie with
    [deleteFromDB] off and the lock free, every [put] returns and the two
    roots are equal. The hash function (of 32 bytes) is assumed not to
    collide on the nodes of the trees on the way, the empty string and the
    reserved key; keys and values are shorter than [2 ^ 32] bytes, the walk
    is given more steps than the longest key has nibbles, and no key is the
    reserved key where the trie persists its root. *)
Theorem put_order_independence T (l1 l2 : list (bytes * bytes)) :
  root T = EMPTY_TRIE_ROOT hashfn -> _deleteFromDB T = false -> lock T <> 0%nat ->
  l1 ≡ₚ l2 ->
  NoDup (map (fun kv => appliedKey hashfn T kv.1) l1) ->
  Forall (pair_ok hashfn fuel T) l1 ->
  no_collisions hashfn TEmpty (walked hashfn T l1) ->
  no_collisions hashfn TEmpty (walked hashfn T l2) ->
  exists T1 T2,
    puts hashfn fuel l1 T = (Ret tt, T1)
    /\ puts hashfn fuel l2 T = (Ret tt, T2)
    /\ root T1 = root T2.
Proof.
  intros Hroot Hdel Hlock Hperm Hnd Hok Hnc1 Hnc2.
  by apply (puts_order hashfn hash_length fuel T).
Qed.



(** C8, amended. A batch is its operations, one call after the other.
    It raises InvalidBatchOp exactly when it comes to a put whose value is
    absent ([null], [undefined]) with every operation before it returned,
    and the trie is then as those left it; a batch that has such a put
    never returns, and a batch that has none never raises InvalidBatchOp. A
    put whose value is the empty byte string raises nothing: it is carried
    out as the [del] of its key (the reserved key of a trie that persists
    its root apart). The first operation that does not return ends the
    batch with its outcome; when every operation returns, so does the
    batch, and the root is persisted once more. Puts of non-empty values
    into a trie that stands for a well-formed tree (with [deleteFromDB]
    off, the lock free, keys and values shorter than [2 ^ 32] bytes, no
    key the reserved key of a trie that persists its root, more steps for
    the walk than a key has nibbles, and no collision of the 32-byte hash
    function on the nodes written, the empty string and the reserved key)
    all return: the batch succeeds and the trie stands for the tree with
    the pairs inserted in their order. *)
Theorem batch_spec :
  (forall ops T T',
     batch hashfn fuel ops T = (Throw InvalidBatchOp, T') <->
     exists ops1 key ops2,
       ops = ops1 ++ OpPut key None :: ops2 /\ applies hashfn fuel ops1 T T')
  /\ (forall ops key T, In (OpPut key None) ops ->
        forall u, (batch hashfn fuel ops T).1 <> Ret u)
  /\ (forall ops T, Forall valued ops ->
        (batch hashfn fuel ops T).1 <> Throw InvalidBatchOp)
  /\ (forall key ops T, ~ (_persistRoot T = true /\ key = ROOT_DB_KEY) ->
        batch hashfn fuel (OpPut key (Some []) :: ops) T
          = batch hashfn fuel (OpDel key :: ops) T)
  /\ (forall ops1 op ops2 T T',
        applies hashfn fuel ops1 T T' -> (call hashfn fuel op T').1 <> Ret tt ->
        batch hashfn fuel (ops1 ++ op :: ops2) T = call hashfn fuel op T')
  /\ (forall ops T T', applies hashfn fuel ops T T' ->
        batch hashfn fuel ops T = (Ret tt, after (persistRoot hashfn) T'))
  /\ (forall pairs T (t : tree),
        wf t -> represents hashfn T t ->
        _deleteFromDB T = false -> lock T <> 0%nat ->
        Forall (pair_ok hashfn fuel T) pairs ->
        no_collisions hashfn t (walked hashfn T pairs) ->
        collision_free hashfn
          (ROOT_DB_KEY :: bodies hashfn (inserts t (walked hashfn T pairs))) ->
        exists T',
          batch hashfn fuel (put_ops pairs) T = (Ret tt, T')
          /\ represents hashfn T' (inserts t (walked hashfn T pairs))
          /\ same_settings T T').
Proof.
  split_and!.
  - intros ops T T'. apply batch_invalid.
  - intros ops key T Hin u. unfold batch, bind.
    pose proof (batch_loop_never_returns hashfn fuel ops key T Hin) as Hn.
    destruct (batch_loop hashfn fuel ops T) as [[[]|e| |] t1]; try done.
    by specialize (Hn tt).
  - intros ops T Hv Hb.
    by apply (write_error_not_batch InvalidBatchOp
                (raises_batch hashfn fuel ops Hv T InvalidBatchOp Hb)).
  - intros key ops T Hk. unfold batch, bind. cbn [batch_loop]. unfold bind.
    by rewrite (put_empty_value_is_del hashfn fuel key T Hk).
  - intros ops1 op ops2 T T'. apply batch_stops.
  - intros ops T T' Happ. unfold batch, bind.
    rewrite (batch_loop_applies hashfn fuel _ _ _ Happ). unfold after, persistRoot.
    by destruct (_persistRoot T').
  - intros pairs T t Hwf Hrep Hdel Hlock Hok Hnc Hcf.
    destruct (batch_puts hashfn hash_length fuel pairs T t)
      as (T1 & _ & Hb & Hrep' & Hs); try done.
    by exists (persisted hashfn T1).
Qed.

End Claims.

(** * The operations on a trie that holds a tree *)

Lemma bytes_eqb_neq (a b : bytes) : bytes_eqb a b = false -> a <> b.
Proof. intros Hf Heq. apply bytes_eqb_eq in Heq. congruence. Qed.

Lemma steady_fromProof {D} `{!DB D} (hashfn : bytes -> bytes) (proof : list bytes) :
  steady_op hashfn (fromProof (D := D) hashfn proof).
Proof.
  unfold fromProof. apply steady_bind.
  - intros T. destruct (map _ proof) as [|[k v|k] ops]; try apply steady_refl.
    destruct (rootIsEmptyObject T); [apply steady_set_root|apply steady_refl].
  - intros _. apply steady_bind.
    + apply (steady_with_db hashfn (fun t => db_batch _ (db t))).
    + intros _. apply steady_persistRoot.
Qed.

Lemma insert_insert (t : tree) (k : Nibbles) (v1 v2 : bytes) :
  wf t -> entry_ok (k, v1) -> entry_ok (k, v2) ->
  insert (insert t k v1) k v2 = insert t k v2.
Proof.
  intros Hwf (Hk & Hks & Hv1 & Hvs1) (_ & _ & Hv2 & Hvs2). cbn [fst snd] in *.
  apply canonical; [by repeat apply wf_insert|by apply wf_insert|].
  intros k'. rewrite !lookup_insert by (done || by apply wf_insert).
  by destruct (decide (k' = k)).
Qed.

Section Persisted.
Variable hashfn : bytes -> bytes.
Context {D : Type} `{!DB D} `{!DBLaws D}.
Implicit Types T : Trie D.

(** An operation followed by [persistRoot] leaves the root under the
    reserved key. *)
Lemma then_persisted {A} T (m : M D A) :
  (forall T0, settings_kept hashfn T0 (m T0).2) -> _persistRoot T = true ->
  (bind m (fun _ => persistRoot hashfn) T).1 = Ret tt ->
  db_get (db (bind m (fun _ => persistRoot hashfn) T).2)
         (appliedKey hashfn T ROOT_DB_KEY)
  = Some (root (bind m (fun _ => persistRoot hashfn) T).2).
Proof.
  intros Hm Hp. unfold bind. specialize (Hm T).
  destruct (m T) as [[a|e| |] T1]; cbn [fst snd] in *; try done.
  destruct Hm as (_ & Hu & Hp1 & _). intros _.
  unfold persistRoot. rewrite Hp1, Hp. cbn [snd db with_db root _root].
  unfold appliedKey. rewrite Hu, db_get_put. by rewrite decide_True.
Qed.

Lemma bind_assoc {A B C} (m1 : M D A) (m2 : A -> M D B) (k : B -> M D C) T :
  bind m1 (fun a => bind (m2 a) k) T = bind (bind m1 m2) k T.
Proof. unfold bind. by destruct (m1 T) as [[a|e| |] T1]. Qed.

Lemma locked_op_persisted T (m : M D unit) :
  steady_op hashfn m -> _persistRoot T = true ->
  let r := bind lock_wait
             (fun _ => bind m (fun _ => bind (persistRoot hashfn)
                                          (fun _ => lock_signal))) T in
  r.1 = Ret tt ->
  db_get (db r.2) (appliedKey hashfn T ROOT_DB_KEY) = Some (root r.2).
Proof.
  intros Hm Hp. cbv zeta. unfold bind, lock_wait, lock_signal, persistRoot.
  destruct (lock T) as [|n]; [done|].
  pose proof (Hm (with_lock n T)) as [(_ & Hu & Hp1 & _) _].
  destruct (m (with_lock n T)) as [[[]|e| |] T2]; cbn [fst snd] in *; try done.
  cbn [_persistRoot _useHashedKeys with_lock] in Hu, Hp1.
  rewrite Hp1, Hp. cbn [fst snd db with_db with_lock root _root]. intros _.
  unfold appliedKey. rewrite Hu, db_get_put. by rewrite decide_True.
Qed.

End Persisted.

Section Operations.
Variable hashfn : bytes -> bytes.
Hypothesis hash_length : forall msg, length (hashfn msg) = 32%nat.
Context {D : Type} `{!DB D} `{!DBLaws D}.
Implicit Types T : Trie D.
Variable fuel : nat.

(** X1. [get] on a trie that holds a well-formed, non-empty tree returns
    what the tree has under the nibbles of the key as the trie applies it
    (hashed or not): the value, or nothing. It does so with and without
    [throwIfMissing], and the trie is left as it was. *)
Theorem get_reads_the_tree T (t : tree) (key : bytes) (throwIfMissing : bool) :
  wf t -> t <> TEmpty -> holds hashfn T t ->
  (length (bufferToNibbles (appliedKey hashfn T key)) < fuel)%nat ->
  get hashfn fuel key throwIfMissing T
    = (Ret (lookup t (bufferToNibbles (appliedKey hashfn T key))), T).
Proof. intros Hwf Hne Hholds Hfuel. by apply get_spec. Qed.

(** X2. [put] of a non-empty value is insertion into the tree: on a trie
    that stands for a well-formed tree, with [deleteFromDB] off and the
    lock free, [put] of a key other than the reserved key of a trie that
    persists its root returns, and the trie it leaves stands for the tree
    with the pair inserted, which is well-formed again; the settings and
    the lock are as before. Key and value are shorter than [2 ^ 32] bytes,
    the walk is given more steps than the key has nibbles, and the hash
    function (of 32 bytes) is assumed not to collide on the nodes of the
    new tree, the empty string and the reserved key. *)
Theorem put_inserts_into_the_tree T (t : tree) (key value : bytes) :
  wf t -> represents hashfn T t ->
  _deleteFromDB T = false -> lock T <> 0%nat ->
  pair_ok hashfn fuel T (key, value) ->
  collision_free hashfn
    (ROOT_DB_KEY :: RLP.RLP_EMPTY_STRING
       :: bodies hashfn (insert t (bufferToNibbles (appliedKey hashfn T key)) value)) ->
  exists T',
    put hashfn fuel key value T = (Ret tt, T')
    /\ wf (insert t (bufferToNibbles (appliedKey hashfn T key)) value)
    /\ represents hashfn T' (insert t (bufferToNibbles (appliedKey hashfn T key)) value)
    /\ same_settings T T'.
Proof.
  intros Hwf Hrep Hdel Hlock Hpair Hcf.
  pose proof (pair_ok_entry hashfn fuel T (key, value) Hpair) as (Hk & Hks & Hv & Hvs).
  destruct Hpair as (_ & _ & _ & Hres & Hfuel). cbn [fst snd] in *.
  destruct (put_spec hashfn hash_length fuel T t key value)
    as (T' & Hput & Hrep' & Hs); try done.
  exists T'. split_and!; try done. by apply wf_insert.
Qed.

(** X3. On a trie that stands for a well-formed tree, with
    [deleteFromDB] off and the lock free, after [put] of a key (other than
    the reserved key of a trie that persists its root) and a non-empty
    value, [get] of the key returns the value, and [get] of any key the
    trie applies differently returns what the tree had under it before.
    Keys and value are shorter than [2 ^ 32] bytes, the walk is given more
    steps than a key has nibbles, and the hash function (of 32 bytes) is
    assumed not to collide on the nodes of the new tree, the empty string
    and the reserved key. *)
Theorem put_then_get T (t : tree) (key value : bytes) :
  wf t -> represents hashfn T t ->
  _deleteFromDB T = false -> lock T <> 0%nat ->
  pair_ok hashfn fuel T (key, value) ->
  collision_free hashfn
    (ROOT_DB_KEY :: RLP.RLP_EMPTY_STRING
       :: bodies hashfn (insert t (bufferToNibbles (appliedKey hashfn T key)) value)) ->
  exists T',
    put hashfn fuel key value T = (Ret tt, T')
    /\ get hashfn fuel key false T' = (Ret (Some value), T')
    /\ forall key' : bytes,
         appliedKey hashfn T key' <> appliedKey hashfn T key ->
         (length (bufferToNibbles (appliedKey hashfn T key')) < fuel)%nat ->
         get hashfn fuel key' false T'
           = (Ret (lookup t (bufferToNibbles (appliedKey hashfn T key'))), T').
Proof.
  intros Hwf Hrep Hdel Hlock Hpair Hcf.
  pose proof (pair_ok_entry hashfn fuel T (key, value) Hpair) as (Hk & Hks & Hv & Hvs).
  destruct Hpair as (_ & _ & _ & Hres & Hfuel). cbn [fst snd] in *.
  destruct (put_spec hashfn hash_length fuel T t key value)
    as (T' & Hput & [Hholds' Hroot'] & Hs); try done.
  exists T'. split; [done|].
  set (t' := insert t (bufferToNibbles (appliedKey hashfn T key)) value) in *.
  assert (Hwf' : wf t') by by apply wf_insert.
  assert (Hne' : t' <> TEmpty).
  { intros Heq. pose proof (insert_nonempty t
      (bufferToNibbles (appliedKey hashfn T key)) value) as Hn.
    fold t' in Hn. by rewrite Heq in Hn. }
  assert (Hkey : forall k, appliedKey hashfn T' k = appliedKey hashfn T k)
    by (intros k; by apply appliedKey_settings).
  split.
  - rewrite (get_spec hashfn hash_length fuel T' t' key false); try done.
    + unfold t'. by rewrite Hkey, lookup_insert, decide_True.
    + by rewrite Hkey.
  - intros key' Hdiff Hfuel'.
    rewrite (get_spec hashfn hash_length fuel T' t' key' false); try done.
    + unfold t'. rewrite Hkey, lookup_insert by done.
      rewrite decide_False; [done|]. intros Heq. by apply Hdiff, bufferToNibbles_inj.
    + by rewrite Hkey.
Qed.

(** X4. [del] undoes [put]: on a trie that stands for a well-formed
    tree, with [deleteFromDB] off and the lock free, where the key (other
    than the reserved key of a trie that persists its root) had no value
    and, after the [put] of a non-empty value, no key of the trie is the
    beginning of another (no branch holds a value), [put] of the key
    followed by [del] of it gives the trie the root it had before; and, for
    a tree that was not empty, unless the hash function collides on one of
    its nodes, [get] then returns for every key what the tree had under it
    before the [put] (nothing, for the key itself). Keys and value are
    shorter than [2 ^ 32] bytes, the walk is given more steps than a key
    has nibbles, and the hash function (of 32 bytes) is assumed not to
    collide on the nodes of the tree with the pair, the empty string and
    the reserved key. *)
Theorem put_then_del_restores_the_root T (t : tree) (key value : bytes) :
  wf t -> represents hashfn T t ->
  _deleteFromDB T = false -> lock T <> 0%nat ->
  pair_ok hashfn fuel T (key, value) ->
  lookup t (bufferToNibbles (appliedKey hashfn T key)) = None ->
  valueless (insert t (bufferToNibbles (appliedKey hashfn T key)) value) ->
  collision_free hashfn
    (ROOT_DB_KEY :: RLP.RLP_EMPTY_STRING
       :: bodies hashfn (insert t (bufferToNibbles (appliedKey hashfn T key)) value)) ->
  exists T1 T2,
    put hashfn fuel key value T = (Ret tt, T1)
    /\ del hashfn fuel key T1 = (Ret tt, T2)
    /\ root T2 = root T
    /\ (t <> TEmpty ->
        (exists b e, b ∈ bodies hashfn t /\ e <> b /\ hashfn e = hashfn b)
        \/ forall (key' : bytes) (throwIfMissing : bool),
             (length (bufferToNibbles (appliedKey hashfn T key')) < fuel)%nat ->
             get hashfn fuel key' throwIfMissing T2
               = (Ret (lookup t (bufferToNibbles (appliedKey hashfn T key'))), T2)).
Proof.
  intros Hwf Hrep Hdel Hlock Hpair Habs Hval Hcf.
  destruct (put_del_root hashfn hash_length fuel T t key value)
    as (T1 & T2 & Hput & Hdel2 & Hroot); try done.
  exists T1, T2. split_and!; try done. intros Hne.
  pose proof (put_discipline hashfn fuel key value T) as [(Hd1 & Hu1 & Hp1 & _) _].
  pose proof (put_grows hashfn fuel T key value Hdel) as Hg1.
  rewrite Hput in Hd1, Hu1, Hp1, Hg1. cbn [snd] in Hd1, Hu1, Hp1, Hg1.
  pose proof (del_discipline hashfn fuel key T1) as [(Hd2 & Hu2 & Hp2 & _) _].
  pose proof (del_grows hashfn fuel T1 key) as Hg2.
  rewrite Hdel2 in Hd2, Hu2, Hp2, Hg2. cbn [snd] in Hd2, Hu2, Hp2, Hg2.
  assert (Hg : grows hashfn T T2).
  { apply (grows_trans' hashfn T T1); [done..|]. apply Hg2. congruence. }
  destruct Hrep as [Hholds _].
  destruct (grows_holds hashfn hash_length T T2 t Hg Hholds) as [Hh|Hc];
    [right|by left].
  assert (Hh2 : holds hashfn T2 t)
    by (by apply (holds_same hashfn (with_root (root T) false T2))).
  intros key' tim Hfuel.
  assert (Hkey : appliedKey hashfn T2 key' = appliedKey hashfn T key').
  { unfold appliedKey. by rewrite Hu2, Hu1. }
  rewrite (get_spec hashfn hash_length fuel T2 t key' tim); try done.
  - by rewrite Hkey.
  - by rewrite Hkey.
Qed.

(** X5. From any trie, not only the empty one, the result of a list of
    puts does not depend on their order: on a trie that stands for a
    well-formed tree, with [deleteFromDB] off and the lock free, two lists
    of pairs that are permutations of each other, with keys the trie
    applies differently (none the reserved key of a trie that persists its
    root) and non-empty values, put one pair after the other, all return
    and leave tries that stand for one tree, that of the pairs inserted,
    and so have the same root. Keys and values are shorter than [2 ^ 32]
    bytes, the walk is given more steps than a key has nibbles, and the
    hash function (of 32 bytes) is assumed not to collide on the nodes of
    the trees on the way, the empty string and the reserved key. *)
Theorem root_is_independent_of_insertion_order T (t : tree)
    (l1 l2 : list (bytes * bytes)) :
  wf t -> represents hashfn T t ->
  _deleteFromDB T = false -> lock T <> 0%nat ->
  l1 ≡ₚ l2 ->
  NoDup (map (fun kv => appliedKey hashfn T kv.1) l1) ->
  Forall (pair_ok hashfn fuel T) l1 ->
  no_collisions hashfn t (walked hashfn T l1) ->
  no_collisions hashfn t (walked hashfn T l2) ->
  exists T1 T2,
    puts hashfn fuel l1 T = (Ret tt, T1)
    /\ puts hashfn fuel l2 T = (Ret tt, T2)
    /\ represents hashfn T1 (inserts t (walked hashfn T l1))
    /\ represents hashfn T2 (inserts t (walked hashfn T l1))
    /\ root T1 = root T2.
Proof.
  intros Hwf Hrep Hdel Hlock Hperm Hnd Hok Hnc1 Hnc2.
  destruct (puts_spec hashfn hash_length fuel l1 T t) as (T1 & Hp1 & Hrep1 & _);
    [done..|].
  destruct (puts_spec hashfn hash_length fuel l2 T t) as (T2 & Hp2 & Hrep2 & _);
    [try done..|].
  { by rewrite <- Hperm. }
  assert (Hi : inserts t (walked hashfn T l1) = inserts t (walked hashfn T l2)).
  { apply inserts_perm.
    - unfold walked. by apply fmap_Permutation.
    - done.
    - unfold walked. rewrite list.Forall_forall in Hok.
      apply list.Forall_forall. intros kv' Hin.
      apply list_elem_of_fmap in Hin as (kv & -> & Hin).
      by apply (pair_ok_entry hashfn fuel T), Hok.
    - by apply walked_keys_NoDup. }
  rewrite <- Hi in Hrep2.
  exists T1, T2. split_and!; [done..|].
  destruct Hrep1 as [[-> _] _], Hrep2 as [[-> _] _]. done.
Qed.

(** X6. A proof made by [createProof] verifies: for a trie that holds a
    well-formed, non-empty tree whose nodes the hash function does not
    collide on, [createProof] of a key returns a proof, and [verifyProof]
    of the root, the key and that proof returns what [get] of the key
    returns: its value, or nothing when the trie has none. *)
Theorem created_proof_verifies T (t : tree) (key : bytes) :
  wf t -> t <> TEmpty -> holds hashfn T t ->
  collision_free hashfn (bodies hashfn t) ->
  (length (bufferToNibbles (appliedKey hashfn T key)) < fuel)%nat ->
  exists proof value,
    createProof hashfn fuel key T = (Ret proof, T)
    /\ get hashfn fuel key false T = (Ret value, T)
    /\ value = lookup t (bufferToNibbles (appliedKey hashfn T key))
    /\ verifyProof hashfn fuel (root T) key proof T = (Ret value, T).
Proof.
  intros Hwf Hne Hholds Hcf Hfuel.
  destruct (createProof_verifyProof hashfn hash_length fuel T t key)
    as (proof & Hc & Hg & Hv); try done.
  exists proof, (lookup t (bufferToNibbles (appliedKey hashfn T key))).
  by split_and!.
Qed.

(** X7. [del] of a key [findPath] reports no node for changes nothing:
    on a trie that stands for a well-formed, non-empty tree, with the lock
    free, it returns, the trie stands for the same tree (so the root is
    the same), and [get] of the key returns nothing. Unless the key is the
    reserved key of a trie that persists its root, [put] of the empty
    value does the same. The walk is given more steps than the key has
    nibbles, and the hash function (of 32 bytes) is assumed not to collide
    on the nodes of the tree and the reserved key. *)
Theorem del_of_absent_key_changes_nothing T (t : tree) (key : bytes) :
  wf t -> t <> TEmpty -> represents hashfn T t -> lock T <> 0%nat ->
  reaches t (bufferToNibbles (appliedKey hashfn T key)) = false ->
  collision_free hashfn (ROOT_DB_KEY :: bodies hashfn t) ->
  (length (bufferToNibbles (appliedKey hashfn T key)) < fuel)%nat ->
  exists T',
    del hashfn fuel key T = (Ret tt, T')
    /\ represents hashfn T' t
    /\ root T' = root T
    /\ get hashfn fuel key false T' = (Ret None, T')
    /\ (~ (_persistRoot T = true /\ key = ROOT_DB_KEY) ->
        put hashfn fuel key [] T = (Ret tt, T')).
Proof.
  intros Hwf Hne Hrep Hlock Hreach Hcf Hfuel.
  destruct (del_unreached hashfn hash_length fuel T t key)
    as (T' & Hdel & Hrep' & Hget); try done.
  exists T'. split_and!; try done.
  - destruct Hrep as [[-> _] _], Hrep' as [[-> _] _]. done.
  - intros Hk. by rewrite (put_empty_value_is_del hashfn fuel key T Hk).
Qed.

(** X8. With [deleteFromDB] off, [put], [del] and [batch] never remove
    or overwrite a node of the store: a byte string (other than the
    reserved key) that the store holds under its hash is still held under
    it afterwards, however the operation settles, unless the hash function
    collides on it with another byte string. *)
Theorem writes_keep_the_stored_nodes T (b : bytes) :
  _deleteFromDB T = false -> b <> ROOT_DB_KEY ->
  db_get (db T) (hashfn b) = Some b ->
  (forall key value,
     db_get (db (put hashfn fuel key value T).2) (hashfn b) = Some b
     \/ exists e, e <> b /\ hashfn e = hashfn b)
  /\ (forall key,
        db_get (db (del hashfn fuel key T).2) (hashfn b) = Some b
        \/ exists e, e <> b /\ hashfn e = hashfn b)
  /\ (forall ops,
        db_get (db (batch hashfn fuel ops T).2) (hashfn b) = Some b
        \/ exists e, e <> b /\ hashfn e = hashfn b).
Proof.
  intros Hd Hb Hst. split_and!.
  - intros key value. apply (grows_keeps hashfn hash_length T); try done.
    by apply put_grows.
  - intros key. apply (grows_keeps hashfn hash_length T); try done.
    by apply del_grows.
  - intros ops. apply (grows_keeps hashfn hash_length T); try done.
    by apply batch_grows.
Qed.


(** X10. [fromProof] loads a proof into a new trie: for the proof
    [createProof] makes for a key of a trie that holds a well-formed,
    non-empty tree whose nodes the hash function (of 32 bytes) does not
    collide on, [fromProof] on a trie just constructed over an empty
    store (with the default options) takes the hash of the first node of
    the proof as its root, which is the root of the trie the proof was
    made from, and [get] of the applied key (with [throwIfMissing]) then
    returns on it what the key has in that trie. The walk is given more
    steps than the key has nibbles. *)
Theorem fromProof_loads_a_proof_into_a_new_trie T (t : tree) (key : bytes)
    (F0 : Trie MapDB) :
  wf t -> t <> TEmpty -> holds hashfn T t ->
  collision_free hashfn (bodies hashfn t) ->
  (length (bufferToNibbles (appliedKey hashfn T key)) < fuel)%nat ->
  Trie_new hashfn (∅ : MapDB) None false false false = Ret F0 ->
  exists proof F value,
    createProof hashfn fuel key T = (Ret proof, T)
    /\ fromProof hashfn proof F0 = (Ret tt, F)
    /\ root F = root T
    /\ get hashfn fuel (appliedKey hashfn T key) true F = (Ret value, F)
    /\ value = lookup t (bufferToNibbles (appliedKey hashfn T key)).
Proof.
  intros Hwf Hne Hholds Hcf Hfuel Hnew.
  assert (HF0 : F0 = mkTrie (∅ : MapDB) (EMPTY_TRIE_ROOT hashfn) true false
                            false false 1)
    by (unfold Trie_new in Hnew; by injection Hnew as <-).
  subst F0. clear Hnew.
  destruct (decompose t Hwf Hne _ (bufferToNibbles_ok (appliedKey hashfn T key)))
    as (fs & s & rest & -> & Hkey & Hok & Hs & Hterm & Hlen).
  assert (Hst : path_stored hashfn T fs s).
  { apply stored_path; [done..|]. destruct Hholds as [_ Hst].
    rewrite top_blobs_nonempty in Hst by done. by inversion Hst. }
  pose proof (lookupNode_root hashfn hash_length T _ Hwf Hne Hholds) as Hroot.
  set (pT := proof_trie hashfn (root T) (path_bodies hashfn fs s)).
  exists (path_bodies hashfn fs s), pT,
    (lookup (plug fs s) (bufferToNibbles (appliedKey hashfn T key))).
  split_and!.
  - unfold createProof, bind.
    rewrite (findPath_spec hashfn hash_length fs s rest fuel _ false T Hkey Hok
               Hwf Hs Hterm Hst Hroot) by lia.
    unfold ret. cbn [stack]. by rewrite path_bodies_stack.
  - unfold fromProof, bind.
    assert (Hhead : exists tl, path_bodies hashfn fs s
                               = body_of hashfn (plug fs s) :: tl).
    { destruct fs; cbn [path_bodies]; eauto. }
    destruct Hhead as [tl Hhead].
    assert (Hr : root T = hashfn (body_of hashfn (plug fs s)))
      by by destruct Hholds.
    unfold pT. rewrite Hhead. cbn [map rootIsEmptyObject].
    unfold set_root. cbn [isFalsy]. unfold hash.
    rewrite hash_length, hashLen_32, decide_True by done.
    unfold persistRoot. cbn [_persistRoot with_db with_root].
    unfold proof_trie. rewrite Hr. cbn [db]. done.
  - done.
  - destruct Hholds as [Hr Hst'].
    assert (Hdb : forall b, b ∈ path_bodies hashfn fs s ->
                            db_get (db pT) (hashfn b) = Some b).
    { intros b Hb. unfold pT, proof_trie. cbn [db].
      rewrite db_batch_foldl. apply (db_get_puts hashfn); [|by left].
      intros b' Hb' Heq. apply Hcf; [by apply path_bodies_bodies..|done]. }
    rewrite (get_path hashfn hash_length fuel pT fs s rest
               (appliedKey hashfn T key) true); try done.
    + by rewrite Hkey.
    + by apply (path_bodies_own hashfn hash_length fs s (fun b => b ∈ path_bodies hashfn fs s)).
    + unfold lookupNode. change (root pT) with (root T). rewrite Hr.
      rewrite Hdb by (by apply path_bodies_top).
      by rewrite decodeNode_body_of.
    + lia.
  - done.
Qed.

(** X11. [checkRoot] of the root of a trie that holds a well-formed,
    non-empty tree returns true; [checkRoot] of a root the store has
    nothing under returns false (so the root of a trie that was never
    written to, [EMPTY_TRIE_ROOT], does not check). *)
Theorem checkRoot_finds_the_root_node T (t : tree) (r : bytes) :
  wf t -> t <> TEmpty -> holds hashfn T t -> db_get (db T) r = None ->
  checkRoot (root T) T = (Ret true, T)
  /\ checkRoot r T = (Ret false, T).
Proof.
  intros Hwf Hne Hholds Hr. split; [|by apply checkRoot_missing].
  unfold checkRoot.
  by rewrite (lookupNode_root hashfn hash_length T t Hwf Hne Hholds).
Qed.

(** X20. The last [put] wins: on a trie that stands for a well-formed
    tree, with [deleteFromDB] off and the lock free, [put] of a key (other
    than the reserved key of a trie that persists its root) with one
    non-empty value and then with another leaves the root that [put] of
    the second value alone leaves; in particular, putting the same pair
    twice leaves the root of putting it once. Key and values are shorter
    than [2 ^ 32] bytes, the walk is given more steps than the key has
    nibbles, and the hash function (of 32 bytes) is assumed not to collide
    on the nodes of the tree with either pair, the empty string and the
    reserved key. *)
Theorem last_put_wins T (t : tree) (key v1 v2 : bytes) :
  wf t -> represents hashfn T t ->
  _deleteFromDB T = false -> lock T <> 0%nat ->
  pair_ok hashfn fuel T (key, v1) -> pair_ok hashfn fuel T (key, v2) ->
  collision_free hashfn
    (ROOT_DB_KEY :: RLP.RLP_EMPTY_STRING
       :: bodies hashfn (insert t (bufferToNibbles (appliedKey hashfn T key)) v1)) ->
  collision_free hashfn
    (ROOT_DB_KEY :: RLP.RLP_EMPTY_STRING
       :: bodies hashfn (insert t (bufferToNibbles (appliedKey hashfn T key)) v2)) ->
  exists T1 T12 T2,
    put hashfn fuel key v1 T = (Ret tt, T1)
    /\ put hashfn fuel key v2 T1 = (Ret tt, T12)
    /\ put hashfn fuel key v2 T = (Ret tt, T2)
    /\ root T12 = root T2.
Proof.
  intros Hwf Hrep Hdel Hlock Hpair1 Hpair2 Hcf1 Hcf2.
  pose proof (pair_ok_entry hashfn fuel T (key, v1) Hpair1) as He1.
  pose proof (pair_ok_entry hashfn fuel T (key, v2) Hpair2) as He2.
  pose proof He1 as (Hk & Hks & Hv1 & Hvs1).
  pose proof He2 as (_ & _ & Hv2 & Hvs2).
  destruct Hpair1 as (_ & _ & _ & Hres & Hfuel). cbn [fst snd] in *.
  set (k := bufferToNibbles (appliedKey hashfn T key)) in *.
  destruct (put_spec hashfn hash_length fuel T t key v1)
    as (T1 & Hput1 & Hrep1 & Hs1); try done.
  pose proof Hs1 as (Hd1 & Hu1 & Hp1 & Hl1).
  assert (Hkey1 : appliedKey hashfn T1 key = appliedKey hashfn T key)
    by by apply appliedKey_settings.
  assert (Hii : insert (insert t k v1) k v2 = insert t k v2)
    by by apply insert_insert.
  destruct (put_spec hashfn hash_length fuel T1 (insert t k v1) key v2)
    as (T12 & Hput12 & [[Hr12 _] _] & _); try done.
  { by apply wf_insert. }
  { by rewrite Hd1. }
  { by rewrite Hl1. }
  { by rewrite Hp1. }
  { rewrite Hkey1. fold k. by rewrite Hii. }
  { by rewrite Hkey1. }
  destruct (put_spec hashfn hash_length fuel T t key v2)
    as (T2 & Hput2 & [[Hr2 _] _] & _); try done.
  exists T1, T12, T2. split_and!; try done.
  rewrite Hr12, Hr2, Hkey1. fold k. by rewrite Hii.
Qed.

(** X19. With [persistRoot] on, the store holds the current root under
    the reserved key (as the trie applies it) after every [put], [del],
    [batch] and [fromProof] that returns. *)
Theorem the_root_is_persisted T :
  _persistRoot T = true ->
  (forall key value,
     (put hashfn fuel key value T).1 = Ret tt ->
     db_get (db (put hashfn fuel key value T).2) (appliedKey hashfn T ROOT_DB_KEY)
       = Some (root (put hashfn fuel key value T).2))
  /\ (forall key,
        (del hashfn fuel key T).1 = Ret tt ->
        db_get (db (del hashfn fuel key T).2) (appliedKey hashfn T ROOT_DB_KEY)
          = Some (root (del hashfn fuel key T).2))
  /\ (forall ops,
        (batch hashfn fuel ops T).1 = Ret tt ->
        db_get (db (batch hashfn fuel ops T).2) (appliedKey hashfn T ROOT_DB_KEY)
          = Some (root (batch hashfn fuel ops T).2))
  /\ (forall proof,
        (fromProof hashfn proof T).1 = Ret tt ->
        db_get (db (fromProof hashfn proof T).2) (appliedKey hashfn T ROOT_DB_KEY)
          = Some (root (fromProof hashfn proof T).2)).
Proof.
  intros Hp.
  assert (Hdel : forall key,
            (del hashfn fuel key T).1 = Ret tt ->
            db_get (db (del hashfn fuel key T).2) (appliedKey hashfn T ROOT_DB_KEY)
              = Some (root (del hashfn fuel key T).2)).
  { intros key. apply (locked_op_persisted hashfn T); [apply steady_del_body|done]. }
  split_and!.
  - intros key value. unfold put. destruct (_ && _); [done|].
    destruct (bool_decide (value = [])); [apply Hdel|].
    apply (locked_op_persisted hashfn T); [apply steady_put_body|done].
  - exact Hdel.
  - intros ops. unfold batch.
    apply (then_persisted hashfn T); [|done]. intros T0. apply batch_loop_settings.
  - intros proof. unfold fromProof. rewrite !bind_assoc.
    apply (then_persisted hashfn T); [|done].
    intros T0. apply steady_settings_kept. generalize T0. apply steady_bind.
    + intros T1. destruct (map _ proof) as [|[k v|k] ops]; try apply steady_refl.
      destruct (rootIsEmptyObject T1); [apply steady_set_root|apply steady_refl].
    + intros _. apply (steady_with_db hashfn (fun t => db_batch _ (db t))).
Qed.

End Operations.

Section Unconditional.
Variable hashfn : bytes -> bytes.
Context {D : Type} `{!DB D}.
Implicit Types T : Trie D.
Variable fuel : nat.

(** X12. No operation changes the settings of a trie or leaves it a
    root of the wrong length: after [put], [del], [batch] and [fromProof],
    however they settle, [deleteFromDB], [useHashedKeys] and [persistRoot]
    are what they were, and a root that had the length of a hash still has
    it. *)
Theorem writes_keep_the_settings T :
  (forall key value, settings_kept hashfn T (put hashfn fuel key value T).2)
  /\ (forall key, settings_kept hashfn T (del hashfn fuel key T).2)
  /\ (forall ops, settings_kept hashfn T (batch hashfn fuel ops T).2)
  /\ (forall proof, settings_kept hashfn T (fromProof hashfn proof T).2).
Proof.
  split_and!.
  - intros key value. apply put_discipline.
  - intros key. apply del_discipline.
  - intros ops. apply batch_settings.
  - intros proof. apply steady_settings_kept, steady_fromProof.
Qed.

(** X13. [put] and [del] give the lock back only when they return.
    Where no permit is free the operation does not settle and the trie is
    untouched; otherwise the lock is as before after an operation that
    returns, and one permit short after an operation that raises (the
    methods have no [finally]). This holds of every [del], and of every
    [put] but that of the reserved key of a trie that persists its root,
    which raises the reserved-key error before it takes the lock and
    leaves the trie untouched. *)
Theorem lock_is_given_back_only_on_return T (key value : bytes) :
  lock_after T (del hashfn fuel key T)
  /\ (_persistRoot T && bool_decide (key = ROOT_DB_KEY) = false ->
      lock_after T (put hashfn fuel key value T))
  /\ (_persistRoot T && bool_decide (key = ROOT_DB_KEY) = true ->
      put hashfn fuel key value T = (Throw ReservedKey, T)).
Proof.
  split; [apply del_discipline|].
  destruct (put_discipline hashfn fuel key value T) as [_ [[E Hr]|[E Hl]]];
    rewrite E; by split.
Qed.

(** X14. A trie whose root node is not in the store reads as empty:
    [get] returns nothing for every key, or raises the missing-node error
    when asked to with [throwIfMissing]; [createProof] returns the empty
    proof; and [del], where a permit is free, returns and leaves the root
    and the lock as they were. A trie that was just constructed is the
    first case of it. *)
Theorem reads_of_a_missing_root_node T (key : bytes) :
  db_get (db T) (root T) = None -> fuel <> 0%nat ->
  get hashfn fuel key false T = (Ret None, T)
  /\ get hashfn fuel key true T = (Throw MissingNode, T)
  /\ createProof hashfn fuel key T = (Ret [], T)
  /\ (lock T <> 0%nat ->
      exists T', del hashfn fuel key T = (Ret tt, T') /\ root T' = root T
                 /\ lock T' = lock T).
Proof.
  intros Hmiss Hfuel. split_and!.
  - by rewrite get_missing_root.
  - by rewrite get_missing_root.
  - by apply createProof_missing_root.
  - intros Hlock. destruct (lock T) as [|n] eqn:El; [done|].
    rewrite (del_missing_root hashfn fuel T key n) by done.
    eexists. split; [done|]. split; [|done].
    exact (root_persisted hashfn (with_lock n T)).
Qed.

(** X15. [put] of a non-empty value (under a key other than the
    reserved key of a trie that persists its root) into a trie whose root
    is not the empty one and whose root node is not in the store raises
    the stack-underflow error and keeps the lock, the root unchanged:
    where the lock had its one permit, every later [del] waits for ever,
    and so does every later [put], but that of the reserved key of a trie
    that persists its root, which raises the reserved-key error at once.
    The walk is given at least one step. *)
Theorem put_on_a_missing_root_node_keeps_the_lock T (key value : bytes) :
  db_get (db T) (root T) = None -> root T <> EMPTY_TRIE_ROOT hashfn ->
  lock T = 1%nat -> fuel <> 0%nat ->
  _persistRoot T && bool_decide (key = ROOT_DB_KEY) = false -> value <> [] ->
  exists T',
    put hashfn fuel key value T = (Throw StackUnderflow, T')
    /\ root T' = root T /\ lock T' = 0%nat
    /\ (forall key', del hashfn fuel key' T' = (Blocked, T'))
    /\ (forall key' value',
          put hashfn fuel key' value' T'
          = (if _persistRoot T && bool_decide (key' = ROOT_DB_KEY)
             then Throw ReservedKey else Blocked, T')).
Proof.
  intros Hmiss Hroot Hlock Hfuel Hres Hv.
  rewrite (put_missing_root hashfn fuel T key value 0) by done.
  eexists. split; [done|]. split; [done|]. split; [done|]. split.
  - intros key'. exact (blocked_del hashfn fuel (with_lock 0 T) key' eq_refl).
  - intros key' value'.
    change (_persistRoot T) with (_persistRoot (with_lock 0 T)).
    destruct (_persistRoot (with_lock 0 T) && bool_decide (key' = ROOT_DB_KEY))
      eqn:E.
    + unfold put. by rewrite E.
    + exact (blocked_put hashfn fuel (with_lock 0 T) key' value' eq_refl E).
Qed.

(** X16. [verifyProof] settles in one of these ways only: it returns a
    value or nothing, or raises the invalid-root-length error (exactly
    when the root given has not the length of a hash), the invalid-proof
    error, or an error of decoding a node. It never raises the
    invalid-proof-nodes error or the missing-node error, never waits, and
    leaves the trie it is called on as it was. *)
Theorem verifyProof_outcomes T (rootHash key : bytes) (proof : list bytes) :
  let r := verifyProof hashfn fuel rootHash key proof T in
  r.2 = T
  /\ r.1 <> Throw InvalidProofNodes /\ r.1 <> Throw MissingNode
  /\ r.1 <> Blocked
  /\ (r.1 = Throw InvalidRootLength <-> length rootHash <> _hashLen hashfn).
Proof.
  cbv zeta. destruct (decide (length rootHash = _hashLen hashfn)) as [Hl|Hl].
  - rewrite verifyProof_get by done. cbn [fst snd].
    destruct (get_errors hashfn (proof_trie hashfn rootHash proof) fuel
                (appliedKey hashfn T key) true) as [He Hb].
    destruct (get hashfn fuel _ true _) as [[v|e| |] T1]; cbn [fst] in *.
    + repeat split; try done; intros Hn; by destruct Hn.
    + specialize (He e eq_refl).
      destruct He as [->|[->| ->]]; repeat split; try done;
        intros Hn; by destruct Hn.
    + done.
    + repeat split; try done; intros Hn; by destruct Hn.
  - rewrite verifyProof_invalid_root by done. cbn [fst snd].
    repeat split; done.
Qed.

(** X17. [verifyProof] rejects a proof that lacks the root node: for a
    root of the length of a hash, where none of the nodes given hashes to
    the root, the empty proof included, it raises the invalid-proof error,
    whatever the key is. The walk is given at least one step. *)
Theorem verifyProof_rejects_a_proof_without_the_root_node T
    (rootHash key : bytes) (proof : list bytes) :
  length rootHash = _hashLen hashfn -> fuel <> 0%nat ->
  (forall b, b ∈ proof -> hashfn b <> rootHash) ->
  verifyProof hashfn fuel rootHash key proof T = (Throw InvalidProof, T).
Proof.
  intros Hlen Hfuel Hn. rewrite verifyProof_get by done.
  rewrite get_missing_root; [done| |done].
  change (root (proof_trie hashfn rootHash proof)) with rootHash.
  by apply proof_trie_get.
Qed.

(** X18. [copy] makes a trie that reads as the original: where the copy
    of a store answers as the store does, the copy of a trie whose root has
    the length of a hash has the same root and settings, a free lock of its
    own (whatever the state of the original's), and [get], [createProof]
    and [checkRoot] settle on it as they do on the original. *)
Theorem copy_reads_as_the_original T :
  (forall (d : D) (k : bytes), db_get (db_copy d) k = db_get d k) ->
  length (root T) = _hashLen hashfn ->
  exists T',
    copy hashfn T = Ret T'
    /\ root T' = root T
    /\ _deleteFromDB T' = _deleteFromDB T
    /\ _useHashedKeys T' = _useHashedKeys T
    /\ _persistRoot T' = _persistRoot T
    /\ lock T' = 1%nat
    /\ (forall key throwIfMissing,
          (get hashfn fuel key throwIfMissing T').1
          = (get hashfn fuel key throwIfMissing T).1)
    /\ (forall key,
          (createProof hashfn fuel key T').1 = (createProof hashfn fuel key T).1)
    /\ (forall r, (checkRoot r T').1 = (checkRoot r T).1).
Proof.
  intros Hcopy Hlen. rewrite copy_eq by done. eexists. split; [done|].
  set (T' := mkTrie _ _ _ _ _ _ _).
  assert (Ha : reads_alike T T').
  { split_and!; try done. intros h. apply Hcopy. }
  split_and!; try done.
  - intros key tim. by apply get_alike.
  - intros key. by apply createProof_alike.
  - intros r. by apply checkRoot_alike.
Qed.

End Unconditional.

(** ** The theorems at work on concrete tries *)

Lemma get_reads_the_tree_witness :
  exists value,
    get keccak256 100 (Buffer_from "do") false two_trie = (Ret value, two_trie)
    /\ value = Some (Buffer_from "verb").
Proof.
  destruct two_trie_represents as (Hwf & [Hholds _] & (Hd & Hu & Hp & Hl)).
  eexists. split.
  - apply (get_reads_the_tree keccak256 keccak256_length 100 two_trie two_tree).
    + exact Hwf.
    + vm_compute. discriminate.
    + exact Hholds.
    + unfold appliedKey. rewrite Hu. vm_compute. lia.
  - unfold appliedKey. rewrite Hu. vm_compute. reflexivity.
Defined.

Lemma put_inserts_into_the_tree_witness :
  exists T',
    put keccak256 100 (Buffer_from "cat") (Buffer_from "meow") two_trie
      = (Ret tt, T')
    /\ represents keccak256 T'
         (insert two_tree
            (bufferToNibbles (appliedKey keccak256 two_trie (Buffer_from "cat")))
            (Buffer_from "meow"))
    /\ same_settings two_trie T'.
Proof.
  destruct two_trie_represents as (Hwf & Hrep & (Hd & Hu & Hp & Hl)).
  destruct (put_inserts_into_the_tree keccak256 keccak256_length 100 two_trie
              two_tree (Buffer_from "cat") (Buffer_from "meow"))
    as (T' & Hput & _ & Hrep' & Hs).
  - exact Hwf.
  - exact Hrep.
  - rewrite Hd. reflexivity.
  - rewrite Hl. discriminate.
  - apply pair_ok_check. unfold appliedKey. rewrite Hu, Hp. vm_compute. reflexivity.
  - unfold appliedKey. rewrite Hu. apply collision_freeb_spec.
    vm_compute. reflexivity.
  - exists T'. exact (conj Hput (conj Hrep' Hs)).
Defined.

Lemma put_then_get_witness :
  exists T',
    put keccak256 100 (Buffer_from "cat") (Buffer_from "meow") two_trie
      = (Ret tt, T')
    /\ get keccak256 100 (Buffer_from "cat") false T'
       = (Ret (Some (Buffer_from "meow")), T')
    /\ exists value,
         get keccak256 100 (Buffer_from "horse") false T' = (Ret value, T')
         /\ value = Some (Buffer_from "stallion").
Proof.
  destruct two_trie_represents as (Hwf & Hrep & (Hd & Hu & Hp & Hl)).
  destruct (put_then_get keccak256 keccak256_length 100 two_trie
              two_tree (Buffer_from "cat") (Buffer_from "meow"))
    as (T' & Hput & Hget & Hothers).
  - exact Hwf.
  - exact Hrep.
  - rewrite Hd. reflexivity.
  - rewrite Hl. discriminate.
  - apply pair_ok_check. unfold appliedKey. rewrite Hu, Hp. vm_compute. reflexivity.
  - unfold appliedKey. rewrite Hu. apply collision_freeb_spec.
    vm_compute. reflexivity.
  - exists T'. split; [exact Hput|]. split; [exact Hget|].
    eexists. split.
    + apply Hothers.
      * unfold appliedKey. rewrite Hu. apply bytes_eqb_neq. vm_compute. reflexivity.
      * unfold appliedKey. rewrite Hu. vm_compute. lia.
    + unfold appliedKey. rewrite Hu. vm_compute. reflexivity.
Defined.

Lemma put_then_del_restores_the_root_witness :
  exists T1 T2,
    put keccak256 100 (Buffer_from "cat") (Buffer_from "meow") two_trie
      = (Ret tt, T1)
    /\ del keccak256 100 (Buffer_from "cat") T1 = (Ret tt, T2)
    /\ root T2 = root two_trie.
Proof.
  destruct two_trie_represents as (Hwf & Hrep & (Hd & Hu & Hp & Hl)).
  destruct (put_then_del_restores_the_root keccak256 keccak256_length 100
              two_trie two_tree (Buffer_from "cat") (Buffer_from "meow"))
    as (T1 & T2 & Hput & Hdel & Hroot & _).
  - exact Hwf.
  - exact Hrep.
  - rewrite Hd. reflexivity.
  - rewrite Hl. discriminate.
  - apply pair_ok_check. unfold appliedKey. rewrite Hu, Hp. vm_compute. reflexivity.
  - unfold appliedKey. rewrite Hu. vm_compute. reflexivity.
  - unfold appliedKey. rewrite Hu. vm_compute. tauto.
  - unfold appliedKey. rewrite Hu. apply collision_freeb_spec.
    vm_compute. reflexivity.
  - exists T1, T2. exact (conj Hput (conj Hdel Hroot)).
Defined.

(** Two more pairs, to be put into the trie of two keys. *)
Definition more_pairs : list (bytes * bytes) :=
  [ (Buffer_from "cat", Buffer_from "meow");
    (Buffer_from "dog", Buffer_from "puppy") ].

Lemma root_is_independent_of_insertion_order_witness :
  exists T1 T2,
    puts keccak256 100 more_pairs two_trie = (Ret tt, T1)
    /\ puts keccak256 100 (reverse more_pairs) two_trie = (Ret tt, T2)
    /\ represents keccak256 T1
         (inserts two_tree (walked keccak256 two_trie more_pairs))
    /\ represents keccak256 T2
         (inserts two_tree (walked keccak256 two_trie more_pairs))
    /\ root T1 = root T2.
Proof.
  destruct two_trie_represents as (Hwf & Hrep & (Hd & Hu & Hp & Hl)).
  apply (root_is_independent_of_insertion_order keccak256 keccak256_length 100
           two_trie two_tree).
  - exact Hwf.
  - exact Hrep.
  - rewrite Hd. reflexivity.
  - rewrite Hl. discriminate.
  - symmetry. apply reverse_Permutation.
  - unfold appliedKey. rewrite Hu. refine (bool_decide_unpack _ _).
    vm_compute. exact I.
  - repeat (constructor;
            [apply pair_ok_check; unfold appliedKey; rewrite Hu, Hp;
             vm_compute; reflexivity|]).
    constructor.
  - unfold walked, appliedKey. rewrite Hu. apply no_collisionsb_spec.
    vm_compute. reflexivity.
  - unfold walked, appliedKey. rewrite Hu. apply no_collisionsb_spec.
    vm_compute. reflexivity.
Defined.

Lemma created_proof_verifies_witness :
  exists proof value,
    createProof keccak256 100 (Buffer_from "do") two_trie = (Ret proof, two_trie)
    /\ get keccak256 100 (Buffer_from "do") false two_trie = (Ret value, two_trie)
    /\ value = Some (Buffer_from "verb")
    /\ verifyProof keccak256 100 (root two_trie) (Buffer_from "do") proof two_trie
       = (Ret value, two_trie).
Proof.
  destruct two_trie_represents as (Hwf & [Hholds _] & (Hd & Hu & Hp & Hl)).
  destruct (created_proof_verifies keccak256 keccak256_length 100 two_trie
              two_tree (Buffer_from "do"))
    as (proof & value & Hc & Hg & Hval & Hv).
  - exact Hwf.
  - vm_compute. discriminate.
  - exact Hholds.
  - apply collision_freeb_spec. vm_compute. reflexivity.
  - unfold appliedKey. rewrite Hu. vm_compute. lia.
  - exists proof, value. split; [exact Hc|]. split; [exact Hg|].
    split; [|exact Hv].
    rewrite Hval. unfold appliedKey. rewrite Hu. vm_compute. reflexivity.
Defined.

Lemma del_of_absent_key_changes_nothing_witness :
  exists T',
    del keccak256 100 (Buffer_from "cat") two_trie = (Ret tt, T')
    /\ put keccak256 100 (Buffer_from "cat") [] two_trie = (Ret tt, T')
    /\ root T' = root two_trie
    /\ get keccak256 100 (Buffer_from "cat") false T' = (Ret None, T').
Proof.
  destruct two_trie_represents as (Hwf & Hrep & (Hd & Hu & Hp & Hl)).
  destruct (del_of_absent_key_changes_nothing keccak256 keccak256_length 100
              two_trie two_tree (Buffer_from "cat"))
    as (T' & Hdel & _ & Hroot & Hget & Hput).
  - exact Hwf.
  - vm_compute. discriminate.
  - exact Hrep.
  - rewrite Hl. discriminate.
  - unfold appliedKey. rewrite Hu. vm_compute. reflexivity.
  - apply collision_freeb_spec. vm_compute. reflexivity.
  - unfold appliedKey. rewrite Hu. vm_compute. lia.
  - exists T'. split; [exact Hdel|]. split; [|exact (conj Hroot Hget)].
    apply Hput. intros [_ Heq]. revert Heq. apply bytes_eqb_neq.
    vm_compute. reflexivity.
Defined.

Lemma two_trie_root_node :
  two_tree <> TEmpty
  /\ body_of keccak256 two_tree <> ROOT_DB_KEY
  /\ db_get (db two_trie) (keccak256 (body_of keccak256 two_tree))
     = Some (body_of keccak256 two_tree).
Proof.
  destruct two_trie_represents as (Hwf & [[_ Hst] _] & _).
  assert (Hne : two_tree <> TEmpty) by (vm_compute; discriminate).
  split; [exact Hne|]. split.
  - apply bytes_eqb_neq. vm_compute. reflexivity.
  - rewrite (top_blobs_nonempty keccak256 two_tree Hne) in Hst.
    exact (Forall_inv Hst).
Qed.

Lemma writes_keep_the_stored_nodes_witness :
  db_get (db (put keccak256 100 (Buffer_from "cat") (Buffer_from "meow")
                two_trie).2)
         (keccak256 (body_of keccak256 two_tree))
    = Some (body_of keccak256 two_tree)
  \/ exists e, e <> body_of keccak256 two_tree
               /\ keccak256 e = keccak256 (body_of keccak256 two_tree).
Proof.
  destruct two_trie_represents as (_ & _ & (Hd & _)).
  destruct two_trie_root_node as (_ & Hb & Hst).
  destruct (writes_keep_the_stored_nodes keccak256 keccak256_length 100 two_trie
              (body_of keccak256 two_tree)) as (Hput & _ & _).
  - rewrite Hd. reflexivity.
  - exact Hb.
  - exact Hst.
  - exact (Hput (Buffer_from "cat") (Buffer_from "meow")).
Defined.


Lemma fromProof_loads_a_proof_into_a_new_trie_witness :
  exists proof F value,
    createProof keccak256 100 (Buffer_from "horse") two_trie
      = (Ret proof, two_trie)
    /\ fromProof keccak256 proof new_Trie = (Ret tt, F)
    /\ root F = root two_trie
    /\ get keccak256 100 (appliedKey keccak256 two_trie (Buffer_from "horse"))
         true F
       = (Ret value, F)
    /\ value = Some (Buffer_from "stallion").
Proof.
  destruct two_trie_represents as (Hwf & [Hholds _] & (Hd & Hu & Hp & Hl)).
  destruct (fromProof_loads_a_proof_into_a_new_trie keccak256 keccak256_length
              100 two_trie two_tree (Buffer_from "horse") new_Trie)
    as (proof & F & value & Hc & Hfrom & Hroot & Hget & Hval).
  - exact Hwf.
  - vm_compute. discriminate.
  - exact Hholds.
  - apply collision_freeb_spec. vm_compute. reflexivity.
  - unfold appliedKey. rewrite Hu. vm_compute. lia.
  - reflexivity.
  - exists proof, F, value. split; [exact Hc|]. split; [exact Hfrom|].
    split; [exact Hroot|]. split; [exact Hget|].
    rewrite Hval. unfold appliedKey. rewrite Hu. vm_compute. reflexivity.
Defined.

Lemma checkRoot_finds_the_root_node_witness :
  checkRoot (root two_trie) two_trie = (Ret true, two_trie)
  /\ checkRoot (EMPTY_TRIE_ROOT keccak256) two_trie = (Ret false, two_trie).
Proof.
  destruct two_trie_represents as (Hwf & [Hholds _] & _).
  apply (checkRoot_finds_the_root_node keccak256 keccak256_length two_trie
           two_tree).
  - exact Hwf.
  - vm_compute. discriminate.
  - exact Hholds.
  - vm_compute. reflexivity.
Defined.

Lemma reads_of_a_missing_root_node_witness :
  get keccak256 100 (Buffer_from "do") false new_Trie = (Ret None, new_Trie)
  /\ get keccak256 100 (Buffer_from "do") true new_Trie
     = (Throw MissingNode, new_Trie)
  /\ createProof keccak256 100 (Buffer_from "do") new_Trie = (Ret [], new_Trie)
  /\ exists T', del keccak256 100 (Buffer_from "do") new_Trie = (Ret tt, T')
                /\ root T' = root new_Trie /\ lock T' = lock new_Trie.
Proof.
  destruct (reads_of_a_missing_root_node keccak256 100 new_Trie (Buffer_from "do"))
    as (Hget & Hthrow & Hproof & Hdel).
  - reflexivity.
  - discriminate.
  - split; [exact Hget|]. split; [exact Hthrow|]. split; [exact Hproof|].
    apply Hdel. discriminate.
Defined.

(** A trie constructed over an empty store with a root of its own. *)
Definition rootless_trie : Trie MapDB :=
  mkTrie ∅ (keccak256 (Buffer_from "x")) false false false false 1.

Example rootless_trie_constructed :
  Trie_new keccak256 (∅ : MapDB) (Some (keccak256 (Buffer_from "x")))
           false false false
  = Ret rootless_trie.
Proof.
  unfold Trie_new, set_root. cbn [isFalsy].
  rewrite decide_True; [reflexivity|].
  rewrite keccak256_length. vm_compute. reflexivity.
Qed.

Lemma put_on_a_missing_root_node_keeps_the_lock_witness :
  exists T',
    put keccak256 100 (Buffer_from "a") (Buffer_from "b") rootless_trie
      = (Throw StackUnderflow, T')
    /\ lock T' = 0%nat
    /\ del keccak256 100 (Buffer_from "a") T' = (Blocked, T')
    /\ put keccak256 100 (Buffer_from "a") (Buffer_from "c") T' = (Blocked, T').
Proof.
  destruct (put_on_a_missing_root_node_keeps_the_lock keccak256 100
              rootless_trie (Buffer_from "a") (Buffer_from "b"))
    as (T' & Hput & _ & Hlock & Hdel & Hlater).
  - reflexivity.
  - apply bytes_eqb_neq. vm_compute. reflexivity.
  - reflexivity.
  - discriminate.
  - reflexivity.
  - discriminate.
  - exists T'.
    exact (conj Hput (conj Hlock (conj (Hdel _)
             (Hlater (Buffer_from "a") (Buffer_from "c"))))).
Defined.

Lemma verifyProof_rejects_a_proof_without_the_root_node_witness :
  verifyProof keccak256 100 (root two_trie) (Buffer_from "do")
    [Buffer_from "not a node"] new_Trie
  = (Throw InvalidProof, new_Trie).
Proof.
  apply (verifyProof_rejects_a_proof_without_the_root_node keccak256 100).
  - vm_compute. reflexivity.
  - discriminate.
  - intros b Hb. apply list_elem_of_singleton in Hb. rewrite Hb.
    apply bytes_eqb_neq. vm_compute. reflexivity.
Defined.

Lemma copy_reads_as_the_original_witness :
  exists T',
    copy keccak256 two_trie = Ret T'
    /\ root T' = root two_trie
    /\ lock T' = 1%nat
    /\ (get keccak256 100 (Buffer_from "do") false T').1
       = (get keccak256 100 (Buffer_from "do") false two_trie).1.
Proof.
  destruct (copy_reads_as_the_original keccak256 100 two_trie)
    as (T' & Hcopy & Hroot & _ & _ & _ & Hlock & Hget & _).
  - intros d k. reflexivity.
  - vm_compute. reflexivity.
  - exists T'. exact (conj Hcopy (conj Hroot (conj Hlock (Hget _ _)))).
Defined.

Lemma the_root_is_persisted_witness :
  db_get
    (db (put keccak256 100 (Buffer_from "a") (Buffer_from "b")
           new_Trie_persistRoot).2)
    (appliedKey keccak256 new_Trie_persistRoot ROOT_DB_KEY)
  = Some (root (put keccak256 100 (Buffer_from "a") (Buffer_from "b")
                  new_Trie_persistRoot).2).
Proof.
  destruct (the_root_is_persisted keccak256 100 new_Trie_persistRoot)
    as (Hput & _).
  - reflexivity.
  - apply Hput. vm_compute. reflexivity.
Defined.

Lemma last_put_wins_witness :
  exists T1 T12 T2,
    put keccak256 100 (Buffer_from "cat") (Buffer_from "meow") two_trie
      = (Ret tt, T1)
    /\ put keccak256 100 (Buffer_from "cat") (Buffer_from "purr") T1
       = (Ret tt, T12)
    /\ put keccak256 100 (Buffer_from "cat") (Buffer_from "purr") two_trie
       = (Ret tt, T2)
    /\ root T12 = root T2.
Proof.
  destruct two_trie_represents as (Hwf & Hrep & (Hd & Hu & Hp & Hl)).
  apply (last_put_wins keccak256 keccak256_length 100 two_trie two_tree).
  - exact Hwf.
  - exact Hrep.
  - rewrite Hd. reflexivity.
  - rewrite Hl. discriminate.
  - apply pair_ok_check. unfold appliedKey. rewrite Hu, Hp. vm_compute. reflexivity.
  - apply pair_ok_check. unfold appliedKey. rewrite Hu, Hp. vm_compute. reflexivity.
  - unfold appliedKey. rewrite Hu. apply collision_freeb_spec.
    vm_compute. reflexivity.
  - unfold appliedKey. rewrite Hu. apply collision_freeb_spec.
    vm_compute. reflexivity.
Defined.

(** ** Order of insertion, inversion, proofs and batches on concrete tries *)

(** A new trie that deletes from its store. *)
Definition deleting_Trie : Trie MapDB :=
  mkTrie ∅ (EMPTY_TRIE_ROOT keccak256) true true false false 1.

Example deleting_Trie_constructed :
  Trie_new keccak256 (∅ : MapDB) None true false false = Ret deleting_Trie.
Proof. reflexivity. Qed.

(** Six keys of two bytes: under the nibbles 1 and 2 the first four have
    the same subtree, an extension over a branch of two leaves. *)
Definition shared_pairs : list (bytes * bytes) :=
  [ ([x1a; xb0]%byte, Buffer_from "value-zero");
    ([x1a; xc0]%byte, Buffer_from "value-one!");
    ([x2a; xb0]%byte, Buffer_from "value-zero");
    ([x2a; xc0]%byte, Buffer_from "value-one!") ].

Definition five_pairs : list (bytes * bytes) :=
  shared_pairs ++ [ ([x1b; x00]%byte, Buffer_from "value-two!") ].

Definition six_pairs : list (bytes * bytes) :=
  five_pairs ++ [ ([x2a; xd0]%byte, Buffer_from "value-two!") ].

Definition six_pairs_swapped : list (bytes * bytes) :=
  shared_pairs ++ [ ([x2a; xd0]%byte, Buffer_from "value-two!");
                    ([x1b; x00]%byte, Buffer_from "value-two!") ].

(** C1 as stated fails. Two pairs under one key leave the value of the
    last one put, so the two orders give different roots. And on a trie
    that deletes from its store, six pairs with distinct keys, every [put]
    of which returns, give different roots in two orders: the [put] under
    [1b00] deletes the extension the keys under [2a] still go through. *)
Lemma put_order_matters :
  root (put_all keccak256 8 [ (Buffer_from "k", Buffer_from "a");
                              (Buffer_from "k", Buffer_from "b") ] new_Trie)
  <> root (put_all keccak256 8 [ (Buffer_from "k", Buffer_from "b");
                                 (Buffer_from "k", Buffer_from "a") ] new_Trie)
  /\ (puts keccak256 8 six_pairs deleting_Trie).1 = Ret tt
  /\ (puts keccak256 8 six_pairs_swapped deleting_Trie).1 = Ret tt
  /\ root (puts keccak256 8 six_pairs deleting_Trie).2
     <> root (puts keccak256 8 six_pairs_swapped deleting_Trie).2.
Proof.
  split; [vm_compute; discriminate|].
  split; [vm_compute; reflexivity|].
  split; [vm_compute; reflexivity|].
  vm_compute. discriminate.
Qed.


(** C8 as stated fails. A put of the empty byte string in a batch raises
    nothing; and a batch of one put with a value, under the reserved key
    of a trie that persists its root, does not succeed: it raises the
    reserved-key error. *)
Lemma batch_accepts_empty_value :
  (batch keccak256 8 [OpPut (Buffer_from "a") (Some [])] new_Trie).1 = Ret tt
  /\ (batch keccak256 8 [OpPut ROOT_DB_KEY (Some (Buffer_from "v"))]
        new_Trie_persistRoot).1 = Throw ReservedKey.
Proof. vm_compute. split; reflexivity. Qed.

Lemma put_order_independence_witness :
  exists T1 T2,
    puts keccak256 100 S5_pairs new_Trie = (Ret tt, T1)
    /\ puts keccak256 100 (reverse S5_pairs) new_Trie = (Ret tt, T2)
    /\ root T1 = root T2.
Proof.
  apply (put_order_independence keccak256 keccak256_length 100 new_Trie).
  - reflexivity.
  - reflexivity.
  - discriminate.
  - symmetry. apply reverse_Permutation.
  - refine (bool_decide_unpack _ _). vm_compute. exact I.
  - repeat (constructor; [apply pair_ok_check; vm_compute; reflexivity|]).
    constructor.
  - apply no_collisionsb_spec. vm_compute. reflexivity.
  - apply no_collisionsb_spec. vm_compute. reflexivity.
Defined.



Lemma batch_spec_witness :
  (exists T',
     batch keccak256 100 (put_ops two_pairs) new_Trie = (Ret tt, T')
     /\ represents keccak256 T' (inserts TEmpty (walked keccak256 new_Trie two_pairs))
     /\ same_settings new_Trie T')
  /\ (exists T1,
        applies keccak256 100 (put_ops two_pairs) new_Trie T1
        /\ batch keccak256 100
             (put_ops two_pairs ++ OpPut (Buffer_from "b") None :: []) new_Trie
           = (Throw InvalidBatchOp, T1)).
Proof.
  destruct (batch_spec (D := MapDB) keccak256 keccak256_length 100)
    as (Hinv & _ & _ & _ & _ & _ & Hputs).
  assert (Hok : Forall (pair_ok keccak256 100 new_Trie) two_pairs).
  { repeat (constructor; [apply pair_ok_check; vm_compute; reflexivity|]).
    constructor. }
  assert (Hnc : no_collisions keccak256 TEmpty (walked keccak256 new_Trie two_pairs))
    by (apply no_collisionsb_spec; vm_compute; reflexivity).
  split.
  - apply Hputs.
    + constructor.
    + apply represents_empty. reflexivity.
    + reflexivity.
    + discriminate.
    + exact Hok.
    + exact Hnc.
    + apply collision_freeb_spec. vm_compute. reflexivity.
  - destruct (puts_spec keccak256 keccak256_length 100 two_pairs new_Trie TEmpty)
      as (T1 & Hp & _ & _).
    + constructor.
    + apply represents_empty. reflexivity.
    + reflexivity.
    + discriminate.
    + exact Hok.
    + exact Hnc.
    + exists T1.
      assert (Ha : applies keccak256 100 (put_ops two_pairs) new_Trie T1)
        by exact (puts_applies keccak256 100 two_pairs new_Trie T1 Hp).
      split; [exact Ha|].
      apply Hinv. exists (put_ops two_pairs), (Buffer_from "b"), [].
      split; [reflexivity|exact Ha].
Defined.

